(** * SHENJI workflow engine: validator, execution history, monitor, recovery

    A shallow embedding of the TypeScript sources
      - workflow/WorkflowValidator.ts   (graph validation, cycle detection, depth)
      - workflow/ExecutionHistory.ts    (execution records and their storage)
      - workflow/ExecutionMonitor.ts    (live progress)
      - workflow/AdvancedFeatures.ts    (rollback, resume, retry)
    together with the properties the specification states about them.

    Conventions of the embedding:
      - JS strings are [string]; JS numbers that hold timestamps, delays and
        stored counts are [Z], the lengths the validator reports are [nat],
        and the quotients (progress, success rate, time estimate) are [Q];
      - a JS [Map] or [Set] that is only queried by key is a [gmap] / [gset];
        one whose insertion order is observable is an association list;
      - an optional field is an [option];
      - the recursive closures of the validator take fuel; the fuel the
        callers pass is shown to be enough. *)

From Stdlib Require Import ZArith QArith Ascii String.
From stdpp Require Import gmap strings list fin_maps sets pretty.

Local Open Scope string_scope.
Local Open Scope list_scope.
Local Open Scope Z_scope.

#[local] Set Warnings "-clear-no-such-hyp".

(** ** Workflow definitions (workflow/WorkflowDefinition) *)

Module WorkflowDefinition.

Record NodePosition := { pos_x : Z; pos_y : Z }.

Record InputMapping := { from : string; output : string }.

Record WorkflowNode := {
  node_id : string;
  node_type : string;
  position : option NodePosition;
  has_config : bool;
  inputs : list (string * InputMapping);
}.

Record WorkflowEdge := {
  edge_id : string;
  source : string;
  sourceOutput : string;
  target : string;
  targetInput : string;
  enabled : option bool;
}.

Record RetryPolicy := { maxRetries : Z }.

Record WorkflowSettings := {
  maxConcurrency : option Z;
  timeout : option Z;
  retryPolicy : option RetryPolicy;
}.

Record WorkflowDefinition := {
  wf_id : string;
  wf_name : string;
  wf_version : string;
  nodes : list WorkflowNode;
  edges : list WorkflowEdge;
  settings : option WorkflowSettings;
}.

End WorkflowDefinition.
Export WorkflowDefinition.

(** ** WorkflowValidator *)

Module WorkflowValidator.

(** [edge.enabled !== false] *)
Definition edge_enabled (e : WorkflowEdge) : bool :=
  match enabled e with
  | Some false => false
  | _ => true
  end.

(** The adjacency [Map] both depth-first searches build: every node id is
    first bound to an empty array, then every enabled edge pushes its
    target on the array of its source ([adjacency.get(source) || []]). *)
Definition initAdjacency (ns : list WorkflowNode) : gmap string (list string) :=
  foldl (fun adj n => <[node_id n := []]> adj) ∅ ns.

Definition addEdge (adj : gmap string (list string)) (e : WorkflowEdge)
  : gmap string (list string) :=
  if edge_enabled e
  then <[source e := default [] (adj !! source e) ++ [target e]]> adj
  else adj.

Definition buildAdjacency (ns : list WorkflowNode) (es : list WorkflowEdge)
  : gmap string (list string) :=
  foldl addEdge (initAdjacency ns) es.

(** [adjacency.get(nodeId) || []] *)
Definition neighborsOf (adj : gmap string (list string)) (v : string) : list string :=
  default [] (adj !! v).

(** *** detectCycles *)

Record CycleState := {
  visited : gset string;
  recursionStack : gset string;
  cycles : list (list string);
}.

(** [path.indexOf(neighbor)] followed by [path.slice(cycleStart)];
    [indexOf] answers -1 for an absent element and [slice(-1)] keeps the
    last element. *)
Fixpoint indexOf (x : string) (l : list string) : option nat :=
  match l with
  | [] => None
  | y :: l' => if bool_decide (y = x) then Some 0%nat else S <$> indexOf x l'
  end.

Definition sliceFrom (x : string) (path : list string) : list string :=
  match indexOf x path with
  | Some i => drop i path
  | None => drop (length path - 1) path
  end.

Fixpoint forM {S A : Type} (f : S -> A -> option S) (s : S) (l : list A) : option S :=
  match l with
  | [] => Some s
  | a :: l' => match f s a with Some s' => forM f s' l' | None => None end
  end.

Definition visitNeighbor
  (rec : string -> list string -> CycleState -> option CycleState)
  (path : list string) (st : CycleState) (neighbor : string) : option CycleState :=
  if bool_decide (neighbor ∉ visited st) then rec neighbor path st
  else if bool_decide (neighbor ∈ recursionStack st) then
    Some {| visited := visited st;
            recursionStack := recursionStack st;
            cycles := cycles st ++ [sliceFrom neighbor path ++ [neighbor]] |}
  else Some st.

Fixpoint dfs (fuel : nat) (adj : gmap string (list string))
  (nodeId : string) (path : list string) (st : CycleState) : option CycleState :=
  match fuel with
  | O => None
  | S fuel' =>
      let st1 := {| visited := {[nodeId]} ∪ visited st;
                    recursionStack := {[nodeId]} ∪ recursionStack st;
                    cycles := cycles st |} in
      let path1 := path ++ [nodeId] in
      match forM (visitNeighbor (dfs fuel' adj) path1) st1 (neighborsOf adj nodeId) with
      | Some st2 =>
          Some {| visited := visited st2;
                  recursionStack := recursionStack st2 ∖ {[nodeId]};
                  cycles := cycles st2 |}
      | None => None
      end
  end.

Definition dfsRoot (fuel : nat) (adj : gmap string (list string))
  (st : CycleState) (n : WorkflowNode) : option CycleState :=
  if bool_decide (node_id n ∉ visited st) then dfs fuel adj (node_id n) [] st
  else Some st.

(** Recursion depth never exceeds the number of distinct ids. *)
Definition searchFuel (ns : list WorkflowNode) (es : list WorkflowEdge) : nat :=
  S (length ns + length es).

Definition noCycles : CycleState :=
  {| visited := ∅; recursionStack := ∅; cycles := [] |}.

Definition detectCycles (ns : list WorkflowNode) (es : list WorkflowEdge)
  : option (list (list string)) :=
  cycles <$> forM (dfsRoot (searchFuel ns es) (buildAdjacency ns es)) noCycles ns.

(** *** calculateMaxDepth *)

Record DepthState := {
  memo : gmap string nat;
  visiting : gset string;
}.

Definition maxChild
  (rec : string -> DepthState -> option (nat * DepthState))
  (acc : nat * DepthState) (neighbor : string) : option (nat * DepthState) :=
  match rec neighbor (snd acc) with
  | Some (d, st') => Some (Nat.max (fst acc) d, st')
  | None => None
  end.

Fixpoint depthDfs (fuel : nat) (adj : gmap string (list string))
  (nodeId : string) (st : DepthState) : option (nat * DepthState) :=
  match fuel with
  | O => None
  | S fuel' =>
      match memo st !! nodeId with
      | Some d => Some (d, st)
      | None =>
          if bool_decide (nodeId ∈ visiting st) then Some (0%nat, st)
          else
            let st1 := {| memo := memo st; visiting := {[nodeId]} ∪ visiting st |} in
            match neighborsOf adj nodeId with
            | [] =>
                Some (1%nat, {| memo := <[nodeId := 1%nat]> (memo st1);
                                visiting := visiting st1 ∖ {[nodeId]} |})
            | neighbors =>
                match forM (maxChild (depthDfs fuel' adj)) (0%nat, st1) neighbors with
                | Some (maxChildDepth, st2) =>
                    let depth := (1 + maxChildDepth)%nat in
                    Some (depth, {| memo := <[nodeId := depth]> (memo st2);
                                    visiting := visiting st2 ∖ {[nodeId]} |})
                | None => None
                end
            end
      end
  end.

Definition depthRoot (fuel : nat) (adj : gmap string (list string))
  (acc : nat * DepthState) (n : WorkflowNode) : option (nat * DepthState) :=
  match memo (snd acc) !! node_id n with
  | Some _ => Some acc
  | None => maxChild (depthDfs fuel adj) acc (node_id n)
  end.

Definition noDepths : nat * DepthState :=
  (0%nat, {| memo := ∅; visiting := ∅ |}).

Definition calculateMaxDepth (w : WorkflowDefinition) : option nat :=
  match nodes w with
  | [] => Some 0%nat
  | _ =>
      match detectCycles (nodes w) (edges w) with
      | None => None
      | Some (_ :: _) => Some 0%nat
      | Some [] =>
          fst <$> forM (depthRoot (searchFuel (nodes w) (edges w))
                                  (buildAdjacency (nodes w) (edges w)))
                       noDepths (nodes w)
      end
  end.

(** *** Errors, warnings and the checks of [validate] *)

Record ValidationError := {
  code : string;
  message : string;
  nodeId : option string;
  edgeId : option string;
  field : option string;
}.

Record ValidationWarning := {
  w_code : string;
  w_message : string;
  w_nodeId : option string;
  suggestion : option string;
}.

(** The two arrays the validator object accumulates into. *)
Record Report := {
  errors : list ValidationError;
  warnings : list ValidationWarning;
}.

Definition pushError (e : ValidationError) (r : Report) : Report :=
  {| errors := errors r ++ [e]; warnings := warnings r |}.

Definition pushWarning (w : ValidationWarning) (r : Report) : Report :=
  {| errors := errors r; warnings := warnings r ++ [w] |}.

Definition when (b : bool) (f : Report -> Report) (r : Report) : Report :=
  if b then f r else r.

(** The double quote of the message templates. *)
Definition dquote : string := String (ascii_of_nat 34) EmptyString.

(** [!s] on a string. *)
Definition falsy (s : string) : bool := bool_decide (s = EmptyString).

(** [s.trim() === ''].  A string is held as the bytes of its UTF-8 form.
    [trim] strips the white space and the line terminators of ECMAScript:
    U+0009 to U+000D and U+0020, of one byte; U+00A0, of two; U+1680,
    U+2000 to U+200A, U+2028, U+2029, U+202F, U+205F, U+3000 and U+FEFF, of
    three.  A string is blank when it is made of these only. *)
Definition is_space (a : ascii) : bool :=
  let n := nat_of_ascii a in
  ((9 <=? n) && (n <=? 13) || (n =? 32))%nat.

(** U+00A0 is C2 A0. *)
Definition is_space2 (a b : ascii) : bool :=
  ((nat_of_ascii a =? 194) && (nat_of_ascii b =? 160))%nat.

(** U+1680 is E1 9A 80; U+2000 to U+200A are E2 80 80 to E2 80 8A, U+2028
    and U+2029 are E2 80 A8 and E2 80 A9, U+202F is E2 80 AF; U+205F is
    E2 81 9F; U+3000 is E3 80 80; U+FEFF is EF BB BF. *)
Definition is_space3 (a b c : ascii) : bool :=
  let x := nat_of_ascii a in
  let y := nat_of_ascii b in
  let z := nat_of_ascii c in
  ((x =? 225) && (y =? 154) && (z =? 128)
   || (x =? 226) && (y =? 128)
      && ((128 <=? z) && (z <=? 138) || (z =? 168) || (z =? 169) || (z =? 175))
   || (x =? 226) && (y =? 129) && (z =? 159)
   || (x =? 227) && (y =? 128) && (z =? 128)
   || (x =? 239) && (y =? 187) && (z =? 191))%nat.

Fixpoint blank (s : string) : bool :=
  match s with
  | EmptyString => true
  | String a s1 =>
      if is_space a then blank s1
      else
        match s1 with
        | EmptyString => false
        | String b s2 =>
            if is_space2 a b then blank s2
            else
              match s2 with
              | EmptyString => false
              | String c s3 => if is_space3 a b c then blank s3 else false
              end
        end
  end.

(** The regular expression of [isValidVersion],
    [/^\d+\.\d+\.\d+(-[a-zA-Z0-9.-]+)?(\+[a-zA-Z0-9.-]+)?$/]. *)
Definition is_digit (a : ascii) : bool :=
  let n := nat_of_ascii a in ((48 <=? n) && (n <=? 57))%nat.

Definition is_tag_char (a : ascii) : bool :=
  let n := nat_of_ascii a in
  (is_digit a || (65 <=? n) && (n <=? 90) || (97 <=? n) && (n <=? 122)
   || (n =? 46) || (n =? 45))%nat.

Fixpoint skip (p : ascii -> bool) (l : list ascii) : list ascii :=
  match l with
  | a :: l' => if p a then skip p l' else l
  | [] => []
  end.

(** One or more characters of class [p]; answers what follows them. *)
Definition some_of (p : ascii -> bool) (l : list ascii) : option (list ascii) :=
  match l with
  | a :: l' => if p a then Some (skip p l') else None
  | [] => None
  end.

Definition build_ok (l : list ascii) : bool :=
  match l with
  | [] => true
  | a :: l' =>
      if (nat_of_ascii a =? 43)%nat
      then match some_of is_tag_char l' with Some [] => true | _ => false end
      else false
  end.

Definition suffix_ok (l : list ascii) : bool :=
  match l with
  | a :: l' =>
      if (nat_of_ascii a =? 45)%nat
      then match some_of is_tag_char l' with Some r => build_ok r | None => false end
      else build_ok l
  | [] => true
  end.

Definition dot_then (l : list ascii) : option (list ascii) :=
  match l with
  | a :: l' => if (nat_of_ascii a =? 46)%nat then Some l' else None
  | [] => None
  end.

Definition isValidVersion (version : string) : bool :=
  let number_dot l := r ← some_of is_digit l; dot_then r in
  match r1 ← number_dot (list_ascii_of_string version);
        r2 ← number_dot r1;
        some_of is_digit r2 with
  | Some r => suffix_ok r
  | None => false
  end.

Definition validateSchema (w : WorkflowDefinition) (r : Report) : Report :=
  let r := when (falsy (wf_id w))
             (pushError {| code := "MISSING_FIELD"; message := "Workflow ID is required";
                           nodeId := None; edgeId := None; field := Some "id" |}) r in
  let r := when (falsy (wf_name w) || blank (wf_name w))
             (pushError {| code := "MISSING_FIELD"; message := "Workflow name is required";
                           nodeId := None; edgeId := None; field := Some "name" |}) r in
  let r := when (falsy (wf_version w))
             (pushError {| code := "MISSING_FIELD"; message := "Workflow version is required";
                           nodeId := None; edgeId := None; field := Some "version" |}) r in
  (* [nodes] and [edges] are arrays by their type: no INVALID_SCHEMA error *)
  when (negb (falsy (wf_version w)) && negb (isValidVersion (wf_version w)))
    (pushWarning {| w_code := "INVALID_VERSION_FORMAT";
                    w_message := "Version " +:+ dquote +:+ wf_version w +:+ dquote
                                 +:+ " does not follow semantic versioning";
                    w_nodeId := None;
                    suggestion := Some "Use semantic versioning format (e.g., 1.0.0)" |}) r.

Definition checkInput (n : WorkflowNode) (r : Report) (i : string * InputMapping) : Report :=
  when (falsy (from (snd i)) || falsy (output (snd i)))
    (pushWarning {| w_code := "INCOMPLETE_INPUT_MAPPING";
                    w_message := "Node " +:+ node_id n +:+ " input " +:+ dquote +:+ fst i
                                 +:+ dquote +:+ " has incomplete mapping";
                    w_nodeId := Some (node_id n);
                    suggestion := Some "Complete the input mapping" |}) r.

Definition validateNode (registry : gset string)
  (acc : gset string * Report) (n : WorkflowNode) : gset string * Report :=
  let '(nodeIds, r) := acc in
  let r := when (bool_decide (node_id n ∈ nodeIds))
             (pushError {| code := "DUPLICATE_NODE_ID";
                           message := "Duplicate node ID: " +:+ node_id n;
                           nodeId := Some (node_id n); edgeId := None; field := None |}) r in
  let nodeIds := {[node_id n]} ∪ nodeIds in
  let r := when (falsy (node_id n))
             (pushError {| code := "MISSING_FIELD"; message := "Node ID is required";
                           nodeId := Some (node_id n); edgeId := None; field := Some "id" |}) r in
  if falsy (node_type n) then
    (nodeIds,
     pushError {| code := "MISSING_FIELD"; message := "Node type is required";
                  nodeId := Some (node_id n); edgeId := None; field := Some "type" |} r)
  else
    let r := when (bool_decide (registry ≠ ∅) && bool_decide (node_type n ∉ registry))
               (pushError {| code := "UNKNOWN_NODE_TYPE";
                             message := "Unknown node type: " +:+ node_type n;
                             nodeId := Some (node_id n); edgeId := None; field := None |}) r in
    let r := when (bool_decide (position n = None))
               (pushWarning {| w_code := "INVALID_POSITION";
                               w_message := "Node " +:+ node_id n +:+ " has invalid position";
                               w_nodeId := Some (node_id n);
                               suggestion := Some "Provide valid x and y coordinates" |}) r in
    let r := when (negb (has_config n))
               (pushWarning {| w_code := "MISSING_CONFIG";
                               w_message := "Node " +:+ node_id n +:+ " has no configuration";
                               w_nodeId := Some (node_id n);
                               suggestion := Some "Add node configuration" |}) r in
    (nodeIds, foldl (checkInput n) r (inputs n)).

Definition validateNodes (registry : gset string) (ns : list WorkflowNode) (r : Report)
  : Report :=
  snd (foldl (validateNode registry) (∅, r) ns).

(** [edges.find(e => e.id !== edge.id && ...)] *)
Definition sameConnection (edge e : WorkflowEdge) : bool :=
  negb (bool_decide (edge_id e = edge_id edge))
  && bool_decide (source e = source edge)
  && bool_decide (sourceOutput e = sourceOutput edge)
  && bool_decide (target e = target edge)
  && bool_decide (targetInput e = targetInput edge).

Definition nodeIdSet (ns : list WorkflowNode) : gset string :=
  list_to_set (node_id <$> ns).

Definition validateEdge (es : list WorkflowEdge) (nodeMap : gset string)
  (acc : gset string * Report) (edge : WorkflowEdge) : gset string * Report :=
  let '(edgeIds, r) := acc in
  let r := when (bool_decide (edge_id edge ∈ edgeIds))
             (pushError {| code := "DUPLICATE_EDGE_ID";
                           message := "Duplicate edge ID: " +:+ edge_id edge;
                           nodeId := None; edgeId := Some (edge_id edge); field := None |}) r in
  let edgeIds := {[edge_id edge]} ∪ edgeIds in
  if falsy (source edge) then
    (edgeIds,
     pushError {| code := "MISSING_FIELD"; message := "Edge source is required";
                  nodeId := None; edgeId := Some (edge_id edge);
                  field := Some "source" |} r)
  else if falsy (target edge) then
    (edgeIds,
     pushError {| code := "MISSING_FIELD"; message := "Edge target is required";
                  nodeId := None; edgeId := Some (edge_id edge);
                  field := Some "target" |} r)
  else
    let r := when (bool_decide (source edge ∉ nodeMap))
               (pushError {| code := "INVALID_SOURCE_NODE";
                             message := "Source node " +:+ dquote +:+ source edge
                                        +:+ dquote +:+ " does not exist";
                             nodeId := Some (source edge); edgeId := Some (edge_id edge);
                             field := None |}) r in
    let r := when (bool_decide (target edge ∉ nodeMap))
               (pushError {| code := "INVALID_TARGET_NODE";
                             message := "Target node " +:+ dquote +:+ target edge
                                        +:+ dquote +:+ " does not exist";
                             nodeId := Some (target edge); edgeId := Some (edge_id edge);
                             field := None |}) r in
    let r := when (bool_decide (source edge = target edge))
               (pushError {| code := "SELF_LOOP";
                             message := "Edge " +:+ edge_id edge
                                        +:+ " creates a self-loop on node " +:+ source edge;
                             nodeId := Some (source edge); edgeId := Some (edge_id edge);
                             field := None |}) r in
    let r := when (falsy (sourceOutput edge))
               (pushWarning {| w_code := "MISSING_SOURCE_OUTPUT";
                               w_message := "Edge " +:+ edge_id edge
                                            +:+ " missing source output name";
                               w_nodeId := Some (source edge); suggestion := None |}) r in
    let r := when (falsy (targetInput edge))
               (pushWarning {| w_code := "MISSING_TARGET_INPUT";
                               w_message := "Edge " +:+ edge_id edge
                                            +:+ " missing target input name";
                               w_nodeId := Some (target edge); suggestion := None |}) r in
    match find (sameConnection edge) es with
    | Some duplicateEdge =>
        (edgeIds,
         pushWarning {| w_code := "DUPLICATE_CONNECTION";
                        w_message := "Edge " +:+ edge_id edge +:+ " is duplicate of edge "
                                     +:+ edge_id duplicateEdge;
                        w_nodeId := None;
                        suggestion := Some "Remove duplicate connection" |} r)
    | None => (edgeIds, r)
    end.

Definition validateEdges (es : list WorkflowEdge) (ns : list WorkflowNode) (r : Report)
  : Report :=
  snd (foldl (validateEdge es (nodeIdSet ns)) (∅, r) es).

(** [cycle.join(' -> ')] *)
Fixpoint join (sep : string) (l : list string) : string :=
  match l with
  | [] => EmptyString
  | [x] => x
  | x :: l' => x +:+ sep +:+ join sep l'
  end.

Definition cycleError (cycle : list string) : ValidationError :=
  {| code := "CIRCULAR_DEPENDENCY";
     message := "Circular dependency detected: " +:+ join " -> " cycle;
     nodeId := head cycle; edgeId := None; field := None |}.

Definition nodesWithInputs (es : list WorkflowEdge) : gset string :=
  list_to_set (target <$> es).

Definition nodesWithOutputs (es : list WorkflowEdge) : gset string :=
  list_to_set (source <$> es).

Definition isolatedWarning (es : list WorkflowEdge) (r : Report) (n : WorkflowNode)
  : Report :=
  when (bool_decide (node_id n ∉ nodesWithInputs es)
        && bool_decide (node_id n ∉ nodesWithOutputs es))
    (pushWarning {| w_code := "ISOLATED_NODE";
                    w_message := "Node " +:+ node_id n
                                 +:+ " is isolated (no inputs or outputs)";
                    w_nodeId := Some (node_id n);
                    suggestion := Some "Connect the node or remove it" |}) r.

Definition startNodesOf (ns : list WorkflowNode) (es : list WorkflowEdge)
  : list WorkflowNode :=
  filter (fun n => node_id n ∉ nodesWithInputs es) ns.

Definition endNodesOf (ns : list WorkflowNode) (es : list WorkflowEdge)
  : list WorkflowNode :=
  filter (fun n => node_id n ∉ nodesWithOutputs es) ns.

(** The part of [validateTopology] after the cycle errors: isolated
    nodes, then the start-node and end-node checks. *)
Definition connectivityWarnings (ns : list WorkflowNode) (es : list WorkflowEdge)
  (r : Report) : Report :=
  let r := foldl (isolatedWarning es) r ns in
  let r := when (bool_decide (length (startNodesOf ns es) = 0%nat)
                 && bool_decide (0 < length ns)%nat)
             (pushWarning {| w_code := "NO_START_NODE";
                             w_message := "Workflow has no start node (all nodes have inputs)";
                             w_nodeId := None;
                             suggestion :=
                               Some "Add a node without inputs as the starting point" |}) r in
  when (bool_decide (length (endNodesOf ns es) = 0%nat) && bool_decide (0 < length ns)%nat)
    (pushWarning {| w_code := "NO_END_NODE";
                    w_message := "Workflow has no end node (all nodes have outputs)";
                    w_nodeId := None;
                    suggestion := Some "Add a node without outputs as the end point" |}) r.

Definition validateTopology (w : WorkflowDefinition) (r : Report) : option Report :=
  match nodes w with
  | [] =>
      Some (pushWarning {| w_code := "EMPTY_WORKFLOW"; w_message := "Workflow has no nodes";
                           w_nodeId := None;
                           suggestion := Some "Add at least one node" |} r)
  | _ =>
      cs ← detectCycles (nodes w) (edges w);
      let r := foldl (fun r cycle => pushError (cycleError cycle) r) r cs in
      Some (connectivityWarnings (nodes w) (edges w) r)
  end.

Definition validateSettings (w : WorkflowDefinition) (r : Report) : Report :=
  match settings w with
  | None => r
  | Some s =>
      let r :=
        match maxConcurrency s with
        | None => r
        | Some mc =>
            let r := when (mc <? 1)
                       (pushError {| code := "INVALID_SETTING";
                                     message := "maxConcurrency must be at least 1";
                                     nodeId := None; edgeId := None;
                                     field := Some "settings.maxConcurrency" |}) r in
            when (100 <? mc)
              (pushWarning {| w_code := "HIGH_CONCURRENCY";
                              w_message := "maxConcurrency (" +:+ pretty mc
                                           +:+ ") is very high";
                              w_nodeId := None;
                              suggestion :=
                                Some "Consider reducing to avoid resource exhaustion" |}) r
        end in
      let r :=
        match timeout s with
        | Some t =>
            when (t <? 1000)
              (pushWarning {| w_code := "LOW_TIMEOUT";
                              w_message := "Timeout (" +:+ pretty t +:+ "ms) is very low";
                              w_nodeId := None;
                              suggestion :=
                                Some "Consider increasing timeout to avoid premature termination" |}) r
        | None => r
        end in
      match retryPolicy s with
      | Some rp =>
          let r := when (maxRetries rp <? 0)
                     (pushError {| code := "INVALID_SETTING";
                                   message := "maxRetries cannot be negative";
                                   nodeId := None; edgeId := None;
                                   field := Some "settings.retryPolicy.maxRetries" |}) r in
          when (10 <? maxRetries rp)
            (pushWarning {| w_code := "HIGH_RETRY_COUNT";
                            w_message := "maxRetries (" +:+ pretty (maxRetries rp)
                                         +:+ ") is very high";
                            w_nodeId := None;
                            suggestion := Some "Consider reducing retry count" |}) r
      | None => r
      end
  end.

Record Stats := {
  totalNodes : nat;
  totalEdges : nat;
  startNodes : nat;
  endNodes : nat;
  maxDepth : nat;
}.

Definition calculateStats (w : WorkflowDefinition) : option Stats :=
  d ← calculateMaxDepth w;
  Some {| totalNodes := length (nodes w);
          totalEdges := length (edges w);
          startNodes := length (startNodesOf (nodes w) (edges w));
          endNodes := length (endNodesOf (nodes w) (edges w));
          maxDepth := d |}.

Record WorkflowValidationResult := {
  valid : bool;
  res_errors : list ValidationError;
  res_warnings : list ValidationWarning;
  stats : Stats;
}.

(** [validate]: the five checks in order on an empty report, then the
    statistics.  [registry] holds the keys of the node registry. *)
Definition validate (registry : gset string) (w : WorkflowDefinition)
  : option WorkflowValidationResult :=
  let r := validateSchema w {| errors := []; warnings := [] |} in
  let r := validateNodes registry (nodes w) r in
  let r := validateEdges (edges w) (nodes w) r in
  r ← validateTopology w r;
  let r := validateSettings w r in
  st ← calculateStats w;
  Some {| valid := bool_decide (length (errors r) = 0%nat);
          res_errors := errors r;
          res_warnings := warnings r;
          stats := st |}.

End WorkflowValidator.

(** ** JavaScript values held in fields of type [any] *)

Module Js.

#[local] Set Warnings "-register-all".

Inductive Value :=
| Undefined
| Null
| Bool (b : bool)
| Number (n : Z)
| Str (s : string)
| Object (fields : list (string * Value)).

(** What [||] and [!] look at. *)
Definition truthy (v : Value) : bool :=
  match v with
  | Undefined | Null => false
  | Bool b => b
  | Number n => negb (n =? 0)
  | Str s => negb (bool_decide (s = EmptyString))
  | Object _ => true
  end.

(** [v || {}] *)
Definition orEmptyObject (v : Value) : Value :=
  if truthy v then v else Object [].

End Js.

(** ** ExecutionHistory *)

Module ExecutionHistory.

Inductive ExecutionStatus :=
| PENDING | RUNNING | COMPLETED | FAILED | CANCELLED | PAUSED.

Inductive NodeExecutionStatus :=
| NODE_PENDING | NODE_RUNNING | NODE_COMPLETED | NODE_FAILED | NODE_SKIPPED.

#[global] Instance ExecutionStatus_eq_dec : EqDecision ExecutionStatus.
Proof. solve_decision. Defined.

#[global] Instance NodeExecutionStatus_eq_dec : EqDecision NodeExecutionStatus.
Proof. solve_decision. Defined.

Record NodeError := {
  ne_message : string;
  ne_stack : option string;
  ne_code : option string;
}.

Record NodeExecutionRecord := {
  nodeId : string;
  nodeName : string;
  nodeType : string;
  status : NodeExecutionStatus;
  startTime : Z;
  endTime : option Z;
  duration : option Z;
  inputs : option Js.Value;
  outputs : option Js.Value;
  error : option NodeError;
  retryCount : option Z;
  logs : option (list string);
}.

Inductive TriggerType := manual | schedule | event | api.

Record Trigger := {
  trigger_type : TriggerType;
  userId : option string;
  userName : option string;
  data : option Js.Value;
}.

Record Context := {
  environment : option string;
  variables : option Js.Value;
  metadata : option Js.Value;
}.

Record ExecutionStats := {
  totalNodes : Z;
  completedNodes : Z;
  failedNodes : Z;
  skippedNodes : Z;
  successRate : option Q;
}.

Record ExecutionError := {
  ee_message : string;
  ee_stack : option string;
  failedNodeId : option string;
  failedNodeName : option string;
}.

Record Checkpoint := {
  cp_nodeId : string;
  cp_timestamp : Z;
  cp_state : Js.Value;
}.

Record WorkflowExecutionRecord := {
  id : string;
  workflowId : string;
  workflowName : string;
  workflowVersion : option string;
  exec_status : ExecutionStatus;
  exec_startTime : Z;
  exec_endTime : option Z;
  exec_duration : option Z;
  trigger : Trigger;
  context : Context;
  nodes : list NodeExecutionRecord;
  stats : ExecutionStats;
  exec_error : option ExecutionError;
  checkpoints : option (list Checkpoint);
  createdAt : Z;
  updatedAt : Z;
}.

(** *** The world the asynchronous operations run in

    [cache] is the [Map] of the storage object, in insertion order;
    [files] is the storage directory, one record per execution id;
    [clock] gives the successive readings of [Date.now()] and [ticks]
    counts the readings taken; [console] and [timers] collect the lines
    printed and the delays waited for.  Reading and writing a file is
    taken to succeed whenever the file can exist: no write is rejected.

    The file of an id is [path.join(storageDir, id + '.json')].  For an id
    that holds no path separator this is the file of that name in the
    storage directory, a different one for every id, and [files] is keyed
    by the id; an id with a separator names a file elsewhere or the file of
    another id, which [files] does not follow.  What is proved about the
    files of several ids is proved for the ids of [plainId]. *)
Record World := {
  cache : list (string * WorkflowExecutionRecord);
  files : gmap string WorkflowExecutionRecord;
  clock : nat -> Z;
  ticks : nat;
  console : list string;
  timers : list Z;
}.

(** The id holds no slash (47), no backslash (92) and no NUL (0):
    [path.join] leaves the file name [id + '.json'] as it is. *)
Definition plainId (executionId : string) : bool :=
  forallb (fun a => negb (bool_decide (nat_of_ascii a ∈ [47; 92; 0]%nat)))
    (list_ascii_of_string executionId).

Inductive Outcome (A : Type) :=
| Returned (a : A)
| Thrown (message : string).
Arguments Returned {A} a.
Arguments Thrown {A} message.

Definition M (A : Type) : Type := World -> Outcome A * World.

Definition ret {A} (a : A) : M A := fun w => (Returned a, w).

Definition throw {A} (message : string) : M A := fun w => (Thrown message, w).

Definition bind {A B} (c : M A) (k : A -> M B) : M B :=
  fun w => match c w with
           | (Returned a, w') => k a w'
           | (Thrown message, w') => (Thrown message, w')
           end.

Notation "'do' x <- c ; k" := (bind c (fun x => k))
  (at level 10, x name, c at level 100, k at level 200).
Notation "c ;; k" := (bind c (fun _ => k))
  (at level 100, k at level 200, right associativity).

(** [Date.now()] *)
Definition Date_now : M Z :=
  fun w => (Returned (clock w (ticks w)),
            {| cache := cache w; files := files w; clock := clock w;
               ticks := S (ticks w); console := console w; timers := timers w |}).

(** [console.log(line)] *)
Definition console_log (line : string) : M unit :=
  fun w => (Returned tt,
            {| cache := cache w; files := files w; clock := clock w;
               ticks := ticks w; console := console w ++ [line]; timers := timers w |}).

(** [await new Promise(resolve => setTimeout(resolve, delay))] *)
Definition sleep (delay : Z) : M unit :=
  fun w => (Returned tt,
            {| cache := cache w; files := files w; clock := clock w;
               ticks := ticks w; console := console w; timers := timers w ++ [delay] |}).

(** *** The cache, a [Map] with insertion order *)

Fixpoint cache_get (c : list (string * WorkflowExecutionRecord)) (k : string)
  : option WorkflowExecutionRecord :=
  match c with
  | [] => None
  | (k', r) :: c' => if bool_decide (k' = k) then Some r else cache_get c' k
  end.

Fixpoint cache_set (c : list (string * WorkflowExecutionRecord)) (k : string)
  (r : WorkflowExecutionRecord) : list (string * WorkflowExecutionRecord) :=
  match c with
  | [] => [(k, r)]
  | (k', r') :: c' =>
      if bool_decide (k' = k) then (k, r) :: c' else (k', r') :: cache_set c' k r
  end.

Definition cache_delete (c : list (string * WorkflowExecutionRecord)) (k : string)
  : list (string * WorkflowExecutionRecord) :=
  filter (fun e => fst e <> k) c.

Definition maxCacheSize : nat := 100.

Definition updateCache (c : list (string * WorkflowExecutionRecord)) (k : string)
  (r : WorkflowExecutionRecord) : list (string * WorkflowExecutionRecord) :=
  let c :=
    if bool_decide (maxCacheSize <= length c)%nat then
      match c with
      | (firstKey, _) :: _ =>
          if bool_decide (firstKey = EmptyString) then c else cache_delete c firstKey
      | [] => c
      end
    else c in
  cache_set c k r.

Definition setUpdatedAt (t : Z) (r : WorkflowExecutionRecord) : WorkflowExecutionRecord :=
  {| id := id r; workflowId := workflowId r; workflowName := workflowName r;
     workflowVersion := workflowVersion r; exec_status := exec_status r;
     exec_startTime := exec_startTime r; exec_endTime := exec_endTime r;
     exec_duration := exec_duration r; trigger := trigger r; context := context r;
     nodes := nodes r; stats := stats r; exec_error := exec_error r;
     checkpoints := checkpoints r; createdAt := createdAt r; updatedAt := t |}.

(** [save]: stamp, write the file of the record's id, refresh the cache.
    The stamp is written into the caller's object; the stamped record is
    answered for the callers that go on using it. *)
Definition save (record : WorkflowExecutionRecord) : M WorkflowExecutionRecord :=
  do now <- Date_now;
  fun w =>
    let record := setUpdatedAt now record in
    (Returned record,
     {| cache := updateCache (cache w) (id record) record;
        files := <[id record := record]> (files w);
        clock := clock w; ticks := ticks w;
        console := console w; timers := timers w |}).

(** [get]: the cached record if there is one, else the file, which is
    then cached; [null] when there is no such file. *)
Definition get (executionId : string) : M (option WorkflowExecutionRecord) :=
  fun w =>
    match cache_get (cache w) executionId with
    | Some record => (Returned (Some record), w)
    | None =>
        match files w !! executionId with
        | Some record =>
            (Returned (Some record),
             {| cache := updateCache (cache w) executionId record;
                files := files w; clock := clock w; ticks := ticks w;
                console := console w; timers := timers w |})
        | None => (Returned None, w)
        end
    end.

(** [createExecution]; [suffix] stands for the random tail of the id. *)
Definition createExecution (workflow : WorkflowDefinition) (trg : Trigger)
  (ctx : option Context) (suffix : string) : M WorkflowExecutionRecord :=
  do now <- Date_now;
  let executionId := "exec_" +:+ wf_id workflow +:+ "_" +:+ pretty now +:+ "_" +:+ suffix in
  let record :=
    {| id := executionId;
       workflowId := wf_id workflow;
       workflowName := wf_name workflow;
       workflowVersion := Some (wf_version workflow);
       exec_status := PENDING;
       exec_startTime := now;
       exec_endTime := None;
       exec_duration := None;
       trigger := trg;
       context := default {| environment := None; variables := None; metadata := None |} ctx;
       nodes := [];
       stats := {| totalNodes := Z.of_nat (length (WorkflowDefinition.nodes workflow));
                   completedNodes := 0; failedNodes := 0; skippedNodes := 0;
                   successRate := None |};
       exec_error := None;
       checkpoints := None;
       createdAt := now;
       updatedAt := now |} in
  save record.

(** *** Field updates on a record *)

Definition withStatus (st : ExecutionStatus) (r : WorkflowExecutionRecord) :=
  {| id := id r; workflowId := workflowId r; workflowName := workflowName r;
     workflowVersion := workflowVersion r; exec_status := st;
     exec_startTime := exec_startTime r; exec_endTime := exec_endTime r;
     exec_duration := exec_duration r; trigger := trigger r; context := context r;
     nodes := nodes r; stats := stats r; exec_error := exec_error r;
     checkpoints := checkpoints r; createdAt := createdAt r; updatedAt := updatedAt r |}.

Definition withStartTime (t : Z) (r : WorkflowExecutionRecord) :=
  {| id := id r; workflowId := workflowId r; workflowName := workflowName r;
     workflowVersion := workflowVersion r; exec_status := exec_status r;
     exec_startTime := t; exec_endTime := exec_endTime r;
     exec_duration := exec_duration r; trigger := trigger r; context := context r;
     nodes := nodes r; stats := stats r; exec_error := exec_error r;
     checkpoints := checkpoints r; createdAt := createdAt r; updatedAt := updatedAt r |}.

Definition withEnd (t d : Z) (r : WorkflowExecutionRecord) :=
  {| id := id r; workflowId := workflowId r; workflowName := workflowName r;
     workflowVersion := workflowVersion r; exec_status := exec_status r;
     exec_startTime := exec_startTime r; exec_endTime := Some t;
     exec_duration := Some d; trigger := trigger r; context := context r;
     nodes := nodes r; stats := stats r; exec_error := exec_error r;
     checkpoints := checkpoints r; createdAt := createdAt r; updatedAt := updatedAt r |}.

Definition withError (e : ExecutionError) (r : WorkflowExecutionRecord) :=
  {| id := id r; workflowId := workflowId r; workflowName := workflowName r;
     workflowVersion := workflowVersion r; exec_status := exec_status r;
     exec_startTime := exec_startTime r; exec_endTime := exec_endTime r;
     exec_duration := exec_duration r; trigger := trigger r; context := context r;
     nodes := nodes r; stats := stats r; exec_error := Some e;
     checkpoints := checkpoints r; createdAt := createdAt r; updatedAt := updatedAt r |}.

Definition withStats (s : ExecutionStats) (r : WorkflowExecutionRecord) :=
  {| id := id r; workflowId := workflowId r; workflowName := workflowName r;
     workflowVersion := workflowVersion r; exec_status := exec_status r;
     exec_startTime := exec_startTime r; exec_endTime := exec_endTime r;
     exec_duration := exec_duration r; trigger := trigger r; context := context r;
     nodes := nodes r; stats := s; exec_error := exec_error r;
     checkpoints := checkpoints r; createdAt := createdAt r; updatedAt := updatedAt r |}.

Definition withNodes (ns : list NodeExecutionRecord) (r : WorkflowExecutionRecord) :=
  {| id := id r; workflowId := workflowId r; workflowName := workflowName r;
     workflowVersion := workflowVersion r; exec_status := exec_status r;
     exec_startTime := exec_startTime r; exec_endTime := exec_endTime r;
     exec_duration := exec_duration r; trigger := trigger r; context := context r;
     nodes := ns; stats := stats r; exec_error := exec_error r;
     checkpoints := checkpoints r; createdAt := createdAt r; updatedAt := updatedAt r |}.

Definition withCheckpoints (cs : list Checkpoint) (r : WorkflowExecutionRecord) :=
  {| id := id r; workflowId := workflowId r; workflowName := workflowName r;
     workflowVersion := workflowVersion r; exec_status := exec_status r;
     exec_startTime := exec_startTime r; exec_endTime := exec_endTime r;
     exec_duration := exec_duration r; trigger := trigger r; context := context r;
     nodes := nodes r; stats := stats r; exec_error := exec_error r;
     checkpoints := Some cs; createdAt := createdAt r; updatedAt := updatedAt r |}.

(** *** updateStatus *)

(** [[COMPLETED, FAILED, CANCELLED].includes(status)] *)
Definition isTerminal (st : ExecutionStatus) : bool :=
  match st with
  | COMPLETED | FAILED | CANCELLED => true
  | _ => false
  end.

Definition withSuccessRate (r : WorkflowExecutionRecord) : WorkflowExecutionRecord :=
  if 0 <? totalNodes (stats r) then
    withStats {| totalNodes := totalNodes (stats r);
                 completedNodes := completedNodes (stats r);
                 failedNodes := failedNodes (stats r);
                 skippedNodes := skippedNodes (stats r);
                 successRate := Some (inject_Z (completedNodes (stats r))
                                      / inject_Z (totalNodes (stats r)))%Q |} r
  else r.

Definition notFound {A} (executionId : string) : M A :=
  throw ("Execution record not found: " +:+ executionId).

Definition updateStatus (executionId : string) (st : ExecutionStatus)
  (err : option ExecutionError) : M unit :=
  do found <- get executionId;
  match found with
  | None => notFound executionId
  | Some record =>
      let record := withStatus st record in
      do record <-
        (if bool_decide (st = RUNNING) && (exec_startTime record =? 0)
         then do now <- Date_now; ret (withStartTime now record)
         else ret record);
      do record <-
        (if isTerminal st
         then do now <- Date_now; ret (withEnd now (now - exec_startTime record) record)
         else ret record);
      let record := match err with Some e => withError e record | None => record end in
      let record := withSuccessRate record in
      save record ;; ret tt
  end.

(** *** addNodeExecution *)

Fixpoint findIndex {A} (p : A -> bool) (l : list A) : option nat :=
  match l with
  | [] => None
  | a :: l' => if p a then Some 0%nat else S <$> findIndex p l'
  end.

Definition hasStatus (st : NodeExecutionStatus) (n : NodeExecutionRecord) : bool :=
  bool_decide (status n = st).

Definition countStatus (st : NodeExecutionStatus) (ns : list NodeExecutionRecord) : Z :=
  Z.of_nat (length (List.filter (hasStatus st) ns)).

Definition recount (r : WorkflowExecutionRecord) : WorkflowExecutionRecord :=
  withStats {| totalNodes := totalNodes (stats r);
               completedNodes := countStatus NODE_COMPLETED (nodes r);
               failedNodes := countStatus NODE_FAILED (nodes r);
               skippedNodes := countStatus NODE_SKIPPED (nodes r);
               successRate := successRate (stats r) |} r.

Definition sameNode (k : string) (n : NodeExecutionRecord) : bool :=
  bool_decide (nodeId n = k).

Definition upsert (nodeRecord : NodeExecutionRecord) (ns : list NodeExecutionRecord)
  : list NodeExecutionRecord :=
  match findIndex (sameNode (nodeId nodeRecord)) ns with
  | Some existingIndex => <[existingIndex := nodeRecord]> ns
  | None => ns ++ [nodeRecord]
  end.

Definition addNodeExecution (executionId : string) (nodeRecord : NodeExecutionRecord)
  : M unit :=
  do found <- get executionId;
  match found with
  | None => notFound executionId
  | Some record =>
      let record := withNodes (upsert nodeRecord (nodes record)) record in
      let record := recount record in
      save record ;; ret tt
  end.

(** *** addCheckpoint *)

Definition addCheckpoint (executionId : string) (node : string) (state : Js.Value)
  : M unit :=
  do found <- get executionId;
  match found with
  | None => notFound executionId
  | Some record =>
      do now <- Date_now;
      let record :=
        withCheckpoints (default [] (checkpoints record)
                         ++ [{| cp_nodeId := node; cp_timestamp := now;
                                cp_state := state |}]) record in
      save record ;; ret tt
  end.

End ExecutionHistory.

(** ** ExecutionMonitor *)

Module ExecutionMonitor.
Import ExecutionHistory.

Inductive MonitorEventType :=
| EXECUTION_STARTED | EXECUTION_UPDATED | EXECUTION_COMPLETED | EXECUTION_FAILED
| EXECUTION_CANCELLED | EXECUTION_PAUSED
| NODE_STARTED_EVENT | NODE_COMPLETED_EVENT | NODE_FAILED_EVENT | NODE_SKIPPED_EVENT
| PROGRESS_UPDATED | PERFORMANCE_UPDATED | LOG_ADDED.

Record ExecutionProgress := {
  p_executionId : string;
  p_totalNodes : Z;
  p_completedNodes : Z;
  p_failedNodes : Z;
  p_runningNodes : Z;
  p_pendingNodes : Z;
  progress : Q;
  estimatedTimeRemaining : option Q;
}.

(** The payloads the modelled operations put in [event.data]. *)
Inductive EventData :=
| RecordData (r : WorkflowExecutionRecord)
| NodeData (n : NodeExecutionRecord)
| NodeStatusData (node : string) (st : NodeExecutionStatus)
| ProgressData (p : ExecutionProgress).

Record MonitorEvent := {
  ev_type : MonitorEventType;
  ev_executionId : string;
  ev_timestamp : Z;
  ev_data : EventData;
}.

(** One entry of [activeExecutions]; its log and metrics buffers, which
    the operations below only create, are left out. *)
Record ActiveExecution := {
  ae_record : WorkflowExecutionRecord;
  ae_startTime : Z;
  ae_lastUpdate : Z;
  nodeStatuses : list (string * NodeExecutionStatus);
}.

(** The monitor object: its map of executions, the events it has emitted
    (each goes out on its own channel and on the general one), and the
    readings of [Date.now()] still to come. *)
Record Monitor := {
  activeExecutions : gmap string ActiveExecution;
  emitted : list MonitorEvent;
  mon_clock : nat -> Z;
  mon_ticks : nat;
}.

Definition now (m : Monitor) : Z * Monitor :=
  (mon_clock m (mon_ticks m),
   {| activeExecutions := activeExecutions m; emitted := emitted m;
      mon_clock := mon_clock m; mon_ticks := S (mon_ticks m) |}).

Definition emitEvent (e : MonitorEvent) (m : Monitor) : Monitor :=
  {| activeExecutions := activeExecutions m; emitted := emitted m ++ [e];
     mon_clock := mon_clock m; mon_ticks := mon_ticks m |}.

Definition setExecution (k : string) (e : ActiveExecution) (m : Monitor) : Monitor :=
  {| activeExecutions := <[k := e]> (activeExecutions m); emitted := emitted m;
     mon_clock := mon_clock m; mon_ticks := mon_ticks m |}.

Definition startMonitoring (record : WorkflowExecutionRecord) (m : Monitor) : Monitor :=
  let '(t1, m) := now m in
  let '(t2, m) := now m in
  let m := setExecution (id record)
             {| ae_record := record; ae_startTime := t1; ae_lastUpdate := t2;
                nodeStatuses := [] |} m in
  let '(t3, m) := now m in
  emitEvent {| ev_type := EXECUTION_STARTED; ev_executionId := id record;
               ev_timestamp := t3; ev_data := RecordData record |} m.

(** [Map.get] and [Map.set] on [nodeStatuses]. *)
Fixpoint statusOf (l : list (string * NodeExecutionStatus)) (k : string)
  : option NodeExecutionStatus :=
  match l with
  | [] => None
  | (k', st) :: l' => if bool_decide (k' = k) then Some st else statusOf l' k
  end.

Fixpoint setStatus (l : list (string * NodeExecutionStatus)) (k : string)
  (st : NodeExecutionStatus) : list (string * NodeExecutionStatus) :=
  match l with
  | [] => [(k, st)]
  | (k', st') :: l' =>
      if bool_decide (k' = k) then (k, st) :: l' else (k', st') :: setStatus l' k st
  end.

Definition countOf (st : NodeExecutionStatus) (statuses : list NodeExecutionStatus) : Z :=
  Z.of_nat (length (List.filter (fun s => bool_decide (s = st)) statuses)).

(** [a < b] on the quotients. *)
Definition lessThan (a b : Q) : bool := negb (Qle_bool b a).

(** [getProgress] *)
Definition getProgress (executionId : string) (m : Monitor)
  : option ExecutionProgress * Monitor :=
  match activeExecutions m !! executionId with
  | None => (None, m)
  | Some execution =>
      let statuses := snd <$> nodeStatuses execution in
      let totalNodes := totalNodes (stats (ae_record execution)) in
      let completedNodes := countOf NODE_COMPLETED statuses in
      let failedNodes := countOf NODE_FAILED statuses in
      let runningNodes := countOf NODE_RUNNING statuses in
      let pendingNodes := totalNodes - completedNodes - failedNodes - runningNodes in
      let progress :=
        if 0 <? totalNodes then (inject_Z completedNodes / inject_Z totalNodes)%Q
        else 0%Q in
      let '(estimatedTimeRemaining, m) :=
        if (0 <? completedNodes) && lessThan progress 1 then
          let '(t, m) := now m in
          let elapsed := t - ae_startTime execution in
          let avgTimePerNode := (inject_Z elapsed / inject_Z completedNodes)%Q in
          let remainingNodes := totalNodes - completedNodes in
          (Some (avgTimePerNode * inject_Z remainingNodes)%Q, m)
        else (None, m) in
      (Some {| p_executionId := executionId;
               p_totalNodes := totalNodes;
               p_completedNodes := completedNodes;
               p_failedNodes := failedNodes;
               p_runningNodes := runningNodes;
               p_pendingNodes := pendingNodes;
               progress := progress;
               estimatedTimeRemaining := estimatedTimeRemaining |}, m)
  end.

Definition updateProgress (executionId : string) (m : Monitor) : Monitor :=
  match getProgress executionId m with
  | (None, m) => m
  | (Some p, m) =>
      let '(t, m) := now m in
      emitEvent {| ev_type := PROGRESS_UPDATED; ev_executionId := executionId;
                   ev_timestamp := t; ev_data := ProgressData p |} m
  end.

Definition nodeEventType (st : NodeExecutionStatus) : option MonitorEventType :=
  match st with
  | NODE_RUNNING => Some NODE_STARTED_EVENT
  | NODE_COMPLETED => Some NODE_COMPLETED_EVENT
  | NODE_FAILED => Some NODE_FAILED_EVENT
  | NODE_SKIPPED => Some NODE_SKIPPED_EVENT
  | NODE_PENDING => None
  end.

Definition updateNodeStatus (executionId node : string) (st : NodeExecutionStatus)
  (nodeRecord : option NodeExecutionRecord) (m : Monitor) : Monitor :=
  match activeExecutions m !! executionId with
  | None => m
  | Some execution =>
      let previousStatus := statusOf (nodeStatuses execution) node in
      let m := setExecution executionId
                 {| ae_record := ae_record execution;
                    ae_startTime := ae_startTime execution;
                    ae_lastUpdate := ae_lastUpdate execution;
                    nodeStatuses := setStatus (nodeStatuses execution) node st |} m in
      if bool_decide (previousStatus <> Some st) then
        match nodeEventType st with
        | None => m
        | Some eventType =>
            let '(t, m) := now m in
            let m := emitEvent
                       {| ev_type := eventType; ev_executionId := executionId;
                          ev_timestamp := t;
                          ev_data := match nodeRecord with
                                     | Some n => NodeData n
                                     | None => NodeStatusData node st
                                     end |} m in
            updateProgress executionId m
        end
      else m
  end.

End ExecutionMonitor.

(** ** AdvancedFeatures: rollback, resume, retry *)

Module AdvancedFeatures.
Import ExecutionHistory.

Record RollbackResult := {
  rb_success : bool;
  rolledBackTo : string;
  affectedNodes : list string;
  rb_message : string;
  rb_error : option string;
}.

Record ResumeContext := {
  rc_executionId : string;
  checkpointNodeId : string;
  resumeFromNode : string;
  skippedNodes : list string;
  preservedState : Js.Value;
}.

Inductive BackoffStrategy := linear | exponential | fixed.

Record RetryConfig := {
  maxAttempts : Z;
  backoffStrategy : BackoffStrategy;
  initialDelay : Z;
  maxDelay : Z;
  retryableErrors : option (list string);
}.

Record RetryResult (T : Type) := {
  rt_success : bool;
  attempts : Z;
  finalStatus : NodeExecutionStatus;
  rt_errors : list string;
  rt_duration : Z;
  result : option T;
}.
Arguments rt_success {T} _.
Arguments attempts {T} _.
Arguments finalStatus {T} _.
Arguments rt_errors {T} _.
Arguments rt_duration {T} _.
Arguments result {T} _.

(** [try { c } catch (error) { handler(error.message) }] *)
Definition try {A} (c : M A) (handler : string -> M A) : M A :=
  fun w => match c w with
           | (Returned a, w') => (Returned a, w')
           | (Thrown message, w') => handler message w'
           end.

Fixpoint forEach {A} (f : A -> M unit) (l : list A) : M unit :=
  match l with
  | [] => ret tt
  | a :: l' => f a ;; forEach f l'
  end.

(** *** RollbackManager *)

Definition rollbackNode (node : NodeExecutionRecord) (checkpointState : Js.Value)
  : M unit :=
  console_log ("Rolling back node: " +:+ nodeId node) ;;
  sleep 100.

Definition findCheckpoint (node : string) (r : WorkflowExecutionRecord)
  : option Checkpoint :=
  find (fun c => bool_decide (cp_nodeId c = node)) (default [] (checkpoints r)).

Definition appendLog (line : string) (n : NodeExecutionRecord) : NodeExecutionRecord :=
  {| nodeId := nodeId n; nodeName := nodeName n; nodeType := nodeType n;
     status := status n; startTime := startTime n; endTime := endTime n;
     duration := duration n; inputs := inputs n; outputs := outputs n;
     error := error n; retryCount := retryCount n;
     logs := Some (default [] (logs n) ++ [line]) |}.

Definition failure (target : string) (affected : list string) (message code : string)
  : RollbackResult :=
  {| rb_success := false; rolledBackTo := target; affectedNodes := affected;
     rb_message := message; rb_error := Some code |}.

Definition rollback (executionId targetNodeId : string) : M RollbackResult :=
  do found <- get executionId;
  match found with
  | None => ret (failure targetNodeId [] "Execution record not found" "EXECUTION_NOT_FOUND")
  | Some record =>
      match findCheckpoint targetNodeId record with
      | None => ret (failure targetNodeId [] "Checkpoint not found" "CHECKPOINT_NOT_FOUND")
      | Some checkpoint =>
          match findIndex (sameNode targetNodeId) (nodes record) with
          | None => ret (failure targetNodeId [] "Target node not found" "NODE_NOT_FOUND")
          | Some targetNodeIndex =>
              let nodesToRollback := drop (S targetNodeIndex) (nodes record) in
              let affectedNodeIds := nodeId <$> nodesToRollback in
              try
                (forEach (fun node => rollbackNode node (cp_state checkpoint))
                   (reverse nodesToRollback) ;;
                 let record := withNodes (take (S targetNodeIndex) (nodes record)) record in
                 let record := withStatus PAUSED record in
                 let note := "Rolled back from " +:+ pretty (length nodesToRollback)
                             +:+ " subsequent nodes" in
                 let record :=
                   withNodes (alter (appendLog note) targetNodeIndex (nodes record))
                     record in
                 save record ;;
                 ret {| rb_success := true; rolledBackTo := targetNodeId;
                        affectedNodes := affectedNodeIds;
                        rb_message := "Successfully rolled back to node: "
                                      +:+ targetNodeId;
                        rb_error := None |})
                (fun message =>
                   ret (failure targetNodeId affectedNodeIds "Rollback failed" message))
          end
      end
  end.

(** *** ResumeManager *)

Definition canResume (executionId : string) : M bool :=
  do found <- get executionId;
  match found with
  | None => ret false
  | Some record =>
      ret (bool_decide (exec_status record = PAUSED)
           || bool_decide (exec_status record = FAILED))
  end.

(** The backward scan for the last completed node. *)
Definition lastCompleted (ns : list NodeExecutionRecord) : option NodeExecutionRecord :=
  find (hasStatus NODE_COMPLETED) (reverse ns).

Definition getResumeContext (executionId : string) : M (option ResumeContext) :=
  do found <- get executionId;
  match found with
  | None => ret None
  | Some record =>
      match lastCompleted (nodes record) with
      | None =>
          ret (Some {| rc_executionId := executionId;
                       checkpointNodeId := EmptyString;
                       resumeFromNode :=
                         default EmptyString (nodeId <$> nodes record !! 0%nat);
                       skippedNodes := [];
                       preservedState := Js.Object [] |})
      | Some lastCompletedNode =>
          let lastCheckpoint := findCheckpoint (nodeId lastCompletedNode) record in
          let next :=
            match findIndex (sameNode (nodeId lastCompletedNode)) (nodes record) with
            | Some lastNodeIndex => S lastNodeIndex
            | None => 0%nat
            end in
          let nextNode := nodes record !! next in
          let completedNodeIds :=
            nodeId <$> List.filter (hasStatus NODE_COMPLETED) (nodes record) in
          ret (Some {| rc_executionId := executionId;
                       checkpointNodeId := nodeId lastCompletedNode;
                       resumeFromNode := default EmptyString (nodeId <$> nextNode);
                       skippedNodes := completedNodeIds;
                       preservedState :=
                         match lastCheckpoint with
                         | Some c => Js.orEmptyObject (cp_state c)
                         | None => Js.Object []
                         end |})
      end
  end.

Record ResumeResult := {
  rs_success : bool;
  resumeContext : option ResumeContext;
  rs_message : string;
  rs_error : option string;
}.

Definition resume (executionId : string) : M ResumeResult :=
  do able <- canResume executionId;
  if negb able then
    ret {| rs_success := false; resumeContext := None;
           rs_message := "Execution cannot be resumed"; rs_error := Some "CANNOT_RESUME" |}
  else
    do ctx <- getResumeContext executionId;
    match ctx with
    | None =>
        ret {| rs_success := false; resumeContext := None;
               rs_message := "Failed to get resume context";
               rs_error := Some "NO_CONTEXT" |}
    | Some c =>
        updateStatus executionId RUNNING None ;;
        ret {| rs_success := true; resumeContext := Some c;
               rs_message := "Resuming execution from node: " +:+ resumeFromNode c;
               rs_error := None |}
    end.

(** *** RetryManager *)

Definition calculateDelay (attempt : Z) (config : RetryConfig) : Z :=
  let delay :=
    match backoffStrategy config with
    | linear => initialDelay config * attempt
    | exponential => initialDelay config * 2 ^ (attempt - 1)
    | fixed => initialDelay config
    end in
  Z.min delay (maxDelay config).

(** What one call of the retried operation does: it resolves with a
    value or rejects with an error. *)
Record OperationError := {
  err_code : option string;
  err_message : string;
}.

(** [message.includes(code)] *)
Fixpoint includes (code message : string) : bool :=
  String.prefix code message
  || match message with
     | EmptyString => false
     | String _ rest => includes code rest
     end.

Definition isRetryable (config : RetryConfig) (e : OperationError) : bool :=
  match retryableErrors config with
  | Some (c :: cs) =>
      existsb (fun code => bool_decide (err_code e = Some code)
                           || includes code (err_message e)) (c :: cs)
  | _ => true
  end.

Section Retry.
Context {T : Type}.
(** The outcome of the operation at each attempt. *)
Variable operation : Z -> T + OperationError.
Variable config : RetryConfig.

(** The [for] loop from [attempt] on, with [remaining] iterations to go. *)
Fixpoint attemptsFrom (remaining : nat) (attempt : Z) (errors : list string)
  (startTime : Z) : M (RetryResult T) :=
  match remaining with
  | O =>
      do t <- Date_now;
      ret {| rt_success := false; attempts := maxAttempts config;
             finalStatus := NODE_FAILED; rt_errors := errors;
             rt_duration := t - startTime; result := None |}
  | S remaining' =>
      match operation attempt with
      | inl value =>
          do t <- Date_now;
          ret {| rt_success := true; attempts := attempt;
                 finalStatus := NODE_COMPLETED; rt_errors := errors;
                 rt_duration := t - startTime; result := Some value |}
      | inr e =>
          let errors := errors ++ ["Attempt " +:+ pretty attempt +:+ ": "
                                   +:+ err_message e] in
          if negb (isRetryable config e) then
            do t <- Date_now;
            ret {| rt_success := false; attempts := attempt;
                   finalStatus := NODE_FAILED; rt_errors := errors;
                   rt_duration := t - startTime; result := None |}
          else
            (if attempt <? maxAttempts config
             then sleep (calculateDelay attempt config)
             else ret tt) ;;
            attemptsFrom remaining' (attempt + 1) errors startTime
      end
  end.

Definition executeWithRetry : M (RetryResult T) :=
  do startTime <- Date_now;
  attemptsFrom (Z.to_nat (maxAttempts config)) 1 [] startTime.

End Retry.

End AdvancedFeatures.

(** ** WorkflowHelper (workflow/WorkflowDefinition)

    The helpers that edit and query a definition.  The record of this
    development carries no time stamps, so the [updatedAt] each edit sets is
    not shown. *)

Module WorkflowHelper.

Definition withGraph (ns : list WorkflowNode) (es : list WorkflowEdge)
  (w : WorkflowDefinition) : WorkflowDefinition :=
  {| wf_id := wf_id w; wf_name := wf_name w; wf_version := wf_version w;
     nodes := ns; edges := es; settings := settings w |}.

(** [removeNode]: the node goes, and with it every edge that leaves or
    enters it. *)
Definition removeNode (w : WorkflowDefinition) (nodeId : string) : WorkflowDefinition :=
  withGraph
    (filter (fun n => node_id n <> nodeId) (nodes w))
    (filter (fun e => source e <> nodeId /\ target e <> nodeId) (edges w))
    w.

Definition removeEdge (w : WorkflowDefinition) (edgeId : string) : WorkflowDefinition :=
  withGraph (nodes w) (filter (fun e => edge_id e <> edgeId) (edges w)) w.

Definition getNodeInputs (w : WorkflowDefinition) (nodeId : string) : list WorkflowEdge :=
  filter (fun e => target e = nodeId) (edges w).

Definition getNodeOutputs (w : WorkflowDefinition) (nodeId : string) : list WorkflowEdge :=
  filter (fun e => source e = nodeId) (edges w).

Definition getStartNodes (w : WorkflowDefinition) : list WorkflowNode :=
  let nodesWithInputs : gset string := list_to_set (target <$> edges w) in
  filter (fun n => node_id n ∉ nodesWithInputs) (nodes w).

Definition getEndNodes (w : WorkflowDefinition) : list WorkflowNode :=
  let nodesWithOutputs : gset string := list_to_set (source <$> edges w) in
  filter (fun n => node_id n ∉ nodesWithOutputs) (nodes w).

End WorkflowHelper.

(** ** ExecutionHistoryStorage, continued (workflow/ExecutionHistory)

    [query], [delete], [cleanup] and [clearCache].  The file of the
    execution [k] is [k.json] in the storage directory, so the directory
    listing is the domain of [files]; ids hold no path separator. *)

Module HistoryStorage.
Import ExecutionHistory.

Inductive SortKey := by_startTime | by_duration | by_createdAt.

Inductive SortOrder := asc | desc.

Record ExecutionQueryOptions := {
  q_workflowId : option string;
  q_status : option (list ExecutionStatus);
  startTimeFrom : option Z;
  startTimeTo : option Z;
  triggerType : option string;
  q_userId : option string;
  sortBy : option SortKey;
  sortOrder : option SortOrder;
  page : option Z;
  pageSize : option Z;
}.

(** [totalPages] is [None] where [Math.ceil(total / pageSize)] is no
    number of pages: for a page size of 0. *)
Record QueryResult := {
  executions : list WorkflowExecutionRecord;
  total : nat;
  res_page : Z;
  res_pageSize : Z;
  totalPages : option Z;
}.

(** The values of [trigger.type]. *)
Definition triggerName (t : TriggerType) : string :=
  match t with
  | manual => "manual"
  | schedule => "schedule"
  | event => "event"
  | api => "api"
  end.

(** [f.startsWith('exec_') && f.endsWith('.json')] on the file of [k] *)
Definition isExecutionFile (k : string) : bool :=
  String.prefix "exec_" (k +:+ ".json").

(** The records of the execution files, in the order of the listing. *)
Definition executionFiles (w : World) : list (string * WorkflowExecutionRecord) :=
  List.filter (fun kr => isExecutionFile (fst kr)) (map_to_list (files w)).

Definition allRecords (w : World) : list WorkflowExecutionRecord :=
  snd <$> executionFiles w.

(** [if (x) { filtered = filtered.filter(keep x) }] for an optional [x] *)
Definition filterIf {A} (x : option A) (truthy : A -> bool)
  (keep : A -> WorkflowExecutionRecord -> bool) (l : list WorkflowExecutionRecord)
  : list WorkflowExecutionRecord :=
  match x with
  | Some a => if truthy a then List.filter (keep a) l else l
  | None => l
  end.

Definition nonEmpty (s : string) : bool := negb (bool_decide (s = EmptyString)).

Definition nonZero (n : Z) : bool := negb (n =? 0).

Definition applyFilters (o : ExecutionQueryOptions) (l : list WorkflowExecutionRecord)
  : list WorkflowExecutionRecord :=
  let l := filterIf (q_workflowId o) nonEmpty
             (fun x r => bool_decide (workflowId r = x)) l in
  let l := filterIf (q_status o) (fun st => (0 <? length st)%nat)
             (fun st r => bool_decide (exec_status r ∈ st)) l in
  let l := filterIf (startTimeFrom o) nonZero (fun t r => t <=? exec_startTime r) l in
  let l := filterIf (startTimeTo o) nonZero (fun t r => exec_startTime r <=? t) l in
  let l := filterIf (triggerType o) nonEmpty
             (fun t r => bool_decide (triggerName (trigger_type (trigger r)) = t)) l in
  filterIf (q_userId o) nonEmpty
    (fun u r => bool_decide (userId (trigger r) = Some u)) l.

Definition sortValue (k : SortKey) (r : WorkflowExecutionRecord) : Z :=
  match k with
  | by_duration => default 0 (exec_duration r)
  | by_createdAt => createdAt r
  | by_startTime => exec_startTime r
  end.

(** The comparator handed to [sort]. *)
Definition compareRecords (o : ExecutionQueryOptions) (a b : WorkflowExecutionRecord) : Z :=
  let aVal := sortValue (default by_startTime (sortBy o)) a in
  let bVal := sortValue (default by_startTime (sortBy o)) b in
  match default desc (sortOrder o) with
  | asc => aVal - bVal
  | desc => bVal - aVal
  end.

(** [Array.prototype.sort] is stable: an element goes before the first one
    it does not compare greater than. *)
Fixpoint insertSorted {A} (cmp : A -> A -> Z) (x : A) (l : list A) : list A :=
  match l with
  | [] => [x]
  | y :: l' => if cmp x y <=? 0 then x :: l else y :: insertSorted cmp x l'
  end.

Definition sort {A} (cmp : A -> A -> Z) (l : list A) : list A :=
  foldr (insertSorted cmp) [] l.

(** [Array.prototype.slice(start, end)] *)
Definition relativeIndex (len i : Z) : Z :=
  if i <? 0 then Z.max (len + i) 0 else Z.min i len.

Definition slice {A} (l : list A) (start stop : Z) : list A :=
  let len := Z.of_nat (length l) in
  let k := relativeIndex len start in
  let final := relativeIndex len stop in
  take (Z.to_nat (final - k)) (drop (Z.to_nat k) l).

(** [Math.ceil(total / pageSize)] *)
Definition ceilDiv (a b : Z) : option Z :=
  if b =? 0 then None else Some (- ((- a) / b)).

Definition query (options : ExecutionQueryOptions) : M QueryResult :=
  fun w =>
    let page := default 1 (page options) in
    let pageSize := default 20 (pageSize options) in
    let filtered := sort (compareRecords options) (applyFilters options (allRecords w)) in
    let total := length filtered in
    let start := (page - 1) * pageSize in
    let stop := start + pageSize in
    (Returned {| executions := slice filtered start stop;
                 total := total;
                 res_page := page;
                 res_pageSize := pageSize;
                 totalPages := ceilDiv (Z.of_nat total) pageSize |}, w).

(** [delete]: [unlink] fails with ENOENT when there is no such file, and
    the answer is then [false]. *)
Definition delete_ (executionId : string) : M bool :=
  fun w =>
    match files w !! executionId with
    | Some _ =>
        (Returned true,
         {| cache := cache_delete (cache w) executionId;
            files := delete executionId (files w);
            clock := clock w; ticks := ticks w;
            console := console w; timers := timers w |})
    | None => (Returned false, w)
    end.

(** One round of the loop of [cleanup], on the file of [fst kr]. *)
Definition cleanupFile (cutoffTime : Z) (acc : World * Z)
  (kr : string * WorkflowExecutionRecord) : World * Z :=
  let '(w, deletedCount) := acc in
  if createdAt (snd kr) <? cutoffTime then
    ({| cache := cache_delete (cache w) (id (snd kr));
        files := delete (fst kr) (files w);
        clock := clock w; ticks := ticks w;
        console := console w; timers := timers w |}, deletedCount + 1)
  else acc.

Definition cleanup (olderThanDays : option Z) : M Z :=
  do now <- Date_now;
  fun w =>
    let cutoffTime := now - default 30 olderThanDays * 24 * 60 * 60 * 1000 in
    let '(w', deletedCount) := foldl (cleanupFile cutoffTime) (w, 0) (executionFiles w) in
    (Returned deletedCount, w').

Definition clearCache : M unit :=
  fun w =>
    (Returned tt,
     {| cache := []; files := files w; clock := clock w; ticks := ticks w;
        console := console w; timers := timers w |}).

(** *** getStats

    The statistics over the execution files.  [byStatus] and [byWorkflow]
    are objects used as maps; quotients are exact. *)

Record WorkflowStats := {
  ws_total : Z;
  ws_completed : Z;
  ws_failed : Z;
  ws_avgDuration : option Q;
}.

Record HistoryStats := {
  hs_total : Z;
  byStatus : ExecutionStatus -> Z;
  byWorkflow : gmap string WorkflowStats;
  hs_avgDuration : option Q;
  hs_successRate : option Q;
  recentExecutions : Z;
}.

(** The variables of the loop of [getStats]. *)
Record StatsLoop := {
  sl_byStatus : ExecutionStatus -> Z;
  sl_byWorkflow : gmap string WorkflowStats;
  sl_recent : Z;
  totalDuration : Z;
  durationCount : Z;
  completedCount : Z;
}.

Definition noStats : StatsLoop :=
  {| sl_byStatus := fun _ => 0; sl_byWorkflow := ∅; sl_recent := 0;
     totalDuration := 0; durationCount := 0; completedCount := 0 |}.

(** [stats.byStatus[status]++] *)
Definition bump (st : ExecutionStatus) (f : ExecutionStatus -> Z) : ExecutionStatus -> Z :=
  fun x => if bool_decide (x = st) then f x + 1 else f x.

(** [!avgDuration]: no average yet, or an average of 0 *)
Definition noAverage (a : option Q) : bool :=
  match a with
  | Some q => Qeq_bool q 0
  | None => true
  end.

Definition countWorkflow (record : WorkflowExecutionRecord) (e : WorkflowStats)
  : WorkflowStats :=
  let e := {| ws_total := ws_total e + 1; ws_completed := ws_completed e;
              ws_failed := ws_failed e; ws_avgDuration := ws_avgDuration e |} in
  let e :=
    if bool_decide (exec_status record = COMPLETED) then
      {| ws_total := ws_total e; ws_completed := ws_completed e + 1;
         ws_failed := ws_failed e; ws_avgDuration := ws_avgDuration e |}
    else if bool_decide (exec_status record = FAILED) then
      {| ws_total := ws_total e; ws_completed := ws_completed e;
         ws_failed := ws_failed e + 1; ws_avgDuration := ws_avgDuration e |}
    else e in
  match exec_duration record with
  | Some d =>
      if nonZero d then
        {| ws_total := ws_total e; ws_completed := ws_completed e;
           ws_failed := ws_failed e;
           ws_avgDuration :=
             if noAverage (ws_avgDuration e) then Some (inject_Z d)
             else Some ((default 0 (ws_avgDuration e) + inject_Z d) / 2)%Q |}
      else e
  | None => e
  end.

(** [stats.byWorkflow] is a plain object, and [sl_byWorkflow] holds the
    properties of its own.  Under the name of a property of
    [Object.prototype] the object answers the inherited value: no entry is
    made for a workflow of such a name, and its counts land on that value.
    The loop is followed for the other names, the ones that are not
    [inherited]. *)
Definition inherited (name : string) : bool :=
  bool_decide (name ∈ ["constructor"; "__proto__"; "hasOwnProperty"; "isPrototypeOf";
                       "propertyIsEnumerable"; "toLocaleString"; "toString"; "valueOf";
                       "__defineGetter__"; "__defineSetter__"; "__lookupGetter__";
                       "__lookupSetter__"]).

(** One round of the loop, on one record. *)
Definition countRecord (oneDayAgo : Z) (a : StatsLoop) (record : WorkflowExecutionRecord)
  : StatsLoop :=
  let entry :=
    default {| ws_total := 0; ws_completed := 0; ws_failed := 0; ws_avgDuration := None |}
      (sl_byWorkflow a !! workflowId record) in
  let timed :=
    match exec_duration record with
    | Some d => nonZero d
    | None => false
    end in
  {| sl_byStatus := bump (exec_status record) (sl_byStatus a);
     sl_byWorkflow := <[workflowId record := countWorkflow record entry]> (sl_byWorkflow a);
     sl_recent := if oneDayAgo <=? exec_startTime record then sl_recent a + 1
                  else sl_recent a;
     totalDuration := if timed then totalDuration a + default 0 (exec_duration record)
                      else totalDuration a;
     durationCount := if timed then durationCount a + 1 else durationCount a;
     completedCount := if bool_decide (exec_status record = COMPLETED)
                       then completedCount a + 1 else completedCount a |}.

Definition getStats : M HistoryStats :=
  fun w0 =>
    let total := Z.of_nat (length (executionFiles w0)) in
    (do now <- Date_now;
     fun w =>
       let oneDayAgo := now - 24 * 60 * 60 * 1000 in
       let a := foldl (countRecord oneDayAgo) noStats (allRecords w) in
       (Returned {| hs_total := total;
                    byStatus := sl_byStatus a;
                    byWorkflow := sl_byWorkflow a;
                    hs_avgDuration :=
                      if 0 <? durationCount a
                      then Some (inject_Z (totalDuration a) / inject_Z (durationCount a))%Q
                      else None;
                    hs_successRate :=
                      if 0 <? total
                      then Some (inject_Z (completedCount a) / inject_Z total)%Q
                      else None;
                    recentExecutions := sl_recent a |}, w)) w0.

End HistoryStorage.

(** ** RollbackManager and ResumeManager, continued (workflow/AdvancedFeatures) *)

Module RecoveryChecks.
Import ExecutionHistory AdvancedFeatures.

Record RollbackPoint := {
  rp_nodeId : string;
  rp_nodeName : string;
  rp_timestamp : Z;
  rp_state : Js.Value;
  canRollback : bool;
  reason : option string;
}.

(** [a || b] on strings *)
Definition orElse (a b : string) : string :=
  if bool_decide (a = EmptyString) then b else a.

Definition rollbackPoint (record : WorkflowExecutionRecord) (checkpoint : Checkpoint)
  : RollbackPoint :=
  let node := find (sameNode (cp_nodeId checkpoint)) (nodes record) in
  let completed :=
    match node with
    | Some n => bool_decide (status n = NODE_COMPLETED)
    | None => false
    end in
  {| rp_nodeId := cp_nodeId checkpoint;
     rp_nodeName :=
       match node with
       | Some n => orElse (nodeName n) (cp_nodeId checkpoint)
       | None => cp_nodeId checkpoint
       end;
     rp_timestamp := cp_timestamp checkpoint;
     rp_state := cp_state checkpoint;
     canRollback := completed;
     reason := if completed then None else Some "Node not completed successfully" |}.

Definition getAvailableRollbackPoints (executionId : string) : M (list RollbackPoint) :=
  do found <- get executionId;
  match found with
  | None => ret []
  | Some record =>
      match checkpoints record with
      | None => ret []
      | Some cs => ret (rollbackPoint record <$> cs)
      end
  end.

(** [v.name] for a property a value may lack; of two fields with one name
    the later one counts. *)
Definition property (name : string) (v : Js.Value) : Js.Value :=
  match v with
  | Js.Object fields =>
      match find (fun kv => bool_decide (fst kv = name)) (reverse fields) with
      | Some kv => snd kv
      | None => Js.Undefined
      end
  | _ => Js.Undefined
  end.

(** [node.outputs?.committed === true] *)
Definition committed (node : NodeExecutionRecord) : bool :=
  match outputs node with
  | Some v =>
      match property "committed" v with
      | Js.Bool true => true
      | _ => false
      end
  | None => false
  end.

Definition irreversible (node : NodeExecutionRecord) : bool :=
  bool_decide (nodeType node = "external-api")
  || bool_decide (nodeType node = "email")
  || bool_decide (nodeType node = "notification").

Definition nodeWarnings (node : NodeExecutionRecord) : list string :=
  (if irreversible node
   then ["Node " +:+ nodeName node +:+ " (" +:+ nodeType node
         +:+ ") may have external side effects that cannot be rolled back"]
   else [])
  ++ (if committed node
      then ["Node " +:+ nodeName node
            +:+ " has committed transactions that may be difficult to rollback"]
      else []).

Record RollbackCheck := {
  safe : bool;
  rc_warnings : list string;
}.

Definition validateRollback (executionId targetNodeId : string) : M RollbackCheck :=
  do found <- get executionId;
  match found with
  | None => ret {| safe := false; rc_warnings := ["Execution record not found"] |}
  | Some record =>
      match findIndex (sameNode targetNodeId) (nodes record) with
      | None => ret {| safe := false; rc_warnings := ["Target node not found"] |}
      | Some targetIndex =>
          let nodesToRollback := drop (S targetIndex) (nodes record) in
          let warnings := concat (nodeWarnings <$> nodesToRollback) in
          ret {| safe := bool_decide (length warnings = 0%nat); rc_warnings := warnings |}
      end
  end.

(** [createSnapshot] *)
Definition createSnapshot (executionId node : string) (state : Js.Value) : M unit :=
  addCheckpoint executionId node state.

End RecoveryChecks.

(** ** ExecutionMonitor, continued (workflow/ExecutionMonitor) *)

Module MonitorControl.
Import ExecutionHistory ExecutionMonitor.

Definition stopEventType (st : ExecutionStatus) : MonitorEventType :=
  if bool_decide (st = COMPLETED) then EXECUTION_COMPLETED
  else if bool_decide (st = FAILED) then EXECUTION_FAILED
  else if bool_decide (st = CANCELLED) then EXECUTION_CANCELLED
  else EXECUTION_UPDATED.

Definition stopMonitoring (executionId : string) (m : Monitor) : Monitor :=
  match activeExecutions m !! executionId with
  | None => m
  | Some execution =>
      let m := {| activeExecutions := delete executionId (activeExecutions m);
                  emitted := emitted m;
                  mon_clock := mon_clock m; mon_ticks := mon_ticks m |} in
      let eventType := stopEventType (exec_status (ae_record execution)) in
      let '(t, m) := now m in
      emitEvent {| ev_type := eventType; ev_executionId := executionId;
                   ev_timestamp := t; ev_data := RecordData (ae_record execution) |} m
  end.

Definition updateExecution (record : WorkflowExecutionRecord) (m : Monitor) : Monitor :=
  match activeExecutions m !! id record with
  | None => m
  | Some execution =>
      let '(t1, m) := now m in
      let m := setExecution (id record)
                 {| ae_record := record; ae_startTime := ae_startTime execution;
                    ae_lastUpdate := t1; nodeStatuses := nodeStatuses execution |} m in
      let '(t2, m) := now m in
      let m := emitEvent {| ev_type := EXECUTION_UPDATED; ev_executionId := id record;
                            ev_timestamp := t2; ev_data := RecordData record |} m in
      updateProgress (id record) m
  end.

Definition isMonitoring (executionId : string) (m : Monitor) : bool :=
  bool_decide (is_Some (activeExecutions m !! executionId)).

(** *** The log buffer of an execution *)

Inductive LogLevel := level_debug | level_info | level_warn | level_error.

Record ExecutionLog := {
  log_executionId : string;
  log_nodeId : option string;
  log_timestamp : Z;
  level : LogLevel;
  log_message : string;
  log_data : option Js.Value;
}.

Definition maxLogs : nat := 1000.

(** [logs.slice(-n)] for a positive [n] *)
Definition lastN {A} (n : nat) (l : list A) : list A := drop (length l - n) l.

(** What [addLog] does to the [logs] of the execution. *)
Definition pushLog (logs : list ExecutionLog) (log : ExecutionLog) : list ExecutionLog :=
  let logs := logs ++ [log] in
  if bool_decide (maxLogs < length logs)%nat then lastN maxLogs logs else logs.

(** What [getLogs] answers from the [logs] of the execution. *)
Definition readLogs (logs : list ExecutionLog) (limit : option Z) : list ExecutionLog :=
  match limit with
  | Some n => if (negb (n =? 0)) && (0 <? n) then lastN (Z.to_nat n) logs else logs
  | None => logs
  end.

End MonitorControl.

(** ** MonitorBroadcaster (workflow/ExecutionMonitor)

    The subscribers of an execution id, or of ["*"] for all of them, are a
    [Set] of callbacks in insertion order; a callback is told from another
    by its name.  A callback returns or throws, and does not call back into
    the broadcaster. *)

Module MonitorBroadcaster.
Import ExecutionHistory ExecutionMonitor.

(** A callback is known by its name, as a JS function is by its identity; a
    [Set] of callbacks is the list of its members in insertion order.  What a
    callback does is seen from outside only: the call is noted in
    [delivered], and a callback that throws leaves a line on the console.
    Callbacks that call back into the broadcaster while it iterates are not
    modelled. *)
Record Broadcaster := {
  subscribers : gmap string (list string);
  delivered : list (string * MonitorEvent);
  errorLines : list string;
}.

Section Callbacks.
(** Whether the callback throws on the event. *)
Variable throws : string -> MonitorEvent -> bool.

Definition subscribe (executionId callback : string) (b : Broadcaster) : Broadcaster :=
  let subs := default [] (subscribers b !! executionId) in
  {| subscribers :=
       <[executionId := if bool_decide (callback ∈ subs) then subs else subs ++ [callback]]>
         (subscribers b);
     delivered := delivered b; errorLines := errorLines b |}.

(** The function [subscribe] answers. *)
Definition unsubscribe (executionId callback : string) (b : Broadcaster) : Broadcaster :=
  match subscribers b !! executionId with
  | None => b
  | Some subs =>
      let subs := filter (fun c => c <> callback) subs in
      {| subscribers := if bool_decide (length subs = 0%nat)
                        then delete executionId (subscribers b)
                        else <[executionId := subs]> (subscribers b);
         delivered := delivered b; errorLines := errorLines b |}
  end.

(** One round of the loop of [broadcast]. *)
Definition deliver (event : MonitorEvent) (b : Broadcaster) (callback : string)
  : Broadcaster :=
  {| subscribers := subscribers b;
     delivered := delivered b ++ [(callback, event)];
     errorLines := if throws callback event
                   then errorLines b ++ ["Error broadcasting event to subscriber:"]
                   else errorLines b |}.

Definition broadcast (executionId : string) (event : MonitorEvent) (b : Broadcaster)
  : Broadcaster :=
  match subscribers b !! executionId with
  | None => b
  | Some subs => foldl (deliver event) b subs
  end.

(** The handler of the monitor's general channel. *)
Definition onEvent (event : MonitorEvent) (b : Broadcaster) : Broadcaster :=
  broadcast "*" event (broadcast (ev_executionId event) event b).

End Callbacks.

Definition getSubscriberCount (executionId : option string) (b : Broadcaster) : nat :=
  match executionId with
  | Some k =>
      if bool_decide (k = EmptyString)
      then map_fold (fun _ subs total => (total + length subs)%nat) 0%nat (subscribers b)
      else length (default [] (subscribers b !! k))
  | None => map_fold (fun _ subs total => (total + length subs)%nat) 0%nat (subscribers b)
  end.

End MonitorBroadcaster.

(** * Properties of the validator *)

Module ValidatorProofs.
Import WorkflowValidator.

(** ** The adjacency map *)

(** An enabled edge of the definition from [u] to [v]. *)
Definition linked (es : list WorkflowEdge) (u v : string) : bool :=
  existsb (fun e => edge_enabled e && bool_decide (source e = u)
                    && bool_decide (target e = v)) es.

(** Consecutive ids are joined by enabled edges. *)
Fixpoint isChain (es : list WorkflowEdge) (l : list string) : bool :=
  match l with
  | x :: l' =>
      match l' with
      | y :: _ => linked es x y && isChain es l'
      | [] => true
      end
  | [] => true
  end.

(** A directed cycle among the declared nodes: a non-empty list of node
    ids, each joined to the next, and the last to the first, by an
    enabled edge. *)
Definition isCycle (w : WorkflowDefinition) (c : list string) : bool :=
  match c with
  | [] => false
  | v :: _ =>
      isChain (edges w) (c ++ [v])
      && forallb (fun x => bool_decide (x ∈ nodeIdSet (nodes w))) c
  end.

(** No closed walk along enabled edges at all. *)
Definition acyclic (w : WorkflowDefinition) : Prop :=
  forall v l, isChain (edges w) (v :: l ++ [v]) = false.

Lemma initAdjacency_lookup ns v l :
  initAdjacency ns !! v = Some l -> l = [].
Proof.
  unfold initAdjacency.
  assert (G : forall adj : gmap string (list string),
             (forall l, adj !! v = Some l -> l = []) ->
             forall l, foldl (fun adj n => <[node_id n := []]> adj) adj ns !! v = Some l ->
                       l = []).
  { induction ns as [|n ns IH]; intros adj Hadj l'; simpl; [apply Hadj|].
    apply IH. intros l''.
    destruct (decide (node_id n = v)) as [->|Hne].
    - rewrite lookup_insert_eq. congruence.
    - rewrite lookup_insert_ne by done. apply Hadj. }
  apply G. intros l'. rewrite lookup_empty. discriminate.
Qed.

Lemma foldl_addEdge_neighbors es : forall adj v,
  neighborsOf (foldl addEdge adj es) v =
  neighborsOf adj v ++
    (target <$> filter (fun e => edge_enabled e = true /\ source e = v) es).
Proof.
  induction es as [|e es IH]; intros adj v; simpl.
  - by rewrite app_nil_r.
  - rewrite IH. unfold addEdge, neighborsOf.
    rewrite filter_cons.
    destruct (edge_enabled e) eqn:En.
    + destruct (decide (source e = v)) as [->|Hne].
      * rewrite lookup_insert_eq. simpl.
        rewrite decide_True by done. simpl. by rewrite <- app_assoc.
      * rewrite lookup_insert_ne by done.
        rewrite decide_False by tauto. done.
    + rewrite decide_False by (intros [? _]; done). done.
Qed.

Lemma buildAdjacency_neighbors ns es v :
  neighborsOf (buildAdjacency ns es) v =
  target <$> filter (fun e => edge_enabled e = true /\ source e = v) es.
Proof.
  unfold buildAdjacency. rewrite foldl_addEdge_neighbors.
  unfold neighborsOf at 1.
  destruct (initAdjacency ns !! v) as [l|] eqn:Hl; simpl; [|done].
  by rewrite (initAdjacency_lookup _ _ _ Hl).
Qed.

Lemma linked_neighbors ns es u v :
  linked es u v = true <-> v ∈ neighborsOf (buildAdjacency ns es) u.
Proof.
  rewrite buildAdjacency_neighbors. unfold linked.
  rewrite existsb_exists, list_elem_of_fmap. split.
  - intros (e & Hin & He).
    apply andb_prop in He as [He Ht]. apply andb_prop in He as [He Hs].
    apply bool_decide_eq_true in Hs, Ht.
    exists e. split; [done|]. apply list_elem_of_filter.
    split; [done|]. by apply list_elem_of_In.
  - intros (e & -> & He). apply list_elem_of_filter in He as [[He Hs] Hin].
    exists e. split; [by apply list_elem_of_In|].
    rewrite He. simpl. rewrite !bool_decide_eq_true_2; done.
Qed.

(** Disabled edges leave no trace in the adjacency map. *)
Lemma buildAdjacency_enabled ns es :
  buildAdjacency ns es =
  buildAdjacency ns (filter (fun e => edge_enabled e = true) es).
Proof.
  unfold buildAdjacency. generalize (initAdjacency ns).
  induction es as [|e es IH]; intros adj; [done|].
  rewrite filter_cons. simpl. destruct (decide (edge_enabled e = true)) as [He|He].
  - simpl. apply IH.
  - rewrite IH. unfold addEdge at 2. by destruct (edge_enabled e).
Qed.

(** ** Depth-first search over a fixed adjacency map *)

Section Search.
Variable adj : gmap string (list string).
(** A finite set of ids that holds every successor. *)
Variable U : gset string.

Definition E (u v : string) : Prop := v ∈ neighborsOf adj u.

Hypothesis U_closed : forall u v, E u v -> v ∈ U.

(** Finished vertices: visited and no longer on the recursion stack. *)
Definition black (s : CycleState) : gset string :=
  visited s ∖ recursionStack s.

(** A set of vertices closed under successors and free of cycles. *)
Definition Closed (B : gset string) : Prop :=
  (forall x y, x ∈ B -> E x y -> y ∈ B) /\ (forall x, x ∈ B -> ~ tc E x x).

Lemma tc_first_step x z : tc E x z -> exists y, E x y /\ rtc E y z.
Proof.
  intros [x' z' H|x' y z' H Ht].
  - exists z'. split; [done|apply rtc_refl].
  - exists y. split; [done|by apply tc_rtc].
Qed.

Lemma Closed_rtc B x y : Closed B -> rtc E x y -> x ∈ B -> y ∈ B.
Proof.
  intros [Hc _] Hr. induction Hr as [|x y z Hxy _ IH]; [done|].
  intros Hx. apply IH. by apply (Hc x).
Qed.

Lemma Closed_add B u :
  Closed B -> u ∉ B -> (forall y, E u y -> y ∈ B) -> Closed (B ∪ {[u]}).
Proof.
  intros HB Hu Hsucc. split.
  - intros x y Hx Hxy. apply elem_of_union in Hx as [Hx|Hx].
    + apply elem_of_union_l. by apply (proj1 HB x).
    + apply elem_of_singleton in Hx as ->. apply elem_of_union_l. by apply Hsucc.
  - intros x Hx Hcyc. apply elem_of_union in Hx as [Hx|Hx].
    + by apply (proj2 HB x).
    + apply elem_of_singleton in Hx as ->.
      destruct (tc_first_step _ _ Hcyc) as (y & Huy & Hyu).
      apply Hu. apply (Closed_rtc B y u); auto.
Qed.

Definition DfsSpec (fuel : nat) : Prop :=
  forall u path st,
    u ∈ U -> u ∉ visited st -> recursionStack st ⊆ visited st ->
    (size (U ∖ visited st) < fuel)%nat ->
    exists st',
      dfs fuel adj u path st = Some st'
      /\ visited st ⊆ visited st' /\ u ∈ visited st'
      /\ recursionStack st' = recursionStack st
      /\ (exists new, cycles st' = cycles st ++ new)
      /\ (cycles st' = [] -> Closed (black st) -> Closed (black st') /\ u ∈ black st')
      /\ ((forall v, ~ tc E v v) -> (forall a, a ∈ recursionStack st -> tc E a u) ->
          cycles st' = cycles st).

Lemma loop_spec fuel u path :
  DfsSpec fuel ->
  forall ns s,
    (forall n, n ∈ ns -> E u n) ->
    recursionStack s ⊆ visited s ->
    (size (U ∖ visited s) < fuel)%nat ->
    exists s',
      forM (visitNeighbor (dfs fuel adj) path) s ns = Some s'
      /\ visited s ⊆ visited s'
      /\ recursionStack s' = recursionStack s
      /\ (exists new, cycles s' = cycles s ++ new)
      /\ (cycles s' = [] -> Closed (black s) ->
          Closed (black s') /\ forall n, n ∈ ns -> n ∈ black s')
      /\ ((forall v, ~ tc E v v) -> (forall a, a ∈ recursionStack s -> rtc E a u) ->
          cycles s' = cycles s).
Proof.
  intros IH. induction ns as [|n ns IHns]; intros s Hns Hstack Hsize.
  - exists s. simpl. split; [done|]. split; [done|]. split; [done|].
    split; [exists []; by rewrite app_nil_r|]. split; [|done].
    intros _ HB. split; [done|]. intros m Hm. by apply elem_of_nil in Hm.
  - assert (Hun : E u n) by (apply Hns; left).
    assert (Hns' : forall m, m ∈ ns -> E u m) by (intros m Hm; apply Hns; by right).
    assert (Step : exists s1,
               visitNeighbor (dfs fuel adj) path s n = Some s1
               /\ visited s ⊆ visited s1
               /\ recursionStack s1 = recursionStack s
               /\ (exists new, cycles s1 = cycles s ++ new)
               /\ (cycles s1 = [] -> Closed (black s) ->
                   Closed (black s1) /\ n ∈ black s1)
               /\ ((forall v, ~ tc E v v) ->
                   (forall a, a ∈ recursionStack s -> rtc E a u) ->
                   cycles s1 = cycles s)).
    { unfold visitNeighbor. case_bool_decide as Hvis.
      - destruct (IH n path s) as (s1 & Hrun & Hv & Hn & Hst & Hcy & Hcompl & Hsound);
          auto.
        { by apply (U_closed u). }
        exists s1. do 5 (split; [done|]).
        intros Hac Hanc. apply Hsound; auto.
        intros a Ha. eapply tc_rtc_l; [apply Hanc, Ha | by apply tc_once].
      - case_bool_decide as Hstk.
        + eexists. split; [done|]. simpl. do 2 (split; [done|]).
          split; [by eexists|]. split.
          * intros Hnil. by apply app_eq_nil in Hnil as [_ ?].
          * intros Hac Hanc. exfalso. apply (Hac n).
            eapply tc_rtc_l; [apply Hanc, Hstk|]. by apply tc_once.
        + exists s. do 3 (split; [done|]).
          split; [exists []; by rewrite app_nil_r|]. split; [|done].
          intros _ HB. split; [done|]. unfold black. set_solver. }
    destruct Step as (s1 & Hrun & Hv1 & Hst1 & [new1 Hcy1] & Hcompl1 & Hsound1).
    destruct (IHns s1) as (s' & Hrun' & Hv' & Hst' & [new' Hcy'] & Hcompl' & Hsound');
      auto.
    { rewrite Hst1. set_solver. }
    { eapply Nat.le_lt_trans; [|apply Hsize]. apply subseteq_size. set_solver. }
    exists s'. simpl. rewrite Hrun. split; [done|].
    split; [set_solver|]. split; [congruence|].
    split; [exists (new1 ++ new'); by rewrite Hcy', Hcy1, app_assoc|].
    split.
    + intros Hnil HB.
      assert (Hnil1 : cycles s1 = []).
      { rewrite Hcy' in Hnil. by apply app_eq_nil in Hnil as [? _]. }
      destruct (Hcompl1 Hnil1 HB) as [HB1 Hn1].
      destruct (Hcompl' Hnil HB1) as [HB' Hall].
      split; [done|]. intros m Hm. apply elem_of_cons in Hm as [->|Hm]; [|by apply Hall].
      unfold black in *. rewrite Hst'. set_solver.
    + intros Hac Hanc. rewrite Hsound', Hsound1; auto.
      rewrite Hst1. done.
Qed.

Lemma dfs_spec fuel : DfsSpec fuel.
Proof.
  induction fuel as [|fuel IH]; intros u path st HuU Hu Hstack Hsize; [lia|].
  simpl.
  set (st1 := {| visited := {[u]} ∪ visited st;
                 recursionStack := {[u]} ∪ recursionStack st;
                 cycles := cycles st |}).
  destruct (loop_spec fuel u (path ++ [u]) IH (neighborsOf adj u) st1)
    as (s2 & Hrun & Hv & Hst & [new Hcy] & Hcompl & Hsound).
  - done.
  - simpl. set_solver.
  - simpl.
    assert (size (U ∖ ({[u]} ∪ visited st)) < size (U ∖ visited st))%nat; [|lia].
    apply subset_size. split; [set_solver|].
    intros H. specialize (H u). set_solver.
  - simpl in *. rewrite Hrun. eexists. split; [done|]. simpl.
    split; [set_solver|]. split; [set_solver|].
    split; [rewrite Hst; set_solver|].
    split; [by exists new|].
    split.
    + intros Hnil HB.
      assert (Hb1 : black st1 = black st) by (unfold black; simpl; set_solver).
      rewrite <- Hb1 in HB. destruct (Hcompl Hnil HB) as [HB2 Hall].
      assert (Hb2 : visited s2 ∖ (recursionStack s2 ∖ {[u]}) = black s2 ∪ {[u]}).
      { unfold black. rewrite Hst. apply set_eq. intros x.
        destruct (decide (x = u)) as [->|]; set_solver. }
      unfold black at 1 2. simpl. rewrite Hb2. split.
      * apply Closed_add; auto. unfold black. rewrite Hst. set_solver.
      * set_solver.
    + intros Hac Hanc. rewrite Hsound; auto.
      intros a Ha. apply elem_of_union in Ha as [Ha|Ha].
      * apply elem_of_singleton in Ha as ->. done.
      * apply tc_rtc, Hanc, Ha.
Qed.

(** The outer loop of [detectCycles]: one search per unvisited node. *)
Lemma roots_spec fuel (ns : list WorkflowNode) :
  (size U < fuel)%nat ->
  (forall n, n ∈ ns -> node_id n ∈ U) ->
  forall s,
    recursionStack s = ∅ ->
    exists s',
      forM (dfsRoot fuel adj) s ns = Some s'
      /\ visited s ⊆ visited s'
      /\ recursionStack s' = ∅
      /\ (exists new, cycles s' = cycles s ++ new)
      /\ (cycles s' = [] -> Closed (black s) ->
          Closed (black s') /\ forall n, n ∈ ns -> node_id n ∈ black s')
      /\ ((forall v, ~ tc E v v) -> cycles s' = cycles s).
Proof.
  intros Hfuel. induction ns as [|n ns IH]; intros HU s Hstk.
  - exists s. simpl. do 3 (split; [done|]).
    split; [exists []; by rewrite app_nil_r|]. split; [|done].
    intros _ HB. split; [done|]. intros m Hm. by apply elem_of_nil in Hm.
  - assert (Step : exists s1,
               dfsRoot fuel adj s n = Some s1
               /\ visited s ⊆ visited s1
               /\ recursionStack s1 = ∅
               /\ (exists new, cycles s1 = cycles s ++ new)
               /\ (cycles s1 = [] -> Closed (black s) ->
                   Closed (black s1) /\ node_id n ∈ black s1)
               /\ ((forall v, ~ tc E v v) -> cycles s1 = cycles s)).
    { unfold dfsRoot. case_bool_decide as Hvis.
      - destruct (dfs_spec fuel (node_id n) [] s)
          as (s1 & Hrun & Hv & Hn & Hst & Hcy & Hcompl & Hsound).
        + apply HU. left.
        + done.
        + rewrite Hstk. set_solver.
        + eapply Nat.le_lt_trans; [|apply Hfuel]. apply subseteq_size. set_solver.
        + exists s1. split; [done|]. split; [done|]. split; [congruence|].
          split; [done|]. split; [done|].
          intros Hac. apply Hsound; [done|]. intros a. rewrite Hstk. set_solver.
      - exists s. do 3 (split; [done|]).
        split; [exists []; by rewrite app_nil_r|]. split; [|done].
        intros _ HB. split; [done|]. unfold black. rewrite Hstk. set_solver. }
    destruct Step as (s1 & Hrun & Hv1 & Hst1 & [new1 Hcy1] & Hcompl1 & Hsound1).
    destruct (IH (fun m Hm => HU m (list_elem_of_further _ _ _ Hm)) s1 Hst1)
      as (s' & Hrun' & Hv' & Hst' & [new' Hcy'] & Hcompl' & Hsound').
    exists s'. simpl. rewrite Hrun. split; [done|].
    split; [set_solver|]. split; [done|].
    split; [exists (new1 ++ new'); by rewrite Hcy', Hcy1, app_assoc|].
    split.
    + intros Hnil HB.
      assert (Hnil1 : cycles s1 = []).
      { rewrite Hcy' in Hnil. by apply app_eq_nil in Hnil as [? _]. }
      destruct (Hcompl1 Hnil1 HB) as [HB1 Hn1].
      destruct (Hcompl' Hnil HB1) as [HB' Hall].
      split; [done|]. intros m Hm. apply elem_of_cons in Hm as [->|Hm]; [|by apply Hall].
      unfold black in *. rewrite Hst'. rewrite Hst1 in Hn1. set_solver.
    + intros Hac. rewrite Hsound', Hsound1; auto.
Qed.

End Search.

(** ** detectCycles *)

Lemma size_list_to_set_le (l : list string) :
  (size (list_to_set l : gset string) <= length l)%nat.
Proof.
  induction l as [|x l IH].
  - rewrite list_to_set_nil, size_empty. done.
  - rewrite list_to_set_cons, size_union_alt, size_singleton. simpl.
    assert (size (list_to_set l ∖ {[x]} : gset string) <= size (list_to_set l : gset string))%nat
      by (apply subseteq_size; set_solver).
    lia.
Qed.

(** Node ids and edge targets: every id a search can reach. *)
Definition universe (ns : list WorkflowNode) (es : list WorkflowEdge) : gset string :=
  nodeIdSet ns ∪ list_to_set (target <$> es).

Lemma universe_closed ns es u v :
  E (buildAdjacency ns es) u v -> v ∈ universe ns es.
Proof.
  unfold E. rewrite buildAdjacency_neighbors. intros H.
  apply list_elem_of_fmap in H as (e & -> & He).
  apply list_elem_of_filter in He as [_ He].
  unfold universe. apply elem_of_union_r, elem_of_list_to_set, list_elem_of_fmap. eauto.
Qed.

Lemma universe_size ns es : (size (universe ns es) < searchFuel ns es)%nat.
Proof.
  unfold universe, searchFuel, nodeIdSet.
  rewrite size_union_alt.
  pose proof (size_list_to_set_le (node_id <$> ns)) as H1.
  pose proof (size_list_to_set_le (target <$> es)) as H2.
  rewrite length_fmap in H1. rewrite length_fmap in H2.
  assert (size (list_to_set (target <$> es) ∖ list_to_set (node_id <$> ns) : gset string)
          <= size (list_to_set (target <$> es) : gset string))%nat
    by (apply subseteq_size; set_solver).
  lia.
Qed.

Lemma universe_nodes ns es n : n ∈ ns -> node_id n ∈ universe ns es.
Proof.
  intros H. unfold universe, nodeIdSet.
  apply elem_of_union_l, elem_of_list_to_set, list_elem_of_fmap. eauto.
Qed.

Lemma isChain_tc ns es l : forall v x,
  isChain es (v :: l ++ [x]) = true -> tc (E (buildAdjacency ns es)) v x.
Proof.
  induction l as [|y l IH]; intros v x H; simpl in H;
    apply andb_prop in H as [Hl Hc].
  - apply tc_once. by apply linked_neighbors.
  - eapply tc_l; [by apply linked_neighbors|]. by apply IH.
Qed.

Lemma tc_isChain ns es v x :
  tc (E (buildAdjacency ns es)) v x -> exists l, isChain es (v :: l ++ [x]) = true.
Proof.
  induction 1 as [v x H|v y x H _ [l IH]].
  - exists []. simpl. apply linked_neighbors in H. by rewrite H.
  - exists (y :: l). apply linked_neighbors in H.
    change (isChain es (v :: (y :: l) ++ [x])) with
      (linked es v y && isChain es (y :: l ++ [x])).
    by rewrite H, IH.
Qed.

Lemma acyclic_tc w v :
  acyclic w -> ~ tc (E (buildAdjacency (nodes w) (edges w))) v v.
Proof.
  intros Hac Ht. apply tc_isChain in Ht as [l Hl]. by rewrite Hac in Hl.
Qed.

Lemma detectCycles_total ns es : exists cs, detectCycles ns es = Some cs.
Proof.
  unfold detectCycles.
  destruct (roots_spec (buildAdjacency ns es) (universe ns es) (universe_closed ns es)
              (searchFuel ns es) ns (universe_size ns es)
              (fun n H => universe_nodes ns es n H)
              noCycles eq_refl)
    as (s' & -> & _).
  by eexists.
Qed.

(** A cycle through a declared node is always reported. *)
Lemma detectCycles_complete ns es v cs :
  v ∈ nodeIdSet ns -> tc (E (buildAdjacency ns es)) v v ->
  detectCycles ns es = Some cs -> cs <> [].
Proof.
  intros Hv Hcyc. unfold detectCycles.
  destruct (roots_spec (buildAdjacency ns es) (universe ns es) (universe_closed ns es)
              (searchFuel ns es) ns (universe_size ns es)
              (fun n H => universe_nodes ns es n H)
              noCycles eq_refl)
    as (s' & -> & _ & _ & _ & Hcompl & _).
  simpl. intros [= <-] Hnil.
  destruct (Hcompl Hnil) as [[_ Hacyc] Hall].
  { split; unfold black; simpl; intros x; set_solver. }
  apply elem_of_list_to_set, list_elem_of_fmap in Hv as (n & -> & Hn).
  by apply (Hacyc (node_id n)); [apply Hall|].
Qed.

(** Without a closed walk nothing is reported. *)
Lemma detectCycles_sound w :
  acyclic w -> detectCycles (nodes w) (edges w) = Some [].
Proof.
  intros Hac. unfold detectCycles.
  destruct (roots_spec (buildAdjacency (nodes w) (edges w))
              (universe (nodes w) (edges w)) (universe_closed _ _)
              (searchFuel (nodes w) (edges w)) (nodes w) (universe_size _ _)
              (fun n H => universe_nodes _ _ n H)
              noCycles eq_refl)
    as (s' & -> & _ & _ & _ & _ & Hsound).
  simpl. f_equal. apply Hsound. intros v. by apply acyclic_tc.
Qed.

(** ** The memoised longest-chain search *)

Section Depth.
Variable adj : gmap string (list string).
Variable U : gset string.
Hypothesis U_closed : forall u v, E adj u v -> v ∈ U.

(** [walk v l]: the ids [v :: l] follow one another along the adjacency. *)
Fixpoint walk (v : string) (l : list string) : Prop :=
  match l with
  | [] => True
  | y :: l' => E adj v y /\ walk y l'
  end.

(** [d] is the number of ids on a longest walk that starts at [v]. *)
Definition isDepth (v : string) (d : nat) : Prop :=
  (exists l, walk v l /\ S (length l) = d)
  /\ (forall l, walk v l -> (S (length l) <= d)%nat).

Definition MemoOk (m : gmap string nat) : Prop :=
  forall v d, m !! v = Some d -> isDepth v d.

Definition DepthSpec (fuel : nat) : Prop :=
  forall u st,
    u ∈ U -> (size (U ∖ visiting st) < fuel)%nat ->
    exists d st',
      depthDfs fuel adj u st = Some (d, st')
      /\ visiting st' = visiting st
      /\ ((forall v, ~ tc (E adj) v v) -> MemoOk (memo st) ->
          (forall a, a ∈ visiting st -> tc (E adj) a u) ->
          isDepth u d /\ MemoOk (memo st')
          /\ (forall v k, memo st' !! v = Some k ->
                          memo st !! v = Some k \/ (k <= d)%nat)).

Lemma children_spec fuel u :
  DepthSpec fuel ->
  forall ns m s,
    (forall n, n ∈ ns -> E adj u n) ->
    (size (U ∖ visiting s) < fuel)%nat ->
    exists m' s',
      forM (maxChild (depthDfs fuel adj)) (m, s) ns = Some (m', s')
      /\ visiting s' = visiting s
      /\ (m <= m')%nat
      /\ ((forall v, ~ tc (E adj) v v) -> MemoOk (memo s) ->
          (forall a, a ∈ visiting s -> rtc (E adj) a u) ->
          MemoOk (memo s')
          /\ (forall n l, n ∈ ns -> walk n l -> (S (length l) <= m')%nat)
          /\ (m' = m \/ exists n l, n ∈ ns /\ walk n l /\ S (length l) = m')
          /\ (forall v k, memo s' !! v = Some k ->
                          memo s !! v = Some k \/ (k <= m')%nat)).
Proof.
  intros IH. induction ns as [|n ns IHns]; intros m s Hns Hsize.
  - exists m, s. simpl. do 3 (split; [done|]).
    intros _ Hm _. split; [done|]. split; [|split; [by left|by left]].
    intros n l Hn. by apply elem_of_nil in Hn.
  - assert (Hun : E adj u n) by (apply Hns; left).
    destruct (IH n s) as (d & s1 & Hrun & Hvis1 & Hok1); [by apply (U_closed u)|done|].
    destruct (IHns (Nat.max m d) s1) as (m' & s' & Hrun' & Hvis' & Hle & Hok').
    { intros k Hk. apply Hns. by right. }
    { by rewrite Hvis1. }
    exists m', s'. simpl. unfold maxChild at 1. simpl. rewrite Hrun.
    split; [done|]. split; [congruence|]. split; [lia|].
    intros Hac Hmemo Hanc.
    destruct Hok1 as (Hd & Hmemo1 & Hnew1); auto.
    { intros a Ha. eapply tc_rtc_l; [apply Hanc, Ha|by apply tc_once]. }
    destruct Hok' as (Hmemo' & Hub & Hwit & Hnew'); auto.
    { intros a. rewrite Hvis1. apply Hanc. }
    split; [done|]. split; [|split].
    + intros k l Hk Hw. apply elem_of_cons in Hk as [->|Hk]; [|by apply (Hub k)].
      pose proof (proj2 Hd l Hw). lia.
    + destruct Hwit as [->|(k & l & Hk & Hw & Hlen)].
      * destruct (Nat.max_spec m d) as [[_ Hmax]|[_ Hmax]]; rewrite Hmax.
        -- right. destruct Hd as [(l & Hw & Hlen) _].
           exists n, l. split; [left|done].
        -- by left.
      * right. exists k, l. split; [by right|done].
    + intros v k Hv. destruct (Hnew' v k Hv) as [Hold|Hk]; [|by right].
      destruct (Hnew1 v k Hold) as [?|?]; [by left|right; lia].
Qed.

Lemma depth_spec fuel : DepthSpec fuel.
Proof.
  induction fuel as [|fuel IH]; intros u st HuU Hsize; [lia|].
  simpl. destruct (memo st !! u) as [d|] eqn:Hmemo.
  { exists d, st. do 2 (split; [done|]). intros _ Hok _.
    split; [by apply Hok|]. split; [done|]. intros v k Hv. by left. }
  case_bool_decide as Hvis.
  { exists 0%nat, st. do 2 (split; [done|]). intros Hac _ Hanc.
    exfalso. apply (Hac u). by apply Hanc. }
  set (st1 := {| memo := memo st; visiting := {[u]} ∪ visiting st |}).
  assert (Hrestore : forall V : gset string,
             V = {[u]} ∪ visiting st -> V ∖ {[u]} = visiting st) by set_solver.
  destruct (neighborsOf adj u) as [|n0 ns0] eqn:Hnb.
  { eexists _, _. split; [done|]. simpl. split; [by apply Hrestore|].
    intros _ Hok _.
    assert (Hd : isDepth u 1).
    { split; [exists []; by split|].
      intros [|y l]; [simpl; lia|]. intros [Hy _].
      unfold E in Hy. rewrite Hnb in Hy. by apply elem_of_nil in Hy. }
    split; [done|]. split.
    - intros v k. destruct (decide (u = v)) as [->|Hne].
      + rewrite lookup_insert_eq. by intros [= <-].
      + rewrite lookup_insert_ne by done. apply Hok.
    - intros v k. destruct (decide (u = v)) as [->|Hne].
      + rewrite lookup_insert_eq. intros [= <-]. by right.
      + rewrite lookup_insert_ne by done. by left. }
  destruct (children_spec fuel u IH (n0 :: ns0) 0%nat st1)
    as (m' & s2 & Hrun & Hvis2 & _ & Hok2).
  { intros n Hn. unfold E. by rewrite Hnb. }
  { simpl.
    assert (size (U ∖ ({[u]} ∪ visiting st)) < size (U ∖ visiting st))%nat; [|lia].
    apply subset_size. split; [set_solver|].
    intros H. specialize (H u). set_solver. }
  cbn [forM] in Hrun. rewrite Hrun. eexists _, _. split; [done|]. simpl.
  split; [by apply Hrestore|].
  intros Hac Hok Hanc.
  destruct Hok2 as (Hmemo2 & Hub & Hwit & Hnew); auto.
  { simpl. intros a Ha. apply elem_of_union in Ha as [Ha|Ha].
    - apply elem_of_singleton in Ha as ->. apply rtc_refl.
    - by apply tc_rtc, Hanc. }
  assert (Hn0 : E adj u n0) by (unfold E; rewrite Hnb; left).
  assert (Hpos : (1 <= m')%nat).
  { apply (Hub n0 []); [left|done]. }
  assert (Hd : isDepth u (1 + m')).
  { split.
    - destruct Hwit as [->|(n & l & Hn & Hw & Hlen)]; [lia|].
      exists (n :: l). split; [|simpl; lia].
      split; [|done]. unfold E. by rewrite Hnb.
    - intros [|y l]; [simpl; lia|]. intros [Hy Hw].
      assert (S (length l) <= m')%nat; [|simpl; lia].
      apply (Hub y); [|done]. unfold E in Hy. by rewrite Hnb in Hy. }
  split; [done|]. split.
  - intros v k. destruct (decide (u = v)) as [->|Hne].
    + rewrite lookup_insert_eq. by intros [= <-].
    + rewrite lookup_insert_ne by done. apply Hmemo2.
  - intros v k. destruct (decide (u = v)) as [->|Hne].
    + rewrite lookup_insert_eq. intros [= <-]. by right.
    + rewrite lookup_insert_ne by done. intros Hv.
      destruct (Hnew v k Hv) as [?|?]; [by left|right; lia].
Qed.

(** The outer loop of [calculateMaxDepth]. *)
Lemma depthRoots_spec fuel (ns : list WorkflowNode) :
  (size U < fuel)%nat ->
  (forall n, n ∈ ns -> node_id n ∈ U) ->
  forall m s,
    visiting s = ∅ ->
    exists m' s',
      forM (depthRoot fuel adj) (m, s) ns = Some (m', s')
      /\ visiting s' = ∅
      /\ ((forall v, ~ tc (E adj) v v) -> MemoOk (memo s) ->
          (forall v k, memo s !! v = Some k -> (k <= m)%nat) ->
          (forall n l, n ∈ ns -> walk (node_id n) l -> (S (length l) <= m')%nat)
          /\ (m' = m \/ exists n l, n ∈ ns /\ walk (node_id n) l /\ S (length l) = m')).
Proof.
  intros Hfuel. induction ns as [|n ns IH]; intros HU m s Hvis.
  - exists m, s. simpl. do 2 (split; [done|]). intros _ _ _.
    split; [|by left]. intros n l Hn. by apply elem_of_nil in Hn.
  - assert (Step : exists m1 s1,
               depthRoot fuel adj (m, s) n = Some (m1, s1)
               /\ visiting s1 = ∅ /\ (m <= m1)%nat
               /\ ((forall v, ~ tc (E adj) v v) -> MemoOk (memo s) ->
                   (forall v k, memo s !! v = Some k -> (k <= m)%nat) ->
                   MemoOk (memo s1)
                   /\ (forall v k, memo s1 !! v = Some k -> (k <= m1)%nat)
                   /\ (forall l, walk (node_id n) l -> (S (length l) <= m1)%nat)
                   /\ (m1 = m \/ exists l, walk (node_id n) l /\ S (length l) = m1))).
    { unfold depthRoot. simpl. destruct (memo s !! node_id n) as [k|] eqn:Hk.
      - exists m, s. do 3 (split; [done|]). intros _ Hok Hbound.
        do 2 (split; [done|]). split; [|by left].
        intros l Hw. pose proof (proj2 (Hok _ _ Hk) l Hw).
        pose proof (Hbound _ _ Hk). lia.
      - destruct (depth_spec fuel (node_id n) s) as (d & s1 & Hrun & Hvis1 & Hok1).
        { apply HU. left. }
        { eapply Nat.le_lt_trans; [|apply Hfuel]. apply subseteq_size. set_solver. }
        exists (Nat.max m d), s1. unfold maxChild. simpl. rewrite Hrun.
        split; [done|]. split; [congruence|]. split; [lia|].
        intros Hac Hok Hbound.
        destruct Hok1 as (Hd & Hmemo1 & Hnew1); auto.
        { intros a. rewrite Hvis. set_solver. }
        split; [done|]. split; [|split].
        + intros v j Hv. destruct (Hnew1 v j Hv) as [Hold|?]; [|lia].
          pose proof (Hbound _ _ Hold). lia.
        + intros l Hw. pose proof (proj2 Hd l Hw). lia.
        + destruct (Nat.max_spec m d) as [[_ Hmax]|[_ Hmax]]; rewrite Hmax.
          * right. destruct Hd as [(l & Hw & Hlen) _]. by exists l.
          * by left. }
    destruct Step as (m1 & s1 & Hrun & Hvis1 & Hle1 & Hok1).
    destruct (IH (fun k Hk => HU k (list_elem_of_further _ _ _ Hk)) m1 s1 Hvis1)
      as (m' & s' & Hrun' & Hvis' & Hok').
    assert (Hle' : (m1 <= m')%nat).
    { clear -Hrun'. revert m1 s1 Hrun'.
      induction ns as [|k ns IHk]; intros m1 s1; simpl.
      - by intros [= -> _].
      - unfold depthRoot at 1. simpl.
        destruct (memo s1 !! node_id k); [apply IHk|].
        unfold maxChild. simpl.
        destruct (depthDfs fuel adj (node_id k) s1) as [[d s2]|]; [|done].
        intros H. apply IHk in H. lia. }
    exists m', s'. simpl. rewrite Hrun. do 2 (split; [done|]).
    intros Hac Hok Hbound.
    destruct Hok1 as (Hmemo1 & Hbound1 & Hub1 & Hwit1); auto.
    destruct Hok' as (Hub' & Hwit'); auto.
    split.
    + intros k l Hk Hw. apply elem_of_cons in Hk as [->|Hk]; [|by apply (Hub' k)].
      pose proof (Hub1 l Hw). lia.
    + destruct Hwit' as [->|(k & l & Hk & Hw & Hlen)].
      * destruct Hwit1 as [->|(l & Hw & Hlen)]; [by left|].
        right. exists n, l. split; [left|done].
      * right. exists k, l. split; [by right|done].
Qed.

End Depth.

(** ** Fuel: more of it never changes a result *)

Lemma forM_mono {S A : Type} (f g : S -> A -> option S) :
  (forall s a s', f s a = Some s' -> g s a = Some s') ->
  forall l s s', forM f s l = Some s' -> forM g s l = Some s'.
Proof.
  intros Hfg. induction l as [|a l IH]; intros s s'; simpl; [done|].
  destruct (f s a) as [s1|] eqn:Hf; [|done].
  rewrite (Hfg _ _ _ Hf). apply IH.
Qed.

Lemma dfs_fuel_mono adj fuel : forall fuel' u path st st',
  (fuel <= fuel')%nat ->
  dfs fuel adj u path st = Some st' -> dfs fuel' adj u path st = Some st'.
Proof.
  induction fuel as [|fuel IH]; intros fuel' u path st st' Hle; [done|].
  destruct fuel' as [|fuel']; [lia|]. simpl.
  destruct (forM (visitNeighbor (dfs fuel adj) (path ++ [u])) _ _) as [s2|] eqn:Hrun;
    [|done].
  erewrite forM_mono; [done| |exact Hrun].
  intros s a s'. unfold visitNeighbor. repeat case_bool_decide; auto.
  apply IH. lia.
Qed.

Lemma depthDfs_fuel_mono adj fuel : forall fuel' u st r,
  (fuel <= fuel')%nat ->
  depthDfs fuel adj u st = Some r -> depthDfs fuel' adj u st = Some r.
Proof.
  induction fuel as [|fuel IH]; intros fuel' u st r Hle; [done|].
  destruct fuel' as [|fuel']; [lia|]. simpl.
  destruct (memo st !! u); [done|]. case_bool_decide; [done|].
  assert (Hall : forall l acc r',
             forM (maxChild (depthDfs fuel adj)) acc l = Some r' ->
             forM (maxChild (depthDfs fuel' adj)) acc l = Some r').
  { apply forM_mono. intros [m1 s1] a s'. unfold maxChild. simpl.
    destruct (depthDfs fuel adj a s1) as [r1|] eqn:Hr; [|done].
    erewrite IH; [done| |exact Hr]. lia. }
  specialize (Hall (neighborsOf adj u)
                (0%nat, {| memo := memo st; visiting := {[u]} ∪ visiting st |})).
  destruct (neighborsOf adj u) as [|n0 ns0]; [done|].
  match goal with
  | |- match ?X with _ => _ end = _ -> _ =>
      destruct X as [[m s2]|] eqn:Hrun; [|done]
  end.
  apply Hall in Hrun. cbn [forM] in Hrun. by rewrite Hrun.
Qed.

Lemma cycles_fuel_mono adj fuel fuel' ns s s' :
  (fuel <= fuel')%nat ->
  forM (dfsRoot fuel adj) s ns = Some s' -> forM (dfsRoot fuel' adj) s ns = Some s'.
Proof.
  intros Hle. apply forM_mono. intros s1 n s2. unfold dfsRoot.
  case_bool_decide; [|done]. by apply dfs_fuel_mono.
Qed.

Lemma depth_fuel_mono adj fuel fuel' ns acc r :
  (fuel <= fuel')%nat ->
  forM (depthRoot fuel adj) acc ns = Some r -> forM (depthRoot fuel' adj) acc ns = Some r.
Proof.
  intros Hle. apply forM_mono. intros [m s1] n s2. unfold depthRoot, maxChild. simpl.
  destruct (memo s1 !! node_id n); [done|].
  destruct (depthDfs fuel adj (node_id n) s1) as [r1|] eqn:Hr; [|done].
  by rewrite (depthDfs_fuel_mono _ _ _ _ _ _ Hle Hr).
Qed.

(** ** calculateMaxDepth and validate always answer *)

Lemma depthRoots_run ns es :
  exists m s,
    forM (depthRoot (searchFuel ns es) (buildAdjacency ns es)) noDepths ns = Some (m, s)
    /\ ((forall v, ~ tc (E (buildAdjacency ns es)) v v) ->
        (forall n l, n ∈ ns -> walk (buildAdjacency ns es) (node_id n) l ->
                     (S (length l) <= m)%nat)
        /\ (m = 0%nat \/ exists n l, n ∈ ns /\ walk (buildAdjacency ns es) (node_id n) l
                                     /\ S (length l) = m)).
Proof.
  destruct (depthRoots_spec (buildAdjacency ns es) (universe ns es) (universe_closed ns es)
              (searchFuel ns es) ns (universe_size ns es)
              (fun n H => universe_nodes ns es n H) (fst noDepths)
              (snd noDepths) eq_refl) as (m & s & Hrun & _ & Hok).
  exists m, s. split; [done|]. intros Hac. apply Hok; [done| |].
  - intros v d. simpl. by rewrite lookup_empty.
  - intros v d. simpl. by rewrite lookup_empty.
Qed.

Lemma calculateMaxDepth_total w : exists d, calculateMaxDepth w = Some d.
Proof.
  unfold calculateMaxDepth. destruct (nodes w) as [|n ns] eqn:Hn; [by eexists|].
  destruct (detectCycles_total (n :: ns) (edges w)) as [[|c cs] ->]; [|by eexists].
  destruct (depthRoots_run (n :: ns) (edges w)) as (m & s & Hrun & _).
  rewrite Hrun. by eexists.
Qed.

Lemma validateTopology_total w r : exists r', validateTopology w r = Some r'.
Proof.
  unfold validateTopology. destruct (nodes w) as [|n ns]; [by eexists|].
  destruct (detectCycles_total (n :: ns) (edges w)) as [cs ->]. by eexists.
Qed.

Theorem validate_total registry w : exists r, validate registry w = Some r.
Proof.
  unfold validate, calculateStats.
  destruct (validateTopology_total w
              (validateEdges (edges w) (nodes w)
                 (validateNodes registry (nodes w)
                    (validateSchema w {| errors := []; warnings := [] |}))))
    as [r' ->].
  destruct (calculateMaxDepth_total w) as [d ->]. by eexists.
Qed.

(** ** What the checks do to the error list *)

Definition circular (e : ValidationError) : bool :=
  bool_decide (code e = "CIRCULAR_DEPENDENCY").

(** No error of the report is a cycle error. *)
Definition NoCircular (r : Report) : Prop :=
  forallb (fun e => negb (circular e)) (errors r) = true.

Lemma NoCircular_pushError e r :
  circular e = false -> NoCircular r -> NoCircular (pushError e r).
Proof.
  unfold NoCircular. simpl. intros He Hr.
  rewrite forallb_app, Hr. simpl. by rewrite He.
Qed.

Lemma NoCircular_pushWarning x r : NoCircular r -> NoCircular (pushWarning x r).
Proof. done. Qed.

Lemma NoCircular_when b f r :
  (forall r', NoCircular r' -> NoCircular (f r')) ->
  NoCircular r -> NoCircular (when b f r).
Proof. intros Hf Hr. unfold when. destruct b; auto. Qed.

Ltac no_circular :=
  repeat first
    [ assumption
    | apply NoCircular_pushWarning
    | apply NoCircular_pushError; [reflexivity|]
    | apply NoCircular_when; [intros ? ?|] ].

Lemma NoCircular_foldl {A} (f : Report -> A -> Report) l :
  (forall r a, NoCircular r -> NoCircular (f r a)) ->
  forall r, NoCircular r -> NoCircular (foldl f r l).
Proof. intros Hf. induction l as [|a l IH]; intros r Hr; simpl; auto. Qed.

Lemma NoCircular_validateSchema w r : NoCircular r -> NoCircular (validateSchema w r).
Proof. intros Hr. unfold validateSchema. no_circular. Qed.

Lemma NoCircular_validateNodes registry ns r :
  NoCircular r -> NoCircular (validateNodes registry ns r).
Proof.
  intros Hr. unfold validateNodes.
  assert (G : forall acc, NoCircular (snd acc) ->
                          NoCircular (snd (foldl (validateNode registry) acc ns))).
  { induction ns as [|n ns IH]; intros [ids r0] H0; simpl in *; [done|].
    apply IH. unfold validateNode. destruct (falsy (node_type n)); simpl.
    - no_circular.
    - apply NoCircular_foldl; [intros r1 i H1; unfold checkInput|]; no_circular. }
  by apply G.
Qed.

Lemma NoCircular_validateEdges es ns r :
  NoCircular r -> NoCircular (validateEdges es ns r).
Proof.
  intros Hr. unfold validateEdges. generalize es at 1. intros all.
  assert (G : forall acc, NoCircular (snd acc) ->
              NoCircular (snd (foldl (validateEdge all (nodeIdSet ns)) acc es))).
  { induction es as [|e es IH]; intros [ids r0] H0; simpl in *; [done|].
    apply IH. unfold validateEdge.
    destruct (falsy (source e)); simpl; [no_circular|].
    destruct (falsy (target e)); simpl; [no_circular|].
    destruct (find (sameConnection e) all); simpl; no_circular. }
  by apply G.
Qed.

Lemma NoCircular_validateSettings w r :
  NoCircular r -> NoCircular (validateSettings w r).
Proof.
  intros Hr. unfold validateSettings.
  destruct (settings w) as [s|]; [|done].
  destruct (maxConcurrency s), (timeout s), (retryPolicy s); no_circular.
Qed.

Lemma errors_pushWarning_when b x r : errors (when b (pushWarning x) r) = errors r.
Proof. by destruct b. Qed.

Lemma errors_connectivityWarnings ns es r :
  errors (connectivityWarnings ns es r) = errors r.
Proof.
  unfold connectivityWarnings. rewrite !errors_pushWarning_when.
  induction ns as [|n ns IH] using rev_ind; [done|].
  rewrite foldl_app. simpl. unfold isolatedWarning at 1.
  by rewrite errors_pushWarning_when.
Qed.

Lemma errors_cycleErrors cs : forall r,
  errors (foldl (fun r cycle => pushError (cycleError cycle) r) r cs) =
  errors r ++ (cycleError <$> cs).
Proof.
  induction cs as [|c cs IH]; intros r; simpl; [by rewrite app_nil_r|].
  rewrite IH. simpl. by rewrite <- app_assoc.
Qed.

Lemma errors_when_pushError b e r :
  exists extra, errors (when b (pushError e) r) = errors r ++ extra.
Proof. destruct b; simpl; [by eexists|exists []; by rewrite app_nil_r]. Qed.

Lemma errors_validateSettings w r :
  exists extra, errors (validateSettings w r) = errors r ++ extra.
Proof.
  unfold validateSettings.
  destruct (settings w) as [s|]; [|exists []; by rewrite app_nil_r].
  assert (H1 : exists x1,
             errors match maxConcurrency s with
                    | None => r
                    | Some mc =>
                        when (100 <? mc)
                          (pushWarning
                             {| w_code := "HIGH_CONCURRENCY";
                                w_message := "maxConcurrency (" +:+ pretty mc
                                             +:+ ") is very high";
                                w_nodeId := None;
                                suggestion :=
                                  Some "Consider reducing to avoid resource exhaustion" |})
                          (when (mc <? 1)
                             (pushError
                                {| code := "INVALID_SETTING";
                                   message := "maxConcurrency must be at least 1";
                                   nodeId := None; edgeId := None;
                                   field := Some "settings.maxConcurrency" |}) r)
                    end = errors r ++ x1).
  { destruct (maxConcurrency s) as [mc|]; [|exists []; by rewrite app_nil_r].
    rewrite errors_pushWarning_when. apply errors_when_pushError. }
  destruct H1 as [x1 H1]. simpl.
  set (r1 := match maxConcurrency s with None => r | Some mc => _ end) in *.
  set (r2 := match timeout s with None => r1 | Some t => _ end).
  assert (H2 : errors r2 = errors r1).
  { unfold r2. destruct (timeout s); [apply errors_pushWarning_when|done]. }
  destruct (retryPolicy s) as [rp|].
  - rewrite errors_pushWarning_when.
    destruct (errors_when_pushError (maxRetries rp <? 0)
                {| code := "INVALID_SETTING"; message := "maxRetries cannot be negative";
                   nodeId := None; edgeId := None;
                   field := Some "settings.retryPolicy.maxRetries" |} r2) as [x2 Hx2].
    exists (x1 ++ x2). rewrite Hx2, H2, H1. by rewrite app_assoc.
  - exists x1. by rewrite H2, H1.
Qed.

(** ** Chains of the definition and walks of the adjacency map *)

Lemma walk_isChain ns es l : forall v,
  walk (buildAdjacency ns es) v l <-> isChain es (v :: l) = true.
Proof.
  induction l as [|y l IH]; intros v; [done|].
  change (isChain es (v :: y :: l)) with (linked es v y && isChain es (y :: l)).
  rewrite andb_true_iff, <- IH, linked_neighbors. done.
Qed.

Lemma isCycle_tc w c :
  isCycle w c = true ->
  exists v, v ∈ nodeIdSet (nodes w)
            /\ tc (E (buildAdjacency (nodes w) (edges w))) v v.
Proof.
  unfold isCycle. destruct c as [|v l]; [done|]. intros H.
  apply andb_prop in H as [Hc Hn]. exists v. split.
  - simpl in Hn. apply andb_prop in Hn as [Hn _]. by apply bool_decide_eq_true in Hn.
  - by apply (isChain_tc _ _ l).
Qed.

Lemma nodeIdSet_nonempty ns v : v ∈ nodeIdSet ns -> ns <> [].
Proof. intros H ->. unfold nodeIdSet in H. set_solver. Qed.

(** A ranking that every enabled edge increases rules out closed walks. *)
Definition ranked (rank : string -> nat) (es : list WorkflowEdge) : bool :=
  forallb (fun e => negb (edge_enabled e)
                    || (rank (source e) <? rank (target e))%nat) es.

Lemma ranked_linked rank es u v :
  ranked rank es = true -> linked es u v = true -> (rank u < rank v)%nat.
Proof.
  unfold ranked, linked. rewrite forallb_forall, existsb_exists.
  intros Hr (e & Hin & He). specialize (Hr e Hin).
  apply andb_prop in He as [He Ht]. apply andb_prop in He as [He Hs].
  apply bool_decide_eq_true in Hs, Ht. subst. rewrite He in Hr. simpl in Hr.
  by apply Nat.ltb_lt.
Qed.

Lemma ranked_acyclic rank w : ranked rank (edges w) = true -> acyclic w.
Proof.
  intros Hr v l. apply not_true_is_false. intros Hc.
  assert (G : forall l v x, isChain (edges w) (v :: l ++ [x]) = true ->
                            (rank v < rank x)%nat).
  { clear v l Hc. induction l as [|y l IH]; intros v x H; simpl in H;
      apply andb_prop in H as [Hl Hc].
    - by apply (ranked_linked rank (edges w)).
    - pose proof (ranked_linked rank (edges w) v y Hr Hl).
      pose proof (IH y x Hc). lia. }
  specialize (G l v v Hc). lia.
Qed.

(** ** The result of [validate], stage by stage *)

Definition afterEdges (registry : gset string) (w : WorkflowDefinition) : Report :=
  validateEdges (edges w) (nodes w)
    (validateNodes registry (nodes w)
       (validateSchema w {| errors := []; warnings := [] |})).

Lemma NoCircular_afterEdges registry w : NoCircular (afterEdges registry w).
Proof.
  apply NoCircular_validateEdges, NoCircular_validateNodes, NoCircular_validateSchema.
  done.
Qed.

Lemma validate_run registry w :
  exists rep d,
    validateTopology w (afterEdges registry w) = Some rep
    /\ calculateMaxDepth w = Some d
    /\ validate registry w =
       Some {| valid := bool_decide (length (errors (validateSettings w rep)) = 0%nat);
               res_errors := errors (validateSettings w rep);
               res_warnings := warnings (validateSettings w rep);
               stats := {| totalNodes := length (nodes w);
                           totalEdges := length (edges w);
                           startNodes := length (startNodesOf (nodes w) (edges w));
                           endNodes := length (endNodesOf (nodes w) (edges w));
                           maxDepth := d |} |}.
Proof.
  destruct (validateTopology_total w (afterEdges registry w)) as [rep Hrep].
  destruct (calculateMaxDepth_total w) as [d Hd].
  exists rep, d. do 2 (split; [done|]).
  unfold validate, calculateStats. fold (afterEdges registry w).
  rewrite Hrep. simpl. rewrite Hd. done.
Qed.

Definition enabledOnly (w : WorkflowDefinition) : WorkflowDefinition :=
  {| wf_id := wf_id w; wf_name := wf_name w; wf_version := wf_version w;
     nodes := nodes w;
     edges := filter (fun e => edge_enabled e = true) (edges w);
     settings := settings w |}.

Lemma detectCycles_enabled ns es :
  detectCycles ns es = detectCycles ns (filter (fun e => edge_enabled e = true) es).
Proof.
  set (es' := filter (fun e => edge_enabled e = true) es).
  destruct (detectCycles_total ns es) as [cs Hcs].
  destruct (detectCycles_total ns es') as [cs' Hcs'].
  rewrite Hcs, Hcs'. f_equal.
  unfold detectCycles in Hcs, Hcs'.
  destruct (forM (dfsRoot (searchFuel ns es) _) _ _) as [s|] eqn:Hs; [|done].
  destruct (forM (dfsRoot (searchFuel ns es') _) _ _) as [s'|] eqn:Hs'; [|done].
  simpl in Hcs, Hcs'. injection Hcs as <-. injection Hcs' as <-.
  unfold es' in Hs'. rewrite <- buildAdjacency_enabled in Hs'.
  pose proof (cycles_fuel_mono _ _ _ _ _ _
                (Nat.le_max_l (searchFuel ns es) (searchFuel ns es')) Hs) as H.
  pose proof (cycles_fuel_mono _ _ _ _ _ _
                (Nat.le_max_r (searchFuel ns es) (searchFuel ns es')) Hs') as H'.
  congruence.
Qed.

Lemma calculateMaxDepth_enabled w :
  calculateMaxDepth w = calculateMaxDepth (enabledOnly w).
Proof.
  destruct (calculateMaxDepth_total w) as [d Hd].
  destruct (calculateMaxDepth_total (enabledOnly w)) as [d' Hd'].
  rewrite Hd, Hd'. f_equal.
  unfold calculateMaxDepth in Hd, Hd'. simpl in Hd'.
  destruct (nodes w) as [|n ns]; [congruence|].
  rewrite <- detectCycles_enabled in Hd'.
  destruct (detectCycles (n :: ns) (edges w)) as [[|c cs]|]; [|congruence|done].
  rewrite <- buildAdjacency_enabled in Hd'.
  destruct (forM (depthRoot (searchFuel (n :: ns) (edges w)) _) _ _)
    as [r|] eqn:Hr; [|done].
  destruct (forM (depthRoot (searchFuel (n :: ns) (filter _ (edges w))) _) _ _)
    as [r'|] eqn:Hr'; [|done].
  simpl in Hd, Hd'. injection Hd as <-. injection Hd' as <-.
  pose proof (depth_fuel_mono _ _ _ _ _ _
                (Nat.le_max_l (searchFuel (n :: ns) (edges w))
                   (searchFuel (n :: ns)
                      (filter (fun e => edge_enabled e = true) (edges w)))) Hr) as H.
  pose proof (depth_fuel_mono _ _ _ _ _ _
                (Nat.le_max_r (searchFuel (n :: ns) (edges w))
                   (searchFuel (n :: ns)
                      (filter (fun e => edge_enabled e = true) (edges w)))) Hr') as H'.
  congruence.
Qed.

Lemma acyclic_depth w :
  acyclic w -> nodes w <> [] ->
  exists d,
    calculateMaxDepth w = Some d
    /\ (forall v l, v ∈ nodeIdSet (nodes w) -> isChain (edges w) (v :: l) = true ->
                    (length (v :: l) <= d)%nat)
    /\ (exists v l, v ∈ nodeIdSet (nodes w) /\ isChain (edges w) (v :: l) = true
                    /\ length (v :: l) = d).
Proof.
  intros Hac Hne. unfold calculateMaxDepth.
  destruct (nodes w) as [|n ns] eqn:Hn; [done|]. rewrite <- Hn.
  rewrite (detectCycles_sound w Hac).
  destruct (depthRoots_run (nodes w) (edges w)) as (m & s & Hrun & Hok).
  rewrite Hrun. exists m. split; [done|].
  destruct Hok as [Hub Hwit]; [intros v; by apply acyclic_tc|].
  split.
  - intros v l Hv Hc. apply elem_of_list_to_set, list_elem_of_fmap in Hv as (k & -> & Hk).
    apply (Hub k l Hk). by apply walk_isChain.
  - destruct Hwit as [->|(k & l & Hk & Hw & Hlen)].
    + assert (Hin : n ∈ nodes w) by (rewrite Hn; left).
      pose proof (Hub n [] Hin I) as H. simpl in H. lia.
    + exists (node_id k), l.
      split; [|split; [by apply (walk_isChain (nodes w) (edges w))|done]].
      apply elem_of_list_to_set, list_elem_of_fmap. eauto.
Qed.

(** Every enabled edge ends at a declared node. *)
Definition targetsDeclared (w : WorkflowDefinition) : bool :=
  forallb (fun e => negb (edge_enabled e)
                    || bool_decide (target e ∈ nodeIdSet (nodes w))) (edges w).

Definition allDeclared (w : WorkflowDefinition) (l : list string) : bool :=
  forallb (fun x => bool_decide (x ∈ nodeIdSet (nodes w))) l.

Lemma chain_of_nodes w l : forall v,
  targetsDeclared w = true -> v ∈ nodeIdSet (nodes w) ->
  isChain (edges w) (v :: l) = true -> allDeclared w (v :: l) = true.
Proof.
  unfold allDeclared.
  induction l as [|y l IH]; intros v Ht Hv Hc; simpl.
  - by rewrite bool_decide_eq_true_2.
  - rewrite bool_decide_eq_true_2 by done. simpl.
    change (isChain (edges w) (v :: y :: l))
      with (linked (edges w) v y && isChain (edges w) (y :: l)) in Hc.
    apply andb_prop in Hc as [Hl Hc]. apply IH; [done| |done].
    unfold linked in Hl. apply existsb_exists in Hl as (e & Hin & He).
    apply andb_prop in He as [He Hy]. apply andb_prop in He as [He _].
    apply bool_decide_eq_true in Hy. subst y.
    unfold targetsDeclared in Ht. rewrite forallb_forall in Ht.
    specialize (Ht e Hin). rewrite He in Ht. simpl in Ht.
    by apply bool_decide_eq_true in Ht.
Qed.

(** ** Sample graphs *)

Definition sampleNode (i : string) : WorkflowNode :=
  {| node_id := i; node_type := "process";
     position := Some {| pos_x := 0; pos_y := 0 |};
     has_config := true; inputs := [] |}.

Definition sampleEdge (i s t : string) (en : option bool) : WorkflowEdge :=
  {| edge_id := i; source := s; sourceOutput := "out";
     target := t; targetInput := "in"; enabled := en |}.

Definition sampleWorkflow (ns : list WorkflowNode) (es : list WorkflowEdge)
  : WorkflowDefinition :=
  {| wf_id := "wf"; wf_name := "sample"; wf_version := "1.0.0";
     nodes := ns; edges := es; settings := None |}.

(** A -> B -> C *)
Definition chain3 : WorkflowDefinition :=
  sampleWorkflow [sampleNode "A"; sampleNode "B"; sampleNode "C"]
    [sampleEdge "e1" "A" "B" None; sampleEdge "e2" "B" "C" None].

(** A -> B -> D and A -> C -> D *)
Definition diamond : WorkflowDefinition :=
  sampleWorkflow [sampleNode "A"; sampleNode "B"; sampleNode "C"; sampleNode "D"]
    [sampleEdge "e1" "A" "B" None; sampleEdge "e2" "A" "C" None;
     sampleEdge "e3" "B" "D" None; sampleEdge "e4" "C" "D" None].

(** A -> B -> C -> A *)
Definition triangle : WorkflowDefinition :=
  sampleWorkflow [sampleNode "A"; sampleNode "B"; sampleNode "C"]
    [sampleEdge "e1" "A" "B" None; sampleEdge "e2" "B" "C" None;
     sampleEdge "e3" "C" "A" (Some true)].

(** The triangle with its closing edge disabled. *)
Definition openTriangle : WorkflowDefinition :=
  sampleWorkflow [sampleNode "A"; sampleNode "B"; sampleNode "C"]
    [sampleEdge "e1" "A" "B" None; sampleEdge "e2" "B" "C" None;
     sampleEdge "e3" "C" "A" (Some false)].

Definition alphabetical (x : string) : nat :=
  match x with
  | String a _ => nat_of_ascii a
  | EmptyString => 0%nat
  end.

Lemma chain3_acyclic : acyclic chain3.
Proof. apply (ranked_acyclic alphabetical). reflexivity. Qed.

Lemma diamond_acyclic : acyclic diamond.
Proof. apply (ranked_acyclic alphabetical). reflexivity. Qed.

Lemma openTriangle_acyclic : acyclic openTriangle.
Proof. apply (ranked_acyclic alphabetical). reflexivity. Qed.

Definition depthOf (registry : gset string) (w : WorkflowDefinition) : option nat :=
  r ← validate registry w; Some (maxDepth (stats r)).

Definition circularErrors (registry : gset string) (w : WorkflowDefinition)
  : option (list ValidationError) :=
  r ← validate registry w; Some (filter (fun e => circular e = true) (res_errors r)).

(** ** What [validate] guarantees *)

(** C1. A graph with a directed cycle among its nodes (along enabled
    edges) is invalid: [validate] answers, [valid] is false, and the error
    list holds an error with code CIRCULAR_DEPENDENCY. *)
Theorem cycle_is_reported registry w c :
  isCycle w c = true ->
  exists r, validate registry w = Some r
            /\ valid r = false
            /\ exists e, e ∈ res_errors r /\ code e = "CIRCULAR_DEPENDENCY".
Proof.
  intros Hc. apply isCycle_tc in Hc as (v & Hv & Hcyc).
  destruct (validate_run registry w) as (rep & d & Hrep & _ & Hval).
  eexists. split; [exact Hval|]. simpl.
  unfold validateTopology in Hrep.
  pose proof (nodeIdSet_nonempty _ _ Hv) as Hne.
  destruct (nodes w) as [|n ns] eqn:Hn; [done|]. rewrite <- Hn in *.
  destruct (detectCycles (nodes w) (edges w)) as [cs|] eqn:Hcs; [|done].
  pose proof (detectCycles_complete _ _ v cs Hv Hcyc Hcs) as Hcsne.
  simpl in Hrep. injection Hrep as <-.
  destruct (errors_validateSettings w
              (connectivityWarnings (nodes w) (edges w)
                 (foldl (fun r cycle => pushError (cycleError cycle) r)
                    (afterEdges registry w) cs))) as [extra ->].
  rewrite errors_connectivityWarnings, errors_cycleErrors.
  destruct cs as [|c0 cs]; [done|]. split.
  - apply bool_decide_eq_false. rewrite !length_app. simpl. lia.
  - exists (cycleError c0). split; [|done].
    apply elem_of_app. left. apply elem_of_app. right. left.
Qed.

Lemma cycle_is_reported_witness :
  isCycle triangle ["A"; "B"; "C"] = true
  /\ exists r, validate ∅ triangle = Some r
               /\ valid r = false
               /\ exists e, e ∈ res_errors r /\ code e = "CIRCULAR_DEPENDENCY".
Proof.
  split; [vm_compute; reflexivity|].
  apply (cycle_is_reported ∅ triangle ["A"; "B"; "C"]). vm_compute; reflexivity.
Defined.

(** C2. On an acyclic graph the [maxDepth] statistic of [validate] is
    the number of nodes on a longest directed chain: no chain that starts
    at a declared node is longer, and one of them has exactly that length
    (made of declared nodes only when every enabled edge ends at one); the
    linear chain A -> B -> C and the diamond both have depth 3.  Whenever
    [detectCycles] reports a cycle the statistic is 0. *)
Theorem maxDepth_is_longest_chain :
  (forall registry w,
      acyclic w ->
      exists r, validate registry w = Some r
        /\ (forall v l, v ∈ nodeIdSet (nodes w) -> isChain (edges w) (v :: l) = true ->
                        (length (v :: l) <= maxDepth (stats r))%nat)
        /\ (nodes w = [] -> maxDepth (stats r) = 0%nat)
        /\ (nodes w <> [] ->
            exists v l, v ∈ nodeIdSet (nodes w)
                        /\ isChain (edges w) (v :: l) = true
                        /\ length (v :: l) = maxDepth (stats r)
                        /\ (targetsDeclared w = true -> allDeclared w (v :: l) = true)))
  /\ (forall registry w c cs,
         detectCycles (nodes w) (edges w) = Some (c :: cs) ->
         exists r, validate registry w = Some r /\ maxDepth (stats r) = 0%nat)
  /\ depthOf ∅ chain3 = Some 3%nat
  /\ depthOf ∅ diamond = Some 3%nat.
Proof.
  split; [|split; [|split; vm_compute; reflexivity]].
  - intros registry w Hac.
    destruct (validate_run registry w) as (rep & d & _ & Hd & Hval).
    eexists. split; [exact Hval|]. simpl.
    destruct (nodes w) as [|n ns] eqn:Hn.
    + unfold calculateMaxDepth in Hd. rewrite Hn in Hd. injection Hd as <-.
      split; [|split; [done|done]].
      intros v l Hv. unfold nodeIdSet in Hv. set_solver.
    + rewrite <- Hn in *.
      assert (Hne : nodes w <> []) by (rewrite Hn; done).
      destruct (acyclic_depth w Hac Hne) as (d' & Hd' & Hub & v & l & Hv & Hc & Hlen).
      assert (d' = d) as -> by congruence.
      split; [done|]. split; [by rewrite Hn|].
      intros _. exists v, l. do 3 (split; [done|]).
      intros Ht. by apply chain_of_nodes.
  - intros registry w c cs Hcs.
    destruct (validate_run registry w) as (rep & d & _ & Hd & Hval).
    eexists. split; [exact Hval|]. simpl.
    unfold calculateMaxDepth in Hd. rewrite Hcs in Hd.
    destruct (nodes w); congruence.
Qed.

Lemma maxDepth_is_longest_chain_witness :
  acyclic chain3
  /\ (exists r, validate ∅ chain3 = Some r
        /\ (length ["A"; "B"; "C"] <= maxDepth (stats r))%nat)
  /\ detectCycles (nodes triangle) (edges triangle) = Some [["A"; "B"; "C"; "A"]]
  /\ (exists r, validate ∅ triangle = Some r /\ maxDepth (stats r) = 0%nat).
Proof.
  destruct maxDepth_is_longest_chain as (Hacyclic & Hcyclic & _).
  split; [exact chain3_acyclic|]. split; [|split].
  - destruct (Hacyclic ∅ chain3 chain3_acyclic) as (r & Hr & Hub & _).
    exists r. split; [done|]. apply (Hub "A" ["B"; "C"]); vm_compute; reflexivity.
  - vm_compute; reflexivity.
  - apply (Hcyclic ∅ triangle ["A"; "B"; "C"; "A"] []). vm_compute; reflexivity.
Defined.

(** An enabled edge to an id that no node declares still makes a step of a
    chain (the edge checks report it as INVALID_TARGET_NODE). *)
Example undeclared_target_counts :
  depthOf ∅ (sampleWorkflow [sampleNode "A"] [sampleEdge "e1" "A" "ghost" None])
  = Some 2%nat.
Proof. vm_compute. reflexivity. Qed.

(** The same edges with their [enabled] fields rewritten at will. *)
Definition reflag (flags : WorkflowEdge -> option bool) (es : list WorkflowEdge)
  : list WorkflowEdge :=
  (fun e => {| edge_id := edge_id e; source := source e;
               sourceOutput := sourceOutput e; target := target e;
               targetInput := targetInput e; enabled := flags e |}) <$> es.

Lemma nodesWithInputs_reflag flags es :
  nodesWithInputs (reflag flags es) = nodesWithInputs es.
Proof.
  unfold nodesWithInputs, reflag. f_equal.
  rewrite <- list_fmap_compose. by apply list_fmap_ext.
Qed.

Lemma nodesWithOutputs_reflag flags es :
  nodesWithOutputs (reflag flags es) = nodesWithOutputs es.
Proof.
  unfold nodesWithOutputs, reflag. f_equal.
  rewrite <- list_fmap_compose. by apply list_fmap_ext.
Qed.

(** A -> B, disabled. *)
Definition disabledPair : WorkflowDefinition :=
  sampleWorkflow [sampleNode "A"; sampleNode "B"]
    [sampleEdge "e1" "A" "B" (Some false)].

Definition topologyWarnings (w : WorkflowDefinition) : list string :=
  w_code <$> warnings (connectivityWarnings (nodes w) (edges w)
                         {| errors := []; warnings := [] |}).

(** C10. Edges whose [enabled] field is [false] play no part in cycle
    detection or in the depth: both answer as on the graph without them,
    and a graph whose enabled edges form no cycle gets no
    CIRCULAR_DEPENDENCY error and a depth of at least 1 (the triangle with
    its closing edge disabled has depth 3 and no such error).  The
    isolated-node, start-node and end-node warnings and the
    [startNodes] / [endNodes] counts do not depend on the [enabled] fields
    (two nodes joined by a disabled edge are not isolated, and count one
    start node and one end node). *)
Theorem disabled_edges :
  (forall ns es,
      detectCycles ns es = detectCycles ns (filter (fun e => edge_enabled e = true) es))
  /\ (forall w, calculateMaxDepth w = calculateMaxDepth (enabledOnly w))
  /\ (forall registry w,
         acyclic w ->
         exists r, validate registry w = Some r
           /\ forallb (fun e => negb (circular e)) (res_errors r) = true
           /\ (nodes w <> [] -> (1 <= maxDepth (stats r))%nat))
  /\ (forall flags ns es r,
         connectivityWarnings ns (reflag flags es) r = connectivityWarnings ns es r
         /\ startNodesOf ns (reflag flags es) = startNodesOf ns es
         /\ endNodesOf ns (reflag flags es) = endNodesOf ns es)
  /\ (depthOf ∅ openTriangle = Some 3%nat /\ circularErrors ∅ openTriangle = Some [])
  /\ (topologyWarnings disabledPair = []
      /\ (startNodes <$> calculateStats disabledPair) = Some 1%nat
      /\ (endNodes <$> calculateStats disabledPair) = Some 1%nat).
Proof.
  split; [exact detectCycles_enabled|]. split; [exact calculateMaxDepth_enabled|].
  split; [|split; [|split; [split|repeat split]; vm_compute; reflexivity]].
  - intros registry w Hac.
    destruct (validate_run registry w) as (rep & d & Hrep & Hd & Hval).
    eexists. split; [exact Hval|]. simpl. split.
    + apply NoCircular_validateSettings.
      unfold validateTopology in Hrep. destruct (nodes w) as [|n ns] eqn:Hn.
      * injection Hrep as <-. apply NoCircular_pushWarning, NoCircular_afterEdges.
      * rewrite <- Hn in Hrep. rewrite (detectCycles_sound w Hac) in Hrep.
        simpl in Hrep. injection Hrep as <-. unfold NoCircular.
        rewrite errors_connectivityWarnings. apply NoCircular_afterEdges.
    + intros Hne.
      destruct (acyclic_depth w Hac Hne) as (d' & Hd' & _ & v & l & _ & _ & Hlen).
      assert (d' = d) as -> by congruence. simpl in Hlen. lia.
  - intros flags ns es r.
    unfold connectivityWarnings, isolatedWarning, startNodesOf, endNodesOf.
    by rewrite nodesWithInputs_reflag, nodesWithOutputs_reflag.
Qed.

Lemma disabled_edges_witness :
  acyclic openTriangle
  /\ exists r, validate ∅ openTriangle = Some r
       /\ forallb (fun e => negb (circular e)) (res_errors r) = true
       /\ (nodes openTriangle <> [] -> (1 <= maxDepth (stats r))%nat).
Proof.
  split; [exact openTriangle_acyclic|].
  apply (proj1 (proj2 (proj2 disabled_edges)) ∅ openTriangle), openTriangle_acyclic.
Defined.

End ValidatorProofs.

(** * Properties of the execution history *)

Module HistoryProofs.
Import ExecutionHistory.

(** ** The storage *)

(** What [get] answers for a key. *)
Definition stored (w : World) (k : string) : option WorkflowExecutionRecord :=
  match cache_get (cache w) k with
  | Some r => Some r
  | None => files w !! k
  end.

(** Two worlds that differ at most in their cache. *)
Definition sameButCache (w w' : World) : Prop :=
  files w' = files w /\ clock w' = clock w /\ ticks w' = ticks w
  /\ console w' = console w /\ timers w' = timers w.

Lemma cache_get_set c k r : cache_get (cache_set c k r) k = Some r.
Proof.
  induction c as [|[k' r'] c IH]; simpl.
  - by rewrite bool_decide_eq_true_2.
  - case_bool_decide as Hk; simpl.
    + by rewrite bool_decide_eq_true_2.
    + by rewrite bool_decide_eq_false_2.
Qed.

Lemma cache_get_updateCache c k r : cache_get (updateCache c k r) k = Some r.
Proof. unfold updateCache. apply cache_get_set. Qed.

Lemma get_returns w k : fst (get k w) = Returned (stored w k).
Proof.
  unfold get, stored. destruct (cache_get (cache w) k); [done|].
  by destruct (files w !! k).
Qed.

Lemma get_found w k r :
  fst (get k w) = Returned (Some r) ->
  exists w1, get k w = (Returned (Some r), w1) /\ sameButCache w w1.
Proof.
  unfold get. destruct (cache_get (cache w) k) as [r0|].
  - simpl. intros [= ->]. by eexists.
  - destruct (files w !! k) as [r0|]; simpl; [|done].
    intros [= ->]. by eexists.
Qed.

Lemma save_spec r w :
  exists w',
    save r w = (Returned (setUpdatedAt (clock w (ticks w)) r), w')
    /\ fst (get (id r) w') = Returned (Some (setUpdatedAt (clock w (ticks w)) r))
    /\ clock w' = clock w /\ ticks w' = S (ticks w)
    /\ console w' = console w /\ timers w' = timers w.
Proof.
  eexists. split; [reflexivity|]. simpl. split; [|done].
  unfold get. simpl. by rewrite cache_get_updateCache.
Qed.

(** ** Node lists *)

Lemma findIndex_None {A} (p : A -> bool) l :
  findIndex p l = None -> forall a, a ∈ l -> p a = false.
Proof.
  induction l as [|x l IH]; simpl; intros H a Ha; [by apply elem_of_nil in Ha|].
  destruct (p x) eqn:Hx; [done|].
  destruct (findIndex p l); [done|].
  apply elem_of_cons in Ha as [->|Ha]; auto.
Qed.

(** The index found is that of the first element that satisfies [p]. *)
Lemma findIndex_Some {A} (p : A -> bool) l i :
  findIndex p l = Some i ->
  exists pre a post,
    l = pre ++ a :: post /\ length pre = i /\ p a = true
    /\ forall x, x ∈ pre -> p x = false.
Proof.
  revert i. induction l as [|x l IH]; simpl; intros i H; [done|].
  destruct (p x) eqn:Hx.
  - injection H as <-. exists [], x, l. repeat split; auto.
    intros y Hy. by apply elem_of_nil in Hy.
  - destruct (findIndex p l) as [j|]; [|done]. injection H as <-.
    destruct (IH j eq_refl) as (pre & a & post & -> & <- & Ha & Hpre).
    exists (x :: pre), a, post. repeat split; auto.
    intros y Hy. apply elem_of_cons in Hy as [->|Hy]; auto.
Qed.

Lemma findIndex_first {A} (p : A -> bool) pre a post :
  p a = true -> (forall x, x ∈ pre -> p x = false) ->
  findIndex p (pre ++ a :: post) = Some (length pre).
Proof.
  intros Ha. induction pre as [|x pre IH]; simpl; intros Hpre.
  - by rewrite Ha.
  - rewrite (Hpre x) by left. rewrite IH; [done|].
    intros y Hy. apply Hpre. by right.
Qed.

Lemma filter_none {A} (p : A -> bool) l :
  (forall x, x ∈ l -> p x = false) -> List.filter p l = [].
Proof.
  induction l as [|x l IH]; simpl; intros H; [done|].
  rewrite (H x) by left. apply IH. intros y Hy. apply H. by right.
Qed.

Lemma sameNode_false k n : sameNode k n = false <-> nodeId n <> k.
Proof. unfold sameNode. apply bool_decide_eq_false. Qed.

Lemma sameNode_true k n : sameNode k n = true <-> nodeId n = k.
Proof. unfold sameNode. apply bool_decide_eq_true. Qed.

(** On a list with one entry per node id, [upsert] leaves exactly its
    argument under that id, and keeps the ids distinct. *)
Lemma upsert_spec n ns :
  NoDup (nodeId <$> ns) ->
  List.filter (sameNode (nodeId n)) (upsert n ns) = [n]
  /\ NoDup (nodeId <$> upsert n ns)
  /\ (forall k, k ∈ (nodeId <$> upsert n ns) <-> k = nodeId n \/ k ∈ (nodeId <$> ns)).
Proof.
  intros Hnd. unfold upsert.
  destruct (findIndex (sameNode (nodeId n)) ns) as [i|] eqn:Hi.
  - apply findIndex_Some in Hi as (pre & a & post & -> & <- & Ha & Hpre).
    apply sameNode_true in Ha.
    assert (Hins : <[length pre := n]> (pre ++ a :: post) = pre ++ n :: post).
    { rewrite insert_app_r_alt by lia. by rewrite Nat.sub_diag. }
    rewrite Hins. rewrite fmap_app, fmap_cons in Hnd.
    apply NoDup_app in Hnd as (Hnd1 & Hdisj & Hnd2).
    apply NoDup_cons in Hnd2 as [Hfresh Hnd2].
    split; [|split].
    + rewrite List.filter_app. simpl.
      rewrite (proj2 (sameNode_true _ _) eq_refl).
      rewrite filter_none by done. simpl. f_equal.
      apply filter_none. intros x Hx. apply sameNode_false. intros Hxk.
      apply Hfresh. rewrite Ha, <- Hxk. apply list_elem_of_fmap. eauto.
    + rewrite fmap_app, fmap_cons, <- Ha.
      apply NoDup_app. split; [done|]. split; [done|]. by apply NoDup_cons.
    + intros k. rewrite !fmap_app, !fmap_cons, !elem_of_app, !elem_of_cons, Ha. tauto.
  - pose proof (findIndex_None _ _ Hi) as Hnone.
    split; [|split].
    + rewrite List.filter_app, filter_none by done. simpl.
      by rewrite (proj2 (sameNode_true _ _) eq_refl).
    + rewrite fmap_app. apply NoDup_app. split; [done|]. split.
      * intros k Hk Hk'. apply list_elem_of_singleton in Hk'. subst k.
        apply list_elem_of_fmap in Hk as (x & Hx & Hin).
        specialize (Hnone x Hin). apply sameNode_false in Hnone. congruence.
      * apply NoDup_singleton.
    + intros k. rewrite fmap_app, elem_of_app. simpl.
      rewrite list_elem_of_singleton. tauto.
Qed.

Lemma countStatus_cons st n ns :
  countStatus st (n :: ns) = (if hasStatus st n then 1 else 0) + countStatus st ns.
Proof.
  unfold countStatus. simpl. destruct (hasStatus st n); simpl length; lia.
Qed.

(** Completed, failed and skipped records are different records. *)
Lemma counts_le_length ns :
  countStatus NODE_COMPLETED ns + countStatus NODE_FAILED ns
  + countStatus NODE_SKIPPED ns <= Z.of_nat (length ns).
Proof.
  induction ns as [|n ns IH]; [done|].
  rewrite !countStatus_cons. unfold hasStatus.
  destruct (status n); repeat case_bool_decide; try done; simpl length; lia.
Qed.

(** ** The operations on a stored record *)


Lemma addNodeExecution_run w k r n :
  fst (get k w) = Returned (Some r) ->
  exists w',
    addNodeExecution k n w = (Returned tt, w')
    /\ fst (get (id r) w') =
       Returned (Some (setUpdatedAt (clock w (ticks w))
                         (recount (withNodes (upsert n (nodes r)) r))))
    /\ clock w' = clock w /\ ticks w' = S (ticks w).
Proof.
  intros Hget. destruct (get_found w k r Hget) as (w1 & Hrun & _ & Hc & Ht & _).
  unfold addNodeExecution, bind. rewrite Hrun.
  destruct (save_spec (recount (withNodes (upsert n (nodes r)) r)) w1)
    as (w' & Hsave & Hget' & Hc' & Ht' & _).
  rewrite Hsave. exists w'. split; [done|].
  rewrite Hc, Ht in Hget'. split; [done|]. split; congruence.
Qed.

Lemma updateStatus_run w k r st err :
  fst (get k w) = Returned (Some r) ->
  exists w' r',
    updateStatus k st err w = (Returned tt, w')
    /\ fst (get (id r) w') = Returned (Some r')
    /\ id r' = id r
    /\ exec_status r' = st
    /\ (isTerminal st = true ->
        exec_endTime r' = Some (clock w (ticks w))
        /\ exec_duration r' = Some (clock w (ticks w) - exec_startTime r))
    /\ (isTerminal st = false ->
        exec_endTime r' = exec_endTime r /\ exec_duration r' = exec_duration r).
Proof.
  intros Hget. destruct (get_found w k r Hget) as (w1 & Hrun & _ & Hc & Ht & _).
  unfold updateStatus, bind. rewrite Hrun.
  assert (Hkeep : forall (x : WorkflowExecutionRecord),
             id x = id r -> exec_status x = st ->
             let x' := withSuccessRate
                         match err with Some e => withError e x | None => x end in
             id x' = id r /\ exec_status x' = st
             /\ exec_endTime x' = exec_endTime x
             /\ exec_duration x' = exec_duration x).
  { intros x Hx Hst. unfold withSuccessRate.
    destruct err; simpl; case_match; done. }
  destruct (isTerminal st) eqn:Hterm.
  - assert (Hrunning : bool_decide (st = RUNNING) = false)
      by (apply bool_decide_eq_false; by destruct st).
    rewrite Hrunning. cbn -[save].
    match goal with
    | |- context [save ?x ?y] =>
        destruct (save_spec x y) as (w' & Hsave & Hget' & _); rewrite Hsave;
        destruct (Hkeep
                    (withEnd (clock w1 (ticks w1))
                       (clock w1 (ticks w1) - exec_startTime r) (withStatus st r))
                    eq_refl eq_refl) as (Hid & Hst & Hend & Hdur)
    end.
    rewrite Hid in Hget'.
    eexists w', _. split; [done|]. split; [exact Hget'|]. simpl.
    split; [done|]. split; [done|]. split; [|done]. intros _.
    rewrite Hend, Hdur. simpl. by rewrite Hc, Ht.
  - destruct (bool_decide (st = RUNNING) && (exec_startTime (withStatus st r) =? 0));
      cbn -[save];
      match goal with
      | |- context [save (withSuccessRate match err with
                                          | Some e => withError e ?x
                                          | None => _ end) ?y] =>
          destruct (save_spec
                      (withSuccessRate
                         match err with Some e => withError e x | None => x end) y)
            as (w' & Hsave & Hget' & _); rewrite Hsave;
          destruct (Hkeep x eq_refl eq_refl)
            as (Hid & Hst & Hend & Hdur)
      end;
      rewrite Hid in Hget';
      (eexists w', _; split; [done|]; split; [exact Hget'|]; simpl;
       split; [done|]; split; [done|]; split; [done|]; intros _;
       by rewrite Hend, Hdur).
Qed.

(** ** Sample worlds *)

Definition sampleClock (n : nat) : Z := 2000 + 1000 * Z.of_nat n.

Definition emptyWorld : World :=
  {| cache := []; files := ∅; clock := sampleClock; ticks := 0;
     console := []; timers := [] |}.

Definition sampleNodeRecord (k : string) (st : NodeExecutionStatus)
  : NodeExecutionRecord :=
  {| nodeId := k; nodeName := k; nodeType := "process"; status := st;
     startTime := 1000; endTime := None; duration := None;
     inputs := None; outputs := None; error := None; retryCount := None;
     logs := None |}.

Definition sampleRecord (ns : list NodeExecutionRecord) (cs : option (list Checkpoint))
  : WorkflowExecutionRecord :=
  {| id := "exec-1"; workflowId := "wf"; workflowName := "sample";
     workflowVersion := Some "1.0.0"; exec_status := RUNNING;
     exec_startTime := 1000; exec_endTime := None; exec_duration := None;
     trigger := {| trigger_type := manual; userId := None; userName := None;
                   data := None |};
     context := {| environment := None; variables := None; metadata := None |};
     nodes := ns;
     stats := {| totalNodes := 3; completedNodes := 0; failedNodes := 0;
                 skippedNodes := 0; successRate := None |};
     exec_error := None; checkpoints := cs; createdAt := 1000; updatedAt := 1000 |}.

(** The world whose storage directory holds [r] and nothing else. *)
Definition worldWith (r : WorkflowExecutionRecord) : World :=
  {| cache := []; files := {[ id r := r ]}; clock := sampleClock; ticks := 0;
     console := []; timers := [] |}.

Definition runIn {A} (c : M A) (w : World) : World := snd (c w).

Definition lookupIn (w : World) (k : string) : Outcome (option WorkflowExecutionRecord) :=
  fst (get k w).

(** ** C6: end time and duration *)

(** C6, as stated, fails: a record completed at 2000 and then marked
    failed carries the end time 4000 and the duration 3000 instead of the
    2000 and 1000 stamped first. *)
Lemma endTime_restamped :
  let w0 := worldWith (sampleRecord [] None) in
  let w1 := runIn (updateStatus "exec-1" COMPLETED None) w0 in
  let w2 := runIn (updateStatus "exec-1" FAILED None) w1 in
  exists r1 r2,
    lookupIn w1 "exec-1" = Returned (Some r1)
    /\ lookupIn w2 "exec-1" = Returned (Some r2)
    /\ exec_endTime r1 = Some 2000 /\ exec_duration r1 = Some 1000
    /\ exec_endTime r2 = Some 4000 /\ exec_duration r2 = Some 3000.
Proof. vm_compute. eexists _, _. repeat split. Qed.

(** C6, amended. [updateStatus] on a stored record sets the status; when
    the new status is COMPLETED, FAILED or CANCELLED it stamps the end time
    with the current time and the duration with end minus start, whatever
    was there before; when the new status is any other, end time and
    duration stay as they were. *)
Theorem updateStatus_end_time w k r st err :
  fst (get k w) = Returned (Some r) ->
  exists w' r',
    updateStatus k st err w = (Returned tt, w')
    /\ fst (get (id r) w') = Returned (Some r')
    /\ exec_status r' = st
    /\ (isTerminal st = true ->
        exec_endTime r' = Some (clock w (ticks w))
        /\ exec_duration r' = Some (clock w (ticks w) - exec_startTime r))
    /\ (isTerminal st = false ->
        exec_endTime r' = exec_endTime r /\ exec_duration r' = exec_duration r).
Proof.
  intros Hget.
  destruct (updateStatus_run w k r st err Hget)
    as (w' & r' & Hrun & Hget' & _ & Hst & Hterm & Hother).
  by exists w', r'.
Qed.

Lemma updateStatus_end_time_witness :
  let w := worldWith (sampleRecord [] None) in
  exists w' r',
    updateStatus "exec-1" CANCELLED None w = (Returned tt, w')
    /\ fst (get "exec-1" w') = Returned (Some r')
    /\ exec_status r' = CANCELLED
    /\ (isTerminal CANCELLED = true ->
        exec_endTime r' = Some 2000 /\ exec_duration r' = Some (2000 - 1000))
    /\ (isTerminal CANCELLED = false ->
        exec_endTime r' = None /\ exec_duration r' = None).
Proof.
  apply (updateStatus_end_time (worldWith (sampleRecord [] None)) "exec-1"
           (sampleRecord [] None) CANCELLED None).
  vm_compute. reflexivity.
Defined.

(** ** C7: the node counts *)

Definition nodeCounts (r : WorkflowExecutionRecord) : Z :=
  completedNodes (stats r) + failedNodes (stats r) + skippedNodes (stats r).

Definition oneNodeWorkflow : WorkflowDefinition :=
  {| wf_id := "wf"; wf_name := "sample"; wf_version := "1.0.0";
     WorkflowDefinition.nodes :=
       [{| node_id := "A"; node_type := "process"; position := None;
           has_config := true; WorkflowDefinition.inputs := [] |}];
     edges := []; settings := None |}.

Definition manualTrigger : Trigger :=
  {| trigger_type := manual; userId := None; userName := None; data := None |}.

(** C7, as stated, fails: an execution created for a one-node graph that
    is told of two completed nodes counts 2 completed out of 1. *)
Lemma node_counts_exceed_total :
  let w1 := runIn (createExecution oneNodeWorkflow manualTrigger None "r4nd0m") emptyWorld in
  let k := "exec_wf_2000_r4nd0m" in
  let w2 := runIn (addNodeExecution k (sampleNodeRecord "A" NODE_COMPLETED)) w1 in
  let w3 := runIn (addNodeExecution k (sampleNodeRecord "B" NODE_COMPLETED)) w2 in
  exists r,
    lookupIn w3 k = Returned (Some r)
    /\ totalNodes (stats r) = 1
    /\ nodeCounts r = 2
    /\ ~ (nodeCounts r <= totalNodes (stats r)).
Proof. vm_compute. eexists. repeat split. intros H. by apply H. Qed.

(** The executions of [addNodeExecution] for the records of [history], in
    order. *)
Definition recordAll (k : string) (history : list NodeExecutionRecord) (w : World)
  : World :=
  foldl (fun w n => runIn (addNodeExecution k n) w) w history.

Lemma createExecution_run workflow trg ctx suffix w :
  exists r0 w0,
    createExecution workflow trg ctx suffix w = (Returned r0, w0)
    /\ fst (get (id r0) w0) = Returned (Some r0)
    /\ nodes r0 = []
    /\ totalNodes (stats r0) = Z.of_nat (length (WorkflowDefinition.nodes workflow))
    /\ nodeCounts r0 = 0.
Proof.
  unfold createExecution, bind. simpl.
  match goal with
  | |- context [save ?x ?y] => destruct (save_spec x y) as (w0 & Hsave & Hget & _)
  end.
  rewrite Hsave. eexists _, w0. split; [reflexivity|]. split; [exact Hget|]. done.
Qed.

(** What one [addNodeExecution] does to the record it finds. *)
Lemma addNodeExecution_step w k r n :
  fst (get k w) = Returned (Some r) ->
  exists w' r',
    addNodeExecution k n w = (Returned tt, w')
    /\ fst (get (id r) w') = Returned (Some r')
    /\ id r' = id r
    /\ totalNodes (stats r') = totalNodes (stats r)
    /\ nodes r' = upsert n (nodes r)
    /\ completedNodes (stats r') = countStatus NODE_COMPLETED (nodes r')
    /\ failedNodes (stats r') = countStatus NODE_FAILED (nodes r')
    /\ skippedNodes (stats r') = countStatus NODE_SKIPPED (nodes r').
Proof.
  intros Hget.
  destruct (addNodeExecution_run w k r n Hget) as (w' & Hrun & Hget' & _).
  eexists w', _. split; [done|]. split; [exact Hget'|]. done.
Qed.

(** The record the recorder keeps for a graph: stored under its own id,
    one entry per node id, every entry about a node of the graph, and
    [totalNodes] the size of the graph. *)
Definition Tracks (graph : list WorkflowNode) (k : string) (r : WorkflowExecutionRecord)
  : Prop :=
  id r = k
  /\ NoDup (nodeId <$> nodes r)
  /\ (forall x, x ∈ (nodeId <$> nodes r) -> x ∈ (node_id <$> graph))
  /\ totalNodes (stats r) = Z.of_nat (length graph).

Lemma Tracks_bounded graph k r :
  Tracks graph k r ->
  completedNodes (stats r) = countStatus NODE_COMPLETED (nodes r) ->
  failedNodes (stats r) = countStatus NODE_FAILED (nodes r) ->
  skippedNodes (stats r) = countStatus NODE_SKIPPED (nodes r) ->
  nodeCounts r <= totalNodes (stats r).
Proof.
  intros (_ & Hnd & Hsub & Htotal) Hc Hf Hs.
  pose proof (counts_le_length (nodes r)) as Hle.
  pose proof (submseteq_length _ _ (NoDup_submseteq _ _ Hnd Hsub)) as Hlen.
  rewrite !length_fmap in Hlen. unfold nodeCounts. lia.
Qed.

Lemma Tracks_upsert graph k r r' n :
  Tracks graph k r ->
  nodeId n ∈ (node_id <$> graph) ->
  id r' = id r -> totalNodes (stats r') = totalNodes (stats r) ->
  nodes r' = upsert n (nodes r) ->
  Tracks graph k r'.
Proof.
  intros (Hid & Hnd & Hsub & Htotal) Hn Hid' Htotal' Hnodes.
  destruct (upsert_spec n (nodes r) Hnd) as (_ & Hnd' & Hids).
  unfold Tracks. rewrite Hnodes. split; [congruence|]. split; [done|].
  split; [|congruence].
  intros x Hx. apply Hids in Hx as [->|Hx]; auto.
Qed.

Lemma recordAll_tracks graph k history :
  (forall n, n ∈ history -> nodeId n ∈ (node_id <$> graph)) ->
  forall w r,
    fst (get k w) = Returned (Some r) ->
    Tracks graph k r ->
    nodeCounts r <= totalNodes (stats r) ->
    exists r',
      fst (get k (recordAll k history w)) = Returned (Some r')
      /\ Tracks graph k r'
      /\ nodeCounts r' <= totalNodes (stats r').
Proof.
  induction history as [|n history IH]; intros Hin w r Hget Htr Hle.
  - by exists r.
  - destruct (addNodeExecution_step w k r n Hget)
      as (w' & r' & Hrun & Hget' & Hid & Htotal & Hnodes & Hc & Hf & Hs).
    assert (Htr' : Tracks graph k r').
    { apply (Tracks_upsert graph k r r' n); auto. apply Hin. left. }
    change (recordAll k (n :: history) w)
      with (recordAll k history (runIn (addNodeExecution k n) w)).
    unfold runIn. rewrite Hrun. simpl.
    apply (IH (fun x Hx => Hin x (list_elem_of_further _ _ _ Hx)) w' r').
    + destruct Htr as (<- & _). exact Hget'.
    + exact Htr'.
    + by apply (Tracks_bounded graph k).
Qed.

Lemma recordAll_distinct k history :
  forall w r,
    fst (get k w) = Returned (Some r) ->
    id r = k -> NoDup (nodeId <$> nodes r) ->
    exists r',
      fst (get k (recordAll k history w)) = Returned (Some r')
      /\ id r' = k /\ NoDup (nodeId <$> nodes r').
Proof.
  induction history as [|n history IH]; intros w r Hget Hid Hnd.
  - by exists r.
  - destruct (addNodeExecution_step w k r n Hget)
      as (w' & r' & Hrun & Hget' & Hid' & _ & Hnodes & _).
    change (recordAll k (n :: history) w)
      with (recordAll k history (runIn (addNodeExecution k n) w)).
    unfold runIn. rewrite Hrun. simpl.
    apply (IH w' r').
    + by rewrite <- Hid.
    + congruence.
    + rewrite Hnodes. by destruct (upsert_spec n (nodes r) Hnd) as (_ & ? & _).
Qed.

(** C7, amended. After [addNodeExecution] the completed, failed and
    skipped counts add up to at most the number of node records of the
    list, and [totalNodes] is untouched.  They add up to at most
    [totalNodes] when [totalNodes] is the node count of the graph, the
    recorded node ids are pairwise distinct ids of nodes of that graph, and
    so is the id of the record passed in; the call keeps that condition.
    So it is for an execution made by [createExecution] after any calls
    whose node ids are ids of nodes of its graph. *)
Theorem node_counts_bounded :
  (forall (graph : list WorkflowNode) w k r n,
      fst (get k w) = Returned (Some r) ->
      exists w' r',
        addNodeExecution k n w = (Returned tt, w')
        /\ fst (get (id r) w') = Returned (Some r')
        /\ totalNodes (stats r') = totalNodes (stats r)
        /\ nodeCounts r' <= Z.of_nat (length (nodes r'))
        /\ (totalNodes (stats r) = Z.of_nat (length graph) ->
            NoDup (nodeId <$> nodes r) ->
            (forall x, x ∈ (nodeId <$> nodes r) -> x ∈ (node_id <$> graph)) ->
            nodeId n ∈ (node_id <$> graph) ->
            nodeCounts r' <= totalNodes (stats r')
            /\ NoDup (nodeId <$> nodes r')
            /\ (forall x, x ∈ (nodeId <$> nodes r') -> x ∈ (node_id <$> graph))))
  /\ (forall workflow trg ctx suffix w history,
         (forall n, n ∈ history ->
                    nodeId n ∈ (node_id <$> WorkflowDefinition.nodes workflow)) ->
         exists r0 w0 r',
           createExecution workflow trg ctx suffix w = (Returned r0, w0)
           /\ fst (get (id r0) (recordAll (id r0) history w0)) = Returned (Some r')
           /\ totalNodes (stats r')
              = Z.of_nat (length (WorkflowDefinition.nodes workflow))
           /\ nodeCounts r' <= totalNodes (stats r')).
Proof.
  split.
  - intros graph w k r n Hget.
    destruct (addNodeExecution_step w k r n Hget)
      as (w' & r' & Hrun & Hget' & Hid & Htotal & Hnodes & Hc & Hf & Hs).
    exists w', r'. do 3 (split; [done|]). split.
    { unfold nodeCounts. rewrite Hc, Hf, Hs. apply counts_le_length. }
    intros Hsize Hnd Hsub Hn.
    assert (Htr : Tracks graph (id r) r') by (by apply (Tracks_upsert graph (id r) r r' n)).
    split; [by apply (Tracks_bounded graph (id r))|].
    by destruct Htr as (_ & ? & ? & _).
  - intros workflow trg ctx suffix w history Hin.
    destruct (createExecution_run workflow trg ctx suffix w)
      as (r0 & w0 & Hrun & Hget & Hnodes & Htotal & Hcounts).
    destruct (recordAll_tracks (WorkflowDefinition.nodes workflow) (id r0) history Hin
                w0 r0 Hget) as (r' & Hget' & (_ & _ & _ & Htotal') & Hle).
    + split; [done|]. rewrite Hnodes. split; [constructor|]. split; [|done].
      intros x Hx. by apply elem_of_nil in Hx.
    + rewrite Hcounts, Htotal. lia.
    + by exists r0, w0, r'.
Qed.

Lemma node_counts_bounded_witness :
  exists r0 w0 r',
    createExecution oneNodeWorkflow manualTrigger None "r4nd0m" emptyWorld
    = (Returned r0, w0)
    /\ fst (get (id r0)
              (recordAll (id r0) [sampleNodeRecord "A" NODE_RUNNING;
                                  sampleNodeRecord "A" NODE_FAILED] w0))
       = Returned (Some r')
    /\ totalNodes (stats r') = 1
    /\ nodeCounts r' <= totalNodes (stats r').
Proof.
  apply (proj2 node_counts_bounded oneNodeWorkflow manualTrigger None "r4nd0m" emptyWorld
           [sampleNodeRecord "A" NODE_RUNNING; sampleNodeRecord "A" NODE_FAILED]).
  intros n Hn. apply elem_of_cons in Hn as [->|Hn]; [vm_compute; left|].
  apply list_elem_of_singleton in Hn as ->. vm_compute. left.
Defined.

(** ** C8: recording a node twice *)

Lemma upsert_others n ns :
  List.filter (fun x => negb (sameNode (nodeId n) x)) (upsert n ns)
  = List.filter (fun x => negb (sameNode (nodeId n) x)) ns.
Proof.
  unfold upsert. destruct (findIndex (sameNode (nodeId n)) ns) as [i|] eqn:Hi.
  - apply findIndex_Some in Hi as (pre & a & post & -> & <- & Ha & _).
    rewrite insert_app_r_alt by lia. rewrite Nat.sub_diag. cbn [insert list_insert].
    rewrite !List.filter_app. cbn [List.filter].
    by rewrite Ha, (proj2 (sameNode_true (nodeId n) n) eq_refl).
  - rewrite List.filter_app. cbn [List.filter].
    rewrite (proj2 (sameNode_true (nodeId n) n) eq_refl). apply app_nil_r.
Qed.

Lemma twice_on_distinct w k r n1 n2 :
  fst (get k w) = Returned (Some r) ->
  id r = k ->
  NoDup (nodeId <$> nodes r) ->
  nodeId n1 = nodeId n2 ->
  exists w1 w2 r2,
    addNodeExecution k n1 w = (Returned tt, w1)
    /\ addNodeExecution k n2 w1 = (Returned tt, w2)
    /\ fst (get k w2) = Returned (Some r2)
    /\ List.filter (fun n => bool_decide (nodeId n = nodeId n2)) (nodes r2) = [n2]
    /\ List.filter (fun n => negb (bool_decide (nodeId n = nodeId n2))) (nodes r2)
       = List.filter (fun n => negb (bool_decide (nodeId n = nodeId n2))) (nodes r)
    /\ completedNodes (stats r2)
       = Z.of_nat (length (List.filter (fun n => bool_decide (status n = NODE_COMPLETED))
                             (nodes r2)))
    /\ failedNodes (stats r2)
       = Z.of_nat (length (List.filter (fun n => bool_decide (status n = NODE_FAILED))
                             (nodes r2)))
    /\ skippedNodes (stats r2)
       = Z.of_nat (length (List.filter (fun n => bool_decide (status n = NODE_SKIPPED))
                             (nodes r2))).
Proof.
  intros Hget Hid Hnd Hsame.
  destruct (addNodeExecution_step w k r n1 Hget)
    as (w1 & r1 & Hrun1 & Hget1 & Hid1 & _ & Hnodes1 & _).
  rewrite Hid in Hget1.
  destruct (addNodeExecution_step w1 k r1 n2 Hget1)
    as (w2 & r2 & Hrun2 & Hget2 & Hid2 & _ & Hnodes2 & Hc & Hf & Hs).
  rewrite Hid1, Hid in Hget2.
  exists w1, w2, r2. do 3 (split; [done|]).
  split; [|split; [|by split; [exact Hc|split; [exact Hf|exact Hs]]]].
  - rewrite Hnodes2, Hnodes1.
    destruct (upsert_spec n1 (nodes r) Hnd) as (_ & Hnd1 & _).
    by destruct (upsert_spec n2 (upsert n1 (nodes r)) Hnd1) as (Hone & _).
  - rewrite Hnodes2, Hnodes1.
    etrans; [exact (upsert_others n2 (upsert n1 (nodes r)))|].
    rewrite <- Hsame. exact (upsert_others n1 (nodes r)).
Qed.

(** C8. On a stored record with one entry per node id, two
    [addNodeExecution] calls for the same node id leave exactly one record
    under that id, the argument of the second call, and the records of the
    other ids as they were; the completed, the failed and the skipped count
    are the numbers of records of the resulting node list with the status
    COMPLETED, FAILED and SKIPPED.  Every record made by [createExecution]
    and updated by [addNodeExecution] is such a record. *)
Theorem addNodeExecution_twice :
  (forall w k r n1 n2,
      fst (get k w) = Returned (Some r) ->
      id r = k ->
      NoDup (nodeId <$> nodes r) ->
      nodeId n1 = nodeId n2 ->
      exists w1 w2 r2,
        addNodeExecution k n1 w = (Returned tt, w1)
        /\ addNodeExecution k n2 w1 = (Returned tt, w2)
        /\ fst (get k w2) = Returned (Some r2)
        /\ List.filter (fun n => bool_decide (nodeId n = nodeId n2)) (nodes r2) = [n2]
        /\ List.filter (fun n => negb (bool_decide (nodeId n = nodeId n2))) (nodes r2)
           = List.filter (fun n => negb (bool_decide (nodeId n = nodeId n2))) (nodes r)
        /\ completedNodes (stats r2)
           = Z.of_nat (length (List.filter
                                 (fun n => bool_decide (status n = NODE_COMPLETED))
                                 (nodes r2)))
        /\ failedNodes (stats r2)
           = Z.of_nat (length (List.filter
                                 (fun n => bool_decide (status n = NODE_FAILED))
                                 (nodes r2)))
        /\ skippedNodes (stats r2)
           = Z.of_nat (length (List.filter
                                 (fun n => bool_decide (status n = NODE_SKIPPED))
                                 (nodes r2))))
  /\ (forall workflow trg ctx suffix w history n1 n2,
         nodeId n1 = nodeId n2 ->
         exists r0 w0 w1 w2 r2,
           createExecution workflow trg ctx suffix w = (Returned r0, w0)
           /\ addNodeExecution (id r0) n1 (recordAll (id r0) history w0)
              = (Returned tt, w1)
           /\ addNodeExecution (id r0) n2 w1 = (Returned tt, w2)
           /\ fst (get (id r0) w2) = Returned (Some r2)
           /\ List.filter (fun n => bool_decide (nodeId n = nodeId n2)) (nodes r2) = [n2]
           /\ completedNodes (stats r2)
              = Z.of_nat (length (List.filter
                                    (fun n => bool_decide (status n = NODE_COMPLETED))
                                    (nodes r2)))
           /\ failedNodes (stats r2)
              = Z.of_nat (length (List.filter
                                    (fun n => bool_decide (status n = NODE_FAILED))
                                    (nodes r2)))
           /\ skippedNodes (stats r2)
              = Z.of_nat (length (List.filter
                                    (fun n => bool_decide (status n = NODE_SKIPPED))
                                    (nodes r2)))).
Proof.
  split; [exact twice_on_distinct|].
  intros workflow trg ctx suffix w history n1 n2 Hsame.
  destruct (createExecution_run workflow trg ctx suffix w)
    as (r0 & w0 & Hrun & Hget & Hnodes & _).
  destruct (recordAll_distinct (id r0) history w0 r0 Hget eq_refl)
    as (r & Hget' & Hid & Hnd); [rewrite Hnodes; constructor|].
  destruct (twice_on_distinct _ _ r n1 n2 Hget' Hid Hnd Hsame)
    as (w1 & w2 & r2 & H1 & H2 & H3 & H4 & _ & H5).
  by exists r0, w0, w1, w2, r2.
Qed.

(** On a record that lists B as completed, A is reported running and then
    completed: the list is B, A, both completed, and the counts are 2, 0
    and 0. *)
Lemma addNodeExecution_twice_witness :
  let w := worldWith (sampleRecord [sampleNodeRecord "B" NODE_COMPLETED] None) in
  exists w1 w2 r2,
    addNodeExecution "exec-1" (sampleNodeRecord "A" NODE_RUNNING) w = (Returned tt, w1)
    /\ addNodeExecution "exec-1" (sampleNodeRecord "A" NODE_COMPLETED) w1
       = (Returned tt, w2)
    /\ fst (get "exec-1" w2) = Returned (Some r2)
    /\ nodes r2 = [sampleNodeRecord "B" NODE_COMPLETED; sampleNodeRecord "A" NODE_COMPLETED]
    /\ completedNodes (stats r2) = 2
    /\ failedNodes (stats r2) = 0
    /\ skippedNodes (stats r2) = 0.
Proof.
  destruct (proj1 addNodeExecution_twice
              (worldWith (sampleRecord [sampleNodeRecord "B" NODE_COMPLETED] None))
              "exec-1" (sampleRecord [sampleNodeRecord "B" NODE_COMPLETED] None)
              (sampleNodeRecord "A" NODE_RUNNING) (sampleNodeRecord "A" NODE_COMPLETED))
    as (w1 & w2 & r2 & H1 & H2 & H3 & _ & _ & Hc & Hf & Hs).
  - vm_compute. reflexivity.
  - reflexivity.
  - simpl. apply NoDup_singleton.
  - reflexivity.
  - assert (Hn : nodes r2 = [sampleNodeRecord "B" NODE_COMPLETED;
                             sampleNodeRecord "A" NODE_COMPLETED]).
    { vm_compute in H1. injection H1 as <-.
      vm_compute in H2. injection H2 as <-.
      vm_compute in H3. by injection H3 as <-. }
    exists w1, w2, r2. rewrite Hc, Hf, Hs, Hn.
    split; [exact H1|]. split; [exact H2|]. split; [exact H3|]. by vm_compute.
Defined.

End HistoryProofs.

(** * Properties of rollback, resume and retry *)

Module RecoveryProofs.
Import ExecutionHistory AdvancedFeatures HistoryProofs.

(** ** Rollback *)

Definition rollbackLine (n : NodeExecutionRecord) : string :=
  "Rolling back node: " +:+ nodeId n.

Definition rollbackNote (removed : nat) : string :=
  "Rolled back from " +:+ pretty removed +:+ " subsequent nodes".

Lemma forEach_rollbackNode state l : forall w,
  exists w',
    forEach (fun node => rollbackNode node state) l w = (Returned tt, w')
    /\ cache w' = cache w /\ files w' = files w
    /\ clock w' = clock w /\ ticks w' = ticks w
    /\ console w' = console w ++ (rollbackLine <$> l).
Proof.
  induction l as [|n l IH]; intros w; simpl.
  - exists w. unfold ret. by rewrite app_nil_r.
  - destruct (IH (snd (rollbackNode n state w))) as (w' & Hrun & Hc & Hf & Hk & Ht & Hl).
    exists w'. split; [exact Hrun|]. simpl in *. do 4 (split; [done|]).
    by rewrite Hl, <- app_assoc.
Qed.

Lemma find_exists {A} (p : A -> bool) l a :
  a ∈ l -> p a = true -> exists b, find p l = Some b.
Proof.
  induction l as [|x l IH]; intros Ha Hp; [by apply elem_of_nil in Ha|].
  simpl. destruct (p x) eqn:Hx; [by eexists|].
  apply elem_of_cons in Ha as [->|Ha]; [congruence|by apply IH].
Qed.

Lemma first_occurrence target ns :
  target ∈ (nodeId <$> ns) ->
  exists pre t post,
    ns = pre ++ t :: post /\ nodeId t = target /\ (target ∉ (nodeId <$> pre))
    /\ findIndex (sameNode target) ns = Some (length pre).
Proof.
  intros Hin. destruct (findIndex (sameNode target) ns) as [i|] eqn:Hi.
  - pose proof Hi as Hi'.
    apply findIndex_Some in Hi as (pre & t & post & -> & <- & Ht & Hpre).
    exists pre, t, post. split; [done|]. split; [by apply sameNode_true|].
    split; [|done]. intros Hp. apply list_elem_of_fmap in Hp as (x & Hx & Hxin).
    specialize (Hpre x Hxin). apply sameNode_false in Hpre. congruence.
  - apply list_elem_of_fmap in Hin as (x & Hx & Hxin).
    pose proof (findIndex_None _ _ Hi x Hxin) as H. apply sameNode_false in H.
    congruence.
Qed.

Lemma rollback_run w k target r :
  fst (get k w) = Returned (Some r) ->
  (exists c, c ∈ default [] (checkpoints r) /\ cp_nodeId c = target) ->
  target ∈ (nodeId <$> nodes r) ->
  exists w' res r' pre t post,
    rollback k target w = (Returned res, w')
    /\ nodes r = pre ++ t :: post
    /\ nodeId t = target
    /\ (target ∉ (nodeId <$> pre))
    /\ res = {| rb_success := true; rolledBackTo := target;
                affectedNodes := nodeId <$> post;
                rb_message := "Successfully rolled back to node: " +:+ target;
                rb_error := None |}
    /\ fst (get (id r) w') = Returned (Some r')
    /\ nodes r' = pre ++ [appendLog (rollbackNote (length post)) t]
    /\ exec_status r' = PAUSED
    /\ console w' = console w ++ (rollbackLine <$> reverse post).
Proof.
  intros Hget (c & Hc & Hcid) Hin.
  destruct (get_found w k r Hget) as (w1 & Hrun & _ & _ & _ & Hcon1 & _).
  destruct (find_exists (fun c => bool_decide (cp_nodeId c = target)) _ c Hc)
    as [cp Hcp]; [by apply bool_decide_eq_true|].
  destruct (first_occurrence target (nodes r) Hin)
    as (pre & t & post & Hnodes & Ht & Hpre & Hidx).
  unfold rollback, bind at 1. rewrite Hrun.
  unfold findCheckpoint. rewrite Hcp, Hidx.
  assert (Hdrop : drop (S (length pre)) (nodes r) = post).
  { rewrite Hnodes, (cons_middle t pre post), app_assoc.
    apply drop_app_length'. rewrite length_app. simpl. lia. }
  assert (Htake : take (S (length pre)) (nodes r) = pre ++ [t]).
  { rewrite Hnodes, (cons_middle t pre post), app_assoc.
    apply take_app_length'. rewrite length_app. simpl. lia. }
  rewrite Hdrop. unfold try, bind.
  destruct (forEach_rollbackNode (cp_state cp) (reverse post) w1)
    as (w2 & Hloop & _ & _ & _ & _ & Hcon2).
  rewrite Hloop. cbn [nodes withStatus withNodes]. rewrite Htake.
  match goal with
  | |- context [save ?x w2] =>
      destruct (save_spec x w2) as (w' & Hsave & Hget' & _ & _ & Hcon' & _);
      rewrite Hsave
  end.
  exists w'. eexists _, _, pre, t, post. split; [reflexivity|].
  do 4 (split; [done|]). split; [exact Hget'|]. simpl.
  split; [|split; [done|congruence]].
  rewrite alter_app_r_alt by lia. by rewrite Nat.sub_diag.
Qed.

(** Nodes A and B completed, C failed; one checkpoint, taken at A. *)
Definition rollbackScenario : WorkflowExecutionRecord :=
  sampleRecord [sampleNodeRecord "A" NODE_COMPLETED;
                sampleNodeRecord "B" NODE_COMPLETED;
                sampleNodeRecord "C" NODE_FAILED]
    (Some [{| cp_nodeId := "A"; cp_timestamp := 1500; cp_state := Js.Object [] |}]).

(** C3. For a stored record with a checkpoint at the target node and the
    target node in its node list, [rollback] succeeds: the node list is cut
    after the (first) record of the target node, which is kept as it was but
    for its log, and the log is the old one (none counts as empty) with the
    line "Rolled back from n subsequent nodes" at its end, n the number of
    records cut off; the status becomes PAUSED; [affectedNodes] holds the
    ids of the records cut off, in their original order; the nodes are
    rolled back one by one, last first.  On nodes A, B completed and C
    failed with a checkpoint at A, rolling back to A leaves the list [A],
    with the log "Rolled back from 2 subsequent nodes", status PAUSED, and
    answers the affected nodes B, C. *)
Theorem rollback_truncates :
  (forall w k target r,
      fst (get k w) = Returned (Some r) ->
      (exists c, c ∈ default [] (checkpoints r) /\ cp_nodeId c = target) ->
      target ∈ (nodeId <$> nodes r) ->
      exists w' res r' pre t post,
        rollback k target w = (Returned res, w')
        /\ nodes r = pre ++ t :: post
        /\ nodeId t = target
        /\ (target ∉ (nodeId <$> pre))
        /\ rb_success res = true
        /\ rolledBackTo res = target
        /\ affectedNodes res = nodeId <$> post
        /\ fst (get (id r) w') = Returned (Some r')
        /\ nodes r'
           = pre ++ [{| nodeId := nodeId t; nodeName := nodeName t;
                        nodeType := nodeType t; status := status t;
                        startTime := startTime t; endTime := endTime t;
                        duration := duration t; inputs := inputs t;
                        outputs := outputs t; error := error t;
                        retryCount := retryCount t;
                        logs := Some (default [] (logs t)
                                      ++ ["Rolled back from " +:+ pretty (length post)
                                          +:+ " subsequent nodes"]) |}]
        /\ exec_status r' = PAUSED
        /\ console w'
           = console w ++ ((fun n => "Rolling back node: " +:+ nodeId n) <$> reverse post))
  /\ (exists res w' r',
        rollback "exec-1" "A" (worldWith rollbackScenario) = (Returned res, w')
        /\ rb_success res = true
        /\ affectedNodes res = ["B"; "C"]
        /\ lookupIn w' "exec-1" = Returned (Some r')
        /\ nodes r'
           = [{| nodeId := "A"; nodeName := "A"; nodeType := "process";
                 status := NODE_COMPLETED; startTime := 1000; endTime := None;
                 duration := None; inputs := None; outputs := None; error := None;
                 retryCount := None;
                 logs := Some ["Rolled back from 2 subsequent nodes"] |}]
        /\ exec_status r' = PAUSED
        /\ console w' = ["Rolling back node: C"; "Rolling back node: B"]).
Proof.
  split.
  - intros w k target r Hget Hcp Hin.
    destruct (rollback_run w k target r Hget Hcp Hin)
      as (w' & res & r' & pre & t & post & Hrun & Hn & Ht & Hpre & Hres & Hrest).
    exists w', res, r', pre, t, post. rewrite Hres in *.
    by repeat (split; [done|]).
  - vm_compute. eexists _, _, _. repeat split.
Qed.

(** The same nodes with checkpoints at A and at B. *)
Definition twoCheckpoints : WorkflowExecutionRecord :=
  sampleRecord (nodes rollbackScenario)
    (Some [{| cp_nodeId := "A"; cp_timestamp := 1500; cp_state := Js.Object [] |};
           {| cp_nodeId := "B"; cp_timestamp := 1700; cp_state := Js.Number 7 |}]).

(** Rolling back to B, the second of A, B, C: C is cut off, and B carries
    the line "Rolled back from 1 subsequent nodes". *)
Lemma rollback_truncates_witness :
  exists w' res r',
    rollback "exec-1" "B" (worldWith twoCheckpoints) = (Returned res, w')
    /\ rb_success res = true
    /\ rolledBackTo res = "B"
    /\ affectedNodes res = ["C"]
    /\ fst (get "exec-1" w') = Returned (Some r')
    /\ nodes r'
       = [sampleNodeRecord "A" NODE_COMPLETED;
          {| nodeId := "B"; nodeName := "B"; nodeType := "process";
             status := NODE_COMPLETED; startTime := 1000; endTime := None;
             duration := None; inputs := None; outputs := None; error := None;
             retryCount := None;
             logs := Some ["Rolled back from 1 subsequent nodes"] |}]
    /\ exec_status r' = PAUSED
    /\ console w' = ["Rolling back node: C"].
Proof.
  destruct (proj1 rollback_truncates (worldWith twoCheckpoints) "exec-1" "B"
              twoCheckpoints)
    as (w' & res & r' & pre & t & post & Hrun & _ & _ & _ & Hok & Hto & _ & Hget & _
        & Hst & _).
  - vm_compute. reflexivity.
  - eexists. split; [right; left|reflexivity].
  - vm_compute. right. left.
  - exists w', res, r'. split; [exact Hrun|]. split; [exact Hok|]. split; [exact Hto|].
    assert (Hres : affectedNodes res = ["C"] /\ console w' = ["Rolling back node: C"]).
    { vm_compute in Hrun. by injection Hrun as <- <-. }
    assert (Hn : nodes r'
                 = [sampleNodeRecord "A" NODE_COMPLETED;
                    {| nodeId := "B"; nodeName := "B"; nodeType := "process";
                       status := NODE_COMPLETED; startTime := 1000; endTime := None;
                       duration := None; inputs := None; outputs := None; error := None;
                       retryCount := None;
                       logs := Some ["Rolled back from 1 subsequent nodes"] |}]).
    { vm_compute in Hrun. injection Hrun as _ <-.
      vm_compute in Hget. by injection Hget as <-. }
    split; [exact (proj1 Hres)|]. split; [exact Hget|]. split; [exact Hn|].
    split; [exact Hst|exact (proj2 Hres)].
Defined.

(** ** Resume *)

Lemma find_skip {A} (p : A -> bool) l1 l2 :
  (forall x, x ∈ l1 -> p x = false) -> find p (l1 ++ l2) = find p l2.
Proof.
  induction l1 as [|x l1 IH]; intros H; simpl; [done|].
  rewrite (H x) by left. apply IH. intros y Hy. apply H. by right.
Qed.

Lemma hasStatus_false st n : hasStatus st n = false <-> status n <> st.
Proof. unfold hasStatus. apply bool_decide_eq_false. Qed.

Lemma lastCompleted_found pre last post :
  status last = NODE_COMPLETED ->
  (forall n, n ∈ post -> status n <> NODE_COMPLETED) ->
  lastCompleted (pre ++ last :: post) = Some last.
Proof.
  intros Hlast Hpost. unfold lastCompleted.
  rewrite reverse_app, reverse_cons, <- app_assoc, find_skip.
  - simpl. unfold hasStatus. by rewrite bool_decide_eq_true_2.
  - intros x Hx. rewrite elem_of_reverse in Hx. apply hasStatus_false. by apply Hpost.
Qed.

Lemma lastCompleted_none ns :
  (forall n, n ∈ ns -> status n <> NODE_COMPLETED) -> lastCompleted ns = None.
Proof.
  intros H. unfold lastCompleted.
  rewrite <- (app_nil_r (reverse ns)), find_skip; [done|].
  intros x Hx. rewrite elem_of_reverse in Hx. apply hasStatus_false. by apply H.
Qed.

(** The state [getResumeContext] hands back for a node id. *)
Definition stateFor (node : string) (r : WorkflowExecutionRecord) : Js.Value :=
  match findCheckpoint node r with
  | Some c => if Js.truthy (cp_state c) then cp_state c else Js.Object []
  | None => Js.Object []
  end.

Definition completedIds (r : WorkflowExecutionRecord) : list string :=
  nodeId <$> List.filter (hasStatus NODE_COMPLETED) (nodes r).

Definition firstId (ns : list NodeExecutionRecord) : string :=
  default EmptyString (nodeId <$> head ns).

Lemma getResumeContext_run w k r :
  fst (get k w) = Returned (Some r) ->
  exists ctx,
    fst (getResumeContext k w) = Returned (Some ctx)
    /\ rc_executionId ctx = k
    /\ ((forall n, n ∈ nodes r -> status n <> NODE_COMPLETED) ->
        checkpointNodeId ctx = EmptyString
        /\ resumeFromNode ctx = firstId (nodes r)
        /\ skippedNodes ctx = []
        /\ preservedState ctx = Js.Object [])
    /\ (forall pre last post,
           nodes r = pre ++ last :: post ->
           status last = NODE_COMPLETED ->
           (forall n, n ∈ post -> status n <> NODE_COMPLETED) ->
           checkpointNodeId ctx = nodeId last
           /\ skippedNodes ctx = completedIds r
           /\ (nodeId last ∉ (nodeId <$> pre) -> resumeFromNode ctx = firstId post)
           /\ preservedState ctx = stateFor (nodeId last) r).
Proof.
  intros Hget. destruct (get_found w k r Hget) as (w1 & Hrun & _).
  unfold getResumeContext, bind. rewrite Hrun.
  destruct (lastCompleted (nodes r)) as [found|] eqn:Hlast.
  - eexists. split; [reflexivity|]. simpl. split; [done|]. split.
    + intros Hnone. by rewrite (lastCompleted_none _ Hnone) in Hlast.
    + intros pre last post Hnodes Hst Hpost.
      rewrite Hnodes, (lastCompleted_found pre last post Hst Hpost) in Hlast.
      injection Hlast as <-. split; [done|]. split; [done|]. split.
      * intros Hfresh. rewrite Hnodes.
        rewrite findIndex_first.
        -- rewrite (cons_middle last pre post), app_assoc.
           rewrite lookup_app_r by (rewrite length_app; simpl; lia).
           rewrite length_app. simpl.
           replace (S (length pre) - (length pre + 1))%nat with 0%nat by lia.
           unfold firstId. by destruct post.
        -- by apply sameNode_true.
        -- intros x Hx. apply sameNode_false. intros Hxk. apply Hfresh.
           rewrite <- Hxk. apply list_elem_of_fmap. eauto.
      * unfold stateFor, Js.orEmptyObject. by destruct (findCheckpoint _ r).
  - eexists. split; [reflexivity|]. simpl. split; [done|]. split.
    + intros _. split; [done|]. split; [|done].
      unfold firstId. by destruct (nodes r).
    + intros pre last post Hnodes Hst Hpost.
      rewrite Hnodes, (lastCompleted_found pre last post Hst Hpost) in Hlast. done.
Qed.

(** A completed, B failed; the checkpoint at A holds the given state. *)
Definition resumeScenario (state : Js.Value) : WorkflowExecutionRecord :=
  sampleRecord [sampleNodeRecord "A" NODE_COMPLETED; sampleNodeRecord "B" NODE_FAILED]
    (Some [{| cp_nodeId := "A"; cp_timestamp := 1500; cp_state := state |}]).

(** C4, as stated, fails on the preserved state: when the checkpoint of
    the last completed node holds [null], the context carries an empty
    object, not the state of that checkpoint. *)
Lemma resume_drops_falsy_state :
  exists ctx c,
    fst (getResumeContext "exec-1" (worldWith (resumeScenario Js.Null)))
    = Returned (Some ctx)
    /\ checkpointNodeId ctx = "A"
    /\ findCheckpoint "A" (resumeScenario Js.Null) = Some c
    /\ cp_state c = Js.Null
    /\ preservedState ctx = Js.Object []
    /\ preservedState ctx <> cp_state c.
Proof. vm_compute. eexists _, _. repeat split. discriminate. Qed.

(** C4, amended. For a stored record [getResumeContext] looks, from the
    end of the node list backward, for the last COMPLETED record.  With
    none, it resumes from the first node (the empty id on an empty list),
    skips nothing and preserves an empty object.  Otherwise the checkpoint
    node is that record's node, the skipped nodes are the ids of all
    COMPLETED records, the resume node is the one right after that record
    (the empty id when it is the last; its node id must not occur earlier
    in the list), and the preserved state is the state of the first
    checkpoint taken at that node when there is one and its state is
    truthy, an empty object otherwise.  On A completed, B failed with a
    checkpoint at A holding an empty object: checkpoint node A, skipped
    nodes [A], resume from B. *)
Theorem getResumeContext_spec :
  (forall w k r,
      fst (get k w) = Returned (Some r) ->
      exists ctx,
        fst (getResumeContext k w) = Returned (Some ctx)
        /\ ((forall n, n ∈ nodes r -> status n <> NODE_COMPLETED) ->
            checkpointNodeId ctx = EmptyString
            /\ resumeFromNode ctx = firstId (nodes r)
            /\ skippedNodes ctx = []
            /\ preservedState ctx = Js.Object [])
        /\ (forall pre last post,
               nodes r = pre ++ last :: post ->
               status last = NODE_COMPLETED ->
               (forall n, n ∈ post -> status n <> NODE_COMPLETED) ->
               checkpointNodeId ctx = nodeId last
               /\ skippedNodes ctx = completedIds r
               /\ (nodeId last ∉ (nodeId <$> pre) -> resumeFromNode ctx = firstId post)
               /\ preservedState ctx = stateFor (nodeId last) r))
  /\ (exists ctx,
        fst (getResumeContext "exec-1" (worldWith (resumeScenario (Js.Object []))))
        = Returned (Some ctx)
        /\ checkpointNodeId ctx = "A"
        /\ skippedNodes ctx = ["A"]
        /\ resumeFromNode ctx = "B").
Proof.
  split.
  - intros w k r Hget.
    destruct (getResumeContext_run w k r Hget) as (ctx & Hrun & _ & Hnone & Hsome).
    by exists ctx.
  - vm_compute. eexists. repeat split.
Qed.

Lemma getResumeContext_spec_witness :
  exists ctx,
    fst (getResumeContext "exec-1" (worldWith (resumeScenario (Js.Number 0))))
    = Returned (Some ctx)
    /\ checkpointNodeId ctx = "A"
    /\ skippedNodes ctx = ["A"]
    /\ resumeFromNode ctx = "B"
    /\ preservedState ctx = Js.Object [].
Proof.
  destruct (proj1 getResumeContext_spec (worldWith (resumeScenario (Js.Number 0)))
              "exec-1" (resumeScenario (Js.Number 0)))
    as (ctx & Hrun & _ & Hsome); [vm_compute; reflexivity|].
  destruct (Hsome [] (sampleNodeRecord "A" NODE_COMPLETED)
              [sampleNodeRecord "B" NODE_FAILED])
    as (Hcp & Hskip & Hnext & Hstate).
  - reflexivity.
  - reflexivity.
  - intros n Hn. apply list_elem_of_singleton in Hn. subst n. discriminate.
  - exists ctx. split; [done|]. split; [done|]. split; [done|].
    split; [apply Hnext; simpl; apply not_elem_of_nil|done].
Defined.

(** ** Retry *)

(** The delay before the attempt that follows attempt [n], in the words
    of the specification. *)
Definition claimedDelay (config : RetryConfig) (n : Z) : Z :=
  match backoffStrategy config with
  | linear => Z.min (maxDelay config) (initialDelay config * n)
  | exponential => Z.min (maxDelay config) (initialDelay config * 2 ^ (n - 1))
  | fixed => Z.min (maxDelay config) (initialDelay config)
  end.

Lemma calculateDelay_claimed config n : calculateDelay n config = claimedDelay config n.
Proof.
  unfold calculateDelay, claimedDelay. destruct (backoffStrategy config); apply Z.min_comm.
Qed.

Lemma attemptsFrom_timers {T} (operation : Z -> T + OperationError) config remaining :
  forall attempt errors start w,
  exists slept,
    timers (snd (attemptsFrom operation config remaining attempt errors start w))
    = timers w ++ slept
    /\ (maxAttempts config <= attempt -> slept = [])
    /\ (forall i d, slept !! i = Some d ->
                    d = calculateDelay (attempt + Z.of_nat i) config).
Proof.
  induction remaining as [|remaining IH]; intros attempt errors start w.
  - exists []. simpl. by rewrite app_nil_r.
  - simpl. destruct (operation attempt) as [value|e].
    { exists []. simpl. by rewrite app_nil_r. }
    destruct (isRetryable config e); simpl.
    2: { exists []. simpl. by rewrite app_nil_r. }
    unfold bind at 1. destruct (attempt <? maxAttempts config) eqn:Hlt.
    + simpl.
      match goal with
      | |- context [attemptsFrom _ _ _ _ ?es _ ?w1] =>
          destruct (IH (attempt + 1) es start w1) as (slept & Ht & _ & Hd)
      end.
      exists (calculateDelay attempt config :: slept). simpl in Ht.
      split; [by rewrite Ht, <- app_assoc|].
      split; [apply Z.ltb_lt in Hlt; lia|].
      intros [|i] d; simpl.
      * intros [= <-]. f_equal. lia.
      * intros Hi. rewrite (Hd i d Hi). f_equal. lia.
    + simpl.
      match goal with
      | |- context [attemptsFrom _ _ _ _ ?es _ ?w1] =>
          destruct (IH (attempt + 1) es start w1) as (slept & Ht & Hnone & _)
      end.
      apply Z.ltb_ge in Hlt. rewrite Hnone in Ht by lia.
      exists []. by split.
Qed.

Definition exponentialConfig : RetryConfig :=
  {| maxAttempts := 6; backoffStrategy := exponential; initialDelay := 1000;
     maxDelay := 10000; retryableErrors := None |}.

(** An operation that fails at every attempt. *)
Definition alwaysFails (attempt : Z) : unit + OperationError :=
  inr {| err_code := Some "TIMEOUT"; err_message := "timed out" |}.

(** C5. The delays [executeWithRetry] waits for are, in order, those
    before attempts 2, 3, ...: the one before attempt n+1 is
    min(maxDelay, initialDelay * n) for the linear strategy,
    min(maxDelay, initialDelay * 2^(n-1)) for the exponential one and
    min(maxDelay, initialDelay) for the fixed one.  With exponential
    backoff, initial delay 1000 and maximal delay 10000 the delays before
    attempts 2, 3, 5 and 6 are 1000, 2000, 8000 and 10000, and six failing
    attempts wait 1000, 2000, 4000, 8000 and 10000. *)
Theorem retry_delays :
  (forall T (operation : Z -> T + OperationError) config w,
      exists slept,
        timers (snd (executeWithRetry operation config w)) = timers w ++ slept
        /\ forall n d, 1 <= n -> slept !! Z.to_nat (n - 1) = Some d ->
                       d = claimedDelay config n)
  /\ (forall n config, 1 <= n -> calculateDelay n config = claimedDelay config n)
  /\ (calculateDelay 1 exponentialConfig = 1000
      /\ calculateDelay 2 exponentialConfig = 2000
      /\ calculateDelay 4 exponentialConfig = 8000
      /\ calculateDelay 5 exponentialConfig = 10000)
  /\ timers (snd (executeWithRetry alwaysFails exponentialConfig emptyWorld))
     = [1000; 2000; 4000; 8000; 10000].
Proof.
  split; [|split; [|split; [|vm_compute; reflexivity]]].
  - intros T operation config w. unfold executeWithRetry, bind. simpl.
    match goal with
    | |- context [attemptsFrom _ _ ?k ?a ?es ?s ?w1] =>
        destruct (attemptsFrom_timers operation config k a es s w1) as (slept & Ht & _ & Hd)
    end.
    exists slept. split; [exact Ht|].
    intros n d Hn Hi. rewrite (Hd _ _ Hi), calculateDelay_claimed. f_equal. lia.
  - intros n config _. apply calculateDelay_claimed.
  - repeat split.
Qed.

Lemma retry_delays_witness :
  exists slept,
    timers (snd (executeWithRetry alwaysFails exponentialConfig emptyWorld))
    = timers emptyWorld ++ slept
    /\ slept !! Z.to_nat (5 - 1) = Some 10000
    /\ 10000 = claimedDelay exponentialConfig 5.
Proof.
  destruct (proj1 retry_delays unit alwaysFails exponentialConfig emptyWorld)
    as (slept & Ht & Hd).
  exists slept. split; [exact Ht|].
  assert (Hs : slept = [1000; 2000; 4000; 8000; 10000]).
  { vm_compute in Ht. congruence. }
  assert (Hi : slept !! Z.to_nat (5 - 1) = Some 10000) by (rewrite Hs; reflexivity).
  split; [exact Hi|]. apply (Hd 5 10000); [lia|exact Hi].
Defined.

End RecoveryProofs.

(** * Properties of the monitor *)

Module MonitorProofs.
Import ExecutionHistory ExecutionMonitor HistoryProofs.

Lemma lessThan_spec a b : lessThan a b = true <-> (a < b)%Q.
Proof.
  unfold lessThan. rewrite negb_true_iff. split.
  - intros H. apply Qnot_le_lt. intros Hle.
    apply Qle_bool_iff in Hle. congruence.
  - intros H. apply not_true_is_false. intros Hle.
    apply Qle_bool_iff in Hle. by apply (Qlt_not_le a b).
Qed.

(** A record of an execution over a graph of [n] nodes. *)
Definition recordOfSize (n : Z) : WorkflowExecutionRecord :=
  withStats {| totalNodes := n; completedNodes := 0; failedNodes := 0;
               skippedNodes := 0; successRate := None |} (sampleRecord [] None).

Definition idleMonitor : Monitor :=
  {| activeExecutions := ∅; emitted := []; mon_clock := sampleClock; mon_ticks := 0 |}.

Definition report (l : list (string * NodeExecutionStatus)) (m : Monitor) : Monitor :=
  foldl (fun m e => updateNodeStatus "exec-1" (fst e) (snd e) None m) m l.

(** Ten nodes: six completed, one failed, one running, two not heard of. *)
Definition progressScenario : Monitor :=
  report [("n1", NODE_RUNNING); ("n1", NODE_COMPLETED); ("n2", NODE_COMPLETED);
          ("n3", NODE_COMPLETED); ("n4", NODE_COMPLETED); ("n5", NODE_COMPLETED);
          ("n6", NODE_COMPLETED); ("n7", NODE_FAILED); ("n8", NODE_RUNNING)]
    (startMonitoring (recordOfSize 10) idleMonitor).

(** One node, completed. *)
Definition finishedScenario : Monitor :=
  report [("n1", NODE_RUNNING); ("n1", NODE_COMPLETED)]
    (startMonitoring (recordOfSize 1) idleMonitor).

(** C9, as stated, fails on the estimate: with its only node completed an
    execution has one completed node and no estimate at all, where the
    claim gives (elapsed / 1) * 0. *)
Lemma no_estimate_when_finished :
  exists p,
    fst (getProgress "exec-1" finishedScenario) = Some p
    /\ p_totalNodes p = 1
    /\ p_completedNodes p = 1
    /\ estimatedTimeRemaining p = None
    /\ forall estimate, estimatedTimeRemaining p <> Some estimate.
Proof. vm_compute. eexists. repeat split. discriminate. Qed.

(** C9, amended. For a monitored execution [getProgress] answers the
    counts of the node statuses it has been told, pending = total -
    completed - failed - running, and progress = completed / total when
    the total is positive and 0 otherwise.  The estimate is undefined while
    no node has completed and when progress is not below 1; with at least
    one node completed and progress below 1 it is (elapsed / completed) *
    (total - completed).  Ten nodes with six completed, one failed and one
    running give progress 0.6 and two pending. *)
Theorem getProgress_spec :
  (forall m k e,
      activeExecutions m !! k = Some e ->
      let statuses := snd <$> nodeStatuses e in
      let total := totalNodes (stats (ae_record e)) in
      let completed := countOf NODE_COMPLETED statuses in
      let failed := countOf NODE_FAILED statuses in
      let running := countOf NODE_RUNNING statuses in
      let elapsed := mon_clock m (mon_ticks m) - ae_startTime e in
      exists p m',
        getProgress k m = (Some p, m')
        /\ p_totalNodes p = total
        /\ p_completedNodes p = completed
        /\ p_failedNodes p = failed
        /\ p_runningNodes p = running
        /\ p_pendingNodes p = total - completed - failed - running
        /\ (0 < total -> progress p = (inject_Z completed / inject_Z total)%Q)
        /\ (total <= 0 -> progress p = 0%Q)
        /\ (completed = 0 -> estimatedTimeRemaining p = None)
        /\ (~ (progress p < 1)%Q -> estimatedTimeRemaining p = None)
        /\ (0 < completed -> (progress p < 1)%Q ->
            estimatedTimeRemaining p =
            Some (inject_Z elapsed / inject_Z completed
                  * inject_Z (total - completed))%Q))
  /\ (exists p,
        fst (getProgress "exec-1" progressScenario) = Some p
        /\ p_totalNodes p = 10 /\ p_completedNodes p = 6
        /\ p_failedNodes p = 1 /\ p_runningNodes p = 1
        /\ (progress p == 6 # 10)%Q
        /\ p_pendingNodes p = 2).
Proof.
  split.
  - intros m k e He statuses total completed failed running elapsed.
    unfold getProgress. rewrite He.
    fold statuses. fold total. fold completed. fold failed. fold running.
    set (pr := if 0 <? total then (inject_Z completed / inject_Z total)%Q else 0%Q).
    destruct ((0 <? completed) && lessThan pr 1) eqn:Hguard.
    + apply andb_prop in Hguard as [Hc Hp].
      apply Z.ltb_lt in Hc. apply lessThan_spec in Hp.
      eexists _, _. split; [reflexivity|]. simpl.
      do 5 (split; [done|]).
      split; [intros Ht; unfold pr; by rewrite (proj2 (Z.ltb_lt _ _) Ht)|].
      split; [intros Ht; unfold pr; by rewrite (proj2 (Z.ltb_ge _ _) Ht)|].
      split; [lia|]. split; [done|]. done.
    + eexists _, _. split; [reflexivity|]. simpl.
      do 5 (split; [done|]).
      split; [intros Ht; unfold pr; by rewrite (proj2 (Z.ltb_lt _ _) Ht)|].
      split; [intros Ht; unfold pr; by rewrite (proj2 (Z.ltb_ge _ _) Ht)|].
      split; [done|]. split; [done|].
      intros Hc Hp. apply andb_false_iff in Hguard as [Hg|Hg].
      * apply Z.ltb_ge in Hg. lia.
      * apply lessThan_spec in Hp. congruence.
  - vm_compute. eexists. repeat split.
Qed.

Lemma getProgress_spec_witness :
  exists p,
    fst (getProgress "exec-1" progressScenario) = Some p
    /\ progress p = (inject_Z 6 / inject_Z 10)%Q
    /\ estimatedTimeRemaining p
       = Some (inject_Z (mon_clock progressScenario (mon_ticks progressScenario) - 2000)
               / inject_Z 6 * inject_Z (10 - 6))%Q.
Proof.
  assert (He : exists e, activeExecutions progressScenario !! "exec-1" = Some e
                         /\ totalNodes (stats (ae_record e)) = 10
                         /\ countOf NODE_COMPLETED (snd <$> nodeStatuses e) = 6
                         /\ ae_startTime e = 2000).
  { vm_compute. eexists. repeat split. }
  destruct He as (e & He & Htotal & Hcompleted & Hstart).
  destruct (proj1 getProgress_spec progressScenario "exec-1" e He)
    as (p & m' & Hrun & _ & _ & _ & _ & _ & Hprog & _ & _ & _ & Hest).
  rewrite Htotal, Hcompleted, Hstart in *.
  exists p. rewrite Hrun. split; [done|].
  assert (Hp : progress p = (inject_Z 6 / inject_Z 10)%Q) by (apply Hprog; lia).
  split; [done|]. apply Hest; [lia|]. rewrite Hp. reflexivity.
Defined.

End MonitorProofs.

(** * Validity, and the edits that keep it *)

Module ValidatorExtras.
Import WorkflowValidator ValidatorProofs WorkflowHelper.

Definition clean (r : Report) : Prop := errors r = [].

(** What [validateNodes] asks of a node, beyond a fresh id. *)
Definition nodeOk (registry : gset string) (n : WorkflowNode) : bool :=
  negb (falsy (node_id n)) && negb (falsy (node_type n))
  && (bool_decide (registry = ∅) || bool_decide (node_type n ∈ registry)).

(** What [validateEdges] asks of an edge, beyond a fresh id. *)
Definition edgeOk (ns : list WorkflowNode) (e : WorkflowEdge) : bool :=
  bool_decide (source e ∈ nodeIdSet ns) && bool_decide (target e ∈ nodeIdSet ns)
  && negb (bool_decide (source e = target e)).

Definition settingsOk (w : WorkflowDefinition) : bool :=
  match settings w with
  | None => true
  | Some s =>
      match maxConcurrency s with Some mc => 1 <=? mc | None => true end
      && match retryPolicy s with Some rp => 0 <=? maxRetries rp | None => true end
  end.

Definition wellFormed (registry : gset string) (w : WorkflowDefinition) : bool :=
  negb (falsy (wf_id w)) && negb (blank (wf_name w)) && negb (falsy (wf_version w))
  && bool_decide (NoDup (node_id <$> nodes w))
  && forallb (nodeOk registry) (nodes w)
  && bool_decide (NoDup (edge_id <$> edges w))
  && forallb (edgeOk (nodes w)) (edges w)
  && settingsOk w.

Lemma clean_pushError e r : clean (pushError e r) <-> False.
Proof. unfold clean. simpl. split; [|done]. destruct (errors r); discriminate. Qed.

Lemma clean_pushWarning x r : clean (pushWarning x r) <-> clean r.
Proof. done. Qed.

Lemma clean_when_pushError b e r :
  clean (when b (pushError e) r) <-> clean r /\ b = false.
Proof.
  destruct b; simpl; [rewrite clean_pushError|]; intuition discriminate.
Qed.

Lemma clean_when_pushWarning b x r : clean (when b (pushWarning x) r) <-> clean r.
Proof. by destruct b. Qed.

Lemma clean_checkInputs n l r : clean (foldl (checkInput n) r l) <-> clean r.
Proof.
  revert r. induction l as [|i l IH]; intros r; simpl; [done|].
  rewrite IH. unfold checkInput. apply clean_when_pushWarning.
Qed.

Lemma validateNode_ids registry ids r n :
  fst (validateNode registry (ids, r) n) = {[node_id n]} ∪ ids.
Proof. unfold validateNode. by destruct (falsy (node_type n)). Qed.

Lemma clean_validateNode registry ids r n :
  clean (snd (validateNode registry (ids, r) n))
  <-> clean r /\ (node_id n ∉ ids) /\ nodeOk registry n = true.
Proof.
  unfold validateNode, nodeOk. destruct (falsy (node_type n)); simpl.
  - rewrite clean_pushError, andb_false_r. intuition discriminate.
  - rewrite clean_checkInputs, !clean_when_pushWarning, !clean_when_pushError.
    rewrite bool_decide_eq_false, andb_true_r, andb_false_iff, andb_true_iff, negb_true_iff.
    rewrite orb_true_iff, !bool_decide_eq_true, !bool_decide_eq_false.
    destruct (decide (registry = ∅)), (decide (node_type n ∈ registry)); intuition.
Qed.

Lemma clean_validateNodes_from registry ns : forall ids r,
  clean (snd (foldl (validateNode registry) (ids, r) ns))
  <-> clean r /\ NoDup (node_id <$> ns) /\ (forall n, n ∈ ns -> node_id n ∉ ids)
      /\ forallb (nodeOk registry) ns = true.
Proof.
  induction ns as [|a ns IH]; intros ids r; cbn [foldl forallb fmap list_fmap].
  - split; [intros H|tauto]. split; [done|]. split; [constructor|].
    split; [|done]. intros n Hn. by apply elem_of_nil in Hn.
  - pose proof (validateNode_ids registry ids r a) as Hids.
    pose proof (clean_validateNode registry ids r a) as Hcl.
    destruct (validateNode registry (ids, r) a) as [ids' r']. simpl in Hids, Hcl.
    subst ids'. rewrite IH, Hcl, NoDup_cons, andb_true_iff, list_elem_of_fmap.
    split.
    + intros ((Hr & Ha & Hok) & Hnd & Hfresh & Hall).
      split; [done|]. split; [split; [|done]|split; [|done]].
      * intros (n & Hn1 & Hn2). apply (Hfresh n Hn2). set_solver.
      * intros n [->|Hn]%elem_of_cons; [done|].
        intros Hin. apply (Hfresh n Hn). set_solver.
    + intros (Hr & (Ha & Hnd) & Hfresh & Hok & Hall).
      split; [split; [done|split; [|done]]|split; [done|split; [|done]]].
      * apply Hfresh. by left.
      * intros n Hn [Heq%elem_of_singleton|Hin]%elem_of_union.
        -- apply Ha. by exists n.
        -- apply (Hfresh n); [by right|done].
Qed.

Lemma clean_validateNodes registry ns r :
  clean (validateNodes registry ns r)
  <-> clean r /\ NoDup (node_id <$> ns) /\ forallb (nodeOk registry) ns = true.
Proof.
  unfold validateNodes. rewrite clean_validateNodes_from.
  split; [tauto|]. intros (? & ? & ?). split; [done|]. split; [done|].
  split; [|done]. intros n _. set_solver.
Qed.

(** The conditions of [validateEdge], one by one. *)
Definition edgeChecks (nodeMap : gset string) (e : WorkflowEdge) : bool :=
  negb (falsy (source e)) && negb (falsy (target e))
  && bool_decide (source e ∈ nodeMap) && bool_decide (target e ∈ nodeMap)
  && negb (bool_decide (source e = target e)).

Lemma validateEdge_ids all nodeMap ids r e :
  fst (validateEdge all nodeMap (ids, r) e) = {[edge_id e]} ∪ ids.
Proof.
  unfold validateEdge. destruct (falsy (source e)); [done|].
  destruct (falsy (target e)); [done|]. by destruct (find _ _).
Qed.

Lemma clean_validateEdge all nodeMap ids r e :
  clean (snd (validateEdge all nodeMap (ids, r) e))
  <-> clean r /\ (edge_id e ∉ ids) /\ edgeChecks nodeMap e = true.
Proof.
  unfold validateEdge, edgeChecks. destruct (falsy (source e)); simpl.
  { rewrite clean_pushError. intuition discriminate. }
  destruct (falsy (target e)); simpl.
  { rewrite clean_pushError. intuition discriminate. }
  assert (forall r0, clean (snd (match find (sameConnection e) all with
            | Some d => ({[edge_id e]} ∪ ids,
                         pushWarning {| w_code := "DUPLICATE_CONNECTION";
                           w_message := "Edge " +:+ edge_id e +:+ " is duplicate of edge "
                                        +:+ edge_id d;
                           w_nodeId := None;
                           suggestion := Some "Remove duplicate connection" |} r0)
            | None => ({[edge_id e]} ∪ ids, r0) end)) <-> clean r0) as ->.
  { intros r0. by destruct (find _ _). }
  rewrite !clean_when_pushWarning, !clean_when_pushError.
  rewrite !bool_decide_eq_false, !andb_true_iff, negb_true_iff.
  rewrite !bool_decide_eq_true, bool_decide_eq_false.
  destruct (decide (source e ∈ nodeMap)), (decide (target e ∈ nodeMap)); intuition.
Qed.

Lemma clean_validateEdges_from all nodeMap es : forall ids r,
  clean (snd (foldl (validateEdge all nodeMap) (ids, r) es))
  <-> clean r /\ NoDup (edge_id <$> es) /\ (forall e, e ∈ es -> edge_id e ∉ ids)
      /\ forallb (edgeChecks nodeMap) es = true.
Proof.
  induction es as [|a es IH]; intros ids r; cbn [foldl forallb fmap list_fmap].
  - split; [intros H|tauto]. split; [done|]. split; [constructor|].
    split; [|done]. intros n Hn. by apply elem_of_nil in Hn.
  - pose proof (validateEdge_ids all nodeMap ids r a) as Hids.
    pose proof (clean_validateEdge all nodeMap ids r a) as Hcl.
    destruct (validateEdge all nodeMap (ids, r) a) as [ids' r']. simpl in Hids, Hcl.
    subst ids'. rewrite IH, Hcl, NoDup_cons, andb_true_iff, list_elem_of_fmap.
    split.
    + intros ((Hr & Ha & Hok) & Hnd & Hfresh & Hall).
      split; [done|]. split; [split; [|done]|split; [|done]].
      * intros (n & Hn1 & Hn2). apply (Hfresh n Hn2). set_solver.
      * intros n [->|Hn]%elem_of_cons; [done|].
        intros Hin. apply (Hfresh n Hn). set_solver.
    + intros (Hr & (Ha & Hnd) & Hfresh & Hok & Hall).
      split; [split; [done|split; [|done]]|split; [done|split; [|done]]].
      * apply Hfresh. by left.
      * intros n Hn [Heq%elem_of_singleton|Hin]%elem_of_union.
        -- apply Ha. by exists n.
        -- apply (Hfresh n); [by right|done].
Qed.

Lemma clean_validateEdges es ns r :
  clean (validateEdges es ns r)
  <-> clean r /\ NoDup (edge_id <$> es) /\ forallb (edgeChecks (nodeIdSet ns)) es = true.
Proof.
  unfold validateEdges. rewrite clean_validateEdges_from.
  split; [tauto|]. intros (? & ? & ?). split; [done|]. split; [done|].
  split; [|done]. intros n _. set_solver.
Qed.

Lemma clean_validateSchema w r :
  clean (validateSchema w r)
  <-> clean r /\ falsy (wf_id w) = false /\ blank (wf_name w) = false
      /\ falsy (wf_version w) = false.
Proof.
  unfold validateSchema.
  rewrite clean_when_pushWarning, !clean_when_pushError, orb_false_iff.
  split; [tauto|]. intros (? & ? & Hb & ?). repeat split; try done.
  unfold falsy. case_bool_decide as Hn; [|done]. rewrite Hn in Hb. discriminate.
Qed.

Lemma clean_validateSettings w r :
  clean (validateSettings w r) <-> clean r /\ settingsOk w = true.
Proof.
  unfold validateSettings, settingsOk. destruct (settings w) as [s|]; [|tauto].
  destruct (retryPolicy s) as [rp|], (maxConcurrency s) as [mc|], (timeout s) as [t|];
    rewrite ?clean_when_pushWarning, ?clean_when_pushError,
      ?clean_when_pushWarning, ?clean_when_pushError,
      ?clean_when_pushWarning, ?clean_when_pushError,
      ?andb_true_iff, ?Z.ltb_ge, ?Z.leb_le; tauto.
Qed.

Lemma clean_validateTopology w r rep :
  validateTopology w r = Some rep ->
  clean rep <-> clean r /\ (nodes w = [] \/ detectCycles (nodes w) (edges w) = Some []).
Proof.
  unfold validateTopology. destruct (nodes w) as [|n ns] eqn:Hn.
  - intros [= <-]. rewrite clean_pushWarning. tauto.
  - rewrite <- Hn. destruct (detectCycles (nodes w) (edges w)) as [cs|]; [|done].
    simpl. intros [= <-]. unfold clean.
    rewrite errors_connectivityWarnings, errors_cycleErrors, Hn.
    split.
    + intros [H1 H2]%app_eq_nil. split; [done|right].
      destruct cs; [done|discriminate].
    + intros [H1 [H2|H2]]; [done|]. injection H2 as ->. by rewrite H1.
Qed.

Lemma edgeChecks_edgeOk registry ns es :
  forallb (nodeOk registry) ns = true ->
  forallb (edgeChecks (nodeIdSet ns)) es = forallb (edgeOk ns) es.
Proof.
  intros Hns. induction es as [|e es IH]; simpl; [done|]. rewrite IH. f_equal.
  unfold edgeChecks, edgeOk.
  assert (G : forall x, x ∈ nodeIdSet ns -> falsy x = false).
  { intros x Hx. unfold nodeIdSet in Hx. rewrite elem_of_list_to_set, list_elem_of_fmap in Hx.
    destruct Hx as (n & -> & Hn). rewrite forallb_forall in Hns.
    apply list_elem_of_In, Hns in Hn. unfold nodeOk in Hn.
    rewrite !andb_true_iff, negb_true_iff in Hn. tauto. }
  case_bool_decide as Hs; [rewrite (G _ Hs)|by rewrite !andb_false_r].
  case_bool_decide as Ht; [rewrite (G _ Ht)|by rewrite !andb_false_r]. done.
Qed.

(** With every edge between declared nodes, the search finds no cycle
    exactly when there is none. *)
Lemma detectCycles_none w :
  forallb (edgeOk (nodes w)) (edges w) = true ->
  (nodes w = [] \/ detectCycles (nodes w) (edges w) = Some []) <-> acyclic w.
Proof.
  intros Hes. split.
  - intros Hno v l.
    destruct (isChain (edges w) (v :: l ++ [v])) eqn:Hc; [exfalso|done].
    assert (Hv : v ∈ nodeIdSet (nodes w)).
    { assert (exists y, linked (edges w) v y = true) as [y Hy].
      { destruct l as [|y l]; simpl in Hc; apply andb_true_iff in Hc as [Hc _]; eauto. }
      unfold linked in Hy. apply existsb_exists in Hy as (e & He & Hy).
      rewrite !andb_true_iff, !bool_decide_eq_true in Hy. destruct Hy as [[_ <-] _].
      rewrite forallb_forall in Hes. apply Hes in He. unfold edgeOk in He.
      rewrite !andb_true_iff, !bool_decide_eq_true in He. tauto. }
    destruct Hno as [Hno|Hno].
    + by apply nodeIdSet_nonempty in Hv.
    + exact (detectCycles_complete _ _ v [] Hv (isChain_tc _ _ l v v Hc) Hno eq_refl).
  - intros Hac. right. by apply detectCycles_sound.
Qed.

Lemma valid_wellFormed registry w :
  exists r, validate registry w = Some r
    /\ (valid r = true <-> wellFormed registry w = true /\ acyclic w).
Proof.
  destruct (validate_run registry w) as (rep & d & Hrep & Hd & Hval).
  eexists. split; [exact Hval|]. simpl.
  rewrite bool_decide_eq_true, length_zero_iff_nil.
  change (errors (validateSettings w rep) = []) with (clean (validateSettings w rep)).
  rewrite clean_validateSettings, (clean_validateTopology _ _ _ Hrep).
  unfold afterEdges.
  rewrite clean_validateEdges, clean_validateNodes, clean_validateSchema.
  unfold wellFormed. rewrite !andb_true_iff, !negb_true_iff, !bool_decide_eq_true.
  split.
  - intros (((((_ & H1 & H2 & H3) & H4 & H5) & H6 & H7) & H8) & H9).
    rewrite (edgeChecks_edgeOk _ _ _ H5) in H7.
    split; [tauto|]. by apply detectCycles_none.
  - intros ((((((((H1 & H2) & H3) & H4) & H5) & H6) & H7) & H9) & Hac).
    rewrite (edgeChecks_edgeOk _ _ _ H5).
    split; [|done]. split; [|by apply detectCycles_none]. done.
Qed.


(** *** Chains of a graph without cycles *)

Lemma isChain_app es l1 l2 :
  isChain es (l1 ++ l2) = true -> isChain es l1 = true /\ isChain es l2 = true.
Proof.
  induction l1 as [|x l1 IH]; [done|].
  destruct l1 as [|y l1].
  - simpl. destruct l2 as [|y l2]; [done|]. by intros [_ ?]%andb_true_iff.
  - change ((x :: y :: l1) ++ l2) with (x :: (y :: l1) ++ l2).
    cbn [isChain app]. intros [H1 H2]%andb_true_iff. apply IH in H2 as [H2 H3].
    by rewrite H1.
Qed.

Lemma acyclic_chain_NoDup w l : acyclic w -> isChain (edges w) l = true -> NoDup l.
Proof.
  intros Hac. induction l as [|v l IH]; [constructor|]. intros Hc.
  apply NoDup_cons. split.
  - intros (l1 & l2 & ->)%list_elem_of_split.
    change (v :: l1 ++ v :: l2) with ((v :: l1) ++ [v] ++ l2) in Hc.
    rewrite app_assoc in Hc. apply isChain_app in Hc as [Hc _].
    change (isChain (edges w) (v :: l1 ++ [v]) = true) in Hc. by rewrite Hac in Hc.
  - apply IH. by apply (isChain_app _ [v] l) in Hc as [_ Hc].
Qed.

Lemma wellFormed_targetsDeclared registry w :
  wellFormed registry w = true -> targetsDeclared w = true.
Proof.
  unfold wellFormed, targetsDeclared. rewrite !andb_true_iff.
  intros [[_ Hes] _]. rewrite forallb_forall in Hes. apply forallb_forall.
  intros e He. apply Hes in He. unfold edgeOk in He. rewrite !andb_true_iff in He.
  destruct He as [[_ ->] _]. apply orb_true_r.
Qed.

Lemma chain_length_le w v l :
  acyclic w -> targetsDeclared w = true -> v ∈ nodeIdSet (nodes w) ->
  isChain (edges w) (v :: l) = true -> (length (v :: l) <= length (nodes w))%nat.
Proof.
  intros Hac Htd Hv Hc.
  pose proof (chain_of_nodes w l v Htd Hv Hc) as Hall.
  rewrite <- (length_fmap node_id (nodes w)).
  apply submseteq_length, NoDup_submseteq; [by eapply acyclic_chain_NoDup|].
  intros x Hx. unfold allDeclared in Hall. rewrite forallb_forall in Hall.
  apply list_elem_of_In, Hall, bool_decide_eq_true in Hx.
  unfold nodeIdSet in Hx. by rewrite elem_of_list_to_set in Hx.
Qed.

(** *** Removing nodes and edges *)

Lemma linked_filter (P : WorkflowEdge -> Prop) `{!forall e, Decision (P e)} es u v :
  linked (filter P es) u v = true -> linked es u v = true.
Proof.
  unfold linked. rewrite !existsb_exists. intros (e & He & Hl). exists e.
  split; [|done]. apply list_elem_of_In. apply list_elem_of_In in He.
  by apply list_elem_of_filter in He as [_ ?].
Qed.

Lemma isChain_filter (P : WorkflowEdge -> Prop) `{!forall e, Decision (P e)} es l :
  isChain (filter P es) l = true -> isChain es l = true.
Proof.
  induction l as [|x [|y l] IH]; [done..|]. cbn [isChain].
  intros [H1 H2]%andb_true_iff. rewrite (linked_filter P _ _ _ H1). by apply IH.
Qed.

Lemma NoDup_fmap_filter {A B} (f : A -> B) (P : A -> Prop) `{!forall x, Decision (P x)} l :
  NoDup (f <$> l) -> NoDup (f <$> filter P l).
Proof.
  intros Hl. eapply sublist_NoDup; [exact Hl|]. apply fmap_sublist, sublist_filter.
Qed.

Lemma filter_nothing {A} (P : A -> Prop) `{!forall x, Decision (P x)} l :
  (forall x, x ∈ l -> ~ P x) -> filter P l = [].
Proof.
  induction l as [|x l IH]; intros Hl; [done|]. rewrite filter_cons_False.
  - apply IH. intros y Hy. apply Hl. by right.
  - apply Hl. by left.
Qed.

Lemma forallb_filter {A} (f : A -> bool) (P : A -> Prop) `{!forall x, Decision (P x)} l :
  forallb f l = true -> forallb f (filter P l) = true.
Proof.
  rewrite !forallb_forall. intros Hl x Hx. apply Hl.
  apply list_elem_of_In. apply list_elem_of_In in Hx.
  by apply list_elem_of_filter in Hx as [_ ?].
Qed.

Lemma wellFormed_removeNode registry w x :
  wellFormed registry w = true -> wellFormed registry (removeNode w x) = true.
Proof.
  unfold wellFormed, removeNode, withGraph, settingsOk. simpl.
  rewrite !andb_true_iff, !bool_decide_eq_true.
  intros (((((((H1 & H2) & H3) & H4) & H5) & H6) & H7) & H8).
  repeat split; try done.
  - by apply NoDup_fmap_filter.
  - by apply forallb_filter.
  - by apply NoDup_fmap_filter.
  - rewrite forallb_forall in H7. apply forallb_forall. intros e He.
    apply list_elem_of_In, list_elem_of_filter in He as [[Hs Ht] He].
    apply list_elem_of_In, H7 in He. unfold edgeOk in *.
    rewrite !andb_true_iff, !bool_decide_eq_true in *. destruct He as [[He1 He2] He3].
    unfold nodeIdSet in *. rewrite !elem_of_list_to_set, !list_elem_of_fmap in *.
    destruct He1 as (n1 & Hn1 & Hin1), He2 as (n2 & Hn2 & Hin2).
    split; [split|done]; [exists n1|exists n2]; (split; [done|]);
      apply list_elem_of_filter; (split; [congruence|done]).
Qed.

Lemma wellFormed_removeEdge registry w x :
  wellFormed registry w = true -> wellFormed registry (removeEdge w x) = true.
Proof.
  unfold wellFormed, removeEdge, withGraph, settingsOk. simpl.
  rewrite !andb_true_iff, !bool_decide_eq_true.
  intros (((((((H1 & H2) & H3) & H4) & H5) & H6) & H7) & H8).
  repeat split; try done.
  - by apply NoDup_fmap_filter.
  - by apply forallb_filter.
Qed.

Lemma valid_result registry w :
  (valid <$> validate registry w) = Some true <-> wellFormed registry w = true /\ acyclic w.
Proof.
  destruct (valid_wellFormed registry w) as (r & -> & H). simpl. rewrite <- H.
  split; [by intros [= ->]|by intros ->].
Qed.

(** A string from the bytes of its UTF-8 form. *)
Definition utf8 (bytes : list nat) : string :=
  string_of_list_ascii (ascii_of_nat <$> bytes).

(** U+00A0, U+2028, U+3000 and U+FEFF, and a tab before U+205F. *)
Definition unicodeBlanks : list string :=
  [utf8 [194; 160]%nat; utf8 [226; 128; 168]%nat; utf8 [227; 128; 128]%nat;
   utf8 [239; 187; 191]%nat; utf8 [9; 226; 129; 159]%nat].

Definition renamed (name : string) (w : WorkflowDefinition) : WorkflowDefinition :=
  {| wf_id := wf_id w; wf_name := name; wf_version := wf_version w;
     nodes := nodes w; edges := edges w; settings := settings w |}.

(** X1. [validate] answers [valid] exactly for the well-formed workflows
    without a cycle: identifier, non-blank name and version present; node
    ids distinct and non-empty, node types non-empty and (when the registry
    is not empty) registered; edge ids distinct; both ends of every edge
    declared and different; [maxConcurrency] at least 1 and [maxRetries] not
    negative where given; and no closed chain of enabled edges.  A name is
    blank when [trim] leaves nothing of it: no workflow is valid under a
    name that is a no-break space, a line separator, an ideographic space
    or a byte order mark. *)
Theorem valid_iff_wellFormed registry w :
  (exists r, validate registry w = Some r
     /\ (valid r = true <-> wellFormed registry w = true /\ acyclic w))
  /\ (forall name, name ∈ unicodeBlanks ->
        exists r, validate registry (renamed name w) = Some r /\ valid r = false).
Proof.
  split; [apply valid_wellFormed|].
  intros name Hname.
  destruct (valid_wellFormed registry (renamed name w)) as (r & Hr & Hiff).
  exists r. split; [exact Hr|].
  destruct (valid r) eqn:Hv; [|done]. exfalso.
  destruct (proj1 Hiff eq_refl) as [Hwf _].
  assert (Hb : blank name = true).
  { unfold unicodeBlanks in Hname. repeat (apply elem_of_cons in Hname as [->|Hname]);
      [reflexivity..|by apply elem_of_nil in Hname]. }
  unfold wellFormed in Hwf. cbn [wf_name renamed] in Hwf. rewrite Hb in Hwf.
  by rewrite andb_false_r in Hwf.
Qed.

(** The chain A -> B -> C under the name of one no-break space. *)
Lemma valid_iff_wellFormed_witness :
  exists r, validate ∅ (renamed (utf8 [194; 160]%nat) chain3) = Some r /\ valid r = false.
Proof.
  apply (proj2 (valid_iff_wellFormed ∅ chain3) (utf8 [194; 160]%nat)). left.
Defined.

(** X2. Removing a node with [WorkflowHelper.removeNode] keeps a valid
    workflow valid, and leaves neither the node nor any edge into or out of
    it. *)
Theorem removeNode_keeps_valid registry w x :
  (valid <$> validate registry w) = Some true ->
  (valid <$> validate registry (removeNode w x)) = Some true
  /\ (x ∉ nodeIdSet (nodes (removeNode w x)))
  /\ getNodeInputs (removeNode w x) x = []
  /\ getNodeOutputs (removeNode w x) x = [].
Proof.
  rewrite !valid_result. intros [Hwf Hac]. split; [split|].
  - by apply wellFormed_removeNode.
  - intros v l.
    destruct (isChain (edges (removeNode w x)) (v :: l ++ [v])) eqn:Hc; [|done].
    apply isChain_filter in Hc. by rewrite Hac in Hc.
  - unfold getNodeInputs, getNodeOutputs, removeNode, nodeIdSet. simpl.
    split; [|split].
    + rewrite elem_of_list_to_set, list_elem_of_fmap.
      intros (n & -> & [Hn _]%list_elem_of_filter). done.
    + apply filter_nothing. intros e [[_ He] _]%list_elem_of_filter. done.
    + apply filter_nothing. intros e [[He _] _]%list_elem_of_filter. done.
Qed.

Lemma removeNode_keeps_valid_witness :
  (valid <$> validate ∅ (removeNode chain3 "B")) = Some true
  /\ ("B" ∉ nodeIdSet (nodes (removeNode chain3 "B")))
  /\ getNodeInputs (removeNode chain3 "B") "B" = []
  /\ getNodeOutputs (removeNode chain3 "B") "B" = [].
Proof. apply (removeNode_keeps_valid ∅ chain3 "B"). vm_compute. reflexivity. Defined.

(** X3. Removing an edge with [WorkflowHelper.removeEdge] keeps a valid
    workflow valid and leaves no edge with that id; the nodes stay. *)
Theorem removeEdge_keeps_valid registry w x :
  (valid <$> validate registry w) = Some true ->
  (valid <$> validate registry (removeEdge w x)) = Some true
  /\ (x ∉ (edge_id <$> edges (removeEdge w x)))
  /\ nodes (removeEdge w x) = nodes w.
Proof.
  rewrite !valid_result. intros [Hwf Hac]. split; [split|].
  - by apply wellFormed_removeEdge.
  - intros v l.
    destruct (isChain (edges (removeEdge w x)) (v :: l ++ [v])) eqn:Hc; [|done].
    apply isChain_filter in Hc. by rewrite Hac in Hc.
  - split; [|done]. unfold removeEdge. simpl. rewrite list_elem_of_fmap.
    intros (e & -> & [He _]%list_elem_of_filter). done.
Qed.

Lemma removeEdge_keeps_valid_witness :
  (valid <$> validate ∅ (removeEdge chain3 "e1")) = Some true
  /\ ("e1" ∉ (edge_id <$> edges (removeEdge chain3 "e1")))
  /\ nodes (removeEdge chain3 "e1") = nodes chain3.
Proof. apply (removeEdge_keeps_valid ∅ chain3 "e1"). vm_compute. reflexivity. Defined.

(** X4. In the statistics of a valid workflow the depth is at most the
    number of nodes, and at least 1 when there is a node. *)
Theorem valid_depth_bounds registry w r :
  validate registry w = Some r -> valid r = true ->
  (maxDepth (stats r) <= totalNodes (stats r))%nat
  /\ (nodes w <> [] -> (1 <= maxDepth (stats r))%nat).
Proof.
  intros Hr Hv.
  assert (Hwf : wellFormed registry w = true /\ acyclic w).
  { apply valid_result. by rewrite Hr; simpl; rewrite Hv. }
  destruct Hwf as [Hwf Hac].
  destruct (validate_run registry w) as (rep & d & _ & Hd & Hval).
  rewrite Hr in Hval. injection Hval as ->. simpl.
  destruct (nodes w) as [|n ns] eqn:Hn.
  - unfold calculateMaxDepth in Hd. rewrite Hn in Hd. injection Hd as <-. done.
  - rewrite <- Hn.
    destruct (acyclic_depth w Hac) as (d' & Hd' & _ & v & l & Hv' & Hc & Hlen);
      [by rewrite Hn|].
    assert (d' = d) as -> by congruence. split.
    + rewrite <- Hlen. apply chain_length_le; try done.
      by eapply wellFormed_targetsDeclared.
    + intros _. simpl in Hlen. lia.
Qed.

Lemma valid_depth_bounds_witness :
  exists r, validate ∅ diamond = Some r
    /\ (maxDepth (stats r) <= totalNodes (stats r))%nat
    /\ (nodes diamond <> [] -> (1 <= maxDepth (stats r))%nat).
Proof.
  eexists. split; [vm_compute; reflexivity|].
  apply (valid_depth_bounds ∅ diamond); vm_compute; reflexivity.
Defined.


(** *** The warnings of the topology check *)

Definition topological (x : ValidationWarning) : bool :=
  existsb (String.eqb (w_code x))
    ["EMPTY_WORKFLOW"; "ISOLATED_NODE"; "NO_START_NODE"; "NO_END_NODE"].

Definition topo (r : Report) : list ValidationWarning :=
  List.filter topological (warnings r).

(** A node no edge names, as source or as target. *)
Definition isolated (es : list WorkflowEdge) (n : WorkflowNode) : bool :=
  bool_decide (node_id n ∉ nodesWithInputs es)
  && bool_decide (node_id n ∉ nodesWithOutputs es).

Definition brief (x : ValidationWarning) : string * option string :=
  (w_code x, w_nodeId x).

Lemma topo_when_pushError b e r : topo (when b (pushError e) r) = topo r.
Proof. by destruct b. Qed.

Lemma topo_pushWarning x r :
  topo (pushWarning x r) = topo r ++ (if topological x then [x] else []).
Proof. unfold topo. simpl. by rewrite List.filter_app. Qed.

Lemma topo_when_pushWarning b x r :
  topological x = false -> topo (when b (pushWarning x) r) = topo r.
Proof.
  intros Hx. destruct b; [|done]. simpl. rewrite topo_pushWarning, Hx. apply app_nil_r.
Qed.

Lemma topo_foldl {A} (f : Report -> A -> Report) l :
  (forall r a, topo (f r a) = topo r) -> forall r, topo (foldl f r l) = topo r.
Proof.
  intros Hf. induction l as [|a l IH]; intros r; simpl; [done|]. by rewrite IH, Hf.
Qed.

Lemma topo_validateSchema w r : topo (validateSchema w r) = topo r.
Proof.
  unfold validateSchema.
  by rewrite topo_when_pushWarning, !topo_when_pushError.
Qed.

Lemma topo_validateNode registry acc n :
  topo (snd (validateNode registry acc n)) = topo (snd acc).
Proof.
  destruct acc as [ids r]. unfold validateNode.
  destruct (falsy (node_type n)); simpl.
  - change (pushError ?e ?r0) with (when true (pushError e) r0).
    by rewrite !topo_when_pushError.
  - rewrite topo_foldl.
    + by rewrite !topo_when_pushWarning, !topo_when_pushError.
    + intros r0 i. unfold checkInput. by apply topo_when_pushWarning.
Qed.

Lemma topo_validateNodes registry ns r : topo (validateNodes registry ns r) = topo r.
Proof.
  unfold validateNodes.
  assert (G : forall acc, topo (snd (foldl (validateNode registry) acc ns)) = topo (snd acc)).
  { induction ns as [|n ns IH]; intros acc; cbn [foldl]; [done|].
    by rewrite IH, topo_validateNode. }
  apply G.
Qed.

Lemma topo_validateEdge all nodeMap acc e :
  topo (snd (validateEdge all nodeMap acc e)) = topo (snd acc).
Proof.
  destruct acc as [ids r]. unfold validateEdge.
  destruct (falsy (source e)); simpl.
  { change (pushError ?x ?r0) with (when true (pushError x) r0).
    by rewrite !topo_when_pushError. }
  destruct (falsy (target e)); simpl.
  { change (pushError ?x ?r0) with (when true (pushError x) r0).
    by rewrite !topo_when_pushError. }
  destruct (find _ _); simpl.
  - change (pushWarning ?x ?r0) with (when true (pushWarning x) r0).
    by rewrite !topo_when_pushWarning, !topo_when_pushError.
  - by rewrite !topo_when_pushWarning, !topo_when_pushError.
Qed.

Lemma topo_validateEdges es ns r : topo (validateEdges es ns r) = topo r.
Proof.
  unfold validateEdges. generalize es at 1. intros all.
  assert (G : forall acc,
             topo (snd (foldl (validateEdge all (nodeIdSet ns)) acc es)) = topo (snd acc)).
  { induction es as [|n es IH]; intros acc; cbn [foldl]; [done|].
    by rewrite IH, topo_validateEdge. }
  apply G.
Qed.

Lemma topo_validateSettings w r : topo (validateSettings w r) = topo r.
Proof.
  unfold validateSettings. destruct (settings w) as [s|]; [|done].
  destruct (retryPolicy s), (maxConcurrency s), (timeout s);
    by rewrite ?topo_when_pushWarning, ?topo_when_pushError,
      ?topo_when_pushWarning, ?topo_when_pushError,
      ?topo_when_pushWarning, ?topo_when_pushError.
Qed.

Lemma topo_isolated es ns : forall r,
  brief <$> topo (foldl (isolatedWarning es) r ns)
  = (brief <$> topo r)
    ++ ((fun n => ("ISOLATED_NODE", Some (node_id n))) <$> List.filter (isolated es) ns).
Proof.
  induction ns as [|n ns IH]; intros r; cbn [foldl List.filter]; [by rewrite app_nil_r|].
  rewrite IH. unfold isolatedWarning, isolated.
  destruct (bool_decide _ && bool_decide _); simpl; [|done].
  by rewrite topo_pushWarning, fmap_app, <- app_assoc.
Qed.

Definition noStart : string * option string := ("NO_START_NODE", None).
Definition noEnd : string * option string := ("NO_END_NODE", None).

(** What the topology check is to say about a workflow with nodes [ns]. *)
Definition expectedTopology (w : WorkflowDefinition) (st : Stats)
  : list (string * option string) :=
  match nodes w with
  | [] => [("EMPTY_WORKFLOW", None)]
  | _ =>
      ((fun n => ("ISOLATED_NODE", Some (node_id n)))
         <$> List.filter (isolated (edges w)) (nodes w))
      ++ (if (startNodes st =? 0)%nat then [noStart] else [])
      ++ (if (endNodes st =? 0)%nat then [noEnd] else [])
  end.

(** X5. The warnings of the topology check in the answer of [validate]
    are: EMPTY_WORKFLOW alone for a workflow without nodes; otherwise one
    ISOLATED_NODE per node that no edge names, in the order of the nodes,
    then NO_START_NODE exactly when [stats.startNodes] is 0 and NO_END_NODE
    exactly when [stats.endNodes] is 0.  No other check gives a warning
    with one of these codes. *)
Theorem topology_warnings registry w :
  exists r, validate registry w = Some r
    /\ brief <$> List.filter topological (res_warnings r) = expectedTopology w (stats r).
Proof.
  destruct (validate_run registry w) as (rep & d & Hrep & Hd & Hval).
  eexists. split; [exact Hval|]. simpl.
  change (List.filter topological (warnings ?r)) with (topo r).
  rewrite topo_validateSettings. unfold expectedTopology. simpl.
  assert (Hbase : topo (afterEdges registry w) = []).
  { unfold afterEdges.
    by rewrite topo_validateEdges, topo_validateNodes, topo_validateSchema. }
  unfold validateTopology in Hrep. destruct (nodes w) as [|n ns] eqn:Hn.
  - injection Hrep as <-. by rewrite topo_pushWarning, Hbase.
  - rewrite <- Hn in *.
    destruct (detectCycles (nodes w) (edges w)) as [cs|]; [|done].
    simpl in Hrep. injection Hrep as <-. unfold connectivityWarnings.
    assert (Hlen : bool_decide (0 < length (nodes w))%nat = true).
    { rewrite Hn. by apply bool_decide_eq_true; simpl; lia. }
    rewrite Hlen, !andb_true_r.
    set (r0 := foldl (fun r cycle => pushError (cycleError cycle) r) _ cs).
    assert (Hr0 : topo r0 = []).
    { unfold r0. rewrite topo_foldl; [done|]. intros r1 c.
      change (pushError ?x ?r2) with (when true (pushError x) r2).
      apply topo_when_pushError. }
    assert (Hiso := topo_isolated (edges w) (nodes w) r0).
    rewrite Hr0 in Hiso. simpl in Hiso.
    assert (Hb : forall k, bool_decide (k = 0%nat) = (k =? 0)%nat).
    { intros k. destruct k; done. }
    rewrite !Hb.
    destruct (length (startNodesOf (nodes w) (edges w)) =? 0)%nat,
      (length (endNodesOf (nodes w) (edges w)) =? 0)%nat; simpl;
      rewrite ?topo_pushWarning, ?fmap_app, ?Hiso; simpl;
      by rewrite ?app_nil_r, <- ?app_assoc.
Qed.

End ValidatorExtras.

(** * The storage: cache, files and queries *)

Module StorageProofs.
Import ExecutionHistory AdvancedFeatures HistoryStorage RecoveryChecks HistoryProofs.
Import RecoveryProofs.

(** The cache agrees with the files, every file holds the record of its
    own, non-empty id, and the cache is within its bound. *)
Definition Coherent (w : World) : Prop :=
  (forall k r, cache_get (cache w) k = Some r -> files w !! k = Some r)
  /\ (forall k r, files w !! k = Some r -> id r = k /\ k <> EmptyString)
  /\ (length (cache w) <= maxCacheSize)%nat.

Lemma cache_get_set_ne c k r k' :
  k' <> k -> cache_get (cache_set c k r) k' = cache_get c k'.
Proof.
  intros Hne. induction c as [|[k0 r0] c IH]; simpl.
  - by rewrite bool_decide_eq_false_2.
  - case_bool_decide as H0; simpl.
    + subst k0. by rewrite !bool_decide_eq_false_2.
    + by rewrite IH.
Qed.

Lemma cache_delete_cons k0 r0 c k :
  cache_delete ((k0, r0) :: c) k
  = if bool_decide (k0 = k) then cache_delete c k else (k0, r0) :: cache_delete c k.
Proof.
  unfold cache_delete. case_bool_decide.
  - by rewrite filter_cons_False by (simpl; tauto).
  - by rewrite filter_cons_True.
Qed.

Lemma cache_get_delete_ne c k k' :
  k' <> k -> cache_get (cache_delete c k) k' = cache_get c k'.
Proof.
  intros Hne. induction c as [|[k0 r0] c IH]; [done|].
  rewrite cache_delete_cons. simpl. case_bool_decide as H0.
  - subst k0. by rewrite bool_decide_eq_false_2.
  - simpl. by rewrite IH.
Qed.

Lemma cache_get_delete c k : cache_get (cache_delete c k) k = None.
Proof.
  induction c as [|[k0 r0] c IH]; [done|].
  rewrite cache_delete_cons. case_bool_decide as H0; [done|].
  simpl. by rewrite bool_decide_eq_false_2.
Qed.

Lemma length_cache_set c k r : (length (cache_set c k r) <= S (length c))%nat.
Proof.
  induction c as [|[k0 r0] c IH]; simpl; [lia|]. case_bool_decide; simpl; lia.
Qed.

Lemma length_cache_delete c k : (length (cache_delete c k) <= length c)%nat.
Proof. apply length_filter. Qed.

(** The first half of [updateCache]: room is made when the cache is full. *)
Definition evict (c : list (string * WorkflowExecutionRecord))
  : list (string * WorkflowExecutionRecord) :=
  if bool_decide (maxCacheSize <= length c)%nat then
    match c with
    | (firstKey, _) :: _ =>
        if bool_decide (firstKey = EmptyString) then c else cache_delete c firstKey
    | [] => c
    end
  else c.

Lemma updateCache_evict c k r : updateCache c k r = cache_set (evict c) k r.
Proof. done. Qed.

Lemma evict_get c k r : cache_get (evict c) k = Some r -> cache_get c k = Some r.
Proof.
  unfold evict. case_bool_decide; [|done]. destruct c as [|[fk r0] c]; [done|].
  case_bool_decide; [done|]. destruct (decide (k = fk)) as [->|Hne].
  - by rewrite cache_get_delete.
  - by rewrite cache_get_delete_ne.
Qed.

Lemma evict_length c :
  (forall fk r0 c', c = (fk, r0) :: c' -> fk <> EmptyString) ->
  (length c <= maxCacheSize)%nat -> (length (evict c) < maxCacheSize)%nat.
Proof.
  intros Hfirst Hlen. unfold evict. case_bool_decide as Hfull; [|lia].
  destruct c as [|[fk r0] c]; [simpl in *; unfold maxCacheSize in *; lia|].
  rewrite bool_decide_eq_false_2 by (by eapply Hfirst).
  rewrite cache_delete_cons, bool_decide_eq_true_2 by done.
  pose proof (length_cache_delete c fk). simpl in Hlen. lia.
Qed.

Lemma Coherent_first w fk r0 c' :
  Coherent w -> cache w = (fk, r0) :: c' -> fk <> EmptyString.
Proof.
  intros (Hc & Hf & _) Heq. apply (Hf fk r0), Hc. rewrite Heq. simpl.
  by rewrite bool_decide_eq_true_2.
Qed.

(** Writing the record [r] under its id [k], to the file and the cache. *)
Lemma Coherent_put w k r w' :
  Coherent w -> id r = k -> k <> EmptyString ->
  cache w' = updateCache (cache w) k r -> files w' = <[k := r]> (files w) ->
  Coherent w'.
Proof.
  intros Hw Hid Hk Hcache Hfiles. pose proof Hw as (Hc & Hf & Hlen).
  split; [|split].
  - intros k' r'. rewrite Hcache, Hfiles, updateCache_evict.
    destruct (decide (k' = k)) as [->|Hne].
    + rewrite cache_get_set, lookup_insert_eq. done.
    + rewrite cache_get_set_ne, lookup_insert_ne by done.
      intros H. by apply Hc, evict_get.
  - intros k' r'. rewrite Hfiles. destruct (decide (k' = k)) as [->|Hne].
    + rewrite lookup_insert_eq. by intros [= <-].
    + rewrite lookup_insert_ne by done. apply Hf.
  - rewrite Hcache, updateCache_evict.
    pose proof (length_cache_set (evict (cache w)) k r).
    pose proof (evict_length (cache w)) as He.
    assert (length (evict (cache w)) < maxCacheSize)%nat; [|lia].
    apply He; [|done]. intros fk r0 c' Heq. by eapply Coherent_first.
Qed.

Lemma Coherent_same w w' :
  cache w' = cache w -> files w' = files w -> Coherent w -> Coherent w'.
Proof. unfold Coherent. by intros -> ->. Qed.

(** Removing the file of [k] and the cache entry of [k]. *)
Lemma Coherent_remove w k w' :
  Coherent w -> cache w' = cache_delete (cache w) k -> files w' = delete k (files w) ->
  Coherent w'.
Proof.
  intros (Hc & Hf & Hlen) Hcache Hfiles. split; [|split].
  - intros k' r'. rewrite Hcache, Hfiles. destruct (decide (k' = k)) as [->|Hne].
    + by rewrite cache_get_delete.
    + rewrite cache_get_delete_ne, lookup_delete_ne by done. apply Hc.
  - intros k' r'. rewrite Hfiles. intros H. apply Hf.
    by apply lookup_delete_Some in H as [_ ?].
  - rewrite Hcache. pose proof (length_cache_delete (cache w) k). lia.
Qed.

Lemma Coherent_stored w k : Coherent w -> stored w k = files w !! k.
Proof.
  intros (Hc & _). unfold stored. destruct (cache_get (cache w) k) eqn:H; [|done].
  by rewrite (Hc _ _ H).
Qed.

Lemma get_Coherent k w :
  Coherent w ->
  Coherent (snd (get k w)) /\ fst (get k w) = Returned (files w !! k)
  /\ files (snd (get k w)) = files w.
Proof.
  intros Hw. pose proof Hw as (Hc & Hf & Hlen).
  unfold get. destruct (cache_get (cache w) k) as [r|] eqn:Hget; simpl.
  - by rewrite (Hc _ _ Hget).
  - destruct (files w !! k) as [r|] eqn:Hfile; simpl; [|done].
    split; [|done]. destruct (Hf _ _ Hfile) as [Hid Hk].
    eapply (Coherent_put w k r); try done. simpl. by rewrite insert_id.
Qed.

Lemma save_Coherent r w :
  Coherent w -> id r <> EmptyString -> Coherent (snd (save r w)).
Proof.
  intros Hw Hid. eapply (Coherent_put w (id r) (setUpdatedAt (clock w (ticks w)) r)); done.
Qed.

(** What the operations that read a record first have in common. *)
Lemma get_cases k w :
  Coherent w ->
  exists w1, Coherent w1 /\ files w1 = files w /\ clock w1 = clock w /\ ticks w1 = ticks w
    /\ console w1 = console w /\ timers w1 = timers w
    /\ get k w = (Returned (files w !! k), w1)
    /\ (files w !! k = None -> w1 = w)
    /\ (forall r, files w !! k = Some r -> id r = k /\ k <> EmptyString).
Proof.
  intros Hw. destruct (get_Coherent k w Hw) as (H1 & H2 & H3).
  exists (snd (get k w)). split; [done|]. split; [done|].
  assert (Hsame : clock (get k w).2 = clock w /\ ticks (get k w).2 = ticks w
                  /\ console (get k w).2 = console w /\ timers (get k w).2 = timers w).
  { unfold get. destruct (cache_get _ _); [done|]. by destruct (files w !! k). }
  destruct Hsame as (? & ? & ? & ?). repeat (split; [done|]).
  split; [by rewrite <- H2; destruct (get k w)|]. split.
  - intros Hnone. unfold get. destruct (cache_get (cache w) k) eqn:Hc; [done|].
    by rewrite Hnone.
  - intros r Hr. by apply Hw.
Qed.


(** *** Every operation keeps the storage coherent *)

Definition Ensures {A} (c : M A) (Q : A -> Prop) : Prop :=
  forall w, Coherent w ->
    Coherent (snd (c w)) /\ forall a, fst (c w) = Returned a -> Q a.

Definition Keeps {A} (c : M A) : Prop := Ensures c (fun _ => True).

Lemma Ensures_ret {A} (a : A) (Q : A -> Prop) : Q a -> Ensures (ret a) Q.
Proof. intros Ha w Hw. split; [done|]. by intros ? [= <-]. Qed.

Lemma Keeps_ret {A} (a : A) : Keeps (ret a).
Proof. by apply Ensures_ret. Qed.

Lemma Ensures_throw {A} message (Q : A -> Prop) : Ensures (throw message) Q.
Proof. by intros w Hw. Qed.

Lemma Ensures_bind {A B} (c : M A) (f : A -> M B) (Q : A -> Prop) (R : B -> Prop) :
  Ensures c Q -> (forall a, Q a -> Ensures (f a) R) -> Ensures (bind c f) R.
Proof.
  intros Hc Hf w Hw. destruct (Hc w Hw) as [Hw' Ha]. unfold bind.
  destruct (c w) as [[a|message] w']; simpl in *; [|done].
  by apply Hf; [apply Ha|].
Qed.

Lemma Keeps_bind {A B} (c : M A) (f : A -> M B) :
  Keeps c -> (forall a, Keeps (f a)) -> Keeps (bind c f).
Proof. intros Hc Hf. eapply Ensures_bind; [exact Hc|]. intros a _. apply Hf. Qed.

Lemma Ensures_weaken {A} (c : M A) (Q R : A -> Prop) :
  Ensures c Q -> (forall a, Q a -> R a) -> Ensures c R.
Proof. intros Hc HQR w Hw. destruct (Hc w Hw). split; auto. Qed.

Lemma Ensures_get k :
  Ensures (get k) (fun found => forall r, found = Some r -> id r = k /\ k <> EmptyString).
Proof.
  intros w Hw. destruct (get_Coherent k w Hw) as (H1 & H2 & _). split; [done|].
  rewrite H2. intros a [= <-] r Hr. by apply Hw.
Qed.

Lemma Keeps_get k : Keeps (get k).
Proof. eapply Ensures_weaken; [apply Ensures_get|done]. Qed.

Lemma Keeps_Date_now : Keeps Date_now.
Proof. intros w Hw. split; [|done]. by eapply Coherent_same; [..|exact Hw]. Qed.

Lemma Keeps_save r : id r <> EmptyString -> Keeps (save r).
Proof. intros Hr w Hw. split; [|done]. by apply save_Coherent. Qed.

Lemma id_withSuccessRate r : id (withSuccessRate r) = id r.
Proof. unfold withSuccessRate. by case_match. Qed.

Lemma Keeps_notFound {A} k : Keeps (@notFound A k).
Proof. apply Ensures_throw. Qed.

Lemma Keeps_updateStatus k st err : Keeps (updateStatus k st err).
Proof.
  eapply Ensures_bind; [apply Ensures_get|]. intros [r|] Hr; [|apply Keeps_notFound].
  destruct (Hr r eq_refl) as [Hid Hk].
  eapply (Ensures_bind _ _ (fun x => id x = k)).
  { destruct (_ && _); [|by apply Ensures_ret].
    eapply Ensures_bind; [apply Keeps_Date_now|]. intros t _. by apply Ensures_ret. }
  intros x Hx. eapply (Ensures_bind _ _ (fun x => id x = k)).
  { destruct (isTerminal st); [|by apply Ensures_ret].
    eapply Ensures_bind; [apply Keeps_Date_now|]. intros t _. by apply Ensures_ret. }
  intros y Hy. apply Keeps_bind; [|intros; apply Keeps_ret].
  apply Keeps_save. rewrite id_withSuccessRate. destruct err; simpl; congruence.
Qed.

Lemma Keeps_addNodeExecution k n : Keeps (addNodeExecution k n).
Proof.
  eapply Ensures_bind; [apply Ensures_get|]. intros [r|] Hr; [|apply Keeps_notFound].
  destruct (Hr r eq_refl) as [Hid Hk].
  apply Keeps_bind; [|intros; apply Keeps_ret]. apply Keeps_save. simpl. congruence.
Qed.

Lemma Keeps_addCheckpoint k node state : Keeps (addCheckpoint k node state).
Proof.
  eapply Ensures_bind; [apply Ensures_get|]. intros [r|] Hr; [|apply Keeps_notFound].
  destruct (Hr r eq_refl) as [Hid Hk].
  apply Keeps_bind; [apply Keeps_Date_now|]. intros t.
  apply Keeps_bind; [|intros; apply Keeps_ret]. apply Keeps_save. simpl. congruence.
Qed.

Lemma Keeps_createExecution workflow trg ctx suffix :
  Keeps (createExecution workflow trg ctx suffix).
Proof.
  apply Keeps_bind; [apply Keeps_Date_now|]. intros t. by apply Keeps_save.
Qed.

Lemma Keeps_delete k : Keeps (delete_ k).
Proof.
  intros w Hw. split; [|done]. unfold delete_. destruct (files w !! k); [|done].
  by eapply (Coherent_remove w k).
Qed.

Lemma Keeps_clearCache : Keeps clearCache.
Proof.
  intros w (Hc & Hf & Hlen). split; [|done]. split; [|split]; simpl; [done|exact Hf|].
  unfold maxCacheSize. lia.
Qed.

Lemma Keeps_query o : Keeps (query o).
Proof. by intros w Hw. Qed.

Lemma cleanupFile_Coherent cutoff l : forall w n,
  Coherent w -> (forall kr, kr ∈ l -> id (snd kr) = fst kr) ->
  Coherent (fst (foldl (cleanupFile cutoff) (w, n) l)).
Proof.
  induction l as [|kr l IH]; intros w n Hw Hl; [done|].
  cbn [foldl]. unfold cleanupFile at 2.
  destruct (createdAt (snd kr) <? cutoff).
  - apply IH; [|intros x Hx; apply Hl; by right].
    eapply (Coherent_remove w (fst kr)); [done| |done].
    simpl. rewrite (Hl kr); [done|by left].
  - apply IH; [done|]. intros x Hx. apply Hl. by right.
Qed.

Lemma executionFiles_spec w k r :
  (k, r) ∈ executionFiles w <-> files w !! k = Some r /\ isExecutionFile k = true.
Proof.
  unfold executionFiles. rewrite list_elem_of_In, filter_In, <- list_elem_of_In.
  by rewrite elem_of_map_to_list.
Qed.

Lemma Keeps_cleanup days : Keeps (cleanup days).
Proof.
  intros w Hw. split; [|done]. unfold cleanup, bind. simpl.
  match goal with
  | |- context [foldl ?f (?w0, 0) ?l] =>
      pose proof (cleanupFile_Coherent
                    (clock w (ticks w) - default 30 days * 24 * 60 * 60 * 1000)
                    l w0 0) as H;
      destruct (foldl f (w0, 0) l) as [w' n]
  end.
  simpl in *. apply H.
  - by eapply Coherent_same; [..|exact Hw].
  - intros [k r] [Hkr _]%executionFiles_spec. simpl in *. by apply Hw in Hkr as [? _].
Qed.

Lemma Keeps_forEach_rollbackNode state l :
  Keeps (forEach (fun node => rollbackNode node state) l).
Proof.
  intros w Hw. split; [|done].
  destruct (forEach_rollbackNode state l w) as (w2 & Hrun & Hc2 & Hf2 & _).
  rewrite Hrun. by eapply Coherent_same.
Qed.

Lemma Keeps_try {A} (c : M A) (handler : string -> M A) :
  Keeps c -> (forall message, Keeps (handler message)) -> Keeps (try c handler).
Proof.
  intros Hc Hh w Hw. destruct (Hc w Hw) as [Hw' _]. unfold try.
  destruct (c w) as [[a|message] w']; simpl in *; [done|]. by apply Hh.
Qed.

Lemma Keeps_rollback k target : Keeps (rollback k target).
Proof.
  eapply Ensures_bind; [apply Ensures_get|]. intros [r|] Hr; [|apply Keeps_ret].
  destruct (Hr r eq_refl) as [Hid Hk].
  destruct (findCheckpoint target r) as [c|]; [|apply Keeps_ret].
  destruct (findIndex (sameNode target) (nodes r)) as [i|]; [|apply Keeps_ret].
  apply Keeps_try; [|intros; apply Keeps_ret].
  apply Keeps_bind; [apply Keeps_forEach_rollbackNode|]. intros _.
  apply Keeps_bind; [|intros; apply Keeps_ret]. apply Keeps_save. simpl. congruence.
Qed.

Lemma Keeps_canResume k : Keeps (canResume k).
Proof. apply Keeps_bind; [apply Keeps_get|]. intros [r|]; apply Keeps_ret. Qed.

Lemma Keeps_getResumeContext k : Keeps (getResumeContext k).
Proof.
  apply Keeps_bind; [apply Keeps_get|]. intros [r|]; [|apply Keeps_ret].
  destruct (lastCompleted (nodes r)); apply Keeps_ret.
Qed.

Lemma Keeps_resume k : Keeps (resume k).
Proof.
  apply Keeps_bind; [apply Keeps_canResume|]. intros able.
  destruct (negb able); [apply Keeps_ret|].
  apply Keeps_bind; [apply Keeps_getResumeContext|]. intros [c|]; [|apply Keeps_ret].
  apply Keeps_bind; [apply Keeps_updateStatus|]. intros _. apply Keeps_ret.
Qed.

Lemma Keeps_getAvailableRollbackPoints k : Keeps (getAvailableRollbackPoints k).
Proof.
  apply Keeps_bind; [apply Keeps_get|]. intros [r|]; [|apply Keeps_ret].
  destruct (checkpoints r); apply Keeps_ret.
Qed.

Lemma Keeps_validateRollback k target : Keeps (validateRollback k target).
Proof.
  apply Keeps_bind; [apply Keeps_get|]. intros [r|]; [|apply Keeps_ret].
  destruct (findIndex _ _); apply Keeps_ret.
Qed.

(** The calls a client can make on the storage and on the managers that
    work through it. *)
Inductive Call :=
| CreateExecution (workflow : WorkflowDefinition) (trg : Trigger) (ctx : option Context)
    (suffix : string)
| Save (record : WorkflowExecutionRecord)
| Get (k : string)
| UpdateStatus (k : string) (st : ExecutionStatus) (err : option ExecutionError)
| AddNodeExecution (k : string) (n : NodeExecutionRecord)
| AddCheckpoint (k node : string) (state : Js.Value)
| Query (o : ExecutionQueryOptions)
| Delete (k : string)
| Cleanup (olderThanDays : option Z)
| ClearCache
| GetAvailableRollbackPoints (k : string)
| ValidateRollback (k target : string)
| Rollback (k target : string)
| CanResume (k : string)
| GetResumeContext (k : string)
| Resume (k : string)
| CreateSnapshot (k node : string) (state : Js.Value).

Definition perform (c : Call) (w : World) : World :=
  match c with
  | CreateExecution workflow trg ctx suffix =>
      snd (createExecution workflow trg ctx suffix w)
  | Save record => snd (save record w)
  | Get k => snd (get k w)
  | UpdateStatus k st err => snd (updateStatus k st err w)
  | AddNodeExecution k n => snd (addNodeExecution k n w)
  | AddCheckpoint k node state => snd (addCheckpoint k node state w)
  | Query o => snd (query o w)
  | Delete k => snd (delete_ k w)
  | Cleanup days => snd (cleanup days w)
  | ClearCache => snd (clearCache w)
  | GetAvailableRollbackPoints k => snd (getAvailableRollbackPoints k w)
  | ValidateRollback k target => snd (validateRollback k target w)
  | Rollback k target => snd (rollback k target w)
  | CanResume k => snd (canResume k w)
  | GetResumeContext k => snd (getResumeContext k w)
  | Resume k => snd (resume k w)
  | CreateSnapshot k node state => snd (createSnapshot k node state w)
  end.

(** The ids of the call are plain: the execution id it passes, the id of
    the workflow and the tail that make the id of a new execution, the id
    of the record it saves, which is moreover not empty. *)
Definition admissible (c : Call) : bool :=
  match c with
  | CreateExecution workflow _ _ suffix => plainId (wf_id workflow) && plainId suffix
  | Save record => plainId (id record) && negb (bool_decide (id record = EmptyString))
  | Get k | UpdateStatus k _ _ | AddNodeExecution k _ | AddCheckpoint k _ _
  | Delete k | GetAvailableRollbackPoints k | ValidateRollback k _ | Rollback k _
  | CanResume k | GetResumeContext k | Resume k | CreateSnapshot k _ _ => plainId k
  | Query _ | Cleanup _ | ClearCache => true
  end.

(** A storage that starts on an empty directory. *)
Definition freshStorage (clock : nat -> Z) : World :=
  {| cache := []; files := ∅; clock := clock; ticks := 0%nat;
     console := []; timers := [] |}.

Definition performAll (calls : list Call) (w : World) : World :=
  foldl (fun w c => perform c w) w calls.

(** A record under the empty id, and a hundred records under the ids 0 to
    99, saved one after the other. *)
Definition namedRecord (k : string) : WorkflowExecutionRecord :=
  {| id := k; workflowId := "wf"; workflowName := "sample";
     workflowVersion := None; exec_status := PENDING;
     exec_startTime := 0; exec_endTime := None; exec_duration := None;
     trigger := {| trigger_type := manual; userId := None; userName := None;
                   data := None |};
     context := {| environment := None; variables := None; metadata := None |};
     nodes := [];
     stats := {| totalNodes := 0; completedNodes := 0; failedNodes := 0;
                 ExecutionHistory.skippedNodes := 0; successRate := None |};
     exec_error := None; checkpoints := None; createdAt := 0; updatedAt := 0 |}.

Definition emptyIdFirst : list Call :=
  Save (namedRecord EmptyString)
  :: ((fun i : nat => Save (namedRecord (pretty i))) <$> seq 0 100).

Lemma Keeps_run {A} (c : M A) w : Keeps c -> Coherent w -> Coherent (snd (c w)).
Proof. intros Hc Hw. by apply Hc. Qed.

Lemma perform_Coherent c w : admissible c = true -> Coherent w -> Coherent (perform c w).
Proof.
  intros Hc Hw. destruct c; unfold perform; (apply Keeps_run; [|exact Hw]).
  - apply Keeps_createExecution.
  - apply Keeps_save. simpl in Hc. apply andb_true_iff in Hc as [_ Hc].
    by apply negb_true_iff, bool_decide_eq_false in Hc.
  - apply Keeps_get.
  - apply Keeps_updateStatus.
  - apply Keeps_addNodeExecution.
  - apply Keeps_addCheckpoint.
  - apply Keeps_query.
  - apply Keeps_delete.
  - apply Keeps_cleanup.
  - apply Keeps_clearCache.
  - apply Keeps_getAvailableRollbackPoints.
  - apply Keeps_validateRollback.
  - apply Keeps_rollback.
  - apply Keeps_canResume.
  - apply Keeps_getResumeContext.
  - apply Keeps_resume.
  - apply Keeps_addCheckpoint.
Qed.

Lemma freshStorage_Coherent clock : Coherent (freshStorage clock).
Proof.
  split; [done|]. split; [|simpl; unfold maxCacheSize; lia].
  intros k r. simpl. by rewrite lookup_empty.
Qed.

Lemma performAll_Coherent calls w :
  forallb admissible calls = true -> Coherent w -> Coherent (performAll calls w).
Proof.
  revert w. induction calls as [|c calls IH]; intros w Hc Hw; [done|].
  simpl in Hc. apply andb_true_iff in Hc as [Hc Hcs].
  simpl. by apply IH, perform_Coherent.
Qed.

Lemma reached_Coherent clock calls :
  forallb admissible calls = true -> Coherent (performAll calls (freshStorage clock)).
Proof. intros Hc. by apply performAll_Coherent, freshStorage_Coherent. Qed.

(** A record is saved, marked completed and looked at. *)
Definition savedAndCompleted : list Call :=
  [Save (namedRecord "exec_1"); UpdateStatus "exec_1" COMPLETED None; Get "exec_1"].

(** X6. Whatever the clients call with plain ids, [save] included, and
    however often, the cache never holds more than 100 records, as long as
    no record with an empty id is saved.  A record saved under the empty id
    undoes the bound: it is the first key of the cache, which is then never
    evicted, and a hundred more records make 101. *)
Theorem cache_stays_bounded clock :
  (forall calls,
      forallb admissible calls = true ->
      (length (cache (performAll calls (freshStorage clock))) <= 100)%nat)
  /\ length (cache (performAll emptyIdFirst (freshStorage clock))) = 101%nat.
Proof.
  split.
  - intros calls Hc. by apply reached_Coherent.
  - by vm_compute.
Qed.

Lemma cache_stays_bounded_witness :
  (length (cache (performAll savedAndCompleted (freshStorage (fun _ => 0%Z)))) <= 100)%nat.
Proof. apply (proj1 (cache_stays_bounded (fun _ => 0%Z)) savedAndCompleted). reflexivity. Defined.

(** X7. After any calls with plain ids that save no record under the
    empty id, the cache holds no stale record: for a plain id [get] answers
    the record the file of that id holds, or [null] when there is no such
    file, and a record is always stored under its own id. *)
Theorem get_answers_the_file clock calls k :
  forallb admissible calls = true ->
  plainId k = true ->
  let w := performAll calls (freshStorage clock) in
  fst (get k w) = Returned (files w !! k)
  /\ files (snd (get k w)) = files w
  /\ forall r, files w !! k = Some r -> id r = k.
Proof.
  intros Hc _. simpl.
  pose proof (reached_Coherent clock calls Hc) as Hw.
  destruct (get_Coherent k _ Hw) as (_ & H1 & H2). split; [done|]. split; [done|].
  intros r Hr. by apply Hw in Hr as [? _].
Qed.

Lemma get_answers_the_file_witness :
  let w := performAll savedAndCompleted (freshStorage (fun _ => 0%Z)) in
  fst (get "exec_1" w) = Returned (files w !! "exec_1")
  /\ files (snd (get "exec_1" w)) = files w
  /\ forall r, files w !! "exec_1" = Some r -> id r = "exec_1".
Proof.
  apply (get_answers_the_file (fun _ => 0%Z) savedAndCompleted "exec_1"); reflexivity.
Defined.


(** *** An id without a record *)

Lemma get_missing w k : stored w k = None -> get k w = (Returned None, w).
Proof.
  unfold stored, get. destruct (cache_get (cache w) k); [done|]. by intros ->.
Qed.



(** *** Checkpoints *)

Definition snapshot (k : string) (w : World) (c : string * Js.Value) : World :=
  snd (addCheckpoint k (fst c) (snd c) w).

(** The checkpoint the [i]-th of a run of calls adds, in a world that has
    read the clock [t] times: each call reads it twice. *)
Definition stamped (clock : nat -> Z) (t : nat) (i : nat) (c : string * Js.Value)
  : Checkpoint :=
  {| cp_nodeId := fst c; cp_timestamp := clock (t + 2 * i)%nat; cp_state := snd c |}.

Lemma addCheckpoint_run w k r node state :
  stored w k = Some r -> id r = k ->
  exists w',
    addCheckpoint k node state w = (Returned tt, w')
    /\ stored w' k
       = Some (setUpdatedAt (clock w (S (ticks w)))
                 (withCheckpoints
                    (default [] (checkpoints r)
                     ++ [{| cp_nodeId := node; cp_timestamp := clock w (ticks w);
                            cp_state := state |}]) r))
    /\ clock w' = clock w /\ ticks w' = S (S (ticks w)).
Proof.
  intros Hs Hid.
  assert (Hget : fst (get k w) = Returned (Some r)) by (by rewrite get_returns, Hs).
  destruct (get_found w k r Hget) as (w1 & Hrun & _ & Hc & Ht & _).
  unfold addCheckpoint, bind. rewrite Hrun. simpl.
  eexists. split; [reflexivity|]. simpl. split; [|by rewrite Hc, Ht].
  unfold stored. simpl. rewrite Hid, cache_get_updateCache. by rewrite Hc, Ht.
Qed.

Lemma snapshots_run k l : forall w r,
  stored w k = Some r -> id r = k ->
  exists r',
    stored (foldl (snapshot k) w l) k = Some r'
    /\ id r' = k
    /\ default [] (checkpoints r')
       = default [] (checkpoints r) ++ imap (stamped (clock w) (ticks w)) l
    /\ nodes r' = nodes r /\ exec_status r' = exec_status r /\ stats r' = stats r
    /\ clock (foldl (snapshot k) w l) = clock w
    /\ ticks (foldl (snapshot k) w l) = (ticks w + 2 * length l)%nat.
Proof.
  induction l as [|[node state] l IH]; intros w r Hs Hid.
  - exists r. simpl. rewrite app_nil_r. repeat split; try done; lia.
  - destruct (addCheckpoint_run w k r node state Hs Hid) as (w' & Hrun & Hs' & Hc & Ht).
    cbn [foldl]. unfold snapshot at 2 4 6. simpl. rewrite Hrun. simpl.
    destruct (IH w' _ Hs' Hid) as (r' & H1 & H2 & H3 & H4 & H5 & H6 & H7 & H8).
    exists r'. split; [done|]. split; [done|].
    split; [|repeat split; try done; [congruence|simpl; lia]].
    rewrite H3. simpl. rewrite <- app_assoc. f_equal. simpl. f_equal.
    + unfold stamped. simpl. f_equal. f_equal. lia.
    + apply imap_ext. intros i c _. unfold stamped. simpl. rewrite Hc, Ht.
      f_equal. f_equal. lia.
Qed.

(** X9. Checkpoints are only ever appended: after a run of
    [addCheckpoint] calls on a stored execution its record holds the earlier
    checkpoints followed by the new ones in the order of the calls, each
    stamped with the clock reading of its call; nodes, status and counts are
    as before. *)
Theorem checkpoints_append w k r l :
  stored w k = Some r -> id r = k ->
  exists r',
    stored (foldl (snapshot k) w l) k = Some r'
    /\ default [] (checkpoints r')
       = default [] (checkpoints r) ++ imap (stamped (clock w) (ticks w)) l
    /\ nodes r' = nodes r /\ exec_status r' = exec_status r /\ stats r' = stats r.
Proof.
  intros Hs Hid.
  destruct (snapshots_run k l w r Hs Hid) as (r' & H1 & _ & H3 & H4 & H5 & H6 & _).
  by exists r'.
Qed.

Lemma checkpoints_append_witness :
  exists r',
    stored (foldl (snapshot "exec-1") (worldWith (sampleRecord [] None))
              [("A", Js.Null); ("B", Js.Number 7)]) "exec-1" = Some r'
    /\ default [] (checkpoints r')
       = [{| cp_nodeId := "A"; cp_timestamp := 2000; cp_state := Js.Null |};
          {| cp_nodeId := "B"; cp_timestamp := 4000; cp_state := Js.Number 7 |}].
Proof.
  destruct (checkpoints_append (worldWith (sampleRecord [] None)) "exec-1"
              (sampleRecord [] None) [("A", Js.Null); ("B", Js.Number 7)])
    as (r' & H1 & H2 & _); [reflexivity|reflexivity|].
  exists r'. split; [exact H1|]. rewrite H2. reflexivity.
Defined.

(** *** delete *)

Lemma stored_delete w k :
  stored (snd (delete_ k w)) k = match files w !! k with
                                 | Some _ => None
                                 | None => stored w k
                                 end.
Proof.
  unfold delete_. destruct (files w !! k) eqn:Hf; [|done].
  unfold stored. simpl. by rewrite cache_get_delete, lookup_delete_eq.
Qed.

Lemma stored_delete_ne w k k' : k' <> k -> stored (snd (delete_ k w)) k' = stored w k'.
Proof.
  intros Hne. unfold delete_. destruct (files w !! k) eqn:Hf; [|done].
  unfold stored. simpl. by rewrite cache_get_delete_ne, lookup_delete_ne.
Qed.

(** X10. [delete] answers whether the execution had a file.  After any
    calls with plain ids that save no record under the empty id, a [delete]
    of a plain id leaves no trace of the record: [get] then answers [null]
    and a second [delete] answers [false], while the record of every other
    plain id stays. *)
Theorem delete_forgets clock calls k :
  forallb admissible calls = true ->
  plainId k = true ->
  let w := performAll calls (freshStorage clock) in
  let w' := snd (delete_ k w) in
  fst (delete_ k w) = Returned (bool_decide (is_Some (files w !! k)))
  /\ get k w' = (Returned None, w')
  /\ delete_ k w' = (Returned false, w')
  /\ forall k', plainId k' = true -> k' <> k -> fst (get k' w') = fst (get k' w).
Proof.
  intros Hcalls _. simpl. set (w := performAll calls (freshStorage clock)).
  assert (Hw : Coherent w) by by apply reached_Coherent.
  assert (Hs : stored (snd (delete_ k w)) k = None).
  { rewrite stored_delete. destruct (files w !! k) eqn:Hf; [done|].
    by rewrite Coherent_stored. }
  split; [|split; [|split]].
  - unfold delete_. by destruct (files w !! k).
  - by apply get_missing.
  - unfold stored in Hs. unfold delete_ at 1.
    destruct (cache_get _ k); [done|]. by rewrite Hs.
  - intros k' _ Hne. by rewrite !get_returns, stored_delete_ne.
Qed.

Lemma delete_forgets_witness :
  let w := performAll savedAndCompleted (freshStorage (fun _ => 0%Z)) in
  let w' := snd (delete_ "exec_1" w) in
  fst (delete_ "exec_1" w) = Returned true
  /\ get "exec_1" w' = (Returned None, w')
  /\ delete_ "exec_1" w' = (Returned false, w').
Proof.
  destruct (delete_forgets (fun _ => 0%Z) savedAndCompleted "exec_1")
    as (H1 & H2 & H3 & _); [reflexivity|reflexivity|].
  split; [exact H1|]. split; [exact H2|exact H3].
Defined.


(** *** cleanup *)

Definition old (cutoff : Z) (kr : string * WorkflowExecutionRecord) : bool :=
  createdAt (snd kr) <? cutoff.

Lemma cleanup_loop cutoff l : forall w n,
  (forall kr, kr ∈ l -> id (snd kr) = fst kr) ->
  exists w',
    foldl (cleanupFile cutoff) (w, n) l
    = (w', n + Z.of_nat (length (List.filter (old cutoff) l)))
    /\ (forall k, files w' !! k
                  = if bool_decide (k ∈ (fst <$> List.filter (old cutoff) l))
                    then None else files w !! k)
    /\ (forall k, cache_get (cache w') k
                  = if bool_decide (k ∈ (fst <$> List.filter (old cutoff) l))
                    then None else cache_get (cache w) k)
    /\ clock w' = clock w /\ ticks w' = ticks w.
Proof.
  induction l as [|kr l IH]; intros w n Hl.
  - exists w. simpl. rewrite Z.add_0_r. repeat split; try done.
  - cbn [foldl List.filter]. unfold cleanupFile at 2. fold (old cutoff kr).
    assert (Hl' : forall x, x ∈ l -> id (snd x) = fst x) by (intros x Hx; apply Hl; by right).
    destruct (old cutoff kr) eqn:Hold.
    + match goal with
      | |- context [foldl _ (?w1, ?n1) l] => destruct (IH w1 n1 Hl') as (w' & Hrun & Hf & Hc & Hk & Ht)
      end.
      exists w'. split; [|split; [|split; [|done]]].
      * rewrite Hrun. f_equal. simpl length. lia.
      * intros k. rewrite Hf. simpl.
        destruct (decide (k = fst kr)) as [->|Hne].
        -- rewrite lookup_delete_eq. rewrite (bool_decide_eq_true_2 (_ ∈ _ :: _)) by (by left).
           by case_bool_decide.
        -- rewrite lookup_delete_ne by done.
           apply (f_equal (fun b : bool => if b then None else files w !! k)).
           apply bool_decide_ext. rewrite elem_of_cons. tauto.
      * intros k. rewrite Hc. simpl. rewrite (Hl kr) by (by left).
        destruct (decide (k = fst kr)) as [->|Hne].
        -- rewrite cache_get_delete. rewrite (bool_decide_eq_true_2 (_ ∈ _ :: _)) by (by left).
           by case_bool_decide.
        -- rewrite cache_get_delete_ne by done.
           apply (f_equal (fun b : bool => if b then None else cache_get (cache w) k)).
           apply bool_decide_ext. rewrite elem_of_cons. tauto.
    + apply IH, Hl'.
Qed.

(** X14. After any calls with plain ids that save no record under the
    empty id, [cleanup] removes exactly the execution files created before
    the cutoff (30 days before now unless told otherwise) and answers how
    many they were; afterwards [get] of a plain id finds none of them, not
    in the cache either, and every other record as before. *)
Theorem cleanup_removes_old clock calls days :
  forallb admissible calls = true ->
  let w := performAll calls (freshStorage clock) in
  let cutoff := ExecutionHistory.clock w (ticks w) - default 30 days * 24 * 60 * 60 * 1000 in
  exists w',
    cleanup days w
    = (Returned (Z.of_nat (length (List.filter (old cutoff) (executionFiles w)))), w')
    /\ forall k,
         plainId k = true ->
         fst (get k w')
         = Returned match files w !! k with
                    | Some r =>
                        if isExecutionFile k && (createdAt r <? cutoff) then None else Some r
                    | None => None
                    end.
Proof.
  intros Hcalls. simpl. set (w := performAll calls (freshStorage clock)).
  assert (Hw : Coherent w) by by apply reached_Coherent.
  set (cutoff := ExecutionHistory.clock w (ticks w) - default 30 days * 24 * 60 * 60 * 1000).
  unfold cleanup, bind. simpl. fold cutoff.
  match goal with
  | |- context [foldl _ (?w1, 0) ?l] =>
      destruct (cleanup_loop cutoff l w1 0) as (w' & Hrun & Hf & Hc & _)
  end.
  { intros [k r] [Hkr _]%executionFiles_spec. simpl in *. by apply Hw in Hkr as [? _]. }
  change (executionFiles _) with (executionFiles w) in *.
  rewrite Hrun. simpl in *. exists w'. split; [done|].
  intros k _. rewrite get_returns. unfold stored. rewrite Hc, Hf.
  assert (Hin : k ∈ (fst <$> List.filter (old cutoff) (executionFiles w))
                <-> exists r, files w !! k = Some r
                              /\ isExecutionFile k = true /\ (createdAt r <? cutoff) = true).
  { rewrite list_elem_of_fmap. split.
    - intros ([k' r] & -> & H). apply list_elem_of_In, filter_In in H as [H1 H2].
      apply list_elem_of_In, executionFiles_spec in H1 as [H1 H3]. by exists r.
    - intros (r & H1 & H2 & H3). exists (k, r). split; [done|].
      apply list_elem_of_In, filter_In. split; [|done].
      by apply list_elem_of_In, executionFiles_spec. }
  case_bool_decide as Hk.
  - apply Hin in Hk as (r & -> & -> & ->). done.
  - destruct (cache_get (cache w) k) as [r|] eqn:Hcache.
    + destruct Hw as (Hcf & _). rewrite (Hcf _ _ Hcache).
      destruct (isExecutionFile k && (createdAt r <? cutoff)) eqn:Hb; [|done].
      apply andb_true_iff in Hb as [? ?]. exfalso. apply Hk, Hin. exists r.
      split; [by apply Hcf|done].
    + destruct (files w !! k) as [r|] eqn:Hfile; [|done].
      destruct (isExecutionFile k && (createdAt r <? cutoff)) eqn:Hb; [|done].
      apply andb_true_iff in Hb as [? ?]. exfalso. apply Hk, Hin. by exists r.
Qed.

(** A record created at 0 is older than 30 days at 10000000000. *)
Lemma cleanup_removes_old_witness :
  let w := performAll savedAndCompleted (freshStorage (fun _ => 10000000000)) in
  exists w', cleanup None w = (Returned 1, w') /\ fst (get "exec_1" w') = Returned None.
Proof.
  destruct (cleanup_removes_old (fun _ => 10000000000) savedAndCompleted None)
    as (w' & H1 & H2); [reflexivity|].
  exists w'. split; [exact H1|]. exact (H2 "exec_1" eq_refl).
Defined.

End StorageProofs.

(** * Queries on the stored executions *)

Module QueryProofs.
Import ExecutionHistory HistoryStorage HistoryProofs.

(** One optional criterion of a query, as [filterIf] applies it. *)
Definition criterion {A} (x : option A) (truthy : A -> bool)
  (keep : A -> WorkflowExecutionRecord -> bool) (r : WorkflowExecutionRecord) : bool :=
  match x with
  | Some a => if truthy a then keep a r else true
  | None => true
  end.

Definition selectedb (o : ExecutionQueryOptions) (r : WorkflowExecutionRecord) : bool :=
  criterion (q_workflowId o) nonEmpty (fun x r => bool_decide (workflowId r = x)) r
  && criterion (q_status o) (fun st => (0 <? length st)%nat)
       (fun st r => bool_decide (exec_status r ∈ st)) r
  && criterion (startTimeFrom o) nonZero (fun t r => t <=? exec_startTime r) r
  && criterion (startTimeTo o) nonZero (fun t r => exec_startTime r <=? t) r
  && criterion (triggerType o) nonEmpty
       (fun t r => bool_decide (triggerName (trigger_type (trigger r)) = t)) r
  && criterion (q_userId o) nonEmpty
       (fun u r => bool_decide (userId (trigger r) = Some u)) r.

(** The records a query asks for: each criterion that is given, and is
    not the empty string, the empty list or 0, must hold. *)
Definition selected (o : ExecutionQueryOptions) (r : WorkflowExecutionRecord) : Prop :=
  (forall x, q_workflowId o = Some x -> x <> EmptyString -> workflowId r = x)
  /\ (forall st, q_status o = Some st -> st <> [] -> exec_status r ∈ st)
  /\ (forall t, startTimeFrom o = Some t -> t <> 0 -> t <= exec_startTime r)
  /\ (forall t, startTimeTo o = Some t -> t <> 0 -> exec_startTime r <= t)
  /\ (forall t, triggerType o = Some t -> t <> EmptyString ->
                triggerName (trigger_type (trigger r)) = t)
  /\ (forall u, q_userId o = Some u -> u <> EmptyString -> userId (trigger r) = Some u).

Lemma criterion_spec {A} (x : option A) truthy keep r (T : A -> Prop) (K : A -> Prop) :
  (forall a, truthy a = true <-> T a) -> (forall a, keep a r = true <-> K a) ->
  criterion x truthy keep r = true <-> (forall a, x = Some a -> T a -> K a).
Proof.
  intros HT HK. unfold criterion. destruct x as [a|]; [|by split].
  destruct (truthy a) eqn:Ht.
  - rewrite HK. split; [intros H a' [= <-] _; done|].
    intros H. apply H; [done|]. by apply HT.
  - split; [|done]. intros _ a' [= <-] Ha. apply HT in Ha. congruence.
Qed.

Lemma selectedb_spec o r : selectedb o r = true <-> selected o r.
Proof.
  unfold selectedb, selected. rewrite !andb_true_iff.
  rewrite (criterion_spec (q_workflowId o) _ _ r (fun x => x <> EmptyString)
             (fun x => workflowId r = x)).
  2:{ intros a. unfold nonEmpty. by rewrite negb_true_iff, bool_decide_eq_false. }
  2:{ intros a. apply bool_decide_eq_true. }
  rewrite (criterion_spec (q_status o) _ _ r (fun st => st <> [])
             (fun st => exec_status r ∈ st)).
  2:{ intros a. rewrite Nat.ltb_lt. destruct a; simpl; split; (done || lia). }
  2:{ intros a. apply bool_decide_eq_true. }
  rewrite (criterion_spec (startTimeFrom o) _ _ r (fun t => t <> 0)
             (fun t => t <= exec_startTime r)).
  2:{ intros a. unfold nonZero. by rewrite negb_true_iff, Z.eqb_neq. }
  2:{ intros a. apply Z.leb_le. }
  rewrite (criterion_spec (startTimeTo o) _ _ r (fun t => t <> 0)
             (fun t => exec_startTime r <= t)).
  2:{ intros a. unfold nonZero. by rewrite negb_true_iff, Z.eqb_neq. }
  2:{ intros a. apply Z.leb_le. }
  rewrite (criterion_spec (triggerType o) _ _ r (fun x => x <> EmptyString)
             (fun t => triggerName (trigger_type (trigger r)) = t)).
  2:{ intros a. unfold nonEmpty. by rewrite negb_true_iff, bool_decide_eq_false. }
  2:{ intros a. apply bool_decide_eq_true. }
  rewrite (criterion_spec (q_userId o) _ _ r (fun x => x <> EmptyString)
             (fun u => userId (trigger r) = Some u)).
  2:{ intros a. unfold nonEmpty. by rewrite negb_true_iff, bool_decide_eq_false. }
  2:{ intros a. apply bool_decide_eq_true. }
  tauto.
Qed.

Lemma filterIf_criterion {A} (x : option A) truthy keep l :
  filterIf x truthy keep l = List.filter (criterion x truthy keep) l.
Proof.
  unfold filterIf, criterion. destruct x as [a|]; [destruct (truthy a)|]; try done.
  - by rewrite filter_true.
  - by rewrite filter_true.
Qed.

Lemma filter_filter {A} (p q : A -> bool) l :
  List.filter p (List.filter q l) = List.filter (fun x => q x && p x) l.
Proof.
  induction l as [|x l IH]; [done|]. simpl. destruct (q x); simpl; [|done].
  destruct (p x); by rewrite IH.
Qed.

Lemma applyFilters_selectedb o l : applyFilters o l = List.filter (selectedb o) l.
Proof.
  unfold applyFilters. rewrite !filterIf_criterion, !filter_filter.
  apply filter_ext. intros r. unfold selectedb. by rewrite !andb_assoc.
Qed.

(** *** Sorting *)

Fixpoint ordered {A} (cmp : A -> A -> Z) (l : list A) : Prop :=
  match l with
  | [] => True
  | x :: l' => Forall (fun y => cmp x y <= 0) l' /\ ordered cmp l'
  end.

Lemma insertSorted_perm {A} (cmp : A -> A -> Z) x l : insertSorted cmp x l ≡ₚ x :: l.
Proof.
  induction l as [|y l IH]; simpl; [done|]. destruct (cmp x y <=? 0); [done|].
  rewrite IH. apply Permutation_swap.
Qed.

Lemma sort_perm {A} (cmp : A -> A -> Z) l : sort cmp l ≡ₚ l.
Proof.
  induction l as [|x l IH]; simpl; [done|]. by rewrite insertSorted_perm, IH.
Qed.

Section Sorting.
Context {A : Type} (cmp : A -> A -> Z).
Hypothesis total : forall a b, cmp a b <= 0 \/ cmp b a <= 0.
Hypothesis transitive : forall a b c, cmp a b <= 0 -> cmp b c <= 0 -> cmp a c <= 0.

Lemma insertSorted_ordered x l : ordered cmp l -> ordered cmp (insertSorted cmp x l).
Proof.
  induction l as [|y l IH]; simpl; [done|]. intros [Hy Hl].
  destruct (cmp x y <=? 0) eqn:Hxy.
  - apply Z.leb_le in Hxy. split; [|done]. constructor; [done|].
    eapply Forall_impl; [exact Hy|]. intros z Hz. by eapply transitive.
  - apply Z.leb_gt in Hxy. split; [|by apply IH].
    rewrite insertSorted_perm. constructor; [|done].
    destruct (total x y); [lia|done].
Qed.

Lemma sort_ordered l : ordered cmp (sort cmp l).
Proof. induction l as [|x l IH]; simpl; [done|]. by apply insertSorted_ordered. Qed.

End Sorting.

Lemma ordered_sublist {A} (cmp : A -> A -> Z) l1 l2 :
  l1 `sublist_of` l2 -> ordered cmp l2 -> ordered cmp l1.
Proof.
  induction 1 as [|x l1 l2 Hsub IH|x l1 l2 Hsub IH]; simpl; [done|..].
  - intros [Hx Hl]. split; [|by apply IH]. rewrite Forall_forall in *.
    intros y Hy. apply Hx. by eapply elem_of_sublist.
  - intros [_ Hl]. by apply IH.
Qed.

Lemma ordered_lookup {A} (cmp : A -> A -> Z) l : forall i j a b,
  ordered cmp l -> (i < j)%nat -> l !! i = Some a -> l !! j = Some b -> cmp a b <= 0.
Proof.
  induction l as [|x l IH]; intros i j a b Hl Hij Hi Hj; [done|].
  destruct Hl as [Hx Hl]. destruct i as [|i], j as [|j]; try lia; simpl in *.
  - injection Hi as ->. rewrite Forall_forall in Hx. apply Hx.
    by eapply list_elem_of_lookup_2.
  - apply (IH i j); [done|lia|done|done].
Qed.

Lemma compareRecords_total o a b : compareRecords o a b <= 0 \/ compareRecords o b a <= 0.
Proof. unfold compareRecords. destruct (default desc (sortOrder o)); lia. Qed.

Lemma compareRecords_transitive o a b c :
  compareRecords o a b <= 0 -> compareRecords o b c <= 0 -> compareRecords o a c <= 0.
Proof. unfold compareRecords. destruct (default desc (sortOrder o)); lia. Qed.

(** *** Slices *)

Lemma slice_sublist {A} (l : list A) start stop : slice l start stop `sublist_of` l.
Proof.
  unfold slice. etrans; [apply sublist_take|apply sublist_drop].
Qed.

(** A page of [size] items that starts at [start]. *)
Lemma slice_page {A} (l : list A) start size :
  0 <= start -> 0 <= size ->
  slice l start (start + size) = take (Z.to_nat size) (drop (Z.to_nat start) l).
Proof.
  intros Hs Hp. unfold slice, relativeIndex.
  rewrite (proj2 (Z.ltb_ge start 0)) by lia.
  rewrite (proj2 (Z.ltb_ge (start + size) 0)) by lia.
  destruct (decide (start <= Z.of_nat (length l))) as [Hin|Hout].
  - rewrite (Z.min_l start) by done.
    destruct (decide (start + size <= Z.of_nat (length l))) as [Hall|Hpart].
    + rewrite Z.min_l by done. f_equal. lia.
    + rewrite Z.min_r by lia.
      rewrite (take_ge _ (Z.to_nat size)) by (rewrite length_drop; lia).
      apply take_ge. rewrite length_drop. lia.
  - rewrite !Z.min_r by lia. rewrite Z.sub_diag.
    change (Z.to_nat 0) with 0%nat. rewrite take_0.
    rewrite (drop_ge l (Z.to_nat start)) by lia. by rewrite take_nil.
Qed.

(** The pages of [size] items each, from page [first] on, [count] of them. *)
Lemma pages_cover {A} size (Hsize : (0 < size)%nat) count : forall (l : list A),
  (length l <= count * size)%nat ->
  mjoin ((fun p => take size (drop (p * size) l)) <$> seq 0 count) = l.
Proof.
  induction count as [|count IH]; intros l Hlen.
  - simpl in *. destruct l; [done|simpl in Hlen; lia].
  - cbn [seq fmap list_fmap mjoin list_join]. simpl drop.
    transitivity (take size l ++ drop size l); [|apply take_drop]. f_equal.
    rewrite <- (IH (drop size l)) by (rewrite length_drop; lia).
    rewrite <- fmap_S_seq, <- list_fmap_compose. f_equal.
    apply list_fmap_ext. intros _ p _. simpl. by rewrite drop_drop.
Qed.


(** *** What a query answers *)

Definition matching (o : ExecutionQueryOptions) (w : World) : list WorkflowExecutionRecord :=
  sort (compareRecords o) (applyFilters o (allRecords w)).

Lemma query_run o w :
  query o w
  = (Returned {| executions :=
                   slice (matching o w) ((default 1 (page o) - 1) * default 20 (pageSize o))
                     ((default 1 (page o) - 1) * default 20 (pageSize o)
                      + default 20 (pageSize o));
                 total := length (matching o w);
                 res_page := default 1 (page o);
                 res_pageSize := default 20 (pageSize o);
                 totalPages := ceilDiv (Z.of_nat (length (matching o w)))
                                 (default 20 (pageSize o)) |}, w).
Proof. done. Qed.

Lemma elem_of_allRecords w r :
  r ∈ allRecords w <-> exists k, files w !! k = Some r /\ isExecutionFile k = true.
Proof.
  unfold allRecords. rewrite list_elem_of_fmap. split.
  - intros ([k r'] & -> & H). exists k. unfold executionFiles in H.
    apply list_elem_of_In, filter_In in H as [H1 H2]. split; [|done].
    by apply elem_of_map_to_list, list_elem_of_In.
  - intros (k & H1 & H2). exists (k, r). split; [done|].
    apply list_elem_of_In, filter_In. split; [|done].
    by apply list_elem_of_In, elem_of_map_to_list.
Qed.

Lemma matching_perm o w : matching o w ≡ₚ List.filter (selectedb o) (allRecords w).
Proof. unfold matching. by rewrite sort_perm, applyFilters_selectedb. Qed.

(** X11. [query] reads the files and changes nothing.  Every record it
    answers is held by an execution file (a file whose name starts with
    [exec_]) and meets every criterion given; [total] counts all such
    records, whatever the page. *)
Theorem query_selects o w :
  exists res, query o w = (Returned res, w)
    /\ (forall r, r ∈ executions res ->
          selected o r
          /\ exists k, files w !! k = Some r /\ isExecutionFile k = true)
    /\ total res = length (List.filter (selectedb o) (allRecords w))
    /\ (forall r, selectedb o r = true <-> selected o r).
Proof.
  eexists. split; [apply query_run|]. simpl. split; [|split].
  - intros r Hr. eapply elem_of_sublist in Hr; [|apply slice_sublist].
    rewrite matching_perm in Hr. apply list_elem_of_In, filter_In in Hr as [H1 H2].
    split; [by apply selectedb_spec|]. by apply elem_of_allRecords, list_elem_of_In.
  - by rewrite matching_perm.
  - apply selectedb_spec.
Qed.

(** X12. The records of a page come in the order asked for: by start
    time, duration (a missing one counting as 0) or creation time,
    ascending or descending; without options, latest start first. *)
Theorem query_sorted o w :
  exists res, query o w = (Returned res, w)
    /\ forall i j a b,
         (i < j)%nat -> executions res !! i = Some a -> executions res !! j = Some b ->
         let key := sortValue (default by_startTime (sortBy o)) in
         match default desc (sortOrder o) with
         | asc => key a <= key b
         | desc => key b <= key a
         end.
Proof.
  eexists. split; [apply query_run|]. simpl. intros i j a b Hij Ha Hb.
  assert (H : compareRecords o a b <= 0).
  { eapply (ordered_lookup (compareRecords o) _ i j); [|done..].
    eapply ordered_sublist; [apply slice_sublist|].
    apply sort_ordered; [apply compareRecords_total|apply compareRecords_transitive]. }
  unfold compareRecords in H. destruct (default desc (sortOrder o)); lia.
Qed.

(** The same query for another page. *)
Definition onPage (p : Z) (o : ExecutionQueryOptions) : ExecutionQueryOptions :=
  {| q_workflowId := q_workflowId o; q_status := q_status o;
     startTimeFrom := startTimeFrom o; startTimeTo := startTimeTo o;
     triggerType := triggerType o; q_userId := q_userId o;
     sortBy := sortBy o; sortOrder := sortOrder o;
     page := Some p; pageSize := pageSize o |}.

Definition pageOf (o : ExecutionQueryOptions) (w : World) : list WorkflowExecutionRecord :=
  match fst (query o w) with
  | Returned res => executions res
  | Thrown _ => []
  end.

Definition pagesOf (o : ExecutionQueryOptions) (w : World) : option Z :=
  match fst (query o w) with
  | Returned res => totalPages res
  | Thrown _ => None
  end.

Lemma ceilDiv_spec a b :
  0 <= a -> 1 <= b ->
  exists n, ceilDiv a b = Some (Z.of_nat n)
    /\ Z.of_nat n * b - b < a <= Z.of_nat n * b.
Proof.
  intros Ha Hb. unfold ceilDiv. rewrite (proj2 (Z.eqb_neq b 0)) by lia.
  pose proof (Z.div_mod (- a) b ltac:(lia)) as Hdm.
  pose proof (Z.mod_pos_bound (- a) b ltac:(lia)) as Hm.
  exists (Z.to_nat (- (- a / b))).
  assert (0 <= - (- a / b)) by nia.
  rewrite Z2Nat.id by done. split; [done|]. nia.
Qed.

Lemma pageOf_onPage o w p :
  1 <= default 20 (pageSize o) ->
  pageOf (onPage (Z.of_nat (S p)) o) w
  = take (Z.to_nat (default 20 (pageSize o)))
      (drop (p * Z.to_nat (default 20 (pageSize o))) (matching o w)).
Proof.
  intros Hsize. unfold pageOf. rewrite query_run. cbn [fst executions onPage page pageSize].
  change (matching (onPage _ o) w) with (matching o w).
  change (default 1 (Some ?x)) with x.
  replace (Z.of_nat (S p) - 1) with (Z.of_nat p) by lia.
  rewrite slice_page by nia. do 2 f_equal.
  rewrite Z2Nat.inj_mul by lia. by rewrite Nat2Z.id.
Qed.

(** X13. With a page size of at least 1, [totalPages] is the least
    number of pages that hold [total] records, the pages 1 to [totalPages]
    put end to end are the matching records in order, each once, and every
    later page is empty. *)
Theorem query_pages o w :
  1 <= default 20 (pageSize o) ->
  exists n : nat,
    (forall p, pagesOf (onPage p o) w = Some (Z.of_nat n))
    /\ Z.of_nat n * default 20 (pageSize o) - default 20 (pageSize o)
       < Z.of_nat (length (matching o w))
       <= Z.of_nat n * default 20 (pageSize o)
    /\ mjoin ((fun p => pageOf (onPage (Z.of_nat p) o) w) <$> seq 1 n) = matching o w
    /\ (forall p, (n < p)%nat -> pageOf (onPage (Z.of_nat p) o) w = []).
Proof.
  intros Hsize.
  destruct (ceilDiv_spec (Z.of_nat (length (matching o w))) (default 20 (pageSize o)))
    as (n & Hn & Hb); [lia|done|].
  exists n. split; [|split; [done|split]].
  - intros p. unfold pagesOf. by rewrite query_run.
  - rewrite <- fmap_S_seq, <- list_fmap_compose.
    etrans; [|apply (pages_cover (Z.to_nat (default 20 (pageSize o))) ltac:(lia) n
                       (matching o w)); nia].
    f_equal. apply list_fmap_ext. intros _ p _. simpl. by apply pageOf_onPage.
  - intros p Hp. destruct p as [|p]; [lia|]. rewrite pageOf_onPage by done.
    rewrite drop_ge; [by rewrite take_nil|]. nia.
Qed.

Definition firstOnly : ExecutionQueryOptions :=
  {| q_workflowId := None; q_status := None; startTimeFrom := None; startTimeTo := None;
     triggerType := None; q_userId := None; sortBy := None; sortOrder := None;
     page := None; pageSize := Some 1 |}.

(** Two executions of the one-node workflow, created one after the other. *)
Definition twoExecutions : World :=
  snd (createExecution oneNodeWorkflow manualTrigger None "b"
         (snd (createExecution oneNodeWorkflow manualTrigger None "a" emptyWorld))).

Lemma query_pages_witness :
  exists n : nat,
    (forall p, pagesOf (onPage p firstOnly) twoExecutions = Some (Z.of_nat n))
    /\ Z.of_nat n * 1 - 1 < Z.of_nat (length (matching firstOnly twoExecutions))
       <= Z.of_nat n * 1.
Proof.
  destruct (query_pages firstOnly twoExecutions) as (n & H1 & H2 & _); [simpl; lia|].
  exists n. split; [exact H1|exact H2].
Defined.


Lemma prefix_append s t u : String.prefix s ((s +:+ t) +:+ u) = true.
Proof.
  induction s as [|a s IH]; [by destruct ((EmptyString +:+ t) +:+ u)|].
  change ((String a s +:+ t) +:+ u) with (String a ((s +:+ t) +:+ u)).
  cbn [String.prefix]. by destruct (ascii_dec a a).
Qed.

Lemma isExecutionFile_exec rest : isExecutionFile ("exec_" +:+ rest) = true.
Proof. apply prefix_append. Qed.

Lemma elem_of_matching o w r :
  r ∈ matching o w <-> r ∈ allRecords w /\ selectedb o r = true.
Proof.
  rewrite matching_perm. by rewrite list_elem_of_In, filter_In, <- list_elem_of_In.
Qed.

(** The query for the executions of one workflow. *)
Definition ofWorkflow (workflow : string) : ExecutionQueryOptions :=
  {| q_workflowId := Some workflow; q_status := None; startTimeFrom := None;
     startTimeTo := None; triggerType := None; q_userId := None; sortBy := None;
     sortOrder := None; page := None; pageSize := None |}.

Lemma plainId_app a b : plainId (a +:+ b) = plainId a && plainId b.
Proof.
  induction a as [|c a IH]; [done|].
  change (String c a +:+ b) with (String c (a +:+ b)).
  unfold plainId in *. cbn [list_ascii_of_string forallb]. rewrite IH.
  by rewrite andb_assoc.
Qed.

Lemma plainId_pretty_N_go x : forall s, plainId s = true -> plainId (pretty_N_go x s) = true.
Proof.
  induction (N.lt_wf_0 x) as [x _ IH]. intros s Hs.
  assert (x = 0 \/ 0 < x)%N as [->|Hx] by lia; [by rewrite pretty_N_go_0|].
  rewrite pretty_N_go_step by done. apply IH; [by apply N.div_lt|].
  unfold plainId in *. cbn [list_ascii_of_string forallb]. rewrite Hs.
  unfold pretty_N_char. by repeat case_match.
Qed.

Lemma plainId_pretty (z : Z) : plainId (pretty z) = true.
Proof.
  assert (HN : forall n : N, plainId (pretty n) = true).
  { intros n. unfold pretty, pretty_N. case_decide; [done|].
    by apply plainId_pretty_N_go. }
  destruct z as [|p|p]; [done|apply HN|].
  change (pretty (Zneg p)) with ("-" +:+ pretty (Npos p)).
  rewrite plainId_app. by rewrite HN.
Qed.

(** X28. An execution just created for a workflow whose id is plain, as
    the tail of the new id is, has a plain id and is there for the queries:
    it is PENDING, its file is an execution file, and it is among the
    records that match a query for its workflow, which therefore counts at
    least one. *)
Theorem created_is_found workflow trg ctx suffix w :
  plainId (wf_id workflow) = true ->
  plainId suffix = true ->
  exists r0 w0,
    createExecution workflow trg ctx suffix w = (Returned r0, w0)
    /\ plainId (id r0) = true
    /\ exec_status r0 = PENDING
    /\ files w0 !! id r0 = Some r0
    /\ isExecutionFile (id r0) = true
    /\ r0 ∈ matching (ofWorkflow (wf_id workflow)) w0
    /\ exists res, query (ofWorkflow (wf_id workflow)) w0 = (Returned res, w0)
                   /\ (1 <= total res)%nat.
Proof.
  intros Hwf Hsuffix. unfold createExecution, bind. simpl.
  eexists _, _. split; [reflexivity|]. simpl.
  split; [by rewrite !plainId_app, Hwf, Hsuffix, plainId_pretty|].
  split; [done|]. split; [by rewrite lookup_insert_eq|].
  split; [apply isExecutionFile_exec|].
  match goal with
  | |- ?r ∈ matching ?o ?w0 /\ _ => assert (Hin : r ∈ matching o w0)
  end.
  { apply elem_of_matching. split.
    - apply elem_of_allRecords. eexists.
      split; [apply lookup_insert_eq|apply isExecutionFile_exec].
    - unfold selectedb, criterion. simpl. destruct (nonEmpty (wf_id workflow)); [|done].
      by rewrite bool_decide_eq_true_2. }
  split; [done|]. eexists. split; [apply query_run|]. simpl.
  destruct (matching _ _); [by apply elem_of_nil in Hin|simpl; lia].
Qed.

Lemma created_is_found_witness :
  exists r0 w0,
    createExecution oneNodeWorkflow manualTrigger None "a" emptyWorld = (Returned r0, w0)
    /\ plainId (id r0) = true
    /\ exec_status r0 = PENDING
    /\ r0 ∈ matching (ofWorkflow (wf_id oneNodeWorkflow)) w0
    /\ exists res, query (ofWorkflow (wf_id oneNodeWorkflow)) w0 = (Returned res, w0)
                   /\ (1 <= total res)%nat.
Proof.
  destruct (created_is_found oneNodeWorkflow manualTrigger None "a" emptyWorld)
    as (r0 & w0 & H1 & H0 & H2 & _ & _ & H3 & H4); [reflexivity|reflexivity|].
  exists r0, w0. split; [exact H1|]. split; [exact H0|]. split; [exact H2|].
  split; [exact H3|exact H4].
Defined.

End QueryProofs.

(** * Recovery: failures, checks and what follows a rollback *)

Module RecoveryExtras.
Import ExecutionHistory AdvancedFeatures RecoveryChecks HistoryProofs RecoveryProofs.

Definition hasCheckpoint (target : string) (r : WorkflowExecutionRecord) : Prop :=
  exists c, c ∈ default [] (checkpoints r) /\ cp_nodeId c = target.

Lemma find_none {A} (p : A -> bool) l : find p l = None -> forall a, a ∈ l -> p a = false.
Proof.
  induction l as [|x l IH]; simpl; intros H a Ha; [by apply elem_of_nil in Ha|].
  destruct (p x) eqn:Hx; [done|]. apply elem_of_cons in Ha as [->|Ha]; auto.
Qed.

Lemma find_first {A} (p : A -> bool) l a :
  find p l = Some a ->
  exists pre post, l = pre ++ a :: post /\ p a = true /\ forall x, x ∈ pre -> p x = false.
Proof.
  induction l as [|x l IH]; simpl; [done|]. destruct (p x) eqn:Hx.
  - intros [= ->]. exists [], l. split; [done|]. split; [done|].
    intros y Hy. by apply elem_of_nil in Hy.
  - intros H. destruct (IH H) as (pre & post & -> & Ha & Hpre).
    exists (x :: pre), post. split; [done|]. split; [done|].
    intros y [->|Hy]%elem_of_cons; auto.
Qed.

Lemma findCheckpoint_Some target r c :
  findCheckpoint target r = Some c -> hasCheckpoint target r.
Proof.
  unfold findCheckpoint. intros (pre & post & Heq & Hc & _)%find_first.
  exists c. split; [|by apply bool_decide_eq_true in Hc].
  rewrite Heq. apply elem_of_app. right. by left.
Qed.

Lemma findCheckpoint_None target r :
  findCheckpoint target r = None -> ~ hasCheckpoint target r.
Proof.
  unfold findCheckpoint. intros H (c & Hc & Hid).
  pose proof (find_none _ _ H c Hc) as Hf. by apply bool_decide_eq_false in Hf.
Qed.

Lemma findIndex_nodes_None target ns :
  findIndex (sameNode target) ns = None -> target ∉ (nodeId <$> ns).
Proof.
  intros H (n & -> & Hn)%list_elem_of_fmap.
  pose proof (findIndex_None _ _ H n Hn) as Hf. by apply sameNode_false in Hf.
Qed.

Lemma findIndex_nodes_Some target ns i :
  findIndex (sameNode target) ns = Some i -> target ∈ (nodeId <$> ns).
Proof.
  intros (pre & a & post & -> & _ & Ha & _)%findIndex_Some.
  apply sameNode_true in Ha. apply list_elem_of_fmap. exists a. split; [done|].
  apply elem_of_app. right. by left.
Qed.

Lemma get_stored w k r :
  stored w k = Some r ->
  exists w1, get k w = (Returned (Some r), w1) /\ sameButCache w w1.
Proof. intros Hs. apply get_found. by rewrite get_returns, Hs. Qed.

(** X15. Where the record can be written, [rollback] on a stored
    execution succeeds exactly when the record has a checkpoint for the
    target and a node with the target's id.  The checkpoint is looked for
    first: without one the rollback is refused with CHECKPOINT_NOT_FOUND,
    with one but without the node with NODE_NOT_FOUND.  A rollback refused
    for either reason names no affected node, writes no file, prints
    nothing and waits for nothing. *)
Theorem rollback_succeeds_iff w k target r :
  stored w k = Some r ->
  exists res w',
    rollback k target w = (Returned res, w')
    /\ (rb_success res = true
        <-> hasCheckpoint target r /\ target ∈ (nodeId <$> nodes r))
    /\ (~ hasCheckpoint target r ->
        res = {| rb_success := false; rolledBackTo := target; affectedNodes := [];
                 rb_message := "Checkpoint not found";
                 rb_error := Some "CHECKPOINT_NOT_FOUND" |}
        /\ sameButCache w w')
    /\ (hasCheckpoint target r -> target ∉ (nodeId <$> nodes r) ->
        res = {| rb_success := false; rolledBackTo := target; affectedNodes := [];
                 rb_message := "Target node not found";
                 rb_error := Some "NODE_NOT_FOUND" |}
        /\ sameButCache w w').
Proof.
  intros Hs. destruct (get_stored w k r Hs) as (w1 & Hget & Hsame).
  destruct (findCheckpoint target r) as [c|] eqn:Hcp.
  - pose proof (findCheckpoint_Some _ _ _ Hcp) as Hhas.
    destruct (findIndex (sameNode target) (nodes r)) as [i|] eqn:Hidx.
    + pose proof (findIndex_nodes_Some _ _ _ Hidx) as Hin.
      destruct (rollback_run w k target r) as (w' & res & r' & pre & t & post & Hrun & H);
        [by rewrite get_returns, Hs|done|done|].
      destruct H as (_ & _ & _ & -> & _).
      eexists _, w'. split; [exact Hrun|]. simpl. repeat split; try done.
    + pose proof (findIndex_nodes_None _ _ Hidx) as Hout.
      eexists _, w1. split.
      { unfold rollback, bind. rewrite Hget, Hcp, Hidx. reflexivity. }
      simpl. split; [split; [done|tauto]|]. repeat split; try done; apply Hsame.
  - pose proof (findCheckpoint_None _ _ Hcp) as Hno.
    eexists _, w1. split.
    { unfold rollback, bind. rewrite Hget, Hcp. reflexivity. }
    simpl. split; [split; [done|tauto]|]. repeat split; try done; apply Hsame.
Qed.

Lemma rollback_succeeds_iff_witness :
  exists res w',
    rollback "exec-1" "Z" (worldWith rollbackScenario) = (Returned res, w')
    /\ (~ hasCheckpoint "Z" rollbackScenario ->
        res = {| rb_success := false; rolledBackTo := "Z"; affectedNodes := [];
                 rb_message := "Checkpoint not found";
                 rb_error := Some "CHECKPOINT_NOT_FOUND" |}
        /\ sameButCache (worldWith rollbackScenario) w').
Proof.
  destruct (rollback_succeeds_iff (worldWith rollbackScenario) "exec-1" "Z" rollbackScenario)
    as (res & w' & H1 & _ & H3 & _); [reflexivity|].
  exists res, w'. split; [exact H1|exact H3].
Defined.

(** *** Rollback points *)

Lemma find_sameNode ns target t :
  find (sameNode target) ns = Some t ->
  exists pre post, ns = pre ++ t :: post /\ nodeId t = target
                   /\ (target ∉ (nodeId <$> pre)).
Proof.
  intros (pre & post & -> & Ht & Hpre)%find_first. exists pre, post.
  split; [done|]. split; [by apply sameNode_true|].
  intros (n & -> & Hn)%list_elem_of_fmap. apply Hpre in Hn. by apply sameNode_false in Hn.
Qed.

(** The first node with the id [target] is completed. *)
Definition completedAt (target : string) (r : WorkflowExecutionRecord) : Prop :=
  exists pre t post,
    nodes r = pre ++ t :: post /\ nodeId t = target /\ (target ∉ (nodeId <$> pre))
    /\ status t = NODE_COMPLETED.

Lemma first_unique pre t post pre' t' post' :
  pre ++ t :: post = pre' ++ t' :: post' ->
  nodeId t' ∉ (nodeId <$> pre) -> nodeId t ∉ (nodeId <$> pre') -> nodeId t = nodeId t' ->
  t = t'.
Proof.
  revert pre'. induction pre as [|x pre IH]; intros [|x' pre']; simpl.
  - by intros [= -> _].
  - intros [= -> _] _ H _. exfalso. apply H. by left.
  - intros [= -> _] H _ _. exfalso. apply H. by left.
  - intros [= -> Heq] H1 H2 Hid. apply (IH pre'); [done| | |done].
    + intros Hin. apply H1. by right.
    + intros Hin. apply H2. by right.
Qed.

Lemma canRollback_spec r c :
  canRollback (rollbackPoint r c) = true <-> completedAt (cp_nodeId c) r.
Proof.
  unfold rollbackPoint. simpl.
  destruct (find (sameNode (cp_nodeId c)) (nodes r)) as [t|] eqn:Hfind.
  - destruct (find_sameNode _ _ _ Hfind) as (pre & post & Hn & Ht & Hpre).
    rewrite bool_decide_eq_true. split.
    + intros Hst. by exists pre, t, post.
    + intros (pre' & t' & post' & Hn' & Ht' & Hpre' & Hst).
      rewrite Hn in Hn'.
      assert (t = t') as ->; [|done].
      eapply first_unique; [exact Hn'|by rewrite Ht'|by rewrite Ht|congruence].
  - split; [done|]. intros (pre & t & post & Hn & Ht & _ & _).
    assert (Hin : t ∈ nodes r) by (rewrite Hn; apply elem_of_app; right; by left).
    pose proof (find_none _ _ Hfind t Hin) as Hf. by apply sameNode_false in Hf.
Qed.

(** X16. [getAvailableRollbackPoints] answers one point per checkpoint,
    in their order, and writes nothing.  A point can be rolled back to
    ([canRollback], no [reason]) exactly when the first node with its id is
    completed, and [rollback] to such a point succeeds. *)
Theorem rollback_points_usable w k r :
  stored w k = Some r ->
  exists pts w',
    getAvailableRollbackPoints k w = (Returned pts, w')
    /\ sameButCache w w'
    /\ rp_nodeId <$> pts = cp_nodeId <$> default [] (checkpoints r)
    /\ forall p, p ∈ pts ->
         (canRollback p = true <-> completedAt (rp_nodeId p) r)
         /\ (reason p = None <-> canRollback p = true)
         /\ (canRollback p = true ->
             exists res w2, rollback k (rp_nodeId p) w = (Returned res, w2)
                            /\ rb_success res = true).
Proof.
  intros Hs. destruct (get_stored w k r Hs) as (w1 & Hget & Hsame).
  exists (rollbackPoint r <$> default [] (checkpoints r)), w1. split.
  { unfold getAvailableRollbackPoints, bind. rewrite Hget. by destruct (checkpoints r). }
  split; [done|]. split.
  { rewrite <- list_fmap_compose. by apply list_fmap_ext. }
  intros p (c & -> & Hc)%list_elem_of_fmap.
  split; [apply canRollback_spec|]. split.
  { unfold rollbackPoint. simpl. by destruct (match find _ _ with Some _ => _ | None => _ end). }
  intros (pre & t & post & Hn & Ht & Hpre & Hst)%canRollback_spec.
  destruct (rollback_run w k (cp_nodeId c) r)
    as (w' & res & r' & pre' & t' & post' & Hrun & H).
  - by rewrite get_returns, Hs.
  - by exists c.
  - apply list_elem_of_fmap. exists t. split; [done|].
    rewrite Hn. apply elem_of_app. right. by left.
  - destruct H as (_ & _ & _ & -> & _). by eexists _, w'.
Qed.

Lemma rollback_points_usable_witness :
  exists pts w',
    getAvailableRollbackPoints "exec-1" (worldWith rollbackScenario) = (Returned pts, w')
    /\ rp_nodeId <$> pts = cp_nodeId <$> default [] (checkpoints rollbackScenario).
Proof.
  destruct (rollback_points_usable (worldWith rollbackScenario) "exec-1" rollbackScenario)
    as (pts & w' & H1 & _ & H3 & _); [reflexivity|].
  exists pts, w'. split; [exact H1|exact H3].
Defined.

(** *** validateRollback *)

Definition risky (n : NodeExecutionRecord) : bool := irreversible n || committed n.

Lemma nodeWarnings_nil n : nodeWarnings n = [] <-> risky n = false.
Proof.
  unfold nodeWarnings, risky. destruct (irreversible n), (committed n); simpl; split; done.
Qed.

Lemma concat_nil {A} (ls : list (list A)) : concat ls = [] <-> forall l, l ∈ ls -> l = [].
Proof.
  induction ls as [|l ls IH]; simpl.
  - split; [|done]. intros _ l Hl. by apply elem_of_nil in Hl.
  - split.
    + intros [-> Hls]%app_eq_nil l' [->|Hl']%elem_of_cons; [done|]. by apply IH.
    + intros H. rewrite (H l) by (by left). simpl. apply IH. intros l' Hl'.
      apply H. by right.
Qed.

(** X17. [validateRollback] looks at the nodes after the first one with
    the target's id, which are the nodes [rollback] would undo: the
    rollback is [safe] exactly when none of them is of type external-api,
    email or notification and none has [outputs.committed] set to [true].
    Without such a target the answer is unsafe, with the warning "Target
    node not found".  The check writes and prints nothing. *)
Theorem validateRollback_spec w k target r :
  stored w k = Some r ->
  exists chk w',
    validateRollback k target w = (Returned chk, w')
    /\ sameButCache w w'
    /\ (target ∉ (nodeId <$> nodes r) ->
        chk = {| safe := false; rc_warnings := ["Target node not found"] |})
    /\ forall pre t post,
         nodes r = pre ++ t :: post -> nodeId t = target ->
         target ∉ (nodeId <$> pre) ->
         rc_warnings chk = concat (nodeWarnings <$> post)
         /\ (safe chk = true <-> forall n, n ∈ post -> risky n = false).
Proof.
  intros Hs. destruct (get_stored w k r Hs) as (w1 & Hget & Hsame).
  unfold validateRollback, bind. rewrite Hget.
  destruct (findIndex (sameNode target) (nodes r)) as [i|] eqn:Hidx.
  - eexists _, w1. split; [reflexivity|]. split; [done|]. split.
    { intros Hout. by apply findIndex_nodes_Some in Hidx. }
    intros pre t post Hn Ht Hpre. simpl.
    assert (Hi : findIndex (sameNode target) (nodes r) = Some (length pre)).
    { rewrite Hn. apply findIndex_first; [by apply sameNode_true|].
      intros x Hx. apply sameNode_false. intros Hxid. apply Hpre.
      apply list_elem_of_fmap. by exists x. }
    assert (i = length pre) as -> by congruence.
    assert (Hdrop : drop (S (length pre)) (nodes r) = post).
    { rewrite Hn, (cons_middle t pre post), app_assoc.
      apply drop_app_length'. rewrite length_app. simpl. lia. }
    rewrite Hdrop. split; [done|].
    rewrite bool_decide_eq_true, length_zero_iff_nil, concat_nil. split.
    + intros H n Hn'. apply nodeWarnings_nil, H, list_elem_of_fmap. by exists n.
    + intros H l (n & -> & Hn')%list_elem_of_fmap. by apply nodeWarnings_nil, H.
  - eexists _, w1. split; [reflexivity|]. split; [done|]. split; [done|].
    intros pre t post Hn Ht Hpre. exfalso.
    apply (findIndex_nodes_None _ _ Hidx), list_elem_of_fmap. exists t.
    split; [done|]. rewrite Hn. apply elem_of_app. right. by left.
Qed.

Lemma validateRollback_spec_witness :
  exists chk w',
    validateRollback "exec-1" "A" (worldWith rollbackScenario) = (Returned chk, w')
    /\ sameButCache (worldWith rollbackScenario) w'.
Proof.
  destruct (validateRollback_spec (worldWith rollbackScenario) "exec-1" "A" rollbackScenario)
    as (chk & w' & H1 & H2 & _); [reflexivity|].
  exists chk, w'. split; [exact H1|exact H2].
Defined.


(** *** resume *)

Lemma stored_after_get w k r w1 :
  get k w = (Returned (Some r), w1) -> stored w1 k = Some r.
Proof.
  unfold get, stored. destruct (cache_get (cache w) k) as [r0|] eqn:Hc.
  - intros [= -> <-]. by rewrite Hc.
  - destruct (files w !! k) as [r0|]; [|done]. intros [= -> <-]. simpl.
    by rewrite cache_get_updateCache.
Qed.

Lemma updateStatus_running w k r :
  stored w k = Some r ->
  exists w' r',
    updateStatus k RUNNING None w = (Returned tt, w')
    /\ stored w' (id r) = Some r'
    /\ exec_status r' = RUNNING /\ nodes r' = nodes r /\ checkpoints r' = checkpoints r
    /\ exec_endTime r' = exec_endTime r /\ exec_duration r' = exec_duration r
    /\ id r' = id r.
Proof.
  intros Hs. destruct (get_stored w k r Hs) as (w1 & Hget & _).
  unfold updateStatus, bind. rewrite Hget. unfold withSuccessRate. simpl.
  destruct (exec_startTime r =? 0) eqn:H0; simpl;
    destruct (0 <? totalNodes (stats r)) eqn:H1; simpl;
    (eexists _, _; split; [reflexivity|]; unfold stored; simpl;
     rewrite cache_get_updateCache; done).
Qed.



Definition resumable (st : ExecutionStatus) : bool :=
  bool_decide (st = PAUSED) || bool_decide (st = FAILED).

Lemma canResume_run w k r :
  stored w k = Some r ->
  exists w1, canResume k w = (Returned (resumable (exec_status r)), w1)
             /\ sameButCache w w1 /\ stored w1 k = Some r.
Proof.
  intros Hs. destruct (get_stored w k r Hs) as (w1 & Hget & Hsame).
  exists w1. unfold canResume, bind. rewrite Hget. split; [done|]. split; [done|].
  by eapply stored_after_get.
Qed.

Lemma getResumeContext_world w k r :
  stored w k = Some r ->
  exists ctx w1, getResumeContext k w = (Returned (Some ctx), w1)
                 /\ sameButCache w w1 /\ stored w1 k = Some r
                 /\ forall w0, stored w0 k = Some r ->
                               fst (getResumeContext k w0) = Returned (Some ctx).
Proof.
  intros Hs. destruct (get_stored w k r Hs) as (w1 & Hget & Hsame).
  assert (Hsame' : forall w0, stored w0 k = Some r ->
            fst (getResumeContext k w0)
            = fst (getResumeContext k w)).
  { intros w0 Hs0. destruct (get_stored w0 k r Hs0) as (w2 & Hget0 & _).
    unfold getResumeContext, bind. rewrite Hget, Hget0.
    by destruct (lastCompleted (nodes r)). }
  assert (Hw1 := stored_after_get _ _ _ _ Hget).
  unfold getResumeContext, bind in *. rewrite Hget in *.
  destruct (lastCompleted (nodes r)); by eexists _, w1.
Qed.

(** X18. [resume] on a stored execution succeeds exactly when its status
    is PAUSED or FAILED.  It then answers the context [getResumeContext]
    gives and sets the status to RUNNING, leaving nodes, checkpoints, end
    time and duration as they are.  Otherwise the error is CANNOT_RESUME
    and nothing is written. *)
Theorem resume_spec w k r :
  stored w k = Some r -> id r = k ->
  exists res w',
    resume k w = (Returned res, w')
    /\ (rs_success res = true <-> exec_status r = PAUSED \/ exec_status r = FAILED)
    /\ (rs_success res = true ->
        fst (getResumeContext k w) = Returned (resumeContext res)
        /\ exists r', stored w' k = Some r'
             /\ exec_status r' = RUNNING /\ nodes r' = nodes r
             /\ checkpoints r' = checkpoints r
             /\ exec_endTime r' = exec_endTime r /\ exec_duration r' = exec_duration r)
    /\ (rs_success res = false ->
        rs_error res = Some "CANNOT_RESUME" /\ resumeContext res = None
        /\ sameButCache w w').
Proof.
  intros Hs Hid.
  destruct (canResume_run w k r Hs) as (w1 & Hcan & Hsame1 & Hs1).
  assert (Hres : resumable (exec_status r) = true
                 <-> exec_status r = PAUSED \/ exec_status r = FAILED).
  { unfold resumable. by rewrite orb_true_iff, !bool_decide_eq_true. }
  unfold resume, bind at 1. rewrite Hcan.
  destruct (resumable (exec_status r)) eqn:Hable; simpl.
  - destruct (getResumeContext_world w1 k r Hs1) as (ctx & w2 & Hctx & Hsame2 & Hs2 & Hany).
    unfold bind at 1. rewrite Hctx.
    destruct (updateStatus_running w2 k r Hs2) as (w3 & r' & Hup & Hs3 & H).
    unfold bind. rewrite Hup. eexists _, w3. split; [reflexivity|]. simpl.
    split; [by rewrite <- Hres|]. split; [|done]. intros _.
    split; [by apply Hany|]. exists r'. rewrite Hid in Hs3. split; [done|]. tauto.
  - eexists _, w1. split; [reflexivity|]. simpl. rewrite <- Hres. done.
Qed.

Lemma resume_spec_witness :
  exists res w',
    resume "exec-1" (worldWith (resumeScenario Js.Null)) = (Returned res, w')
    /\ (rs_success res = true
        <-> exec_status (resumeScenario Js.Null) = PAUSED
            \/ exec_status (resumeScenario Js.Null) = FAILED).
Proof.
  destruct (resume_spec (worldWith (resumeScenario Js.Null)) "exec-1"
              (resumeScenario Js.Null)) as (res & w' & H1 & H2 & _);
    [reflexivity|reflexivity|].
  exists res, w'. split; [exact H1|exact H2].
Defined.

(** *** A rollback, then a resume *)

Lemma first_split_unique pre t post pre' t' post' :
  pre ++ t :: post = pre' ++ t' :: post' ->
  nodeId t' ∉ (nodeId <$> pre) -> nodeId t ∉ (nodeId <$> pre') ->
  pre = pre' /\ t = t' /\ post = post'.
Proof.
  revert pre'. induction pre as [|x pre IH]; intros [|x' pre']; simpl.
  - by intros [= -> ->].
  - intros [= -> _] _ H. exfalso. apply H. by left.
  - intros [= -> _] H _. exfalso. apply H. by left.
  - intros [= -> Heq] H1 H2. destruct (IH pre') as (-> & -> & ->); [done| | |done].
    + intros Hin. apply H1. by right.
    + intros Hin. apply H2. by right.
Qed.

Lemma rollback_stores w k target r pre t post :
  stored w k = Some r -> id r = k -> hasCheckpoint target r ->
  nodes r = pre ++ t :: post -> nodeId t = target -> target ∉ (nodeId <$> pre) ->
  exists w' r',
    snd (rollback k target w) = w'
    /\ stored w' k = Some r'
    /\ id r' = k /\ exec_status r' = PAUSED
    /\ nodes r' = pre ++ [appendLog (rollbackNote (length post)) t]
    /\ checkpoints r' = checkpoints r.
Proof.
  intros Hs Hid (c & Hc & Hcid) Hn Ht Hpre.
  destruct (get_stored w k r Hs) as (w1 & Hget & _).
  destruct (find_exists (fun c => bool_decide (cp_nodeId c = target)) _ c Hc)
    as [cp Hcp]; [by apply bool_decide_eq_true|].
  assert (Hidx : findIndex (sameNode target) (nodes r) = Some (length pre)).
  { rewrite Hn. apply findIndex_first; [by apply sameNode_true|].
    intros x Hx. apply sameNode_false. intros Hxid. apply Hpre.
    apply list_elem_of_fmap. by exists x. }
  unfold rollback, bind at 1. rewrite Hget.
  unfold findCheckpoint. rewrite Hcp, Hidx.
  assert (Hdrop : drop (S (length pre)) (nodes r) = post).
  { rewrite Hn, (cons_middle t pre post), app_assoc.
    apply drop_app_length'. rewrite length_app. simpl. lia. }
  assert (Htake : take (S (length pre)) (nodes r) = pre ++ [t]).
  { rewrite Hn, (cons_middle t pre post), app_assoc.
    apply take_app_length'. rewrite length_app. simpl. lia. }
  rewrite Hdrop. unfold try, bind.
  destruct (forEach_rollbackNode (cp_state cp) (reverse post) w1)
    as (w2 & Hloop & _).
  rewrite Hloop. cbn [nodes withStatus withNodes]. rewrite Htake.
  eexists _, _. split; [reflexivity|]. unfold stored. simpl.
  rewrite Hid, cache_get_updateCache. split; [reflexivity|]. simpl.
  split; [done|]. split; [done|]. split; [|done].
  rewrite alter_app_r_alt by lia. by rewrite Nat.sub_diag.
Qed.

(** X19. After a rollback to a completed node the execution is PAUSED and
    can be resumed: [resume] succeeds and sets it RUNNING.  As the target is
    then the last node of the record, the context names the target as its
    checkpoint node, lists the completed nodes up to it as skipped, and has
    no node to resume from ([resumeFromNode] is the empty string). *)
Theorem rollback_then_resume w k target r pre t post :
  stored w k = Some r -> id r = k -> hasCheckpoint target r ->
  nodes r = pre ++ t :: post -> nodeId t = target -> target ∉ (nodeId <$> pre) ->
  status t = NODE_COMPLETED ->
  exists res w' ctx r',
    resume k (snd (rollback k target w)) = (Returned res, w')
    /\ rs_success res = true
    /\ resumeContext res = Some ctx
    /\ checkpointNodeId ctx = target
    /\ resumeFromNode ctx = EmptyString
    /\ skippedNodes ctx
       = nodeId <$> List.filter (hasStatus NODE_COMPLETED) (pre ++ [t])
    /\ stored w' k = Some r'
    /\ exec_status r' = RUNNING
    /\ nodeId <$> nodes r' = nodeId <$> (pre ++ [t]).
Proof.
  intros Hs Hid Hcp Hn Ht Hpre Hst.
  destruct (rollback_stores w k target r pre t post Hs Hid Hcp Hn Ht Hpre)
    as (w1 & r1 & -> & Hs1 & Hid1 & Hst1 & Hn1 & Hcp1).
  destruct (canResume_run _ k r1 Hs1) as (w2 & Hcan & _ & Hs2).
  destruct (getResumeContext_world w2 k r1 Hs2) as (ctx & w3 & Hctx & _ & Hs3 & _).
  destruct (updateStatus_running w3 k r1 Hs3) as (w4 & r4 & Hup & Hs4 & Hst4 & Hn4 & _).
  destruct (getResumeContext_run w2 k r1) as (ctx' & Hctx' & _ & _ & Hlast);
    [by rewrite get_returns, Hs2|].
  rewrite Hctx in Hctx'. injection Hctx' as <-.
  destruct (Hlast pre (appendLog (rollbackNote (length post)) t) [])
    as (H1 & H2 & H3 & _); [done|done|by intros n Hn'%elem_of_nil|].
  exists {| rs_success := true; resumeContext := Some ctx;
            rs_message := "Resuming execution from node: " +:+ resumeFromNode ctx;
            rs_error := None |}, w4, ctx, r4.
  split.
  { unfold resume, bind at 1. rewrite Hcan, Hst1. simpl.
    unfold bind at 1. rewrite Hctx. unfold bind. by rewrite Hup. }
  split; [done|]. split; [done|]. split; [by rewrite H1|]. split.
  { apply H3. simpl. by rewrite Ht. }
  split.
  { rewrite H2. unfold completedIds. rewrite Hn1, !List.filter_app, !fmap_app.
    f_equal. simpl. unfold hasStatus. simpl. by destruct (bool_decide _). }
  rewrite Hid1 in Hs4. split; [done|]. split; [done|].
  rewrite Hn4, Hn1, !fmap_app. done.
Qed.

Lemma rollback_then_resume_witness :
  exists res w' ctx,
    resume "exec-1" (snd (rollback "exec-1" "A" (worldWith rollbackScenario)))
    = (Returned res, w')
    /\ rs_success res = true
    /\ resumeContext res = Some ctx
    /\ checkpointNodeId ctx = "A"
    /\ resumeFromNode ctx = EmptyString.
Proof.
  destruct (rollback_then_resume (worldWith rollbackScenario) "exec-1" "A" rollbackScenario
              [] (sampleNodeRecord "A" NODE_COMPLETED)
              [sampleNodeRecord "B" NODE_COMPLETED; sampleNodeRecord "C" NODE_FAILED])
    as (res & w' & ctx & r' & H1 & H2 & H3 & H4 & H5 & _).
  - reflexivity.
  - reflexivity.
  - eexists. split; [by left|reflexivity].
  - reflexivity.
  - reflexivity.
  - simpl. apply not_elem_of_nil.
  - reflexivity.
  - exists res, w', ctx. repeat split; assumption.
Defined.

End RecoveryExtras.

(** * Retries: how many attempts, how long the waits *)

Module RetryProofs.
Import ExecutionHistory AdvancedFeatures HistoryProofs RecoveryProofs.

(** The world after waiting for the delays [ds]. *)
Definition afterSleeping (ds : list Z) (w : World) : World :=
  {| cache := cache w; files := files w; clock := clock w; ticks := ticks w;
     console := console w; timers := timers w ++ ds |}.

Definition afterReading (w : World) : World :=
  {| cache := cache w; files := files w; clock := clock w; ticks := S (ticks w);
     console := console w; timers := timers w |}.

Lemma afterSleeping_nil w : afterSleeping [] w = w.
Proof. destruct w. unfold afterSleeping. simpl. by rewrite app_nil_r. Qed.


Section Loop.
Context {T : Type}.
Variable operation : Z -> T + OperationError.
Variable config : RetryConfig.

(** The line an attempt adds to [errors] when it fails. *)
Definition failureLine (attempt : Z) : option string :=
  match operation attempt with
  | inl _ => None
  | inr e => Some ("Attempt " +:+ pretty attempt +:+ ": " +:+ err_message e)
  end.

(** The attempt fails with an error that allows another try. *)
Definition retryableAt (attempt : Z) : Prop :=
  exists e, operation attempt = inr e /\ isRetryable config e = true.

(** The attempt ends the loop: it succeeds, fails for good, or is the
    last one allowed. *)
Definition decisiveAt (attempt : Z) : Prop :=
  match operation attempt with
  | inl _ => True
  | inr e => isRetryable config e = false \/ attempt = maxAttempts config
  end.

Definition outcomeAt (attempt : Z) (errors : list string) (duration : Z) : RetryResult T :=
  match operation attempt with
  | inl value =>
      {| rt_success := true; attempts := attempt; finalStatus := NODE_COMPLETED;
         rt_errors := errors; rt_duration := duration; result := Some value |}
  | inr _ =>
      {| rt_success := false; attempts := attempt; finalStatus := NODE_FAILED;
         rt_errors := errors; rt_duration := duration; result := None |}
  end.

Lemma attemptsFrom_decisive remaining attempt errors start w :
  decisiveAt attempt -> attempt + Z.of_nat remaining = maxAttempts config + 1 ->
  (0 < remaining)%nat ->
  attemptsFrom operation config remaining attempt errors start w
  = (Returned (outcomeAt attempt (errors ++ option_list (failureLine attempt))
                 (clock w (ticks w) - start)),
     afterReading w).
Proof.
  intros Hd Hinv Hrem. destruct remaining as [|remaining]; [lia|].
  unfold decisiveAt, outcomeAt, failureLine in *. simpl.
  destruct (operation attempt) as [v|e] eqn:Hop.
  - simpl. by rewrite app_nil_r.
  - destruct (isRetryable config e) eqn:Hre; simpl; [|done].
    destruct Hd as [?|Hlast]; [done|].
    assert (remaining = 0%nat) as -> by lia.
    rewrite (proj2 (Z.ltb_ge attempt (maxAttempts config))) by lia.
    simpl. unfold bind. simpl. by rewrite Hlast.
Qed.

Lemma attemptsFrom_retry m : forall remaining attempt errors start w,
  (forall j, attempt <= j < attempt + Z.of_nat m -> retryableAt j) ->
  attempt + Z.of_nat m <= maxAttempts config ->
  attempt + Z.of_nat remaining = maxAttempts config + 1 ->
  attemptsFrom operation config remaining attempt errors start w
  = attemptsFrom operation config (remaining - m) (attempt + Z.of_nat m)
      (errors ++ omap failureLine (seqZ attempt (Z.of_nat m))) start
      (afterSleeping ((fun j => calculateDelay j config) <$> seqZ attempt (Z.of_nat m)) w).
Proof.
  induction m as [|m IH]; intros remaining attempt errors start w Hre Hle Hinv.
  - simpl. rewrite Z.add_0_r, Nat.sub_0_r, app_nil_r. by rewrite afterSleeping_nil.
  - destruct remaining as [|remaining]; [lia|].
    destruct (Hre attempt) as (e & Hop & He); [lia|].
    cbn [attemptsFrom]. rewrite Hop, He. cbn [negb].
    rewrite (proj2 (Z.ltb_lt attempt (maxAttempts config))) by lia.
    unfold bind at 1. cbn [sleep].
    rewrite (IH remaining (attempt + 1)); [|intros j Hj; apply Hre; lia|lia|lia].
    rewrite (seqZ_cons attempt (Z.of_nat (S m))) by lia.
    cbn [omap list_omap fmap list_fmap].
    unfold failureLine at 2. rewrite Hop.
    replace (Z.succ attempt) with (attempt + 1) by lia.
    replace (Z.pred (Z.of_nat (S m))) with (Z.of_nat m) by lia.
    replace (attempt + 1 + Z.of_nat m) with (attempt + Z.of_nat (S m)) by lia.
    replace (S remaining - S m)%nat with (remaining - m)%nat by lia.
    rewrite <- app_assoc. f_equal.
    unfold afterSleeping. simpl. by rewrite <- app_assoc.
Qed.

End Loop.

(** X20. [executeWithRetry] stops at the first attempt that succeeds,
    fails with an error that is not retryable, or is the last one allowed.
    When that is attempt [k] (every earlier one failing with a retryable
    error), the answer counts [k] attempts, keeps one line per failed
    attempt, holds the value exactly when attempt [k] succeeded, and the
    waits were those before the attempts 2 to [k]: none follows the last
    attempt.  The clock is read twice, for the duration. *)
Theorem retry_stops_at T (operation : Z -> T + OperationError) config w k :
  1 <= k <= maxAttempts config ->
  (forall j, 1 <= j < k -> retryableAt operation config j) ->
  decisiveAt operation config k ->
  exists res w',
    executeWithRetry operation config w = (Returned res, w')
    /\ attempts res = k
    /\ rt_errors res = omap (failureLine operation) (seqZ 1 k)
    /\ result res = match operation k with inl v => Some v | inr _ => None end
    /\ (rt_success res = true <-> exists v, operation k = inl v)
    /\ timers w' = timers w ++ ((fun j => calculateDelay j config) <$> seqZ 1 (k - 1))
    /\ ticks w' = S (S (ticks w))
    /\ rt_duration res = clock w (S (ticks w)) - clock w (ticks w).
Proof.
  intros Hk Hre Hd. unfold executeWithRetry, bind. simpl.
  rewrite (attemptsFrom_retry operation config (Z.to_nat (k - 1))); [|intros j Hj; apply Hre; lia|lia|lia].
  rewrite Z2Nat.id by lia. replace (1 + (k - 1)) with k by lia.
  rewrite attemptsFrom_decisive; [|done|lia|lia].
  eexists _, _. split; [reflexivity|]. simpl.
  assert (Hseq : seqZ 1 k = seqZ 1 (k - 1) ++ [k]).
  { replace k with ((k - 1) + 1) at 1 by lia. rewrite seqZ_app by lia.
    f_equal. replace (1 + (k - 1)) with k by lia. done. }
  unfold outcomeAt, failureLine. rewrite Hseq, omap_app. simpl.
  destruct (operation k) as [v|e] eqn:Hop; simpl.
  - repeat split; try done. by exists v.
  - repeat split; try done. by intros [v ?].
Qed.


(** An operation that times out once and then answers 7. *)
Definition secondTry (attempt : Z) : Z + OperationError :=
  if attempt =? 2 then inl 7
  else inr {| err_code := Some "TIMEOUT"; err_message := "timed out" |}.

Lemma retry_stops_at_witness :
  exists res w',
    executeWithRetry secondTry exponentialConfig emptyWorld = (Returned res, w')
    /\ attempts res = 2
    /\ result res = Some 7
    /\ timers w' = [1000].
Proof.
  destruct (retry_stops_at Z secondTry exponentialConfig emptyWorld 2)
    as (res & w' & H1 & H2 & _ & H4 & _ & H6 & _).
  - simpl. lia.
  - intros j Hj. assert (j = 1) as -> by lia. eexists. split; reflexivity.
  - exact I.
  - exists res, w'. split; [exact H1|]. split; [exact H2|]. split; [exact H4|exact H6].
Defined.



End RetryProofs.

(** * The monitor: events and the executions they are about *)

Module MonitorExtras.
Import ExecutionHistory ExecutionMonitor MonitorControl HistoryProofs MonitorProofs.

Lemma monitor_eq m m' :
  activeExecutions m = activeExecutions m' -> emitted m = emitted m' ->
  mon_clock m = mon_clock m' -> mon_ticks m = mon_ticks m' -> m = m'.
Proof. destruct m, m'. simpl. by intros -> -> -> ->. Qed.

Lemma statusOf_setStatus l k st : statusOf (setStatus l k st) k = Some st.
Proof.
  induction l as [|[k' st'] l IH]; simpl.
  - by rewrite bool_decide_eq_true_2.
  - case_bool_decide as Hk; simpl.
    + by rewrite bool_decide_eq_true_2.
    + by rewrite bool_decide_eq_false_2.
Qed.

Lemma setStatus_same l k st : statusOf l k = Some st -> setStatus l k st = l.
Proof.
  induction l as [|[k' st'] l IH]; simpl; [done|].
  case_bool_decide as Hk; [by intros [= ->]; subst|]. intros H. by rewrite IH.
Qed.

(** [getProgress] reads the clock at most once and changes nothing else. *)
Lemma getProgress_keeps k m :
  activeExecutions (snd (getProgress k m)) = activeExecutions m
  /\ emitted (snd (getProgress k m)) = emitted m
  /\ mon_clock (snd (getProgress k m)) = mon_clock m.
Proof.
  unfold getProgress. destruct (activeExecutions m !! k) as [e|]; [|done].
  by destruct (_ && _).
Qed.

Lemma getProgress_monitored k m :
  is_Some (fst (getProgress k m)) <-> is_Some (activeExecutions m !! k).
Proof.
  unfold getProgress. destruct (activeExecutions m !! k) as [e|].
  - destruct (_ && _); simpl; split; by eexists.
  - simpl. done.
Qed.

Lemma updateProgress_spec k m :
  activeExecutions (updateProgress k m) = activeExecutions m
  /\ mon_clock (updateProgress k m) = mon_clock m
  /\ match fst (getProgress k m) with
     | Some p =>
         exists t, emitted (updateProgress k m)
                   = emitted m ++ [{| ev_type := PROGRESS_UPDATED; ev_executionId := k;
                                      ev_timestamp := t; ev_data := ProgressData p |}]
     | None => updateProgress k m = m
     end.
Proof.
  unfold updateProgress. destruct (getProgress_keeps k m) as (H1 & H2 & H3).
  destruct (getProgress_monitored k m) as [Hm1 Hm2].
  destruct (getProgress k m) as [[p|] m1] eqn:Hp; simpl in *.
  - split; [done|]. split; [done|]. eexists. by rewrite H2.
  - split; [done|]. split; [done|]. unfold getProgress in Hp.
    destruct (activeExecutions m !! k) as [e|]; [|by injection Hp].
    by destruct (_ && _).
Qed.

(** X22. Telling the monitor a node status it already holds changes
    nothing: no event goes out and the clock is not read.  So of two equal
    reports in a row the second is ignored. *)
Theorem updateNodeStatus_repeat m k node st nodeRecord nodeRecord' :
  let m1 := updateNodeStatus k node st nodeRecord m in
  updateNodeStatus k node st nodeRecord' m1 = m1.
Proof.
  cbv zeta.
  assert (Hact : activeExecutions (updateNodeStatus k node st nodeRecord m) !! k
                 = match activeExecutions m !! k with
                   | Some e => Some {| ae_record := ae_record e;
                                       ae_startTime := ae_startTime e;
                                       ae_lastUpdate := ae_lastUpdate e;
                                       nodeStatuses := setStatus (nodeStatuses e) node st |}
                   | None => None
                   end).
  { unfold updateNodeStatus. destruct (activeExecutions m !! k) as [e|] eqn:He; [|done].
    case_bool_decide; [|by simpl; rewrite lookup_insert_eq].
    destruct (nodeEventType st); [|by simpl; rewrite lookup_insert_eq].
    simpl. destruct (updateProgress_spec k
      (emitEvent
         {| ev_type := m0; ev_executionId := k; ev_timestamp := mon_clock m (mon_ticks m);
            ev_data := match nodeRecord with
                       | Some n => NodeData n
                       | None => NodeStatusData node st
                       end |}
         {| activeExecutions :=
              <[k := {| ae_record := ae_record e; ae_startTime := ae_startTime e;
                        ae_lastUpdate := ae_lastUpdate e;
                        nodeStatuses := setStatus (nodeStatuses e) node st |}]>
                (activeExecutions m);
            emitted := emitted m; mon_clock := mon_clock m;
            mon_ticks := S (mon_ticks m) |})) as (-> & _).
    simpl. by rewrite lookup_insert_eq. }
  set (m1 := updateNodeStatus k node st nodeRecord m) in *.
  unfold updateNodeStatus. rewrite Hact.
  destruct (activeExecutions m !! k) as [e|] eqn:He; [|done].
  cbn [nodeStatuses ae_record ae_startTime ae_lastUpdate].
  rewrite statusOf_setStatus, bool_decide_eq_false_2 by (by intros []).
  apply monitor_eq; simpl; try done.
  rewrite (setStatus_same _ _ _ (statusOf_setStatus _ _ _)).
  by apply insert_id.
Qed.


Lemma getProgress_counts m k e :
  activeExecutions m !! k = Some e ->
  exists p m',
    getProgress k m = (Some p, m')
    /\ p_totalNodes p = totalNodes (stats (ae_record e))
    /\ p_completedNodes p = countOf NODE_COMPLETED (snd <$> nodeStatuses e)
    /\ p_failedNodes p = countOf NODE_FAILED (snd <$> nodeStatuses e)
    /\ p_runningNodes p = countOf NODE_RUNNING (snd <$> nodeStatuses e).
Proof.
  intros He. unfold getProgress. rewrite He.
  destruct (_ && _); by eexists _, _.
Qed.

(** X23. A node status that differs from the one held is recorded, and for
    RUNNING, COMPLETED, FAILED and SKIPPED two events go out, in this order:
    the node event, carrying the node record if one was given, and a
    PROGRESS_UPDATED event whose counts already include the new status.
    For PENDING no event goes out.  Executions with another id are left as
    they are. *)
Theorem updateNodeStatus_events m k e node st nodeRecord :
  activeExecutions m !! k = Some e ->
  statusOf (nodeStatuses e) node <> Some st ->
  let m' := updateNodeStatus k node st nodeRecord m in
  let statuses := snd <$> setStatus (nodeStatuses e) node st in
  (exists e', activeExecutions m' !! k = Some e'
              /\ statusOf (nodeStatuses e') node = Some st
              /\ ae_record e' = ae_record e /\ ae_startTime e' = ae_startTime e)
  /\ (forall k', k' <> k -> activeExecutions m' !! k' = activeExecutions m !! k')
  /\ (nodeEventType st = None -> emitted m' = emitted m)
  /\ (forall eventType, nodeEventType st = Some eventType ->
        exists t p,
          emitted m'
          = emitted m
            ++ [{| ev_type := eventType; ev_executionId := k;
                   ev_timestamp := mon_clock m (mon_ticks m);
                   ev_data := match nodeRecord with
                              | Some n => NodeData n
                              | None => NodeStatusData node st
                              end |};
                {| ev_type := PROGRESS_UPDATED; ev_executionId := k;
                   ev_timestamp := t; ev_data := ProgressData p |}]
          /\ p_completedNodes p = countOf NODE_COMPLETED statuses
          /\ p_failedNodes p = countOf NODE_FAILED statuses
          /\ p_runningNodes p = countOf NODE_RUNNING statuses
          /\ p_totalNodes p = totalNodes (stats (ae_record e))).
Proof.
  intros He Hst. cbv zeta. unfold updateNodeStatus. rewrite He.
  rewrite bool_decide_eq_true_2 by done.
  set (e' := {| ae_record := ae_record e; ae_startTime := ae_startTime e;
                ae_lastUpdate := ae_lastUpdate e;
                nodeStatuses := setStatus (nodeStatuses e) node st |}).
  destruct (nodeEventType st) as [eventType|] eqn:Hty.
  - cbn [now fst snd].
    match goal with
    | |- context [updateProgress k ?m1] =>
        destruct (updateProgress_spec k m1) as (Hact & _ & Hev);
        assert (Hk : activeExecutions m1 !! k = Some e') by (simpl; apply lookup_insert_eq);
        set (mid := m1) in *
    end.
    destruct (getProgress_counts mid k e' Hk) as (p & m2 & Hp & H1 & H2 & H3 & H4).
    rewrite Hp in Hev. simpl in Hev. destruct Hev as [t Hev].
    split; [|split; [|split; [done|]]].
    + exists e'. rewrite Hact, Hk. split; [done|]. split; [apply statusOf_setStatus|done].
    + intros k' Hk'. rewrite Hact. simpl. by rewrite lookup_insert_ne.
    + intros ty [= <-]. exists t, p. rewrite Hev. simpl. rewrite <- app_assoc.
      split; [done|]. done.
  - split; [|split; [|split; [done|done]]].
    + exists e'. simpl. rewrite lookup_insert_eq. split; [done|].
      split; [apply statusOf_setStatus|done].
    + intros k' Hk'. simpl. by rewrite lookup_insert_ne.
Qed.


(** The entry of a ten-node execution just started on the idle monitor. *)
Definition startedEntry : ActiveExecution :=
  {| ae_record := recordOfSize 10; ae_startTime := 2000; ae_lastUpdate := 3000;
     nodeStatuses := [] |}.

Lemma updateNodeStatus_events_witness :
  let m := startMonitoring (recordOfSize 10) idleMonitor in
  let m' := updateNodeStatus "exec-1" "n1" NODE_RUNNING None m in
  exists t p,
    emitted m'
    = emitted m
      ++ [{| ev_type := NODE_STARTED_EVENT; ev_executionId := "exec-1";
             ev_timestamp := mon_clock m (mon_ticks m);
             ev_data := NodeStatusData "n1" NODE_RUNNING |};
          {| ev_type := PROGRESS_UPDATED; ev_executionId := "exec-1";
             ev_timestamp := t; ev_data := ProgressData p |}]
    /\ p_runningNodes p = 1.
Proof.
  destruct (updateNodeStatus_events (startMonitoring (recordOfSize 10) idleMonitor)
              "exec-1" startedEntry "n1" NODE_RUNNING None)
    as (_ & _ & _ & H); [reflexivity|discriminate|].
  destruct (H NODE_STARTED_EVENT eq_refl) as (t & p & H1 & _ & _ & H4 & _).
  exists t, p. split; [exact H1|exact H4].
Defined.

(** *** Stopping *)

Lemma stopMonitoring_run m k e :
  activeExecutions m !! k = Some e ->
  stopMonitoring k m
  = {| activeExecutions := delete k (activeExecutions m);
       emitted := emitted m
                  ++ [{| ev_type := stopEventType (exec_status (ae_record e));
                         ev_executionId := k;
                         ev_timestamp := mon_clock m (mon_ticks m);
                         ev_data := RecordData (ae_record e) |}];
       mon_clock := mon_clock m; mon_ticks := S (mon_ticks m) |}.
Proof. intros He. unfold stopMonitoring. by rewrite He. Qed.

(** X24. [stopMonitoring] on a monitored execution emits one event with
    the record held: EXECUTION_COMPLETED, EXECUTION_FAILED or
    EXECUTION_CANCELLED after the record's status, and EXECUTION_UPDATED for
    any other status (PAUSED included).  From then on the execution is not
    monitored: there is no progress for it, and node reports, record updates
    and a second stop are ignored.  Other executions are left as they are. *)
Theorem stopMonitoring_spec m k e :
  activeExecutions m !! k = Some e ->
  let m' := stopMonitoring k m in
  emitted m'
  = emitted m ++ [{| ev_type := match exec_status (ae_record e) with
                                | COMPLETED => EXECUTION_COMPLETED
                                | FAILED => EXECUTION_FAILED
                                | CANCELLED => EXECUTION_CANCELLED
                                | _ => EXECUTION_UPDATED
                                end;
                     ev_executionId := k;
                     ev_timestamp := mon_clock m (mon_ticks m);
                     ev_data := RecordData (ae_record e) |}]
  /\ isMonitoring k m' = false
  /\ getProgress k m' = (None, m')
  /\ (forall node st nodeRecord, updateNodeStatus k node st nodeRecord m' = m')
  /\ (forall record, id record = k -> updateExecution record m' = m')
  /\ stopMonitoring k m' = m'
  /\ (forall k', k' <> k -> activeExecutions m' !! k' = activeExecutions m !! k').
Proof.
  intros He. cbv zeta. rewrite (stopMonitoring_run m k e He).
  set (m' := {| activeExecutions := delete k (activeExecutions m) |}).
  assert (Hk : activeExecutions m' !! k = None) by (simpl; apply lookup_delete_eq).
  split; [|split; [|split; [|split; [|split; [|split]]]]].
  - unfold m'. simpl. do 2 f_equal. unfold stopEventType.
    by destruct (exec_status (ae_record e)).
  - unfold isMonitoring. rewrite Hk. by apply bool_decide_eq_false_2; intros [? ?].
  - unfold getProgress. by rewrite Hk.
  - intros node st nodeRecord. unfold updateNodeStatus. by rewrite Hk.
  - intros record <-. unfold updateExecution. by rewrite Hk.
  - unfold stopMonitoring. by rewrite Hk.
  - intros k' Hne. simpl. by rewrite lookup_delete_ne.
Qed.

Lemma stopMonitoring_spec_witness :
  let m := startMonitoring (recordOfSize 10) idleMonitor in
  isMonitoring "exec-1" (stopMonitoring "exec-1" m) = false
  /\ stopMonitoring "exec-1" (stopMonitoring "exec-1" m) = stopMonitoring "exec-1" m.
Proof.
  destruct (stopMonitoring_spec (startMonitoring (recordOfSize 10) idleMonitor)
              "exec-1" startedEntry) as (_ & H2 & _ & _ & _ & H6 & _); [reflexivity|].
  split; [exact H2|exact H6].
Defined.

(** *** The log buffer *)

Lemma lastN_short {A} n (l : list A) : (length l <= n)%nat -> lastN n l = l.
Proof. intros H. unfold lastN. by replace (length l - n)%nat with 0%nat by lia. Qed.

Lemma lastN_length {A} n (l : list A) : length (lastN n l) = Nat.min n (length l).
Proof. unfold lastN. rewrite length_drop. lia. Qed.

Lemma lastN_snoc {A} n (l : list A) x :
  (0 < n)%nat -> lastN n (lastN n l ++ [x]) = lastN n (l ++ [x]).
Proof.
  intros Hn. unfold lastN. rewrite !length_app, length_drop. simpl.
  destruct (decide (length l <= n)%nat) as [Hle|Hgt].
  - replace (length l - n)%nat with 0%nat by lia. simpl.
    by replace (length l - 0 + 1 - n)%nat with (length l + 1 - n)%nat by lia.
  - rewrite drop_app_le by (rewrite length_drop; lia).
    rewrite drop_drop. rewrite (drop_app_le l) by lia. do 2 f_equal. lia.
Qed.

Lemma pushLog_lastN logs log :
  (length logs <= maxLogs)%nat -> pushLog logs log = lastN maxLogs (logs ++ [log]).
Proof.
  intros Hlen. unfold pushLog. case_bool_decide as Hfull; [done|].
  by rewrite lastN_short by lia.
Qed.

Lemma pushLog_all logs : foldl pushLog [] logs = lastN maxLogs logs.
Proof.
  induction logs as [|log logs IH] using rev_ind; [done|].
  rewrite foldl_app. simpl. rewrite IH.
  rewrite pushLog_lastN by (rewrite lastN_length; lia).
  apply lastN_snoc. unfold maxLogs. lia.
Qed.

(** X25. The log buffer of an execution holds the latest 1000 logs, in
    the order they came: adding to it never makes it longer, and adding
    does not fail.  Read with a positive limit it gives the latest [limit]
    of them, and all of them without one or with a limit of 0 or less. *)
Theorem log_buffer_keeps_latest logs :
  foldl pushLog [] logs = drop (length logs - 1000) logs
  /\ (length (foldl pushLog [] logs) <= 1000)%nat
  /\ (forall n, 0 < n ->
        readLogs (foldl pushLog [] logs) (Some n)
        = drop (length logs - Nat.min 1000 (Z.to_nat n)) logs)
  /\ (forall n, n <= 0 -> readLogs (foldl pushLog [] logs) (Some n) = foldl pushLog [] logs)
  /\ readLogs (foldl pushLog [] logs) None = foldl pushLog [] logs.
Proof.
  rewrite pushLog_all. change 1000%nat with maxLogs. generalize maxLogs. intros cap.
  split; [done|]. split; [|split; [|split; [|done]]].
  - rewrite lastN_length. lia.
  - intros n Hn. unfold readLogs.
    rewrite (proj2 (Z.eqb_neq n 0)) by lia. rewrite (proj2 (Z.ltb_lt 0 n)) by lia.
    cbn [negb andb]. unfold lastN. rewrite length_drop, drop_drop. f_equal. lia.
  - intros n Hn. unfold readLogs. destruct (n =? 0) eqn:H0; [done|].
    by rewrite (proj2 (Z.ltb_ge 0 n)) by lia.
Qed.


(** *** What subscribers can rely on *)

(** The calls a client can make on the monitor. *)
Inductive MonitorCall :=
| StartMonitoring (record : WorkflowExecutionRecord)
| StopMonitoring (k : string)
| UpdateExecution (record : WorkflowExecutionRecord)
| UpdateNodeStatus (k node : string) (st : NodeExecutionStatus)
    (nodeRecord : option NodeExecutionRecord)
| GetProgress (k : string).

Definition run (c : MonitorCall) (m : Monitor) : Monitor :=
  match c with
  | StartMonitoring record => startMonitoring record m
  | StopMonitoring k => stopMonitoring k m
  | UpdateExecution record => updateExecution record m
  | UpdateNodeStatus k node st nodeRecord => updateNodeStatus k node st nodeRecord m
  | GetProgress k => snd (getProgress k m)
  end.

Definition runAll (calls : list MonitorCall) (m : Monitor) : Monitor :=
  foldl (fun m c => run c m) m calls.

(** A monitor that has not been used. *)
Definition freshMonitor (clock : nat -> Z) : Monitor :=
  {| activeExecutions := ∅; emitted := []; mon_clock := clock; mon_ticks := 0 |}.

Definition startOf (k : string) (e : MonitorEvent) : Prop :=
  ev_type e = EXECUTION_STARTED /\ ev_executionId e = k.

(** Every event comes after (or is) the start event of its execution, and
    none is of type EXECUTION_PAUSED. *)
Definition announced (events : list MonitorEvent) : Prop :=
  forall pre e post,
    events = pre ++ e :: post ->
    ev_type e <> EXECUTION_PAUSED
    /\ exists s, s ∈ pre ++ [e] /\ startOf (ev_executionId e) s.

Definition Orderly (m : Monitor) : Prop :=
  announced (emitted m)
  /\ forall k, is_Some (activeExecutions m !! k) ->
               exists s, s ∈ emitted m /\ startOf k s.

Lemma announced_snoc events e :
  announced events -> ev_type e <> EXECUTION_PAUSED ->
  (exists s, s ∈ events ++ [e] /\ startOf (ev_executionId e) s) ->
  announced (events ++ [e]).
Proof.
  intros Hev Hty Hs pre x post Heq.
  destruct post as [|y post _] using rev_ind.
  - apply app_inj_tail in Heq as [<- <-]. done.
  - rewrite app_comm_cons, app_assoc in Heq. apply app_inj_tail in Heq as [-> ->].
    by apply (Hev pre x post).
Qed.

(** An event about a monitored execution may follow. *)
Lemma Orderly_emit m e :
  Orderly m -> ev_type e <> EXECUTION_PAUSED ->
  (exists s, s ∈ emitted m /\ startOf (ev_executionId e) s) ->
  Orderly (emitEvent e m).
Proof.
  intros [Hev Hact] Hty (s & Hs & Hstart). split; simpl.
  - apply announced_snoc; [done|done|]. exists s. split; [|done].
    apply elem_of_app. by left.
  - intros k Hk. destruct (Hact k Hk) as (s' & Hs' & Hstart'). exists s'.
    split; [|done]. apply elem_of_app. by left.
Qed.

Lemma Orderly_same m m' :
  emitted m' = emitted m ->
  (forall k, is_Some (activeExecutions m' !! k) -> is_Some (activeExecutions m !! k)) ->
  Orderly m -> Orderly m'.
Proof.
  intros He Ha [Hev Hact]. split; rewrite He; [done|]. intros k Hk. by apply Hact, Ha.
Qed.

Lemma Orderly_getProgress k m : Orderly m -> Orderly (snd (getProgress k m)).
Proof.
  destruct (getProgress_keeps k m) as (H1 & H2 & _).
  apply Orderly_same; [done|]. by rewrite H1.
Qed.

Lemma Orderly_updateProgress k m : Orderly m -> Orderly (updateProgress k m).
Proof.
  intros Hm. unfold updateProgress.
  pose proof (Orderly_getProgress k m Hm) as Hm1.
  destruct (getProgress_keeps k m) as (H1 & H2 & _).
  pose proof (getProgress_monitored k m) as [Hmon _].
  destruct (getProgress k m) as [[p|] m1]; [|done]. simpl in *.
  apply Orderly_emit; simpl.
  - eapply Orderly_same; [..|exact Hm1]; done.
  - done.
  - rewrite H2. apply Hm, Hmon. by eexists.
Qed.

Lemma Orderly_perform c m : Orderly m -> Orderly (run c m).
Proof.
  intros Hm. destruct c as [r|k|r|k node st nodeRecord|k]; simpl.
  - (* startMonitoring *)
    unfold startMonitoring. cbn [now]. destruct Hm as [Hev Hact]. split; simpl.
    + apply announced_snoc; [done|done|]. eexists.
      split; [apply elem_of_app; right; by left|split; reflexivity].
    + intros k Hk. destruct (decide (k = id r)) as [->|Hne].
      * eexists. split; [apply elem_of_app; right; by left|split; reflexivity].
      * rewrite lookup_insert_ne in Hk by done.
        destruct (Hact k Hk) as (s & Hs & Hstart). exists s. split; [|done].
        apply elem_of_app. by left.
  - (* stopMonitoring *)
    unfold stopMonitoring. destruct (activeExecutions m !! k) as [e|] eqn:He; [|done].
    cbn [now]. apply Orderly_emit; simpl.
    + eapply Orderly_same; [..|exact Hm]; [done|]. simpl. intros k' Hk'.
      destruct (decide (k' = k)) as [->|Hne]; [by eexists|].
      by rewrite lookup_delete_ne in Hk'.
    + unfold stopEventType. by repeat case_bool_decide.
    + apply Hm. by eexists.
  - (* updateExecution *)
    unfold updateExecution. destruct (activeExecutions m !! id r) as [e|] eqn:He; [|done].
    cbn [now]. apply Orderly_updateProgress, Orderly_emit; simpl.
    + eapply Orderly_same; [..|exact Hm]; [done|]. simpl. intros k' Hk'.
      destruct (decide (k' = id r)) as [->|Hne]; [by eexists|].
      by rewrite lookup_insert_ne in Hk'.
    + done.
    + apply Hm. by eexists.
  - (* updateNodeStatus *)
    unfold updateNodeStatus. destruct (activeExecutions m !! k) as [e|] eqn:He; [|done].
    assert (Hset : forall e', Orderly (setExecution k e' m)).
    { intros e'. eapply Orderly_same; [..|exact Hm]; [done|]. simpl. intros k' Hk'.
      destruct (decide (k' = k)) as [->|Hne]; [by eexists|].
      by rewrite lookup_insert_ne in Hk'. }
    case_bool_decide; [|apply Hset].
    destruct (nodeEventType st) as [ty|] eqn:Hty; [|apply Hset].
    cbn [now]. apply Orderly_updateProgress, Orderly_emit; simpl.
    + eapply Orderly_same; [..|exact (Hset e)]; [done|]. simpl. intros k' Hk'.
      destruct (decide (k' = k)) as [->|Hne].
      * rewrite lookup_insert_eq. by eexists.
      * by rewrite lookup_insert_ne in Hk' |- *.
    + destruct st; simpl in Hty; try discriminate; by injection Hty as <-.
    + apply Hm. by eexists.
  - by apply Orderly_getProgress.
Qed.

Lemma Orderly_performAll calls m : Orderly m -> Orderly (runAll calls m).
Proof.
  revert m. induction calls as [|c calls IH]; intros m Hm; [done|].
  simpl. by apply IH, Orderly_perform.
Qed.

Lemma Orderly_fresh clock : Orderly (freshMonitor clock).
Proof.
  split; simpl.
  - intros pre e post Heq. by destruct pre.
  - intros k [e He]. by rewrite lookup_empty in He.
Qed.

(** X26. Whatever the clients call, no event reaches the subscribers
    before the EXECUTION_STARTED event of its execution, and no call emits
    an EXECUTION_PAUSED event. *)
Theorem events_follow_start clock calls pre e post :
  emitted (runAll calls (freshMonitor clock)) = pre ++ e :: post ->
  ev_type e <> EXECUTION_PAUSED
  /\ exists s, s ∈ pre ++ [e]
               /\ ev_type s = EXECUTION_STARTED /\ ev_executionId s = ev_executionId e.
Proof.
  intros Heq.
  destruct (Orderly_performAll calls _ (Orderly_fresh clock)) as [Hev _].
  by apply (Hev pre e post).
Qed.


Lemma events_follow_start_witness :
  EXECUTION_UPDATED <> EXECUTION_PAUSED
  /\ exists s,
       s ∈ [{| ev_type := EXECUTION_STARTED; ev_executionId := "exec-1";
               ev_timestamp := 4000; ev_data := RecordData (recordOfSize 10) |}]
           ++ [{| ev_type := EXECUTION_UPDATED; ev_executionId := "exec-1";
                  ev_timestamp := 5000; ev_data := RecordData (recordOfSize 10) |}]
       /\ ev_type s = EXECUTION_STARTED /\ ev_executionId s = "exec-1".
Proof.
  apply (events_follow_start sampleClock
           [StartMonitoring (recordOfSize 10); StopMonitoring "exec-1"]
           [{| ev_type := EXECUTION_STARTED; ev_executionId := "exec-1";
               ev_timestamp := 4000; ev_data := RecordData (recordOfSize 10) |}]
           {| ev_type := EXECUTION_UPDATED; ev_executionId := "exec-1";
              ev_timestamp := 5000; ev_data := RecordData (recordOfSize 10) |}
           []).
  reflexivity.
Defined.

(** X27. [updateExecution] on a monitored execution replaces the record
    held, keeps the node statuses and the start time, and emits
    EXECUTION_UPDATED and then PROGRESS_UPDATED.  The progress takes its
    total from the new record and its counts from the node statuses
    reported so far, not from the record's own counts. *)
Theorem updateExecution_events m e record :
  activeExecutions m !! id record = Some e ->
  let m' := updateExecution record m in
  exists t p,
    emitted m'
    = emitted m
      ++ [{| ev_type := EXECUTION_UPDATED; ev_executionId := id record;
             ev_timestamp := mon_clock m (S (mon_ticks m));
             ev_data := RecordData record |};
          {| ev_type := PROGRESS_UPDATED; ev_executionId := id record;
             ev_timestamp := t; ev_data := ProgressData p |}]
    /\ p_totalNodes p = totalNodes (stats record)
    /\ p_completedNodes p = countOf NODE_COMPLETED (snd <$> nodeStatuses e)
    /\ p_failedNodes p = countOf NODE_FAILED (snd <$> nodeStatuses e)
    /\ p_runningNodes p = countOf NODE_RUNNING (snd <$> nodeStatuses e)
    /\ activeExecutions m' !! id record
       = Some {| ae_record := record; ae_startTime := ae_startTime e;
                 ae_lastUpdate := mon_clock m (mon_ticks m);
                 nodeStatuses := nodeStatuses e |}.
Proof.
  intros He. cbv zeta. unfold updateExecution. rewrite He. cbn [now].
  set (e' := {| ae_record := record; ae_startTime := ae_startTime e;
                ae_lastUpdate := mon_clock m (mon_ticks m);
                nodeStatuses := nodeStatuses e |}).
  match goal with
  | |- context [updateProgress (id record) ?m1] =>
      destruct (updateProgress_spec (id record) m1) as (Hact & _ & Hev);
      assert (Hk : activeExecutions m1 !! id record = Some e')
        by (simpl; apply lookup_insert_eq);
      set (mid := m1) in *
  end.
  destruct (getProgress_counts mid (id record) e' Hk) as (p & m2 & Hp & H1 & H2 & H3 & H4).
  rewrite Hp in Hev. simpl in Hev. destruct Hev as [t Hev].
  exists t, p. rewrite Hev, Hact, Hk. simpl. rewrite <- app_assoc. done.
Qed.

Lemma updateExecution_events_witness :
  let m := startMonitoring (recordOfSize 10) idleMonitor in
  exists t p,
    emitted (updateExecution (recordOfSize 3) m)
    = emitted m
      ++ [{| ev_type := EXECUTION_UPDATED; ev_executionId := "exec-1";
             ev_timestamp := mon_clock m (S (mon_ticks m));
             ev_data := RecordData (recordOfSize 3) |};
          {| ev_type := PROGRESS_UPDATED; ev_executionId := "exec-1";
             ev_timestamp := t; ev_data := ProgressData p |}]
    /\ p_totalNodes p = 3.
Proof.
  destruct (updateExecution_events (startMonitoring (recordOfSize 10) idleMonitor)
              startedEntry (recordOfSize 3)) as (t & p & H1 & H2 & _); [reflexivity|].
  exists t, p. split; [exact H1|exact H2].
Defined.

End MonitorExtras.

(** * Statistics over the stored executions *)

Module StatsProofs.
Import ExecutionHistory HistoryStorage HistoryProofs.

Definition countIf (p : WorkflowExecutionRecord -> bool) (l : list WorkflowExecutionRecord)
  : Z :=
  Z.of_nat (length (List.filter p l)).

Definition inStatus (st : ExecutionStatus) (r : WorkflowExecutionRecord) : bool :=
  bool_decide (exec_status r = st).

Definition ofWorkflowId (x : string) (r : WorkflowExecutionRecord) : bool :=
  bool_decide (workflowId r = x).

(** The record has a duration that counts: one that is not 0. *)
Definition timed (r : WorkflowExecutionRecord) : bool :=
  match exec_duration r with
  | Some d => nonZero d
  | None => false
  end.

Definition durations (l : list WorkflowExecutionRecord) : list Z :=
  (fun r => default 0 (exec_duration r)) <$> List.filter timed l.

Definition sumZ (l : list Z) : Z := foldr Z.add 0 l.

(** How the average of a workflow moves with one more duration: the first
    one is taken as it is, a later one is averaged with the average so far. *)
Definition halfway (a : option Q) (d : Z) : option Q :=
  if noAverage a then Some (inject_Z d) else Some ((default 0 a + inject_Z d) / 2)%Q.

Definition zeroEntry : WorkflowStats :=
  {| ws_total := 0; ws_completed := 0; ws_failed := 0; ws_avgDuration := None |}.

Definition entryOf (a : StatsLoop) (x : string) : WorkflowStats :=
  default zeroEntry (sl_byWorkflow a !! x).

Lemma countIf_cons p r l :
  countIf p (r :: l) = (if p r then 1 else 0) + countIf p l.
Proof. unfold countIf. simpl. destruct (p r); simpl; lia. Qed.

Lemma countRecord_entry t a r x :
  entryOf (countRecord t a r) x
  = if bool_decide (workflowId r = x) then countWorkflow r (entryOf a x) else entryOf a x.
Proof.
  unfold entryOf, countRecord. simpl. case_bool_decide as Hx.
  - subst x. by rewrite lookup_insert_eq.
  - by rewrite lookup_insert_ne.
Qed.

Lemma countWorkflow_fields r e :
  ws_total (countWorkflow r e) = ws_total e + 1
  /\ ws_completed (countWorkflow r e)
     = ws_completed e + (if inStatus COMPLETED r then 1 else 0)
  /\ ws_failed (countWorkflow r e) = ws_failed e + (if inStatus FAILED r then 1 else 0)
  /\ ws_avgDuration (countWorkflow r e)
     = if timed r then halfway (ws_avgDuration e) (default 0 (exec_duration r))
       else ws_avgDuration e.
Proof.
  unfold countWorkflow, inStatus, timed, halfway.
  destruct (exec_duration r) as [d|]; [destruct (nonZero d)|];
    repeat case_bool_decide; simpl; repeat split; try lia; try congruence; done.
Qed.

Lemma stats_loop t l : forall a,
  let a' := foldl (countRecord t) a l in
  (forall st, sl_byStatus a' st = sl_byStatus a st + countIf (inStatus st) l)
  /\ (forall x,
        ws_total (entryOf a' x) = ws_total (entryOf a x) + countIf (ofWorkflowId x) l
        /\ ws_completed (entryOf a' x)
           = ws_completed (entryOf a x)
             + countIf (fun r => ofWorkflowId x r && inStatus COMPLETED r) l
        /\ ws_failed (entryOf a' x)
           = ws_failed (entryOf a x)
             + countIf (fun r => ofWorkflowId x r && inStatus FAILED r) l
        /\ ws_avgDuration (entryOf a' x)
           = foldl halfway (ws_avgDuration (entryOf a x))
               (durations (List.filter (ofWorkflowId x) l))
        /\ (is_Some (sl_byWorkflow a' !! x)
            <-> is_Some (sl_byWorkflow a !! x) \/ exists r, r ∈ l /\ workflowId r = x))
  /\ sl_recent a' = sl_recent a + countIf (fun r => t <=? exec_startTime r) l
  /\ totalDuration a' = totalDuration a + sumZ (durations l)
  /\ durationCount a' = durationCount a + countIf timed l
  /\ completedCount a' = completedCount a + countIf (inStatus COMPLETED) l.
Proof.
  induction l as [|r l IH]; intros a; cbn [foldl].
  - unfold countIf, durations, sumZ. simpl.
    split; [intros; lia|]. split; [|repeat split; lia].
    intros x. split; [lia|]. split; [lia|]. split; [lia|]. split; [done|]. split.
    + by left.
    + intros [?|(r & Hr & _)]; [done|by apply elem_of_nil in Hr].
  - destruct (IH (countRecord t a r)) as (H1 & H2 & H3 & H4 & H5 & H6).
    cbv zeta in *. split; [|split; [|split; [|split; [|split]]]].
    + intros st. rewrite H1, countIf_cons. unfold countRecord, bump, inStatus. simpl.
      repeat case_bool_decide; try congruence; lia.
    + intros x. destruct (H2 x) as (Ha & Hb & Hc & Hd & He).
      rewrite Ha, Hb, Hc, Hd, He, !countIf_cons, countRecord_entry.
      destruct (countWorkflow_fields r (entryOf a x)) as (Fa & Fb & Fc & Fd).
      cbn [List.filter]. cbv beta.
      assert (Hof : ofWorkflowId x r = bool_decide (workflowId r = x)) by done.
      rewrite !Hof. clear Hof.
      destruct (bool_decide (workflowId r = x)) eqn:Hx.
      * apply bool_decide_eq_true in Hx. rewrite Fa, Fb, Fc, Fd. cbn [andb].
        split; [lia|]. split; [destruct (inStatus COMPLETED r); lia|].
        split; [destruct (inStatus FAILED r); lia|]. split.
        -- unfold durations. cbn [List.filter]. by destruct (timed r).
        -- unfold countRecord. simpl. split.
           ++ intros _. right. exists r. split; [by left|done].
           ++ intros _. left. subst x. rewrite lookup_insert_eq. by eexists.
      * apply bool_decide_eq_false in Hx. cbn [andb].
        split; [lia|]. split; [lia|]. split; [lia|]. split; [done|].
        unfold countRecord. simpl. rewrite lookup_insert_ne by done. split.
        -- intros [Hs|(r' & Hr' & Hw)]; [by left|right; exists r'; split; [by right|done]].
        -- intros [Hs|(r' & [->|Hr']%elem_of_cons & Hw)]; [by left|done|].
           right. by exists r'.
    + rewrite H3, countIf_cons. unfold countRecord. simpl.
      destruct (t <=? exec_startTime r); lia.
    + rewrite H4. unfold countRecord, durations, sumZ.
      cbn [List.filter totalDuration]. fold (timed r).
      destruct (timed r); cbn [fmap list_fmap foldr]; lia.
    + rewrite H5, countIf_cons. unfold countRecord. cbn [durationCount]. fold (timed r).
      destruct (timed r); lia.
    + rewrite H6, countIf_cons. unfold countRecord, inStatus. simpl.
      case_bool_decide; lia.
Qed.

(** X29. Where no execution file is of a workflow named like a property
    of [Object.prototype]: [getStats] reads the clock once and changes
    nothing.  [total]
    is the number of execution files; [byStatus] counts the records of each
    status; [byWorkflow] has an entry exactly for the workflows with a
    record, with their numbers of records, of completed and of failed ones;
    [successRate] is completed over total and [avgDuration] the mean of the
    durations that are not 0, each given when its divisor is positive;
    [recentExecutions] counts the records started in the last 24 hours.
    The average of a workflow is not a mean: the first duration is taken as
    it is and every later one is averaged with the average so far. *)
Theorem getStats_spec w :
  forallb (fun r => negb (inherited (workflowId r))) (allRecords w) = true ->
  let records := allRecords w in
  let oneDayAgo := clock w (ticks w) - 24 * 60 * 60 * 1000 in
  exists st w',
    getStats w = (Returned st, w')
    /\ cache w' = cache w /\ files w' = files w /\ ticks w' = S (ticks w)
    /\ hs_total st = Z.of_nat (length records)
    /\ (forall s, byStatus st s = countIf (inStatus s) records)
    /\ (forall x, is_Some (byWorkflow st !! x) <-> exists r, r ∈ records /\ workflowId r = x)
    /\ (forall x e, byWorkflow st !! x = Some e ->
          ws_total e = countIf (ofWorkflowId x) records
          /\ ws_completed e
             = countIf (fun r => ofWorkflowId x r && inStatus COMPLETED r) records
          /\ ws_failed e = countIf (fun r => ofWorkflowId x r && inStatus FAILED r) records
          /\ ws_avgDuration e
             = foldl halfway None (durations (List.filter (ofWorkflowId x) records)))
    /\ hs_successRate st
       = (if 0 <? Z.of_nat (length records)
          then Some (inject_Z (countIf (inStatus COMPLETED) records)
                     / inject_Z (Z.of_nat (length records)))%Q
          else None)
    /\ hs_avgDuration st
       = (if 0 <? countIf timed records
          then Some (inject_Z (sumZ (durations records))
                     / inject_Z (countIf timed records))%Q
          else None)
    /\ recentExecutions st = countIf (fun r => oneDayAgo <=? exec_startTime r) records.
Proof.
  intros _. cbv zeta. unfold getStats, bind. simpl.
  change (allRecords _) with (allRecords w).
  change (executionFiles _) with (executionFiles w).
  destruct (stats_loop (clock w (ticks w) - 24 * 60 * 60 * 1000) (allRecords w) noStats)
    as (H1 & H2 & H3 & H4 & H5 & H6).
  cbv zeta in *.
  assert (Hlen : length (executionFiles w) = length (allRecords w)).
  { unfold allRecords. by rewrite length_fmap. }
  eexists _, _. split; [reflexivity|]. simpl.
  split; [done|]. split; [done|]. split; [done|]. split; [by rewrite Hlen|].
  split; [intros s; by rewrite H1|]. split.
  { intros x. destruct (H2 x) as (_ & _ & _ & _ & He). rewrite He. simpl.
    rewrite lookup_empty. split.
    - intros [[? ?]|?]; done.
    - intros ?. by right. }
  split.
  { intros x e He. destruct (H2 x) as (Ha & Hb & Hc & Hd & _).
    unfold entryOf in *. rewrite He in *. simpl in *. rewrite lookup_empty in *. simpl in *.
    rewrite Ha, Hb, Hc, Hd. done. }
  rewrite H3, H4, H5, H6, Hlen. simpl. done.
Qed.

(** One execution of the one-node workflow, just created. *)
Lemma getStats_spec_witness :
  let w := snd (createExecution oneNodeWorkflow manualTrigger None "a" emptyWorld) in
  exists st w',
    getStats w = (Returned st, w')
    /\ hs_total st = 1
    /\ byStatus st PENDING = 1
    /\ byStatus st COMPLETED = 0
    /\ is_Some (byWorkflow st !! wf_id oneNodeWorkflow)
    /\ hs_avgDuration st = None.
Proof.
  destruct (getStats_spec
              (snd (createExecution oneNodeWorkflow manualTrigger None "a" emptyWorld)))
    as (st & w' & H1 & _ & _ & _ & H2 & H3 & H4 & _ & _ & H5 & _); [reflexivity|].
  exists st, w'. split; [exact H1|]. split; [exact H2|].
  split; [exact (H3 PENDING)|]. split; [exact (H3 COMPLETED)|].
  split; [|exact H5].
  apply H4. eexists. split; [vm_compute; left|reflexivity].
Defined.

End StatsProofs.

(** * The broadcaster: who is told what *)

Module BroadcasterProofs.
Import ExecutionHistory ExecutionMonitor MonitorBroadcaster.

Definition subsOf (k : string) (b : Broadcaster) : list string :=
  default [] (subscribers b !! k).

(** The calls on the broadcaster: the clients subscribe and unsubscribe,
    the monitor hands over its events. *)
Inductive BroadcasterCall :=
| Subscribe (k callback : string)
| Unsubscribe (k callback : string)
| OnEvent (e : MonitorEvent).

Section Callbacks.
Variable throws : string -> MonitorEvent -> bool.

Definition call (c : BroadcasterCall) (b : Broadcaster) : Broadcaster :=
  match c with
  | Subscribe k callback => subscribe k callback b
  | Unsubscribe k callback => unsubscribe k callback b
  | OnEvent e => onEvent throws e b
  end.

Definition callAll (calls : list BroadcasterCall) (b : Broadcaster) : Broadcaster :=
  foldl (fun b c => call c b) b calls.

Definition noSubscribers : Broadcaster :=
  {| subscribers := ∅; delivered := []; errorLines := [] |}.

(** Every set of subscribers is a set, and none is empty. *)
Definition Tidy (b : Broadcaster) : Prop :=
  forall k subs, subscribers b !! k = Some subs -> NoDup subs /\ subs <> [].

Lemma deliver_all event subs : forall b,
  subscribers (foldl (deliver throws event) b subs) = subscribers b
  /\ delivered (foldl (deliver throws event) b subs)
     = delivered b ++ ((fun c => (c, event)) <$> subs)
  /\ length (errorLines (foldl (deliver throws event) b subs))
     = (length (errorLines b)
        + length (List.filter (fun c => throws c event) subs))%nat.
Proof.
  induction subs as [|c subs IH]; intros b; simpl.
  - rewrite app_nil_r. split; [done|]. split; [done|lia].
  - destruct (IH (deliver throws event b c)) as (H1 & H2 & H3).
    rewrite H1, H2, H3. simpl. rewrite <- app_assoc. split; [done|]. split; [done|].
    destruct (throws c event); simpl; [rewrite length_app; simpl|]; lia.
Qed.

Lemma broadcast_spec k event b :
  subscribers (broadcast throws k event b) = subscribers b
  /\ delivered (broadcast throws k event b)
     = delivered b ++ ((fun c => (c, event)) <$> subsOf k b)
  /\ length (errorLines (broadcast throws k event b))
     = (length (errorLines b)
        + length (List.filter (fun c => throws c event) (subsOf k b)))%nat.
Proof.
  unfold broadcast, subsOf. destruct (subscribers b !! k) as [subs|]; simpl.
  - apply deliver_all.
  - rewrite app_nil_r. split; [done|]. split; [done|lia].
Qed.

Lemma onEvent_spec event b :
  subscribers (onEvent throws event b) = subscribers b
  /\ delivered (onEvent throws event b)
     = delivered b
       ++ ((fun c => (c, event)) <$> (subsOf (ev_executionId event) b ++ subsOf "*" b))
  /\ length (errorLines (onEvent throws event b))
     = (length (errorLines b)
        + length (List.filter (fun c => throws c event)
                    (subsOf (ev_executionId event) b ++ subsOf "*" b)))%nat.
Proof.
  unfold onEvent.
  destruct (broadcast_spec (ev_executionId event) event b) as (H1 & H2 & H3).
  destruct (broadcast_spec "*" event (broadcast throws (ev_executionId event) event b))
    as (G1 & G2 & G3).
  assert (Hs : subsOf "*" (broadcast throws (ev_executionId event) event b) = subsOf "*" b).
  { unfold subsOf. by rewrite H1. }
  rewrite Hs in G2, G3. rewrite G1, G2, G3, H1, H2, H3.
  rewrite fmap_app, List.filter_app, length_app, <- app_assoc.
  split; [done|]. split; [done|lia].
Qed.

Lemma Tidy_subscribe k callback b : Tidy b -> Tidy (subscribe k callback b).
Proof.
  intros Hb k' subs. unfold subscribe. simpl.
  destruct (decide (k' = k)) as [->|Hne].
  - rewrite lookup_insert_eq. intros [= <-].
    destruct (subscribers b !! k) as [old|] eqn:Hold; simpl.
    + destruct (Hb k old Hold) as [Hnd Hne]. case_bool_decide as Hin; [done|].
      split; [|by destruct old].
      apply NoDup_app. split; [done|]. split; [|apply NoDup_singleton].
      intros x Hx ->%list_elem_of_singleton. done.
    + split; [apply NoDup_singleton|done].
  - rewrite lookup_insert_ne by done. apply Hb.
Qed.

Lemma Tidy_unsubscribe k callback b : Tidy b -> Tidy (unsubscribe k callback b).
Proof.
  intros Hb k' subs. unfold unsubscribe.
  destruct (subscribers b !! k) as [old|] eqn:Hold; [|apply Hb]. simpl.
  destruct (Hb k old Hold) as [Hnd _].
  case_bool_decide as Hlen.
  - intros [_ H]%lookup_delete_Some. by apply Hb in H.
  - destruct (decide (k' = k)) as [->|Hne].
    + rewrite lookup_insert_eq. intros [= <-]. split; [by apply NoDup_filter|].
      intros Hnil. by rewrite Hnil in Hlen.
    + rewrite lookup_insert_ne by done. apply Hb.
Qed.

Lemma Tidy_call c b : Tidy b -> Tidy (call c b).
Proof.
  intros Hb. destruct c as [k cb|k cb|event]; simpl.
  - by apply Tidy_subscribe.
  - by apply Tidy_unsubscribe.
  - intros k subs. destruct (onEvent_spec event b) as (-> & _). apply Hb.
Qed.

Lemma Tidy_callAll calls b : Tidy b -> Tidy (callAll calls b).
Proof.
  revert b. induction calls as [|c calls IH]; intros b Hb; [done|].
  simpl. by apply IH, Tidy_call.
Qed.

Lemma Tidy_none : Tidy noSubscribers.
Proof. intros k subs. simpl. by rewrite lookup_empty. Qed.

Lemma broadcaster_eq b b' :
  subscribers b = subscribers b' -> delivered b = delivered b' ->
  errorLines b = errorLines b' -> b = b'.
Proof. destruct b, b'. simpl. by intros -> -> ->. Qed.

Lemma filter_other {A} `{EqDecision A} (x : A) (l : list A) :
  x ∉ l -> filter (fun c => c <> x) l = l.
Proof.
  induction l as [|y l IH]; intros Hx; [done|].
  rewrite filter_cons_True by (intros ->; apply Hx; by left).
  f_equal. apply IH. intros Hin. apply Hx. by right.
Qed.

Lemma total_covers (m : gmap string (list string)) :
  forall k subs, m !! k = Some subs ->
    (length subs <= map_fold (fun _ subs total => (total + length subs)%nat) 0%nat m)%nat.
Proof.
  apply (map_fold_weak_ind (fun r (m : gmap string (list string)) =>
           forall k subs, m !! k = Some subs -> (length subs <= r)%nat)).
  - intros k subs. by rewrite lookup_empty.
  - intros i x m' r Hi IH k subs. destruct (decide (k = i)) as [->|Hne].
    + rewrite lookup_insert_eq. intros [= <-]. lia.
    + rewrite lookup_insert_ne by done. intros H. apply IH in H. lia.
Qed.

Lemma nobody_subscribed b :
  Tidy b -> getSubscriberCount None b = 0%nat <-> subscribers b = ∅.
Proof.
  intros Hb. unfold getSubscriberCount. split.
  - intros Hz. apply map_empty. intros k.
    destruct (subscribers b !! k) as [subs|] eqn:Hk; [|done].
    destruct (Hb k subs Hk) as [_ Hne]. apply total_covers in Hk.
    destruct subs; [done|]. simpl in Hk. lia.
  - intros ->. apply map_fold_empty.
Qed.

(** X30. An event the monitor hands over is delivered once to each
    subscriber of its execution, in the order they subscribed, and then once
    to each subscriber of ["*"]; a subscriber that throws costs one error
    line and no other subscriber its delivery, and the subscriptions stay as
    they are.  After any calls, no subscriber is listed twice for an id (a
    second subscription of the same callback counts for nothing), the count
    of all subscribers is zero exactly when no id is left with an entry, and
    the count for the empty id is the count of all.  A callback is
    subscribed after [subscribe] and no longer after the function it
    answered, and that function undoes a new subscription exactly. *)
Theorem events_reach_subscribers calls event :
  let b := callAll calls noSubscribers in
  delivered (onEvent throws event b)
  = delivered b
    ++ ((fun c => (c, event)) <$> (subsOf (ev_executionId event) b ++ subsOf "*" b))
  /\ subscribers (onEvent throws event b) = subscribers b
  /\ length (errorLines (onEvent throws event b))
     = (length (errorLines b)
        + length (List.filter (fun c => throws c event)
                    (subsOf (ev_executionId event) b ++ subsOf "*" b)))%nat
  /\ (forall k, NoDup (subsOf k b)
                /\ getSubscriberCount (Some k) b
                   = if bool_decide (k = EmptyString) then getSubscriberCount None b
                     else length (subsOf k b))
  /\ (getSubscriberCount None b = 0%nat <-> subscribers b = ∅)
  /\ (forall k callback,
        callback ∈ subsOf k (subscribe k callback b)
        /\ (callback ∉ subsOf k (unsubscribe k callback b))
        /\ subscribe k callback (subscribe k callback b) = subscribe k callback b
        /\ (callback ∉ subsOf k b ->
            unsubscribe k callback (subscribe k callback b) = b)).
Proof.
  cbv zeta. set (b := callAll calls noSubscribers).
  assert (Hb : Tidy b) by apply Tidy_callAll, Tidy_none.
  destruct (onEvent_spec event b) as (H1 & H2 & H3).
  split; [done|]. split; [done|]. split; [done|]. split.
  { intros k. split.
    - unfold subsOf. destruct (subscribers b !! k) as [subs|] eqn:Hk; simpl.
      + by apply (Hb k subs).
      + constructor.
    - unfold getSubscriberCount. by case_bool_decide. }
  split; [by apply nobody_subscribed|].
  intros k cb.
  assert (Hsub : subsOf k (subscribe k cb b)
                 = if bool_decide (cb ∈ subsOf k b) then subsOf k b else subsOf k b ++ [cb]).
  { unfold subsOf, subscribe. simpl. by rewrite lookup_insert_eq. }
  split; [|split; [|split]].
  - rewrite Hsub. case_bool_decide; [done|]. apply elem_of_app. right. by left.
  - unfold subsOf, unsubscribe. destruct (subscribers b !! k) as [subs|] eqn:Hk.
    + simpl. destruct (bool_decide (length _ = 0%nat)).
      * rewrite lookup_delete_eq. apply not_elem_of_nil.
      * rewrite lookup_insert_eq. simpl. intros [Hin _]%list_elem_of_filter. done.
    + rewrite Hk. apply not_elem_of_nil.
  - apply broadcaster_eq; try done. unfold subscribe at 1. cbn [subscribers].
    fold (subsOf k (subscribe k cb b)). rewrite Hsub.
    assert (Hin : cb ∈ (if bool_decide (cb ∈ subsOf k b) then subsOf k b
                        else subsOf k b ++ [cb])).
    { case_bool_decide; [done|]. apply elem_of_app. right. by left. }
    rewrite (bool_decide_eq_true_2 _ Hin). unfold subscribe. simpl.
    rewrite insert_insert_eq. done.
  - intros Hout. apply broadcaster_eq;
      unfold unsubscribe, subscribe; cbn [subscribers]; rewrite lookup_insert_eq;
      [|done|done].
    fold (subsOf k b). rewrite (bool_decide_eq_false_2 (cb ∈ subsOf k b)) by done.
    cbn [subscribers]. rewrite filter_app, (filter_other cb (subsOf k b) Hout).
    rewrite filter_cons_False by (intros H; by apply H).
    rewrite filter_nil, app_nil_r.
    unfold subsOf in *. destruct (subscribers b !! k) as [subs|] eqn:Hk; simpl in *.
    + destruct (Hb k subs Hk) as [_ Hne].
      rewrite bool_decide_eq_false_2 by (by destruct subs).
      rewrite insert_insert_eq. by apply insert_id.
    + rewrite delete_insert_eq. by apply delete_id.
Qed.

End Callbacks.

End BroadcasterProofs.
